(** * Hybrid flow-shop scheduling: simulation engine and genetic optimizer

    A shallow embedding of the scheduling core of the hybrid flow-shop
    applet: the event queue ([PriorityQueue.ts]), the discrete-event
    simulation ([simulationCore.ts]: [initializeState],
    [tryAssignStage1Jobs], [tryAssignStage2Jobs], [processEvent],
    [runSimulation]) and the genetic algorithm worker ([gaWorker.ts]).

    Conventions of the embedding.
    - JavaScript numbers that carry times, durations, ids and families are
      integers ([Z], minutes); the weight and the rates of the optimizer
      are rationals ([Q]).
    - A value read from an array position, or an optional field, is
      [option]: [None] is [undefined] (or [null] where the source says
      [null]).
    - Objects mutated in place (machines, kits) live in the state; a
      machine reference is its index in [machines], a kit reference its
      key in [setupKits].
    - A JavaScript exception is the [Thrown] case of [Outcome].
    - [Math.random()] reads the next number of a stream that the state of
      the worker carries; the state also counts the calls of
      [runSimulation] and keeps the progress reports. *)

From Stdlib Require Import ZArith QArith Qround Qminmax Qpower Qabs Lqa Lia.
From stdpp Require Import base option list sorting gmap strings pretty.

Set Default Proof Using "Type".
Local Open Scope Z_scope.

(** ** Values *)

(** An entry of a job sequence: a number, or [undefined]. *)
Abbreviation JsNum := (option Z).

(** What ends a computation without a result: an exception, or
    ([Unfinished]) a loop of the source that is still running when the
    steps the embedding counts for it are used up. *)
Inductive JsError := TypeError | CancelError | Unfinished.

Inductive Outcome (A : Type) : Type :=
  | Returned (a : A)
  | Thrown (e : JsError).
Arguments Returned {A} a.
Arguments Thrown {A} e.

#[global] Instance Outcome_ret : MRet Outcome := λ A a, Returned a.
#[global] Instance Outcome_bind : MBind Outcome := λ A B f m,
  match m with
  | Returned a => f a
  | Thrown e => Thrown e
  end.

(** Comparisons of rationals, as the tests of the source. *)
#[global] Instance Qlt_decision (x y : Q) : Decision (x < y)%Q :=
  match Qlt_le_dec x y with
  | left H => left H
  | right H => right (Qle_not_lt _ _ H)
  end.
#[global] Instance Qle_decision (x y : Q) : Decision (x <= y)%Q :=
  match Qlt_le_dec y x with
  | left H => right (Qlt_not_le _ _ H)
  | right H => left H
  end.
#[global] Instance Qeq_decision (x y : Q) : Decision (x == y)%Q := Qeq_dec x y.

(** [Math.max(a, b, c)]. *)
Definition max3 (a b c : Z) : Z := Z.max (Z.max a b) c.

(** ** Data model ([types/index.ts]) *)

Inductive Stage := Stage1 | Stage2.

#[global] Instance Stage_eq_dec : EqDecision Stage.
Proof. solve_decision. Defined.

Module Job.
Record t := mk {
    id : Z;
    dueDate : Z;
    family : Z;
    t_smd : Z;
    t_aoi : Z }.
End Job.

Module Machine.
Record t := mk {
    id : Z;
    stage : Stage;
    currentSetupKit : option Z;
    availableAt : Z;
    currentJob : option JsNum }.
End Machine.

Module SetupKit.
Record t := mk {
    family : Z;
    currentMachine : option Z;
    inTransit : bool;
    availableAt : Z }.
End SetupKit.

Inductive SetupType := setup_none | setup_minor | setup_major | setup_aoi.

#[global] Instance SetupType_eq_dec : EqDecision SetupType.
Proof. solve_decision. Defined.

Module ScheduledJob.
Record t := mk {
    jobId : JsNum;
    machineId : Z;
    stage : Stage;
    startTime : Z;
    endTime : Z;
    setupTime : Z;
    setupType : SetupType;
    setupStartTime : option Z;
    processingTime : Z;
    family : Z;
    isLate : bool;
    tardiness : Z }.
End ScheduledJob.

Module Schedule.
Record t := mk {
    jobs : list ScheduledJob.t;
    makespan : Z;
    totalTardiness : Z;
    averageTardiness : Q;
    setupCount : nat;
    minorSetupCount : nat;
    majorSetupCount : nat;
    aoiSetupCount : nat;
    utilization_stage1 : Q;
    utilization_stage2 : Q }.
End Schedule.

Inductive EventType :=
  | SETUP_START | SETUP_END | JOB_START | JOB_END
  | STAGE1_COMPLETE | SIMULATION_END.

#[global] Instance EventType_eq_dec : EqDecision EventType.
Proof. solve_decision. Defined.

Module SimulationEvent.
Record t := mk {
    type : EventType;
    time : Z;
    jobId : JsNum;
    machineId : option Z;
    stage : option Stage;
    setupKit : option Z }.
End SimulationEvent.

(** ** Event queue ([utils/PriorityQueue.ts]) *)

Module PriorityQueue.
Section queue.
Context {T : Type} (time : T → Z).

  (** [items.sort((a, b) => a.time - b.time)]: [Array.prototype.sort] is a
      stable sort, so the result is determined by the comparator; it is
      computed here by stable insertion. *)
Fixpoint insertByTime (x : T) (l : list T) : list T :=
    match l with
    | [] => [x]
    | y :: l' => if decide (time x ≤ time y) then x :: y :: l'
                 else y :: insertByTime x l'
    end.

Definition sortByTime (l : list T) : list T := foldr insertByTime [] l.

  (** The queue is its [items] array; a fresh queue is [[]]. *)
Definition empty : list T := [].

Definition push (item : T) (items : list T) : list T :=
    sortByTime (items ++ [item]).

  (** [items.shift()]: the removed head (or [undefined]) and the rest. *)
Definition pop (items : list T) : option T * list T :=
    match items with
    | [] => (None, [])
    | x :: rest => (Some x, rest)
    end.

Definition peek (items : list T) : option T := head items.

Definition isEmpty (items : list T) : bool := bool_decide (length items = 0%nat).

Definition size (items : list T) : nat := length items.

Fixpoint pushAll (evs : list T) (items : list T) : list T :=
    match evs with
    | [] => items
    | e :: evs' => pushAll evs' (push e items)
    end.
End queue.
End PriorityQueue.

Abbreviation EventQueue := (list SimulationEvent.t).
Abbreviation pushEvent := (PriorityQueue.push SimulationEvent.time).
Abbreviation popEvent := (@PriorityQueue.pop SimulationEvent.t).

(** ** Simulation core ([utils/simulationCore.ts]) *)

Definition SETUP_TIME_SMD_MINOR : Z := 20.
Definition SETUP_TIME_SMD_MAJOR : Z := 65.
Definition SETUP_TIME_AOI : Z := 25.
Definition STAGE1_MACHINES : nat := 4.
Definition STAGE2_MACHINES : nat := 5.

Record SimulationState := mkState {
  currentTime : Z;
  machines : list Machine.t;
  setupKits : gmap Z SetupKit.t;
  stage1Queue : list JsNum;
  stage2Queue : list JsNum;
  completedJobs : list ScheduledJob.t;
  jobsMap : gmap Z Job.t }.

(** [map.get(key)] for a key read from a queue: [undefined] is no key of a
    map whose keys are numbers. *)
Definition mapGet {A} (m : gmap Z A) (key : JsNum) : option A :=
  match key with
  | Some k => m !! k
  | None => None
  end.

(** [new Map(jobs.map((j) => [j.id, j]))]: a later entry replaces an
    earlier one with the same id. *)
Definition buildJobsMap (jobs : list Job.t) : gmap Z Job.t :=
  foldl (λ m j, <[Job.id j := j]> m) ∅ jobs.

(** One kit per distinct family of [jobs], bound to no machine. *)
Definition buildSetupKits (jobs : list Job.t) : gmap Z SetupKit.t :=
  foldl (λ m j,
           match m !! Job.family j with
           | Some _ => m
           | None => <[Job.family j :=
                        SetupKit.mk (Job.family j) None false 0]> m
           end) ∅ jobs.

Definition newMachine (stage : Stage) (id : Z) : Machine.t :=
  Machine.mk id stage None 0 None.

Definition initialMachines : list Machine.t :=
  map (λ i : nat, newMachine Stage1 (Z.of_nat i)) (seq 1 STAGE1_MACHINES) ++
  map (λ i : nat, newMachine Stage2 (Z.of_nat STAGE1_MACHINES + Z.of_nat i))
      (seq 1 STAGE2_MACHINES).

Definition initializeState (jobs : list Job.t) (jobSequence : list JsNum)
  : SimulationState :=
  {| currentTime := 0;
     machines := initialMachines;
     setupKits := buildSetupKits jobs;
     stage1Queue := jobSequence;
     stage2Queue := [];
     completedJobs := [];
     jobsMap := buildJobsMap jobs |}.

(** [state.machines.filter((m) => m.stage === s)]: the machines of a
    stage, each with its position in [state.machines] (the filtered array
    holds references to the same objects). *)
Definition machinesOfStage (s : Stage) (ms : list Machine.t)
  : list (nat * Machine.t) :=
  filter (λ im, Machine.stage im.2 = s) (imap (λ i m, (i, m)) ms).

(** [state.machines.find((m) => m.id === id)]: position of the first
    machine with that id. *)
Definition findMachine (id : option Z) (ms : list Machine.t) : option nat :=
  fst <$> list_find (λ m, Some (Machine.id m) = id) ms.

(** *** Stage 1 *)

(** The branch taken for one machine in the candidate loop: [Some d] is a
    setup of duration [d]; [None] is the [continue] that skips the
    machine. *)
Definition stage1Setup (job : Job.t) (kit : SetupKit.t) (machine : Machine.t)
  : option Z :=
  if decide (Machine.currentSetupKit machine = Some (Job.family job)) then
    Some SETUP_TIME_SMD_MINOR
  else if decide (SetupKit.currentMachine kit ≠ None ∧
                  SetupKit.currentMachine kit ≠ Some (Machine.id machine)) then
    None
  else
    Some SETUP_TIME_SMD_MAJOR.

(** The loop variables [bestMachine], [bestStartTime] ([None] is
    [Infinity]), [setupRequired], [bestSetupTime]. *)
Record Best := mkBest {
  bestMachine : option (nat * Machine.t);
  bestStartTime : option Z;
  setupRequired : bool;
  bestSetupTime : Z }.

Definition noBest : Best := mkBest None None false 0.

(** [jobStartTime < bestStartTime]. *)
Definition earlier (t : Z) (best : option Z) : bool :=
  match best with
  | None => true
  | Some b => bool_decide (t < b)
  end.

Definition candidateStart (now : Z) (kit : SetupKit.t) (machine : Machine.t)
    (setupTime : Z) : Z :=
  max3 now (Machine.availableAt machine) (SetupKit.availableAt kit) + setupTime.

(** Body of [for (const machine of stage1Machines)]. *)
Definition considerMachine (now : Z) (job : Job.t) (kit : SetupKit.t)
    (best : Best) (im : nat * Machine.t) : Best :=
  match stage1Setup job kit im.2 with
  | None => best
  | Some setupTime =>
      let jobStartTime := candidateStart now kit im.2 setupTime in
      if earlier jobStartTime (bestStartTime best) then
        mkBest (Some im) (Some jobStartTime) true setupTime
      else best
  end.

Definition chooseStage1Machine (now : Z) (job : Job.t) (kit : SetupKit.t)
    (ms : list Machine.t) : Best :=
  foldl (considerMachine now job kit) noBest (machinesOfStage Stage1 ms).

Definition setMachineBusy (jobId : JsNum) (jobEndTime : Z) (m : Machine.t)
  : Machine.t :=
  Machine.mk (Machine.id m) (Machine.stage m) (Machine.currentSetupKit m)
             jobEndTime (Some jobId).

Definition setMachineKit (k : option Z) (m : Machine.t) : Machine.t :=
  Machine.mk (Machine.id m) (Machine.stage m) k
             (Machine.availableAt m) (Machine.currentJob m).

Definition clearCurrentJob (m : Machine.t) : Machine.t :=
  Machine.mk (Machine.id m) (Machine.stage m) (Machine.currentSetupKit m)
             (Machine.availableAt m) None.

(** [if (kit.currentMachine !== null && kit.currentMachine !== bestMachine.id)]:
    take the kit off the machine it is bound to. *)
Definition removeKitFromOldMachine (kit : SetupKit.t) (bestId : Z)
    (ms : list Machine.t) : list Machine.t :=
  if decide (SetupKit.currentMachine kit ≠ None ∧
             SetupKit.currentMachine kit ≠ Some bestId) then
    match findMachine (SetupKit.currentMachine kit) ms with
    | Some old => alter (setMachineKit None) old ms
    | None => ms
    end
  else ms.

(** The assignment made once the candidate loop has found [bestMachine]. *)
Definition assignStage1 (jobId : JsNum) (job : Job.t) (kit : SetupKit.t)
    (best : Best) (i : nat) (machine : Machine.t)
    (state : SimulationState) (eventQueue : EventQueue)
  : SimulationState * EventQueue :=
  let setupStartTime :=
    if setupRequired best then
      max3 (currentTime state) (Machine.availableAt machine)
           (SetupKit.availableAt kit)
    else Z.max (currentTime state) (Machine.availableAt machine) in
  let jobStartTime :=
    if setupRequired best then setupStartTime + bestSetupTime best
    else setupStartTime in
  let jobEndTime := jobStartTime + Job.t_smd job in
  let ms1 := alter (setMachineBusy jobId jobEndTime) i (machines state) in
  let ms2 := removeKitFromOldMachine kit (Machine.id machine) ms1 in
  let kit' := SetupKit.mk (SetupKit.family kit) (Some (Machine.id machine))
                          (SetupKit.inTransit kit) jobEndTime in
  let ms3 := alter (setMachineKit (Some (Job.family job))) i ms2 in
  let event := SimulationEvent.mk STAGE1_COMPLETE jobEndTime jobId
                 (Some (Machine.id machine)) (Some Stage1) None in
  let record :=
    ScheduledJob.mk jobId (Machine.id machine) Stage1 jobStartTime jobEndTime
      (if setupRequired best then bestSetupTime best else 0)
      (if setupRequired best then
         if decide (bestSetupTime best = SETUP_TIME_SMD_MAJOR)
         then setup_major else setup_minor
       else setup_none)
      (if setupRequired best then Some setupStartTime else None)
      (Job.t_smd job) (Job.family job) false 0 in
  ({| currentTime := currentTime state;
      machines := ms3;
      setupKits := <[Job.family job := kit']> (setupKits state);
      stage1Queue := tail (stage1Queue state);
      stage2Queue := stage2Queue state;
      completedJobs := completedJobs state ++ [record];
      jobsMap := jobsMap state |},
   pushEvent event eventQueue).

(** One pass through the body of the [while] loop of
    [tryAssignStage1Jobs]. [Some] is a pass that ends with
    [assigned = true]; [None] is a pass after which the loop stops (empty
    queue, [continue] with [assigned = false], or [break]) and that
    changes nothing. *)
Definition stage1Pass (state : SimulationState) (eventQueue : EventQueue)
  : option (SimulationState * EventQueue) :=
  match stage1Queue state with
  | [] => None
  | jobId :: _ =>
      match mapGet (jobsMap state) jobId with
      | None => None
      | Some job =>
          match setupKits state !! Job.family job with
          | None => None
          | Some kit =>
              let best := chooseStage1Machine (currentTime state) job kit
                                              (machines state) in
              match bestMachine best with
              | Some (i, machine) =>
                  Some (assignStage1 jobId job kit best i machine
                                     state eventQueue)
              | None => None
              end
          end
      end
  end.

(** [while (assigned && state.stage1Queue.length > 0)]: every pass that
    continues the loop removes the head of the queue, so the queue length
    bounds the number of passes. *)
Fixpoint stage1Loop (passes : nat) (state : SimulationState)
    (eventQueue : EventQueue) : SimulationState * EventQueue :=
  match passes with
  | O => (state, eventQueue)
  | S n =>
      match stage1Pass state eventQueue with
      | Some (state', eventQueue') => stage1Loop n state' eventQueue'
      | None => (state, eventQueue)
      end
  end.

Definition tryAssignStage1Jobs (state : SimulationState)
    (eventQueue : EventQueue) : SimulationState * EventQueue :=
  stage1Loop (length (stage1Queue state)) state eventQueue.

(** *** Stage 2 *)

(** [array.reduce((best, current) => f(best, current))] without an initial
    value: a [TypeError] on the empty array. *)
Definition reduce {A} (f : A → A → A) (l : list A) : Outcome A :=
  match l with
  | [] => Thrown TypeError
  | x :: l' => Returned (foldl f x l')
  end.

(** [(best, current) => current.availableAt < best.availableAt ? current : best]. *)
Definition earlierAvailable (best current : nat * Machine.t)
  : nat * Machine.t :=
  if decide (Machine.availableAt current.2 < Machine.availableAt best.2)
  then current else best.

(** [state.completedJobs.find((sj) => sj.jobId === jobId && sj.stage === 1)]. *)
Definition findStage1Job (jobId : JsNum) (done : list ScheduledJob.t)
  : option ScheduledJob.t :=
  snd <$> list_find (λ sj, ScheduledJob.jobId sj = jobId ∧
                           ScheduledJob.stage sj = Stage1) done.

Definition assignStage2 (jobId : JsNum) (job : Job.t) (i : nat)
    (machine : Machine.t) (stage1Job : ScheduledJob.t)
    (state : SimulationState) (eventQueue : EventQueue)
  : SimulationState * EventQueue :=
  let setupStartTime :=
    max3 (ScheduledJob.endTime stage1Job) (Machine.availableAt machine)
         (currentTime state) in
  let jobStartTime := setupStartTime + SETUP_TIME_AOI in
  let jobEndTime := jobStartTime + Job.t_aoi job in
  let event := SimulationEvent.mk SIMULATION_END jobEndTime jobId
                 (Some (Machine.id machine)) (Some Stage2) None in
  let tardiness := Z.max 0 (jobEndTime - Job.dueDate job) in
  let record :=
    ScheduledJob.mk jobId (Machine.id machine) Stage2 jobStartTime jobEndTime
      SETUP_TIME_AOI setup_aoi (Some setupStartTime) (Job.t_aoi job)
      (Job.family job) (bool_decide (0 < tardiness)) tardiness in
  ({| currentTime := currentTime state;
      machines := alter (setMachineBusy jobId jobEndTime) i (machines state);
      setupKits := setupKits state;
      stage1Queue := stage1Queue state;
      stage2Queue := tail (stage2Queue state);
      completedJobs := completedJobs state ++ [record];
      jobsMap := jobsMap state |},
   pushEvent event eventQueue).

(** One pass through the body of the [while] loop of
    [tryAssignStage2Jobs]; [Returned None] is a pass after which the loop
    stops. *)
Definition stage2Pass (state : SimulationState) (eventQueue : EventQueue)
  : Outcome (option (SimulationState * EventQueue)) :=
  match stage2Queue state with
  | [] => Returned None
  | jobId :: _ =>
      match mapGet (jobsMap state) jobId with
      | None => Returned None
      | Some job =>
          '(i, machine) ← reduce earlierAvailable
                                 (machinesOfStage Stage2 (machines state));
          match findStage1Job jobId (completedJobs state) with
          | None => Returned None
          | Some stage1Job =>
              Returned (Some (assignStage2 jobId job i machine stage1Job
                                           state eventQueue))
          end
      end
  end.

Fixpoint stage2Loop (passes : nat) (state : SimulationState)
    (eventQueue : EventQueue) : Outcome (SimulationState * EventQueue) :=
  match passes with
  | O => Returned (state, eventQueue)
  | S n =>
      r ← stage2Pass state eventQueue;
      match r with
      | Some (state', eventQueue') => stage2Loop n state' eventQueue'
      | None => Returned (state, eventQueue)
      end
  end.

Definition tryAssignStage2Jobs (state : SimulationState)
    (eventQueue : EventQueue) : Outcome (SimulationState * EventQueue) :=
  stage2Loop (length (stage2Queue state)) state eventQueue.

(** *** Events and the main loop *)

Definition setCurrentTime (t : Z) (state : SimulationState) : SimulationState :=
  {| currentTime := t;
     machines := machines state;
     setupKits := setupKits state;
     stage1Queue := stage1Queue state;
     stage2Queue := stage2Queue state;
     completedJobs := completedJobs state;
     jobsMap := jobsMap state |}.

(** [machine = state.machines.find(...); if (machine) machine.currentJob = null]. *)
Definition releaseMachine (machineId : option Z) (state : SimulationState)
  : SimulationState :=
  {| currentTime := currentTime state;
     machines :=
       match findMachine machineId (machines state) with
       | Some i => alter clearCurrentJob i (machines state)
       | None => machines state
       end;
     setupKits := setupKits state;
     stage1Queue := stage1Queue state;
     stage2Queue := stage2Queue state;
     completedJobs := completedJobs state;
     jobsMap := jobsMap state |}.

Definition enqueueStage2 (jobId : JsNum) (state : SimulationState)
  : SimulationState :=
  {| currentTime := currentTime state;
     machines := machines state;
     setupKits := setupKits state;
     stage1Queue := stage1Queue state;
     stage2Queue := stage2Queue state ++ [jobId];
     completedJobs := completedJobs state;
     jobsMap := jobsMap state |}.

Definition processEvent (event : SimulationEvent.t) (state : SimulationState)
    (eventQueue : EventQueue) : Outcome (SimulationState * EventQueue) :=
  let state := setCurrentTime (SimulationEvent.time event) state in
  match SimulationEvent.type event with
  | STAGE1_COMPLETE =>
      let state := releaseMachine (SimulationEvent.machineId event) state in
      let state := enqueueStage2 (SimulationEvent.jobId event) state in
      tryAssignStage2Jobs state eventQueue
  | SIMULATION_END =>
      Returned (releaseMachine (SimulationEvent.machineId event) state,
                eventQueue)
  | _ => Returned (state, eventQueue)
  end.

Definition maxIterations : nat := Z.to_nat 10000.

(** [while (!eventQueue.isEmpty() && iterations < maxIterations)]: [budget]
    is [maxIterations - iterations]. The boolean of the result is
    [iterations >= maxIterations], the condition of the
    [console.warn] after the loop. *)
Fixpoint eventLoop (budget : nat) (state : SimulationState)
    (eventQueue : EventQueue)
  : Outcome (SimulationState * EventQueue * bool) :=
  match budget with
  | O => Returned (state, eventQueue, true)
  | S n =>
      match popEvent eventQueue with
      | (None, _) => Returned (state, eventQueue, false)
      | (Some event, eventQueue) =>
          '(state, eventQueue) ← processEvent event state eventQueue;
          let '(state, eventQueue) := tryAssignStage1Jobs state eventQueue in
          eventLoop n state eventQueue
      end
  end.

(** [Math.max(...values, 0)]. *)
Definition maxWithZero (values : list Z) : Z := foldr Z.max 0 values.

Definition sumZ (values : list Z) : Z := foldr Z.add 0 values.

Definition ofStage (s : Stage) (l : list ScheduledJob.t) : list ScheduledJob.t :=
  filter (λ sj, ScheduledJob.stage sj = s) l.

Definition busyTime (sj : ScheduledJob.t) : Z :=
  ScheduledJob.processingTime sj + ScheduledJob.setupTime sj.

(** "Build final schedule". *)
Definition buildSchedule (done : list ScheduledJob.t) : Schedule.t :=
  let makespan := maxWithZero (ScheduledJob.endTime <$> done) in
  let stage2Jobs := ofStage Stage2 done in
  let totalTardiness := sumZ (ScheduledJob.tardiness <$> stage2Jobs) in
  let averageTardiness :=
    if decide (0 < length stage2Jobs)%nat
    then (inject_Z totalTardiness / inject_Z (Z.of_nat (length stage2Jobs)))%Q
    else 0%Q in
  let stage1TotalProcessing := sumZ (busyTime <$> ofStage Stage1 done) in
  let stage2TotalProcessing := sumZ (busyTime <$> ofStage Stage2 done) in
  let utilization (total : Z) (count : nat) : Q :=
    if decide (0 < makespan)
    then (inject_Z total / inject_Z (makespan * Z.of_nat count))%Q
    else 0%Q in
  {| Schedule.jobs := done;
     Schedule.makespan := makespan;
     Schedule.totalTardiness := totalTardiness;
     Schedule.averageTardiness := averageTardiness;
     Schedule.setupCount :=
       length (filter (λ sj, 0 < ScheduledJob.setupTime sj) done);
     Schedule.minorSetupCount :=
       length (filter (λ sj, ScheduledJob.setupType sj = setup_minor) done);
     Schedule.majorSetupCount :=
       length (filter (λ sj, ScheduledJob.setupType sj = setup_major) done);
     Schedule.aoiSetupCount :=
       length (filter (λ sj, ScheduledJob.setupType sj = setup_aoi) done);
     Schedule.utilization_stage1 := utilization stage1TotalProcessing STAGE1_MACHINES;
     Schedule.utilization_stage2 := utilization stage2TotalProcessing STAGE2_MACHINES |}.

(** The run up to the end of the main loop: final state, remaining events
    and whether the iteration cap was reached. *)
Definition simulate (jobs : list Job.t) (jobSequence : list JsNum)
  : Outcome (SimulationState * EventQueue * bool) :=
  let '(state, eventQueue) :=
    tryAssignStage1Jobs (initializeState jobs jobSequence)
                        PriorityQueue.empty in
  eventLoop maxIterations state eventQueue.

(** [runSimulation(jobs, jobSequence)]: the returned [Schedule], with the
    flag telling whether the deadlock warning was logged. *)
Definition runSimulationLogged (jobs : list Job.t) (jobSequence : list JsNum)
  : Outcome (Schedule.t * bool) :=
  '(state, _, warned) ← simulate jobs jobSequence;
  Returned (buildSchedule (completedJobs state), warned).

Definition runSimulation (jobs : list Job.t) (jobSequence : list JsNum)
  : Outcome Schedule.t :=
  '(schedule, _) ← runSimulationLogged jobs jobSequence;
  Returned schedule.

(** The priority table of [extractEventTimeline] (simulation helpers), the
    only place of the source that orders event types; [JOB_END] has no
    entry. [PriorityQueue] does not consult it. *)
Definition typePriority (ty : EventType) : option Z :=
  match ty with
  | SETUP_START => Some 1
  | SETUP_END => Some 2
  | JOB_START => Some 3
  | STAGE1_COMPLETE => Some 4
  | SIMULATION_END => Some 5
  | JOB_END => None
  end.


(** ** Genetic algorithm ([workers/gaWorker.ts]) *)

Module Individual.
Record t := mk {
  chromosome : list JsNum;
  fitness : Q;
  makespan : Z;
  totalTardiness : Z }.
End Individual.

Inductive MutationMethod := swap | insert.

Module GAConfig.
Record t := mk {
  populationSize : Z;
  generations : Z;
  tournamentSize : Z;
  crossoverRate : Q;
  mutationRate : Q;
  mutationMethod : MutationMethod;
  elitismRate : Q;
  tardinessWeight : Q;
  useAdaptive : bool;
  adaptiveWindow : Z }.
End GAConfig.

(** The arguments of one call of [onProgress]. *)
Module Progress.
Record t := mk {
  generation : Z;
  bestFitness : Q;
  bestMakespan : Z;
  bestTardiness : Z;
  bestSequence : list JsNum }.
End Progress.

Module GAResult.
Record t := mk {
  bestIndividual : Individual.t;
  bestSequence : list JsNum;
  makespan : Z;
  totalTardiness : Z;
  improvement : option Q;
  generationsRun : Z;
  fitnessHistory : list Q }.
End GAResult.

(** *** Arrays *)

(** [a[i]]: [undefined] out of range. *)
Definition arrayGet {A} (a : list (option A)) (i : nat) : option A :=
  default None (a !! i).

(** [a[i] = v]: out of range the array grows, the positions in between
    read as [undefined]. *)
Definition arraySet {A} (i : nat) (v : option A) (a : list (option A))
  : list (option A) :=
  if decide (i < length a)%nat then <[i := v]> a
  else a ++ replicate (i - length a) None ++ [v].

(** [a.includes(v)]. *)
Definition includes (v : JsNum) (a : list JsNum) : bool :=
  bool_decide (v ∈ a).

(** [[a[i], a[j]] = [a[j], a[i]]]. *)
Definition swapEntries (i j : nat) (a : list JsNum) : list JsNum :=
  let vi := arrayGet a i in
  let vj := arrayGet a j in
  arraySet j vi (arraySet i vj a).

(** *** The effects of the worker: random draws, simulation runs, progress *)

Record GAState := mkGAState {
  random : nat → Q;
  drawn : nat;
  simulations : nat;
  cancelRequested : bool;
  reports : list Progress.t }.

Definition GA (A : Type) : Type := GAState → Outcome (A * GAState).

#[global] Instance GA_ret : MRet GA := λ A a s, Returned (a, s).
#[global] Instance GA_bind : MBind GA := λ A B f m s,
  match m s with
  | Returned (a, s') => f a s'
  | Thrown e => Thrown e
  end.

Definition throw {A} (e : JsError) : GA A := λ _, Thrown e.

(** [Math.random()]: the next number of the stream. *)
Definition mathRandom : GA Q := λ s,
  Returned (random s (drawn s),
            mkGAState (random s) (S (drawn s)) (simulations s)
                      (cancelRequested s) (reports s)).

(** [Math.floor(Math.random() * n)]. *)
Definition floorTimes (r : Q) (n : nat) : nat :=
  Z.to_nat (Qfloor (r * inject_Z (Z.of_nat n))).

Definition randomIndex (n : nat) : GA nat :=
  r ← mathRandom; mret (floorTimes r n).

(** A call of [runSimulation], counted. *)
Definition simulation (jobs : list Job.t) (sequence : list JsNum)
  : GA Schedule.t := λ s,
  match runSimulation jobs sequence with
  | Returned schedule =>
      Returned (schedule,
                mkGAState (random s) (drawn s) (S (simulations s))
                          (cancelRequested s) (reports s))
  | Thrown e => Thrown e
  end.

Definition report (p : Progress.t) : GA unit := λ s,
  Returned ((), mkGAState (random s) (drawn s) (simulations s)
                          (cancelRequested s) (reports s ++ [p])).

Definition isCancelRequested : GA bool := λ s, Returned (cancelRequested s, s).

(** A property access on a value that may be [undefined]. *)
Definition deref {A} (x : option A) : GA A :=
  match x with
  | Some a => mret a
  | None => throw TypeError
  end.

(** [for] over a list, threading an accumulator. *)
Fixpoint forEach {A B} (body : B → A → GA B) (acc : B) (l : list A) : GA B :=
  match l with
  | [] => mret acc
  | x :: l' => acc' ← body acc x; forEach body acc' l'
  end.

Fixpoint repeatGA {B} (n : nat) (body : B → GA B) (acc : B) : GA B :=
  match n with
  | O => mret acc
  | S n' => acc' ← body acc; repeatGA n' body acc'
  end.

(** *** Fitness *)

Definition evaluateFitness (jobs : list Job.t) (sequence : list JsNum)
    (weight : Q) : GA (Q * Z * Z) :=
  schedule ← simulation jobs sequence;
  let MAKESPAN_SCALE : Q := 1%Q in
  let TARDINESS_SCALE : Q := 1%Q in
  let makespanWeight := (1 - weight)%Q in
  let tardinessWeight := weight in
  let normalizedMakespan :=
    (inject_Z (Schedule.makespan schedule) / MAKESPAN_SCALE)%Q in
  let normalizedTardiness :=
    (inject_Z (Schedule.totalTardiness schedule) / TARDINESS_SCALE)%Q in
  let fitness := (makespanWeight * normalizedMakespan +
                  tardinessWeight * normalizedTardiness)%Q in
  mret (fitness, Schedule.makespan schedule, Schedule.totalTardiness schedule).

Definition individualOf (jobs : list Job.t) (chromosome : list JsNum)
    (weight : Q) : GA (option Individual.t) :=
  '(fitness, makespan, totalTardiness) ← evaluateFitness jobs chromosome weight;
  mret (Some (Individual.mk chromosome fitness makespan totalTardiness)).

(** *** Initial population *)

(** The Fisher-Yates loop: [for (let i = length - 1; i > 0; i--)]. *)
Definition shuffle (chromosome : list JsNum) : GA (list JsNum) :=
  forEach (λ chromosome i,
             j ← randomIndex (i + 1);
             mret (swapEntries i j chromosome))
          chromosome (reverse (seq 1 (length chromosome - 1))).

Definition createInitialPopulation (jobs : list Job.t) (populationSize : Z)
    (tardinessWeight : Q) (initialSequence : option (list JsNum))
  : GA (list (option Individual.t)) :=
  let baseSequence := (λ j, Some (Job.id j)) <$> jobs in
  population ←
    match initialSequence with
    | Some sequence =>
        individual ← individualOf jobs sequence tardinessWeight;
        mret [individual]
    | None => mret []
    end;
  repeatGA (Z.to_nat (populationSize - Z.of_nat (length population)))
    (λ population,
       chromosome ← shuffle baseSequence;
       individual ← individualOf jobs chromosome tardinessWeight;
       mret (population ++ [individual]))
    population.

(** *** Selection *)

(** [(best, current) => (current.fitness < best.fitness ? current : best)]. *)
Definition fitter (best current : option Individual.t)
  : GA (option Individual.t) :=
  c ← deref current;
  b ← deref best;
  mret (if decide (Individual.fitness c < Individual.fitness b)%Q
        then current else best).

(** [array.reduce(fitter)] without an initial value. *)
Definition reduceFitter (l : list (option Individual.t))
  : GA (option Individual.t) :=
  match l with
  | [] => throw TypeError
  | x :: l' => forEach fitter x l'
  end.

Definition tournamentSelection (population : list (option Individual.t))
    (tournamentSize : Z) : GA (option Individual.t) :=
  tournament ←
    repeatGA (Z.to_nat tournamentSize)
      (λ tournament,
         randomIndex ← randomIndex (length population);
         mret (tournament ++ [arrayGet population randomIndex]))
      [];
  reduceFitter tournament.

(** *** Crossover and mutation *)

(** The loop [while (child.includes(-1))]. A pass that finds the gene of
    [parent2] in [child] only moves [parent2Index]; so [size] passes in a
    row look at every gene of [parent2], and a loop that has not ended by
    then finds nothing to place any more. [steps] counts the passes still
    allowed. *)
Fixpoint fillFromParent2 (steps size : nat) (parent2 child : list JsNum)
    (childIndex parent2Index : nat) : Outcome (list JsNum) :=
  if includes (Some (-1)) child then
    match steps with
    | O => Thrown Unfinished
    | S steps' =>
        let gene := arrayGet parent2 parent2Index in
        let '(child, childIndex) :=
          if includes gene child then (child, childIndex)
          else (arraySet childIndex gene child, ((childIndex + 1) mod size)%nat) in
        fillFromParent2 steps' size parent2 child childIndex
                        ((parent2Index + 1) mod size)%nat
    end
  else Returned child.

(** [orderCrossover] once [start] and [end] are drawn. *)
Definition orderCrossoverAt (start end_ : nat) (parent1 parent2 : list JsNum)
  : Outcome (list JsNum) :=
  let size := length parent1 in
  let child := replicate size (Some (-1)) in
  let child :=
    foldl (λ child i, arraySet i (arrayGet parent1 i) child) child
          (seq start (end_ + 1 - start)) in
  fillFromParent2 size size parent2 child
                  ((end_ + 1) mod size)%nat ((end_ + 1) mod size)%nat.

Definition orderCrossover (parent1 parent2 : list JsNum) : GA (list JsNum) :=
  let size := length parent1 in
  start ← randomIndex size;
  offset ← randomIndex (size - start);
  let end_ := (offset + start)%nat in
  match orderCrossoverAt start end_ parent1 parent2 with
  | Returned child => mret child
  | Thrown e => throw e
  end.

Definition swapMutation (chromosome : list JsNum) : GA (list JsNum) :=
  i ← randomIndex (length chromosome);
  j ← randomIndex (length chromosome);
  mret (swapEntries i j chromosome).

(** [gene = mutated.splice(i, 1)[0]; mutated.splice(j, 0, gene)]. *)
Definition moveEntry (i j : nat) (a : list JsNum) : list JsNum :=
  let gene := arrayGet a i in
  let a := delete i a in
  take j a ++ gene :: drop j a.

Definition insertMutation (chromosome : list JsNum) : GA (list JsNum) :=
  i ← randomIndex (length chromosome);
  j ← randomIndex (length chromosome);
  mret (moveEntry i j chromosome).

(** *** The generations *)

(** [population.sort((a, b) => a.fitness - b.fitness)]: a stable sort of
    the individuals; entries that are [undefined] go to the end. *)
Fixpoint insertByFitness (x : Individual.t) (l : list Individual.t)
  : list Individual.t :=
  match l with
  | [] => [x]
  | y :: l' =>
      if decide (Individual.fitness x <= Individual.fitness y)%Q
      then x :: y :: l' else y :: insertByFitness x l'
  end.

Definition sortByFitness (population : list (option Individual.t))
  : list (option Individual.t) :=
  let individuals := omap id population in
  (Some <$> foldr insertByFitness [] individuals) ++
  replicate (length population - length individuals) None.

(** *** The product behind the elite count, in binary64

    A rate of the configuration such as 0.29 is the binary64 number
    nearest to it, and the product [populationSize * elitismRate] is
    rounded to binary64 again before [Math.floor] sees it: 100 * 0.29 is
    28.999999999999996 and gives 28. The population size is taken as it
    is: an integer of a configuration is a binary64 number already.
    Numbers beyond the largest finite binary64 number are not modelled. *)

(** The integer part of the binary logarithm of a positive number. *)
Definition floorLog2 (x : Q) : Z :=
  let e := Z.log2 (Qnum x) - Z.log2 (Z.pos (Qden x)) in
  if decide (x < 2 ^ e)%Q then e - 1 else e.

(** The nearest integer, the even one of two that are equally near. *)
Definition roundHalfEven (x : Q) : Z :=
  let n := Qfloor x in
  let rest := (x - inject_Z n)%Q in
  if decide (rest < 1 # 2)%Q then n
  else if decide (1 # 2 < rest)%Q then n + 1
  else if Z.even n then n else n + 1.

(** The binary64 number nearest to [x], ties to even: 53 significant bits,
    no exponent below -1074. *)
Definition binary64 (x : Q) : Q :=
  if decide (x == 0)%Q then 0%Q
  else
    let e := Z.max (-1074) (floorLog2 (Qabs x) - 52) in
    (inject_Z (roundHalfEven (x / 2 ^ e)) * 2 ^ e)%Q.

(** [Math.max(1, Math.floor(config.populationSize * config.elitismRate))]. *)
Definition eliteCount (config : GAConfig.t) : Z :=
  Z.max 1 (Qfloor (binary64 (inject_Z (GAConfig.populationSize config) *
                             binary64 (GAConfig.elitismRate config)))).

(** [for (let i = 0; i < eliteCount; i++) newPopulation.push(population[i])]. *)
Definition elites (config : GAConfig.t) (population : list (option Individual.t))
  : list (option Individual.t) :=
  arrayGet population <$> seq 0 (Z.to_nat (eliteCount config)).

Section generations.
(** The block "Adaptive parameter control" ([calculateDiversity],
    [detectStagnation], [adaptMutationRate]) computes, with [Math.sqrt] on
    floating-point numbers, the rate the mutation draw is compared with. It
    reads the population and the history and changes neither. It is a
    parameter of the embedding: the generation number, the population and
    the fitness history go in, a rate or an exception comes out. *)
Variable adaptedMutationRate :
  GAConfig.t → Z → list (option Individual.t) → list Q → Outcome Q.

Definition mutationRateOf (config : GAConfig.t) (generation : Z)
    (population : list (option Individual.t)) (fitnessHistory : list Q)
  : GA Q :=
  if GAConfig.useAdaptive config && bool_decide (0 < generation) then
    match adaptedMutationRate config generation population fitnessHistory with
    | Returned rate => mret rate
    | Thrown e => throw e
    end
  else mret (GAConfig.mutationRate config).

(** One pass of [while (newPopulation.length < config.populationSize)]. *)
Definition offspring (jobs : list Job.t) (config : GAConfig.t)
    (rate : Q) (population newPopulation : list (option Individual.t))
  : GA (list (option Individual.t)) :=
  parent1 ← tournamentSelection population (GAConfig.tournamentSize config);
  parent2 ← tournamentSelection population (GAConfig.tournamentSize config);
  r ← mathRandom;
  child ←
    (if decide (r < GAConfig.crossoverRate config)%Q then
       p1 ← deref parent1;
       p2 ← deref parent2;
       orderCrossover (Individual.chromosome p1) (Individual.chromosome p2)
     else
       p1 ← deref parent1;
       mret (Individual.chromosome p1));
  r ← mathRandom;
  child ←
    (if decide (r < rate)%Q then
       match GAConfig.mutationMethod config with
       | insert => insertMutation child
       | swap => swapMutation child
       end
     else mret child);
  individual ← individualOf jobs child (GAConfig.tardinessWeight config);
  mret (newPopulation ++ [individual]).

(** The variables of [runGA] that live across generations. *)
Record Evolution := mkEvolution {
  population : list (option Individual.t);
  bestEver : option Individual.t;
  fitnessHistory : list Q }.

(** The body of [for (let generation = 0; ...)]. *)
Definition generationStep (jobs : list Job.t) (config : GAConfig.t)
    (generation : Z) (e : Evolution) : GA Evolution :=
  cancel ← isCancelRequested;
  if cancel : bool then throw CancelError else
  let population := sortByFitness (population e) in
  currentBest ← deref (arrayGet population 0);
  best ← deref (bestEver e);
  let bestEver :=
    if decide (Individual.fitness currentBest < Individual.fitness best)%Q
    then currentBest else best in
  let fitnessHistory := fitnessHistory e ++ [Individual.fitness currentBest] in
  _ ← report (Progress.mk generation (Individual.fitness bestEver)
                (Individual.makespan bestEver)
                (Individual.totalTardiness bestEver)
                (Individual.chromosome bestEver));
  rate ← mutationRateOf config generation population fitnessHistory;
  let newPopulation := elites config population in
  newPopulation ←
    repeatGA (Z.to_nat (GAConfig.populationSize config -
                        Z.of_nat (length newPopulation)))
             (offspring jobs config rate population) newPopulation;
  mret (mkEvolution newPopulation (Some bestEver) fitnessHistory).

(** The first [n] generations, counted from [generation]. *)
Fixpoint generationsFrom (jobs : list Job.t) (config : GAConfig.t)
    (n : nat) (generation : Z) (e : Evolution) : GA Evolution :=
  match n with
  | O => mret e
  | S n' =>
      e' ← generationStep jobs config generation e;
      generationsFrom jobs config n' (generation + 1) e'
  end.

(** The state of [runGA] when the loop over the generations starts. *)
Definition startEvolution (jobs : list Job.t) (config : GAConfig.t)
    (initialSequence : option (list JsNum)) : GA Evolution :=
  population ← createInitialPopulation jobs (GAConfig.populationSize config)
                  (GAConfig.tardinessWeight config) initialSequence;
  bestEver ← reduceFitter population;
  mret (mkEvolution population bestEver []).

Definition runGA (jobs : list Job.t) (config : GAConfig.t)
    (initialSequence : option (list JsNum)) : GA GAResult.t :=
  e ← startEvolution jobs config initialSequence;
  e ← generationsFrom jobs config (Z.to_nat (GAConfig.generations config)) 0 e;
  best ← deref (bestEver e);
  let improvement :=
    match fitnessHistory e with
    | initialFitness :: _ =>
        if decide (initialFitness == 0)%Q then None
        else Some (((initialFitness - Individual.fitness best) /
                    initialFitness) * 100)%Q
    | [] => None
    end in
  mret (GAResult.mk best (Individual.chromosome best)
          (Individual.makespan best) (Individual.totalTardiness best)
          improvement (GAConfig.generations config) (fitnessHistory e)).
End generations.

(** ** Sorting with a comparator *)

(** [array.sort((a, b) => cmp(a, b))]. [Array.prototype.sort] is stable, so
    for a comparator that orders its arguments consistently the result is
    determined; it is computed here by stable insertion. A comparator
    value that is [NaN] counts as 0. *)
Fixpoint insertSorted {A} (cmp : A → A → Z) (x : A) (l : list A) : list A :=
  match l with
  | [] => [x]
  | y :: l' => if decide (cmp x y ≤ 0) then x :: y :: l'
               else y :: insertSorted cmp x l'
  end.

Definition stableSort {A} (cmp : A → A → Z) (l : list A) : list A :=
  foldr (insertSorted cmp) [] l.

(** ** Simulation helpers ([utils/simulationHelpers.ts]) *)

(** [schedule.jobs.find((sj) => sj.jobId === jobId && sj.stage === s)]. *)
Definition findRecord (jobId : JsNum) (s : Stage) (jobs : list ScheduledJob.t)
  : option ScheduledJob.t :=
  snd <$> list_find (λ sj, ScheduledJob.jobId sj = jobId ∧
                           ScheduledJob.stage sj = s) jobs.

Module QueueStates.
Record t := mk {
  inSource : list JsNum;
  inBuffer : list JsNum;
  inSink : list JsNum }.
End QueueStates.

(** The body of [jobSequence.forEach((jobId) => ...)]. *)
Definition placeJob (schedule : Schedule.t) (currentTime : Z)
    (acc : QueueStates.t) (jobId : JsNum) : QueueStates.t :=
  let toSource :=
    QueueStates.mk (QueueStates.inSource acc ++ [jobId])
                   (QueueStates.inBuffer acc) (QueueStates.inSink acc) in
  let toBuffer :=
    QueueStates.mk (QueueStates.inSource acc)
                   (QueueStates.inBuffer acc ++ [jobId])
                   (QueueStates.inSink acc) in
  let toSink :=
    QueueStates.mk (QueueStates.inSource acc) (QueueStates.inBuffer acc)
                   (QueueStates.inSink acc ++ [jobId]) in
  let stage1Job := findRecord jobId Stage1 (Schedule.jobs schedule) in
  let stage2Job := findRecord jobId Stage2 (Schedule.jobs schedule) in
  match stage1Job with
  | None => toSource
  | Some stage1Job =>
      if decide (currentTime < ScheduledJob.startTime stage1Job) then toSource
      else if decide (currentTime < ScheduledJob.endTime stage1Job) then acc
      else
        match stage2Job with
        | None => toBuffer
        | Some stage2Job =>
            if decide (currentTime < ScheduledJob.startTime stage2Job)
            then toBuffer
            else if decide (currentTime < ScheduledJob.endTime stage2Job)
            then acc
            else toSink
        end
  end.

Definition getQueueStatesAtTime (schedule : Schedule.t) (currentTime : Z)
    (jobSequence : list JsNum) : QueueStates.t :=
  foldl (placeJob schedule currentTime) (QueueStates.mk [] [] []) jobSequence.

(** The events [extractEventTimeline] pushes for one record. *)
Definition recordEvents (sj : ScheduledJob.t) : list SimulationEvent.t :=
  let machineId := Some (ScheduledJob.machineId sj) in
  let stage := Some (ScheduledJob.stage sj) in
  match ScheduledJob.setupStartTime sj with
  | Some setupStartTime =>
      if decide (0 < ScheduledJob.setupTime sj) then
        [SimulationEvent.mk SETUP_START setupStartTime (ScheduledJob.jobId sj)
           machineId stage (Some (ScheduledJob.family sj));
         SimulationEvent.mk SETUP_END
           (setupStartTime + ScheduledJob.setupTime sj)
           (ScheduledJob.jobId sj) machineId stage None]
      else []
  | None => []
  end ++
  [SimulationEvent.mk JOB_START (ScheduledJob.startTime sj)
     (ScheduledJob.jobId sj) machineId stage None;
   SimulationEvent.mk
     (if decide (ScheduledJob.stage sj = Stage1)
      then STAGE1_COMPLETE else SIMULATION_END)
     (ScheduledJob.endTime sj) (ScheduledJob.jobId sj) machineId stage None].

(** The comparator of the timeline: by time, then by type priority. An
    event type without priority makes the difference [NaN]. *)
Definition timelineCompare (a b : SimulationEvent.t) : Z :=
  if decide (SimulationEvent.time a ≠ SimulationEvent.time b) then
    SimulationEvent.time a - SimulationEvent.time b
  else
    match typePriority (SimulationEvent.type a),
          typePriority (SimulationEvent.type b) with
    | Some pa, Some pb => pa - pb
    | _, _ => 0
    end.

Definition extractEventTimeline (schedule : Schedule.t)
  : list SimulationEvent.t :=
  stableSort timelineCompare (Schedule.jobs schedule ≫= recordEvents).

Module Statistics.
Record t := mk {
  makespan : Z;
  totalTardiness : Z;
  averageTardiness : Q;
  completedJobs : nat;
  totalJobs : Z;
  setupCount : nat;
  minorSetupCount : nat;
  majorSetupCount : nat;
  aoiSetupCount : nat;
  utilization_stage1 : Q;
  utilization_stage2 : Q;
  onTimeJobs : Z;
  lateJobs : nat }.
End Statistics.

(** [sj.setupStartTime !== null && sj.setupStartTime + sj.setupTime <= currentTime]. *)
Definition setupDoneBy (currentTime : Z) (sj : ScheduledJob.t) : Prop :=
  match ScheduledJob.setupStartTime sj with
  | Some t => t + ScheduledJob.setupTime sj ≤ currentTime
  | None => False
  end.

#[global] Instance setupDoneBy_dec currentTime sj :
  Decision (setupDoneBy currentTime sj).
Proof. unfold setupDoneBy. destruct (ScheduledJob.setupStartTime sj); apply _. Defined.

Definition calculateLiveStatistics (schedule : Schedule.t) (currentTime : Z)
    (totalJobs : Z) : Statistics.t :=
  let completedStage2Jobs :=
    filter (λ sj, ScheduledJob.stage sj = Stage2 ∧
                  ScheduledJob.endTime sj ≤ currentTime)
           (Schedule.jobs schedule) in
  let completedJobs := length completedStage2Jobs in
  let totalTardiness :=
    foldl (λ sum sj, sum + ScheduledJob.tardiness sj) 0 completedStage2Jobs in
  let averageTardiness :=
    if decide (0 < completedJobs)%nat
    then (inject_Z totalTardiness / inject_Z (Z.of_nat completedJobs))%Q
    else 0%Q in
  let lateJobs :=
    length (filter (λ sj, ScheduledJob.isLate sj = true) completedStage2Jobs) in
  let onTimeJobs := Z.of_nat completedJobs - Z.of_nat lateJobs in
  let setupCount :=
    length (filter (λ sj, 0 < ScheduledJob.setupTime sj ∧
                          setupDoneBy currentTime sj)
                   (Schedule.jobs schedule)) in
  let countOf (ty : SetupType) :=
    length (filter (λ sj, ScheduledJob.setupType sj = ty ∧
                          setupDoneBy currentTime sj)
                   (Schedule.jobs schedule)) in
  {| Statistics.makespan := Schedule.makespan schedule;
     Statistics.totalTardiness := totalTardiness;
     Statistics.averageTardiness := averageTardiness;
     Statistics.completedJobs := completedJobs;
     Statistics.totalJobs := totalJobs;
     Statistics.setupCount := setupCount;
     Statistics.minorSetupCount := countOf setup_minor;
     Statistics.majorSetupCount := countOf setup_major;
     Statistics.aoiSetupCount := countOf setup_aoi;
     Statistics.utilization_stage1 := Schedule.utilization_stage1 schedule;
     Statistics.utilization_stage2 := Schedule.utilization_stage2 schedule;
     Statistics.onTimeJobs := onTimeJobs;
     Statistics.lateJobs := lateJobs |}.

(** ** The wrapper of the simulator ([utils/simulator.ts]) *)

Definition calculateStatistics (schedule : Schedule.t) (totalJobs : Z)
  : Statistics.t :=
  let completedJobs :=
    length (filter (λ sj, ScheduledJob.stage sj = Stage2)
                   (Schedule.jobs schedule)) in
  let lateJobs :=
    length (filter (λ sj, ScheduledJob.stage sj = Stage2 ∧
                          ScheduledJob.isLate sj = true)
                   (Schedule.jobs schedule)) in
  let onTimeJobs := Z.of_nat completedJobs - Z.of_nat lateJobs in
  {| Statistics.makespan := Schedule.makespan schedule;
     Statistics.totalTardiness := Schedule.totalTardiness schedule;
     Statistics.averageTardiness := Schedule.averageTardiness schedule;
     Statistics.completedJobs := completedJobs;
     Statistics.totalJobs := totalJobs;
     Statistics.setupCount := Schedule.setupCount schedule;
     Statistics.minorSetupCount := Schedule.minorSetupCount schedule;
     Statistics.majorSetupCount := Schedule.majorSetupCount schedule;
     Statistics.aoiSetupCount := Schedule.aoiSetupCount schedule;
     Statistics.utilization_stage1 := Schedule.utilization_stage1 schedule;
     Statistics.utilization_stage2 := Schedule.utilization_stage2 schedule;
     Statistics.onTimeJobs := onTimeJobs;
     Statistics.lateJobs := lateJobs |}.

(** The comparator of the heuristic 'FAMILY_GROUP'. *)
Definition byFamilyThenDueDate (a b : Job.t) : Z :=
  if decide (Job.family a ≠ Job.family b) then Job.family a - Job.family b
  else Job.dueDate a - Job.dueDate b.

Definition applyHeuristic (jobs : list Job.t) (heuristic : string) : list Z :=
  let jobsCopy := jobs in
  if decide (heuristic = "FIFO") then Job.id <$> jobsCopy
  else if decide (heuristic = "EDD") then
    Job.id <$> stableSort (λ a b, Job.dueDate a - Job.dueDate b) jobsCopy
  else if decide (heuristic = "SPT") then
    Job.id <$>
      stableSort (λ a b, Job.t_smd a + Job.t_aoi a -
                         (Job.t_smd b + Job.t_aoi b)) jobsCopy
  else if decide (heuristic = "FAMILY_GROUP") then
    Job.id <$> stableSort byFamilyThenDueDate jobsCopy
  else Job.id <$> jobsCopy.

(** [Array.from(new Set(values))]: the distinct values, each at its first
    occurrence. *)
Definition distinct (values : list Z) : list Z :=
  foldl (λ seen v, if decide (v ∈ seen) then seen else seen ++ [v]) [] values.

Definition getUniqueFamilies (jobs : list Job.t) : list Z :=
  stableSort (λ a b, a - b) (distinct (Job.family <$> jobs)).

Module Validation.
Record t := mk { valid : bool; errors : list string }.
End Validation.

(** The body of [jobs.forEach((job, index) => ...)]. The fields of a [Job]
    are numbers, so the tests for [undefined] fail; [!job.id] holds for
    the id 0. *)
Definition validateJob (errors : list string) (index : nat) (job : Job.t)
  : list string :=
  let errors :=
    if decide (Job.id job = 0)
    then errors ++ ["Job at index " +:+ pretty index +:+ " has no ID"]
    else errors in
  let errors :=
    if decide (Job.dueDate job < 0)
    then errors ++ ["Job " +:+ pretty (Job.id job) +:+ " has invalid due date"]
    else errors in
  let errors :=
    if decide (Job.t_smd job ≤ 0)
    then errors ++ ["Job " +:+ pretty (Job.id job) +:+ " has invalid t_smd"]
    else errors in
  let errors :=
    if decide (Job.t_aoi job ≤ 0)
    then errors ++ ["Job " +:+ pretty (Job.id job) +:+ " has invalid t_aoi"]
    else errors in
  errors.

Definition validateJobs (jobs : list Job.t) : Validation.t :=
  let errors :=
    if decide (length jobs = 0%nat) then ["No jobs found in data"] else [] in
  let errors :=
    foldl (λ errors ij, validateJob errors ij.1 ij.2) errors
          (imap (λ index job, (index, job)) jobs) in
  Validation.mk (bool_decide (length errors = 0%nat)) errors.

(** ** Adaptive parameter control ([workers/gaWorker.ts]) *)

Definition hammingDistance (seq1 seq2 : list JsNum) : Z :=
  let minLen := (length seq1 `min` length seq2)%nat in
  let distance :=
    foldl (λ distance i,
             if decide (arrayGet seq1 i ≠ arrayGet seq2 i)
             then distance + 1 else distance)
          0 (seq 0 minLen) in
  distance + Z.abs (Z.of_nat (length seq1) - Z.of_nat (length seq2)).



Definition adaptMutationRate (baseMutationRate diversity stagnation
    progressRatio : Q) : Q :=
  let diversityFactor := ((15 # 10) - diversity)%Q in
  let stagnationFactor := (1 + (5 # 10) * stagnation)%Q in
  let progressFactor := (1 - (3 # 10) * progressRatio)%Q in
  let adapted :=
    (baseMutationRate * diversityFactor * stagnationFactor *
     progressFactor)%Q in
  Qmax (1 # 100) (Qmin (5 # 10) adapted).

(** ** The shipped configurations ([config/gaDefaults.ts]) *)

Definition GA_DEFAULTS : GAConfig.t :=
  GAConfig.mk 100 500 3 (8 # 10) (2 # 10) insert (1 # 10) (5 # 10) false 10.

Module GA_PRESETS.
Definition fast : GAConfig.t :=
  GAConfig.mk 50 200 3 (8 # 10) (2 # 10) insert (1 # 10) (5 # 10) false 10.
Definition balanced : GAConfig.t := GA_DEFAULTS.
Definition thorough : GAConfig.t :=
  GAConfig.mk 150 1000 3 (8 # 10) (2 # 10) insert (1 # 10) (5 # 10) true 10.
Definition adaptive : GAConfig.t :=
  GAConfig.mk 100 500 3 (8 # 10) (2 # 10) insert (1 # 10) (5 # 10) true 10.
End GA_PRESETS.
(** * Auxiliary definitions for the statements *)

(** The order the queue keeps its items in. *)
Abbreviation byTime time := (λ a b, time a ≤ time b).

Module PriorityQueueSpec.
Section spec.
Context {T : Type} (time : T → Z).

  (** Where [push] puts a new item in a sorted array: behind every item
      that is not later than it. *)
Fixpoint insertBehind (x : T) (l : list T) : list T :=
    match l with
    | [] => [x]
    | y :: l' => if decide (time x < time y) then x :: y :: l'
                 else y :: insertBehind x l'
    end.

End spec.
End PriorityQueueSpec.

(** ** Simulation: the states of a run and what holds in them *)

(** The direct effect of an event on the state ([processEvent] up to the
    call of [tryAssignStage2Jobs]). *)
Definition applyEvent (event : SimulationEvent.t) (state : SimulationState)
  : SimulationState :=
  let state := setCurrentTime (SimulationEvent.time event) state in
  match SimulationEvent.type event with
  | STAGE1_COMPLETE =>
      enqueueStage2 (SimulationEvent.jobId event)
        (releaseMachine (SimulationEvent.machineId event) state)
  | SIMULATION_END => releaseMachine (SimulationEvent.machineId event) state
  | _ => state
  end.

(** The states a run of [runSimulation jobs jobSequence] goes through,
    taken at every pass of the assignment loops and at every event. *)
Inductive reachable (jobs : list Job.t) (jobSequence : list JsNum)
  : SimulationState → EventQueue → Prop :=
  | reach_init :
      reachable jobs jobSequence (initializeState jobs jobSequence)
                PriorityQueue.empty
  | reach_stage1 state q state' q' :
      reachable jobs jobSequence state q →
      stage1Pass state q = Some (state', q') →
      reachable jobs jobSequence state' q'
  | reach_stage2 state q state' q' :
      reachable jobs jobSequence state q →
      stage2Pass state q = Returned (Some (state', q')) →
      reachable jobs jobSequence state' q'
  | reach_event state q event q' :
      reachable jobs jobSequence state q →
      popEvent q = (Some event, q') →
      reachable jobs jobSequence (applyEvent event state) q'.

(** Identity and stage of every machine, in array order. *)
Definition shape (ms : list Machine.t) : list (Z * Stage) :=
  (λ m, (Machine.id m, Machine.stage m)) <$> ms.

(** At most one stage-1 machine has a given family mounted. *)
Definition kitExclusive (state : SimulationState) : Prop :=
  ∀ i j mi mj f,
    machines state !! i = Some mi → machines state !! j = Some mj →
    Machine.stage mi = Stage1 → Machine.stage mj = Stage1 →
    Machine.currentSetupKit mi = Some f →
    Machine.currentSetupKit mj = Some f →
    i = j.

(** A family mounted on a machine is the family of a kit bound to that
    machine. *)
Definition mountConsistent (state : SimulationState) : Prop :=
  ∀ i m f,
    machines state !! i = Some m → Machine.currentSetupKit m = Some f →
    ∃ kit, setupKits state !! f = Some kit ∧
           SetupKit.currentMachine kit = Some (Machine.id m).

(** A bound kit is bound to a stage-1 machine of the park. *)
Definition kitsOnStage1 (state : SimulationState) : Prop :=
  ∀ f kit x,
    setupKits state !! f = Some kit → SetupKit.currentMachine kit = Some x →
    ∃ i m, machines state !! i = Some m ∧ Machine.stage m = Stage1 ∧
           Machine.id m = x.

(** Every known job has its kit. *)
Definition kitsCoverJobs (state : SimulationState) : Prop :=
  ∀ k job, jobsMap state !! k = Some job →
           is_Some (setupKits state !! Job.family job).

(** Every stage-1 record ran on the machine its kit is still bound to. *)
Definition recordsFollowKit (state : SimulationState) : Prop :=
  ∀ sj, sj ∈ completedJobs state → ScheduledJob.stage sj = Stage1 →
    ∃ kit, setupKits state !! ScheduledJob.family sj = Some kit ∧
           SetupKit.currentMachine kit = Some (ScheduledJob.machineId sj).

(** Stage-1 records of one family are all on one machine. *)
Definition sameFamilySameMachine (done : list ScheduledJob.t) : Prop :=
  ∀ a b, a ∈ done → b ∈ done →
    ScheduledJob.stage a = Stage1 → ScheduledJob.stage b = Stage1 →
    ScheduledJob.family a = ScheduledJob.family b →
    ScheduledJob.machineId a = ScheduledJob.machineId b.

(** Stage-1 records of one family: each is set up only after the previous
    one has ended. *)
Definition serializedByFamily (done : list ScheduledJob.t) : Prop :=
  ∀ i j a b,
    done !! i = Some a → done !! j = Some b → (i < j)%nat →
    ScheduledJob.stage a = Stage1 → ScheduledJob.stage b = Stage1 →
    ScheduledJob.family a = ScheduledJob.family b →
    ∃ t, ScheduledJob.setupStartTime b = Some t ∧ ScheduledJob.endTime a ≤ t.

(** Durations as the data model has them: not negative. *)
Definition nonnegDurations (jobs : list Job.t) : Prop :=
  Forall (λ job, 0 ≤ Job.t_smd job ∧ 0 ≤ Job.t_aoi job) jobs.

(** What a stage-2 record says about its job. *)
Definition stage2RecordCorrect (jm : gmap Z Job.t) (sj : ScheduledJob.t)
  : Prop :=
  ScheduledJob.setupTime sj = SETUP_TIME_AOI ∧
  ScheduledJob.setupType sj = setup_aoi ∧
  (∃ t, ScheduledJob.setupStartTime sj = Some t ∧
        ScheduledJob.startTime sj = t + SETUP_TIME_AOI) ∧
  ∃ job, mapGet jm (ScheduledJob.jobId sj) = Some job ∧
         ScheduledJob.endTime sj = ScheduledJob.startTime sj + Job.t_aoi job ∧
         ScheduledJob.tardiness sj =
           Z.max 0 (ScheduledJob.endTime sj - Job.dueDate job) ∧
         ScheduledJob.isLate sj = bool_decide (0 < ScheduledJob.tardiness sj).

Record wellFormed (jobs : list Job.t) (state : SimulationState) : Prop := {
  wf_shape : shape (machines state) = shape initialMachines;
  wf_jobsMap : jobsMap state = buildJobsMap jobs;
  wf_mount : mountConsistent state;
  wf_kits : kitsOnStage1 state;
  wf_cover : kitsCoverJobs state;
  wf_records : recordsFollowKit state;
  wf_stage2 : ∀ sj, sj ∈ completedJobs state →
                ScheduledJob.stage sj = Stage2 →
                stage2RecordCorrect (jobsMap state) sj }.

(** What holds in addition when no duration is negative. *)
Record timely (state : SimulationState) : Prop := {
  tm_machines : Forall (λ m, 0 ≤ Machine.availableAt m) (machines state);
  tm_ends : Forall (λ sj, 0 ≤ ScheduledJob.endTime sj) (completedJobs state);
  tm_kits : ∀ sj, sj ∈ completedJobs state → ScheduledJob.stage sj = Stage1 →
              ∃ kit, setupKits state !! ScheduledJob.family sj = Some kit ∧
                     ScheduledJob.endTime sj ≤ SetupKit.availableAt kit;
  tm_serialized : serializedByFamily (completedJobs state) }.

(** What the candidate loop of [tryAssignStage1Jobs] has established after
    the machines [seen]. *)
Definition bestAmong (now : Z) (job : Job.t) (kit : SetupKit.t)
    (seen : list (nat * Machine.t)) (best : Best) : Prop :=
  match bestMachine best with
  | None =>
      bestStartTime best = None ∧
      ∀ im, im ∈ seen → stage1Setup job kit im.2 = None
  | Some im =>
      im ∈ seen ∧ setupRequired best = true ∧
      stage1Setup job kit im.2 = Some (bestSetupTime best) ∧
      bestStartTime best =
        Some (candidateStart now kit im.2 (bestSetupTime best)) ∧
      ∀ im' d, im' ∈ seen → stage1Setup job kit im'.2 = Some d →
               candidateStart now kit im.2 (bestSetupTime best) ≤
               candidateStart now kit im'.2 d
  end.

(** Weight of a queued event in the bound on the main loop: a stage-1
    completion still has a stage-2 completion to come. *)
Definition eventWeight (e : SimulationEvent.t) : nat :=
  match SimulationEvent.type e with
  | STAGE1_COMPLETE => 2
  | _ => 1
  end.

Definition pendingWork (state : SimulationState) (q : EventQueue) : nat :=
  2 * length (stage1Queue state) + length (stage2Queue state) +
  sum_list_with eventWeight q.

(** Entries of a sequence up to the first one that is no id of a job. *)
Fixpoint knownPrefix (jm : gmap Z Job.t) (jobSequence : list JsNum)
  : list JsNum :=
  match jobSequence with
  | [] => []
  | k :: rest =>
      match mapGet jm k with
      | Some _ => k :: knownPrefix jm rest
      | None => []
      end
  end.

(** The job ids of the stage-1 records, in the order of assignment. *)
Definition stage1Ids (done : list ScheduledJob.t) : list JsNum :=
  ScheduledJob.jobId <$> ofStage Stage1 done.

(** The sequence is the assigned entries followed by the waiting ones, and
    every assigned entry is the id of a job. *)
Definition sequenceSplit (jobSequence : list JsNum) (state : SimulationState)
  : Prop :=
  stage1Ids (completedJobs state) ++ stage1Queue state = jobSequence ∧
  Forall (λ k, is_Some (mapGet (jobsMap state) k))
         (stage1Ids (completedJobs state)).

(** The stage-1 loop has nothing left to do: the queue is empty or its
    head is no id of a job. *)
Definition settled (state : SimulationState) : Prop :=
  knownPrefix (jobsMap state) (stage1Queue state) = [].

(** What a stage-1 pass that assigns [jobId] has done: it took one of the
    machines with the earliest job start among those not skipped, and wrote
    the record of the job. *)
Definition assignedGreedily (state : SimulationState) (jobId : JsNum)
    (rest : list JsNum) (job : Job.t) (kit : SetupKit.t)
    (state' : SimulationState) : Prop :=
  ∃ i m d,
    machines state !! i = Some m ∧ Machine.stage m = Stage1 ∧
    stage1Setup job kit m = Some d ∧
    (∀ i' m' d', machines state !! i' = Some m' → Machine.stage m' = Stage1 →
                 stage1Setup job kit m' = Some d' →
                 candidateStart (currentTime state) kit m d ≤
                 candidateStart (currentTime state) kit m' d') ∧
    stage1Queue state' = rest ∧
    completedJobs state' = completedJobs state ++
      [ScheduledJob.mk jobId (Machine.id m) Stage1
         (candidateStart (currentTime state) kit m d)
         (candidateStart (currentTime state) kit m d + Job.t_smd job) d
         (if decide (d = SETUP_TIME_SMD_MAJOR) then setup_major else setup_minor)
         (Some (max3 (currentTime state) (Machine.availableAt m)
                     (SetupKit.availableAt kit)))
         (Job.t_smd job) (Job.family job) false 0].

(** What a stage-2 pass does for the head [jobId] of the stage-2 queue. *)
Definition assignedToEarliest (state : SimulationState) (q : EventQueue)
    (jobId : JsNum) (rest : list JsNum) (job : Job.t)
    (stage1Job : ScheduledJob.t) : Prop :=
  ∃ i m state' q' sj,
    machines state !! i = Some m ∧ Machine.stage m = Stage2 ∧
    (∀ i' m', machines state !! i' = Some m' → Machine.stage m' = Stage2 →
              Machine.availableAt m ≤ Machine.availableAt m') ∧
    stage2Pass state q = Returned (Some (state', q')) ∧
    stage2Queue state' = rest ∧
    completedJobs state' = completedJobs state ++ [sj] ∧
    ScheduledJob.jobId sj = jobId ∧
    ScheduledJob.machineId sj = Machine.id m ∧
    ScheduledJob.stage sj = Stage2 ∧
    ScheduledJob.setupTime sj = 25 ∧
    ScheduledJob.setupStartTime sj =
      Some (max3 (ScheduledJob.endTime stage1Job) (Machine.availableAt m)
                 (currentTime state)) ∧
    ScheduledJob.startTime sj =
      max3 (ScheduledJob.endTime stage1Job) (Machine.availableAt m)
           (currentTime state) + 25 ∧
    ScheduledJob.endTime sj = ScheduledJob.startTime sj + Job.t_aoi job ∧
    ScheduledJob.tardiness sj =
      Z.max 0 (ScheduledJob.endTime sj - Job.dueDate job) ∧
    ScheduledJob.isLate sj = bool_decide (0 < ScheduledJob.tardiness sj).

(** ** Example data *)

(** Three jobs of two families. *)
Definition exampleJobs : list Job.t :=
  [Job.mk 1 100 1 10 5; Job.mk 2 100 2 10 5; Job.mk 3 200 1 10 5].

Definition exampleSequence : list JsNum := [Some 1; Some 2; Some 3].

(** The state after the first call of [tryAssignStage1Jobs]. *)
Definition exampleAssigned : SimulationState * EventQueue :=
  tryAssignStage1Jobs (initializeState exampleJobs exampleSequence)
                      PriorityQueue.empty.

(** The state when the first event has been taken from the queue. *)
Definition exampleAtFirstEvent : SimulationState * EventQueue :=
  match popEvent exampleAssigned.2 with
  | (Some event, q) => (applyEvent event exampleAssigned.1, q)
  | (None, q) => (exampleAssigned.1, q)
  end.

Definition exampleSchedule : Schedule.t :=
  match runSimulation exampleJobs exampleSequence with
  | Returned schedule => schedule
  | Thrown _ => buildSchedule []
  end.

(** A state no run reaches: family 1 is mounted on machine 1 while its kit
    is bound to machine 2. *)
Definition strayKitState : SimulationState :=
  {| currentTime := 0;
     machines := [Machine.mk 1 Stage1 (Some 1) 0 None;
                  Machine.mk 2 Stage1 (Some 1) 0 None];
     setupKits := {[ 1 := SetupKit.mk 1 (Some 2) false 0 ]};
     stage1Queue := [Some 1];
     stage2Queue := [];
     completedJobs := [];
     jobsMap := buildJobsMap exampleJobs |}.

(** A state no run reaches: the kit of family 1 is bound to a machine that
    is not in the park. *)
Definition lostKitState : SimulationState :=
  {| currentTime := 0;
     machines := [Machine.mk 1 Stage1 None 0 None;
                  Machine.mk 2 Stage1 None 0 None];
     setupKits := {[ 1 := SetupKit.mk 1 (Some 9) false 0 ]};
     stage1Queue := [Some 1];
     stage2Queue := [];
     completedJobs := [];
     jobsMap := buildJobsMap exampleJobs |}.

(** ** Genetic algorithm *)

(** The value [orderCrossover] fills the child with before it places the
    genes. *)
Definition sentinel : JsNum := Some (-1).

(** The genes [orderCrossover] copies from [parent1]: positions [start] to
    [end_]. *)
Definition segment (start end_ : nat) (parent1 : list JsNum) : list JsNum :=
  take (end_ + 1 - start) (drop start parent1).


(** The ids of the jobs, in the order of the job list: the sequence
    [createInitialPopulation] shuffles. *)
Definition jobIds (jobs : list Job.t) : list JsNum :=
  (λ j, Some (Job.id j)) <$> jobs.

(** [Math.random()] yields numbers of [0, 1). *)
Definition fairRandom (random : nat → Q) : Prop :=
  ∀ n, (0 <= random n)%Q ∧ (random n < 1)%Q.

(** [m], run in state [s], returns a value with property [P]; the stream of
    random numbers and the cancel flag are as before, only the counters and
    the progress reports have moved. *)
Definition returns {A} (m : GA A) (s : GAState) (P : A → Prop) : Prop :=
  ∃ a s', m s = Returned (a, s') ∧
          random s' = random s ∧
          cancelRequested s' = cancelRequested s ∧
          P a.

(** An individual whose chromosome is an arrangement of [ids]. *)
Definition validIndividual (ids : list JsNum) (x : option Individual.t)
  : Prop :=
  ∃ individual, x = Some individual ∧ Individual.chromosome individual ≡ₚ ids.

Definition validPopulation (ids : list JsNum)
    (population : list (option Individual.t)) : Prop :=
  Forall (validIndividual ids) population.

(** What the proofs about whole generations need of the configuration;
    a population size up to 2^53 is an integer that binary64 has. *)
Definition validConfig (config : GAConfig.t) : Prop :=
  1 ≤ GAConfig.populationSize config ≤ 2 ^ 53 ∧
  1 ≤ GAConfig.tournamentSize config ∧
  (0 <= GAConfig.elitismRate config)%Q ∧
  (GAConfig.elitismRate config <= 1)%Q.

(** An initial sequence, when given, arranges the job ids. *)
Definition validInitialSequence (ids : list JsNum)
    (initialSequence : option (list JsNum)) : Prop :=
  match initialSequence with
  | Some sequence => sequence ≡ₚ ids
  | None => True
  end.

(** *** Example data *)

(** A stream of random numbers: 0, 1/4, 1/2, 3/4, 0, ... *)
Definition exampleRandom (n : nat) : Q := Z.of_nat (n mod 4) # 4.

Definition exampleWorker : GAState :=
  mkGAState exampleRandom 0 0 false [].

(** Population 25, a tenth of it elite. *)
Definition exampleConfig : GAConfig.t :=
  GAConfig.mk 25 50 3 (8 # 10) (2 # 10) swap (1 # 10) (1 # 2) false 10.

(** A small configuration, below the ranges of the data model. *)
Definition smallConfig : GAConfig.t :=
  GAConfig.mk 4 2 2 (8 # 10) (2 # 10) insert (1 # 2) (1 # 2) false 10.

(** A constant in place of the adaptive mutation rate. *)
Definition fixedRate : GAConfig.t → Z → list (option Individual.t) →
                       list Q → Outcome Q :=
  λ _ _ _ _, Returned (1 # 10).

(** The first population of the small configuration and the worker after
    it. *)
Definition exampleStart : Evolution * GAState :=
  match startEvolution exampleJobs smallConfig None exampleWorker with
  | Returned r => r
  | Thrown _ => (mkEvolution [] None [], exampleWorker)
  end.

(** The generation after it. *)
Definition exampleNext : Evolution * GAState :=
  match generationStep fixedRate exampleJobs smallConfig 0
                       exampleStart.1 exampleStart.2 with
  | Returned r => r
  | Thrown _ => exampleStart
  end.

(** The adaptive mutation rate is computed without an exception. *)
Definition rateReturns
    (adaptedMutationRate :
       GAConfig.t → Z → list (option Individual.t) → list Q → Outcome Q)
  : Prop :=
  ∀ config generation population history,
    ∃ rate,
      adaptedMutationRate config generation population history = Returned rate.

(** The variables of [runGA] between two generations: a full population of
    arrangements of [ids], and a best individual. *)
Definition validEvolution (ids : list JsNum) (config : GAConfig.t)
    (e : Evolution) : Prop :=
  validPopulation ids (population e) ∧
  length (population e) = Z.to_nat (GAConfig.populationSize config) ∧
  validIndividual ids (bestEver e).

(** The order of [population.sort((a, b) => a.fitness - b.fitness)]. *)
Abbreviation byFitness :=
  (λ a b : Individual.t, (Individual.fitness a <= Individual.fitness b)%Q).

(** * Further statements about the simulation engine *)

(** The job ids of the stage-2 records, in the order of assignment. *)
Definition stage2Ids (done : list ScheduledJob.t) : list JsNum :=
  ScheduledJob.jobId <$> ofStage Stage2 done.

(** The jobs whose stage-1 completion is still in the event queue. *)
Definition stage1Completions (q : EventQueue) : list JsNum :=
  SimulationEvent.jobId <$>
    filter (λ e, SimulationEvent.type e = STAGE1_COMPLETE) q.

(** Every job with a stage-1 record has its stage-2 record, waits in the
    stage-2 queue, or is still running on its stage-1 machine. *)
Definition flowBalance (state : SimulationState) (q : EventQueue) : Prop :=
  stage1Ids (completedJobs state) ≡ₚ
  stage2Ids (completedJobs state) ++ stage2Queue state ++ stage1Completions q.

(** What a record says about itself: setup, then processing, without a
    gap; a stage-1 record is on one of the machines 1 to 4 after a minor or
    a major setup, a stage-2 record on one of the machines 5 to 9 after
    the fixed setup. *)
Definition recordConsistent (sj : ScheduledJob.t) : Prop :=
  (∃ t, ScheduledJob.setupStartTime sj = Some t ∧
        ScheduledJob.startTime sj = t + ScheduledJob.setupTime sj) ∧
  ScheduledJob.endTime sj =
    ScheduledJob.startTime sj + ScheduledJob.processingTime sj ∧
  match ScheduledJob.stage sj with
  | Stage1 =>
      1 ≤ ScheduledJob.machineId sj ≤ 4 ∧
      ((ScheduledJob.setupType sj = setup_minor ∧
        ScheduledJob.setupTime sj = 20) ∨
       (ScheduledJob.setupType sj = setup_major ∧
        ScheduledJob.setupTime sj = 65)) ∧
      ScheduledJob.isLate sj = false ∧ ScheduledJob.tardiness sj = 0
  | Stage2 =>
      5 ≤ ScheduledJob.machineId sj ≤ 9 ∧
      ScheduledJob.setupType sj = setup_aoi ∧
      ScheduledJob.setupTime sj = 25 ∧
      0 ≤ ScheduledJob.tardiness sj ∧
      ScheduledJob.isLate sj = bool_decide (0 < ScheduledJob.tardiness sj)
  end.

(** Records of one machine: each is set up only after the previous one
    has ended. *)
Definition serializedByMachine (done : list ScheduledJob.t) : Prop :=
  ∀ i j a b,
    done !! i = Some a → done !! j = Some b → (i < j)%nat →
    ScheduledJob.machineId a = ScheduledJob.machineId b →
    ∃ t, ScheduledJob.setupStartTime b = Some t ∧ ScheduledJob.endTime a ≤ t.

(** A machine is free no earlier than the end of the records it ran. *)
Definition busyUntilFree (state : SimulationState) : Prop :=
  ∀ sj i m,
    sj ∈ completedJobs state → machines state !! i = Some m →
    Machine.id m = ScheduledJob.machineId sj →
    ScheduledJob.endTime sj ≤ Machine.availableAt m.

(** Every stage-2 record is set up after a stage-1 record of its job has
    ended. *)
Definition stage2FollowsStage1 (done : list ScheduledJob.t) : Prop :=
  ∀ sj, sj ∈ done → ScheduledJob.stage sj = Stage2 →
    ∃ s1 t, s1 ∈ done ∧ ScheduledJob.stage s1 = Stage1 ∧
            ScheduledJob.jobId s1 = ScheduledJob.jobId sj ∧
            ScheduledJob.setupStartTime sj = Some t ∧
            ScheduledJob.endTime s1 ≤ t.

(** What holds of machines and records when no duration is negative. *)
Record exclusive (state : SimulationState) : Prop := {
  ex_busy : busyUntilFree state;
  ex_serial : serializedByMachine (completedJobs state) }.

(** The times of a record, when no duration is negative: the setup starts
    at time 0 or later and the job ends no earlier than it starts. *)
Definition recordTimely (sj : ScheduledJob.t) : Prop :=
  0 ≤ ScheduledJob.processingTime sj ∧
  ∃ t, ScheduledJob.setupStartTime sj = Some t ∧ 0 ≤ t.

(** The order of the records of one machine. *)
Abbreviation setUpAfter :=
  (λ a b : ScheduledJob.t,
     ScheduledJob.endTime a ≤
     ScheduledJob.startTime b - ScheduledJob.setupTime b).

(** ** Event queue *)

(** The contents a queue can have: a fresh queue, changed by [push] and
    [pop] in any order. *)
Inductive queueState {T : Type} (time : T → Z) : list T → Prop :=
  | queue_new : queueState time PriorityQueue.empty
  | queue_push x items :
      queueState time items →
      queueState time (PriorityQueue.push time x items)
  | queue_pop items :
      queueState time items →
      queueState time (PriorityQueue.pop items).2.

(** ** Simulation helpers *)

(** Where a job is at a time, by the records of a schedule. *)
Inductive Place := AtSource | OnStage1 | AtBuffer | OnStage2 | AtSink.

#[global] Instance Place_eq_dec : EqDecision Place.
Proof. solve_decision. Defined.

Definition placeAt (done : list ScheduledJob.t) (currentTime : Z)
    (jobId : JsNum) : Place :=
  match findRecord jobId Stage1 done with
  | None => AtSource
  | Some stage1Job =>
      if decide (currentTime < ScheduledJob.startTime stage1Job) then AtSource
      else if decide (currentTime < ScheduledJob.endTime stage1Job)
      then OnStage1
      else
        match findRecord jobId Stage2 done with
        | None => AtBuffer
        | Some stage2Job =>
            if decide (currentTime < ScheduledJob.startTime stage2Job)
            then AtBuffer
            else if decide (currentTime < ScheduledJob.endTime stage2Job)
            then OnStage2
            else AtSink
        end
  end.

(** ** What a run of the genetic algorithm leaves behind *)

(** [m], whenever it returns from state [s], returns a value and a state
    with property [P]. *)
Definition ensures {A} (m : GA A) (s : GAState) (P : A → GAState → Prop)
  : Prop :=
  ∀ a s', m s = Returned (a, s') → P a s'.

(** Between [s] and [s'] no simulation was run and no progress reported. *)
Definition quiet (s s' : GAState) : Prop :=
  simulations s' = simulations s ∧ reports s' = reports s.

(** A computation that runs no simulation and reports no progress. *)
Definition silent {A} (m : GA A) : Prop :=
  ∀ s, ensures m s (λ _ s', quiet s s').

(** An individual that carries the results of simulating its own
    chromosome. *)
Definition evaluated (jobs : list Job.t) (weight : Q)
    (x : option Individual.t) : Prop :=
  ∃ individual schedule,
    x = Some individual ∧
    runSimulation jobs (Individual.chromosome individual) =
      Returned schedule ∧
    Individual.makespan individual = Schedule.makespan schedule ∧
    Individual.totalTardiness individual =
      Schedule.totalTardiness schedule ∧
    Individual.fitness individual =
      ((1 - weight) * inject_Z (Schedule.makespan schedule) +
       weight * inject_Z (Schedule.totalTardiness schedule))%Q.

(** The order of a fitness history that never gets worse. *)
Abbreviation neverWorse := (λ a b : Q, (b <= a)%Q).

(** The variables of [runGA] between two generations, as elitism keeps
    them: a full population of evaluated individuals, one of them at least
    as good as the best individual so far, and a history that never gets
    worse and ends with the fitness of that best individual. *)
Record improving (jobs : list Job.t) (config : GAConfig.t) (e : Evolution)
  : Prop := {
  imp_evaluated :
    Forall (evaluated jobs (GAConfig.tardinessWeight config)) (population e);
  imp_length :
    length (population e) = Z.to_nat (GAConfig.populationSize config);
  imp_best : evaluated jobs (GAConfig.tardinessWeight config) (bestEver e);
  imp_kept :
    ∀ best, bestEver e = Some best →
      ∃ individual, Some individual ∈ population e ∧
        (Individual.fitness individual <= Individual.fitness best)%Q;
  imp_history : Sorted neverWorse (fitnessHistory e);
  imp_last :
    ∀ best f, bestEver e = Some best → last (fitnessHistory e) = Some f →
      (Individual.fitness best == f)%Q }.

(** The progress report of a generation with best individual [best]. *)
Definition progressOf (generation : Z) (best : Individual.t) : Progress.t :=
  Progress.mk generation (Individual.fitness best)
    (Individual.makespan best) (Individual.totalTardiness best)
    (Individual.chromosome best).

(** The offspring of one generation. *)
Definition offspringCount (config : GAConfig.t) : nat :=
  Z.to_nat (GAConfig.populationSize config) - Z.to_nat (eliteCount config).

(** The [k]-th individual [tournamentSelection] draws from state [s]. *)
Definition candidate (population : list (option Individual.t))
    (s : GAState) (k : nat) : option Individual.t :=
  arrayGet population
    (floorTimes (random s (drawn s + k)%nat) (length population)).

(** The child of [orderCrossover] when the loop over [parent2] starts: -1
    everywhere but in the segment copied from [parent1]. *)
Definition childAfterCopy (start end_ : nat) (parent1 : list JsNum)
  : list JsNum :=
  foldl (λ child i, arraySet i (arrayGet parent1 i) child)
        (replicate (length parent1) (Some (-1)))
        (seq start (end_ + 1 - start)).

(** A computation that returns from every state. *)
Definition total {A} (m : GA A) : Prop :=
  ∀ s, ∃ a s', m s = Returned (a, s').

(** ** The iteration cap *)

(** The records written less the events still queued: the number of
    events the main loop has taken from the queue. *)
Definition eventsProcessed (state : SimulationState) (q : EventQueue) : Z :=
  Z.of_nat (length (completedJobs state)) - Z.of_nat (length q).

(** A single job, and a sequence that names it 5000 times before an id of
    no job. *)
Definition oneJob : list Job.t := [Job.mk 1 100 1 10 5].

Definition longSequence : list JsNum := replicate 5000 (Some 1) ++ [Some 99].

(** A job with negative durations. *)
Definition negativeJob : list Job.t := [Job.mk 1 100 1 (-200) (-100)].

(** ** Rounding in the elite count *)

(** A population of 100 with an elitism rate of 0.29: the exact product
    is 29, the binary64 product is just below it. *)
Definition hundredConfig : GAConfig.t :=
  GAConfig.mk 100 50 3 (8 # 10) (2 # 10) swap (29 # 100) (1 # 2) false 10.
(** * Properties of the event queue *)

Module PriorityQueueFacts.
Import PriorityQueue PriorityQueueSpec.
Section facts.
Context {T : Type} (time : T → Z).

Lemma insertByTime_insertBehind a x l :
  insertByTime time a (insertBehind time x l) =
  insertBehind time x (insertByTime time a l).
Proof.
  induction l as [|y l IH]; simpl.
  - repeat case_decide; try reflexivity; lia.
  - repeat (case_decide; simpl); try reflexivity; try lia.
    by rewrite IH.
Qed.

Lemma sortByTime_snoc l x :
  sortByTime time (l ++ [x]) = insertBehind time x (sortByTime time l).
Proof.
  induction l as [|a l IH]; simpl; [done|].
  fold (sortByTime time (l ++ [x])). fold (sortByTime time l).
  by rewrite IH, insertByTime_insertBehind.
Qed.

Lemma insertByTime_HdRel a l :
  HdRel (byTime time) a l → insertByTime time a l = a :: l.
Proof. destruct 1; simpl; [done|]. by rewrite decide_True. Qed.

Lemma sortByTime_sorted l : Sorted (byTime time) l → sortByTime time l = l.
Proof.
  induction 1 as [|a l Hl IH Hd]; simpl; [done|].
  fold (sortByTime time l). rewrite IH. by apply insertByTime_HdRel.
Qed.

Lemma insertBehind_HdRel a x l :
  time a ≤ time x → HdRel (byTime time) a l → HdRel (byTime time) a (insertBehind time x l).
Proof.
  intros Hax [|y l' Hay]; simpl; [by constructor|].
  case_decide; by constructor.
Qed.

Lemma insertBehind_sorted x l :
  Sorted (byTime time) l → Sorted (byTime time) (insertBehind time x l).
Proof.
  induction 1 as [|y l Hl IH Hd]; simpl.
  - repeat constructor.
  - case_decide.
    + constructor; [by constructor|]. constructor. lia.
    + constructor; [done|]. apply insertBehind_HdRel; [lia|done].
Qed.

(** On a sorted array, [push] is the insertion behind the items that are
    not later. *)
Lemma push_sorted x items :
  Sorted (byTime time) items → push time x items = insertBehind time x items.
Proof.
  intros Hs. unfold push. by rewrite sortByTime_snoc, sortByTime_sorted.
Qed.

Lemma pushAll_sorted evs items :
  Sorted (byTime time) items → Sorted (byTime time) (pushAll time evs items).
Proof.
  revert items. induction evs as [|e evs IH]; simpl; intros items Hs; [done|].
  apply IH. rewrite push_sorted by done. by apply insertBehind_sorted.
Qed.

Lemma pushAll_app evs1 evs2 items :
  pushAll time (evs1 ++ evs2) items =
  pushAll time evs2 (pushAll time evs1 items).
Proof. revert items. induction evs1; simpl; auto. Qed.

Lemma insertBehind_Forall (P : T → Prop) x l :
  P x → Forall P l → Forall P (insertBehind time x l).
Proof.
  intros Hx. induction 1 as [|y l Hy Hl IH]; simpl.
  - by repeat constructor.
  - case_decide; repeat constructor; done.
Qed.

Lemma pushAll_Forall (P : T → Prop) evs items :
  Sorted (byTime time) items → Forall P evs → Forall P items →
  Forall P (pushAll time evs items).
Proof.
  revert items. induction evs as [|e evs IH]; simpl; intros items Hs He Hi;
    [done|].
  inversion_clear He. rewrite push_sorted by done.
  apply IH; [by apply insertBehind_sorted|done|by apply insertBehind_Forall].
Qed.

(** Items pushed after [e] that are not earlier than [e] stay behind it. *)
Lemma pushAll_keeps_head e after items :
  Sorted (byTime time) (e :: items) →
  Forall (λ x, time e ≤ time x) after →
  pushAll time after (e :: items) = e :: pushAll time after items.
Proof.
  revert items. induction after as [|x after IH]; simpl; intros items Hs Ha;
    [done|].
  inversion_clear Ha.
  assert (Sorted (byTime time) items) by (by inversion Hs).
  rewrite !push_sorted by done. simpl.
  rewrite decide_False by lia. apply IH; [|done].
  constructor; [by apply insertBehind_sorted|].
  apply insertBehind_HdRel; [done|by inversion Hs].
Qed.

(** An item earlier than everything queued goes to the front. *)
Lemma push_front e items :
  Sorted (byTime time) items → Forall (λ x, time e < time x) items →
  push time e items = e :: items.
Proof.
  intros Hs Hf. rewrite push_sorted by done.
  destruct Hf; simpl; [done|]. by rewrite decide_True.
Qed.

Lemma pushAll_first_minimum before e after :
  Forall (λ x, time e < time x) before →
  Forall (λ x, time e ≤ time x) after →
  pushAll time (before ++ e :: after) empty =
  e :: pushAll time (before ++ after) empty.
Proof.
  intros Hb Ha. rewrite !pushAll_app. simpl.
  assert (Sorted (byTime time) (pushAll time before empty)) as Hs
    by (apply pushAll_sorted; constructor).
  assert (Forall (λ x, time e < time x) (pushAll time before empty)) as Hf
    by (apply pushAll_Forall; [constructor|done|constructor]).
  rewrite push_front by done.
  apply pushAll_keeps_head; [|done].
  constructor; [done|]. destruct Hf; constructor. lia.
Qed.

(** Every non-empty list splits at the first of its earliest items. *)
Lemma first_minimum_split (evs : list T) :
  evs ≠ [] →
  ∃ before e after, evs = before ++ e :: after ∧
    Forall (λ x, time e < time x) before ∧
    Forall (λ x, time e ≤ time x) after.
Proof.
  induction evs as [|a evs IH]; [done|]. intros _.
  destruct evs as [|b evs'].
  - exists [], a, []. by repeat constructor.
  - destruct IH as (before & e & after & Heq & Hb & Ha); [done|].
    destruct (decide (time a ≤ time e)) as [Hle|Hgt].
    + exists [], a, (b :: evs'). split_and!; [done|constructor|].
      rewrite Heq. apply Forall_app. split.
      * eapply Forall_impl; [exact Hb|]. simpl. lia.
      * constructor; [done|]. eapply Forall_impl; [exact Ha|]. simpl. lia.
    + exists (a :: before), e, after. rewrite Heq.
      split_and!; [done| |done]. constructor; [lia|done].
Qed.
End facts.
End PriorityQueueFacts.

(** * Properties of the simulation *)

(** ** The machine park *)

Lemma elem_of_machinesOfStage s ms i m :
  (i, m) ∈ machinesOfStage s ms ↔ ms !! i = Some m ∧ Machine.stage m = s.
Proof.
  unfold machinesOfStage. rewrite list_elem_of_filter, elem_of_lookup_imap.
  simpl. split.
  - intros (Hs & j & y & Heq & Hj). by simplify_eq.
  - intros [Hi Hs]. split; [done|]. by exists i, m.
Qed.

Lemma shape_lookup ms i m :
  ms !! i = Some m → shape ms !! i = Some (Machine.id m, Machine.stage m).
Proof. intros Hi. unfold shape. by rewrite list_lookup_fmap, Hi. Qed.

Lemma shape_alter f i ms :
  (∀ m, Machine.id (f m) = Machine.id m ∧ Machine.stage (f m) = Machine.stage m) →
  shape (alter f i ms) = shape ms.
Proof.
  intros Hf. unfold shape. apply list_eq. intros j.
  rewrite !list_lookup_fmap. destruct (decide (i = j)) as [->|Hne].
  - rewrite list_lookup_alter_eq. destruct (ms !! j) as [m|]; simpl; [|done].
    by destruct (Hf m) as [-> ->].
  - by rewrite list_lookup_alter_ne.
Qed.

Lemma initial_ids_NoDup : NoDup (fst <$> shape initialMachines).
Proof. apply (bool_decide_unpack _). by vm_compute. Qed.

(** Machines of the park are told apart by their id. *)
Lemma same_id_same_index ms i j mi mj :
  shape ms = shape initialMachines →
  ms !! i = Some mi → ms !! j = Some mj → Machine.id mi = Machine.id mj → i = j.
Proof.
  intros Hs Hi Hj Hid.
  apply (NoDup_lookup (fst <$> shape ms) i j (Machine.id mi)).
  - rewrite Hs. apply initial_ids_NoDup.
  - by rewrite list_lookup_fmap, (shape_lookup _ _ _ Hi).
  - by rewrite list_lookup_fmap, (shape_lookup _ _ _ Hj), Hid.
Qed.

Lemma stage2_machines_exist ms :
  shape ms = shape initialMachines → machinesOfStage Stage2 ms ≠ [].
Proof.
  intros Hs Hnil.
  assert (shape ms !! 4%nat = Some (5, Stage2)) as H4 by (by rewrite Hs).
  unfold shape in H4. rewrite list_lookup_fmap in H4.
  destruct (ms !! 4%nat) as [m|] eqn:Hm; simplify_eq/=.
  assert ((4%nat, m) ∈ machinesOfStage Stage2 ms) as Hin
    by (by apply elem_of_machinesOfStage).
  rewrite Hnil in Hin. by apply not_elem_of_nil in Hin.
Qed.

(** ** The candidate loop of stage 1 *)

Lemma considerMachine_bestAmong now job kit seen best im :
  bestAmong now job kit seen best →
  bestAmong now job kit (seen ++ [im]) (considerMachine now job kit best im).
Proof.
  unfold bestAmong, considerMachine. intros Hb.
  destruct (stage1Setup job kit im.2) as [d|] eqn:Hd.
  - destruct (bestMachine best) as [im0|] eqn:Hbm.
    + destruct Hb as (Hin & Hreq & Hs0 & Hst & Hmin). rewrite Hst. simpl.
      case_bool_decide as Hlt; simpl.
      * split_and!; [set_solver|done|done|done|].
        intros im' d' [Hin'|Hin']%elem_of_app Hd'.
        -- specialize (Hmin im' d' Hin' Hd'). lia.
        -- apply list_elem_of_singleton in Hin' as ->. simplify_eq. lia.
      * rewrite Hbm. split_and!; [set_solver|done|done|done|].
        intros im' d' [Hin'|Hin']%elem_of_app Hd'.
        -- by apply Hmin.
        -- apply list_elem_of_singleton in Hin' as ->. simplify_eq. lia.
    + destruct Hb as [Hst Hnone]. rewrite Hst. simpl.
      split_and!; [set_solver|done|done|done|].
      intros im' d' [Hin'|Hin']%elem_of_app Hd'.
      * rewrite (Hnone _ Hin') in Hd'. done.
      * apply list_elem_of_singleton in Hin' as ->. simplify_eq. lia.
  - destruct (bestMachine best) as [im0|] eqn:Hbm.
    + destruct Hb as (Hin & Hreq & Hs0 & Hst & Hmin).
      split_and!; [set_solver|done|done|done|].
      intros im' d' [Hin'|Hin']%elem_of_app Hd'.
      * by apply Hmin.
      * apply list_elem_of_singleton in Hin' as ->. congruence.
    + destruct Hb as [Hst Hnone]. split; [done|].
      intros im' [Hin'|Hin']%elem_of_app; [by apply Hnone|].
      by apply list_elem_of_singleton in Hin' as ->.
Qed.

Lemma foldl_considerMachine now job kit l seen best :
  bestAmong now job kit seen best →
  bestAmong now job kit (seen ++ l) (foldl (considerMachine now job kit) best l).
Proof.
  revert seen best. induction l as [|im l IH]; intros seen best Hb; simpl.
  - by rewrite app_nil_r.
  - replace (seen ++ im :: l) with ((seen ++ [im]) ++ l)
      by (by rewrite <-app_assoc).
    apply IH. by apply considerMachine_bestAmong.
Qed.

Lemma chooseStage1Machine_bestAmong now job kit ms :
  bestAmong now job kit (machinesOfStage Stage1 ms)
            (chooseStage1Machine now job kit ms).
Proof.
  unfold chooseStage1Machine.
  apply (foldl_considerMachine now job kit _ [] noBest).
  split; [done|]. intros im Hin. by apply not_elem_of_nil in Hin.
Qed.

(** What a pass of the stage-1 loop that assigns has read. *)
Lemma stage1Pass_Some state q state' q' :
  stage1Pass state q = Some (state', q') →
  ∃ jobId rest job kit i machine,
    stage1Queue state = jobId :: rest ∧
    mapGet (jobsMap state) jobId = Some job ∧
    setupKits state !! Job.family job = Some kit ∧
    bestMachine (chooseStage1Machine (currentTime state) job kit
                                     (machines state)) = Some (i, machine) ∧
    (state', q') =
      assignStage1 jobId job kit
        (chooseStage1Machine (currentTime state) job kit (machines state))
        i machine state q.
Proof.
  unfold stage1Pass. intros H.
  destruct (stage1Queue state) as [|jobId rest] eqn:Hq; [done|].
  destruct (mapGet (jobsMap state) jobId) as [job|] eqn:Hjob; [|done].
  destruct (setupKits state !! Job.family job) as [kit|] eqn:Hkit; [|done].
  destruct (bestMachine _) as [[i machine]|] eqn:Hb; [|done].
  exists jobId, rest, job, kit, i, machine. split_and!; [done..|congruence].
Qed.

(** ** A stage-1 assignment keeps the state well formed *)

Lemma lookup_alter_twice {A} (f g : A → A) i j (l : list A) :
  alter f i (alter g i l) !! j =
  if decide (i = j) then f <$> (g <$> l !! j) else l !! j.
Proof.
  case_decide as Hij.
  - subst. by rewrite !list_lookup_alter_eq.
  - by rewrite !list_lookup_alter_ne.
Qed.

(** A machine the candidate loop accepts for a job is the one the job's kit
    is bound to, unless the kit is bound to none. *)
Lemma feasible_kit_here jobs state i m job kit d :
  wellFormed jobs state →
  machines state !! i = Some m →
  setupKits state !! Job.family job = Some kit →
  stage1Setup job kit m = Some d →
  SetupKit.currentMachine kit = None ∨
  SetupKit.currentMachine kit = Some (Machine.id m).
Proof.
  intros Hwf Hi Hkit Hd. unfold stage1Setup in Hd.
  case_decide as Hmounted.
  - destruct (wf_mount _ _ Hwf i m _ Hi Hmounted) as (kit0 & Hk0 & Hcm).
    right. congruence.
  - case_decide as Helse; [done|].
    destruct (SetupKit.currentMachine kit) as [x|]; [|by left].
    right. destruct (decide (x = Machine.id m)) as [->|Hne]; [done|].
    destruct Helse. split; congruence.
Qed.

Lemma removeKitFromOldMachine_here kit bestId ms :
  SetupKit.currentMachine kit = None ∨
  SetupKit.currentMachine kit = Some bestId →
  removeKitFromOldMachine kit bestId ms = ms.
Proof.
  intros Hk. unfold removeKitFromOldMachine.
  case_decide as H; [|done]. destruct H as [H1 H2]. by destruct Hk.
Qed.

Lemma chosen_machine now job kit ms i m :
  bestMachine (chooseStage1Machine now job kit ms) = Some (i, m) →
  ms !! i = Some m ∧ Machine.stage m = Stage1 ∧
  setupRequired (chooseStage1Machine now job kit ms) = true ∧
  stage1Setup job kit m =
    Some (bestSetupTime (chooseStage1Machine now job kit ms)).
Proof.
  intros Hb. pose proof (chooseStage1Machine_bestAmong now job kit ms) as H.
  unfold bestAmong in H. rewrite Hb in H.
  destruct H as (Hin & Hreq & Hs & _).
  apply elem_of_machinesOfStage in Hin as [Hi Hst]. done.
Qed.

Lemma stage1Setup_ge job kit m d : stage1Setup job kit m = Some d → 20 ≤ d.
Proof.
  unfold stage1Setup, SETUP_TIME_SMD_MINOR, SETUP_TIME_SMD_MAJOR.
  repeat case_decide; intros; simplify_eq; lia.
Qed.

(** The state after an assignment on a machine the kit is free for. *)
Lemma assignStage1_state jobs state q jobId job kit i m state' q' :
  wellFormed jobs state →
  setupKits state !! Job.family job = Some kit →
  bestMachine (chooseStage1Machine (currentTime state) job kit
                                   (machines state)) = Some (i, m) →
  (state', q') =
    assignStage1 jobId job kit
      (chooseStage1Machine (currentTime state) job kit (machines state))
      i m state q →
  ∃ d record,
    stage1Setup job kit m = Some d ∧
    machines state !! i = Some m ∧ Machine.stage m = Stage1 ∧
    (SetupKit.currentMachine kit = None ∨
     SetupKit.currentMachine kit = Some (Machine.id m)) ∧
    let jobEndTime := candidateStart (currentTime state) kit m d + Job.t_smd job in
    record =
      ScheduledJob.mk jobId (Machine.id m) Stage1
        (candidateStart (currentTime state) kit m d) jobEndTime d
        (if decide (d = SETUP_TIME_SMD_MAJOR) then setup_major else setup_minor)
        (Some (max3 (currentTime state) (Machine.availableAt m)
                    (SetupKit.availableAt kit)))
        (Job.t_smd job) (Job.family job) false 0 ∧
    currentTime state' = currentTime state ∧
    machines state' =
      alter (setMachineKit (Some (Job.family job))) i
            (alter (setMachineBusy jobId jobEndTime) i (machines state)) ∧
    setupKits state' =
      <[Job.family job :=
          SetupKit.mk (SetupKit.family kit) (Some (Machine.id m))
                      (SetupKit.inTransit kit) jobEndTime]> (setupKits state) ∧
    stage1Queue state' = tail (stage1Queue state) ∧
    stage2Queue state' = stage2Queue state ∧
    completedJobs state' = completedJobs state ++ [record] ∧
    jobsMap state' = jobsMap state ∧
    q' = pushEvent (SimulationEvent.mk STAGE1_COMPLETE jobEndTime jobId
                      (Some (Machine.id m)) (Some Stage1) None) q.
Proof.
  intros Hwf Hkit Hb Heq.
  destruct (chosen_machine _ _ _ _ _ _ Hb) as (Hi & Hst & Hreq & Hs).
  pose proof (feasible_kit_here _ _ _ _ _ _ _ Hwf Hi Hkit Hs) as Hhere.
  unfold assignStage1 in Heq. rewrite Hreq in Heq.
  rewrite removeKitFromOldMachine_here in Heq by done.
  injection Heq as -> ->.
  eexists _, _. split_and!; try done.
Qed.

Lemma setMachine_shape f jobId t i ms :
  shape (alter (setMachineKit f) i (alter (setMachineBusy jobId t) i ms)) =
  shape ms.
Proof. rewrite !shape_alter; [done|by intros []..]. Qed.

Lemma stage1Pass_wellFormed jobs state q state' q' :
  wellFormed jobs state →
  stage1Pass state q = Some (state', q') →
  wellFormed jobs state'.
Proof.
  intros Hwf Hpass.
  destruct (stage1Pass_Some _ _ _ _ Hpass)
    as (jobId & rest & job & kit & i & m & Hq & Hjob & Hkit & Hb & Heq).
  destruct (assignStage1_state _ _ _ _ _ _ _ _ _ _ Hwf Hkit Hb Heq)
    as (d & record & Hd & Hi & Hst & Hhere & Hrec & Hnow & Hms & Hkits &
        Hq1 & Hq2 & Hdone & Hjm & Hq').
  simpl in Hrec.
  split.
  - rewrite Hms, setMachine_shape. apply Hwf.
  - rewrite Hjm. apply Hwf.
  - (* mounted families *)
    intros i' m' f' Hi' Hf'. rewrite Hms, lookup_alter_twice in Hi'.
    rewrite Hkits. case_decide as Hii.
    + subst i'. rewrite Hi in Hi'. simpl in Hi'. simplify_eq. simpl in *.
      simplify_eq. eexists. by rewrite lookup_insert_eq.
    + destruct (wf_mount _ _ Hwf i' m' f' Hi' Hf') as (kit0 & Hk0 & Hcm).
      destruct (decide (f' = Job.family job)) as [->|Hne].
      * exfalso. apply Hii. simplify_eq.
        destruct Hhere as [Hn|Hs]; [congruence|].
        rewrite Hs in Hcm. simplify_eq.
        by eapply same_id_same_index; [apply Hwf|..].
      * exists kit0. by rewrite lookup_insert_ne.
  - (* bound kits *)
    intros f' kit0 x Hk0 Hcm. rewrite Hkits in Hk0. rewrite Hms.
    destruct (decide (f' = Job.family job)) as [->|Hne].
    + rewrite lookup_insert_eq in Hk0. simplify_eq. simpl in Hcm. simplify_eq.
      eexists i, _. rewrite lookup_alter_twice, decide_True, Hi by done.
      simpl. by split_and!.
    + rewrite lookup_insert_ne in Hk0 by done.
      destruct (wf_kits _ _ Hwf f' kit0 x Hk0 Hcm) as (j & mj & Hj & Hsj & Hidj).
      destruct (decide (i = j)) as [->|Hij].
      * eexists j, _. rewrite lookup_alter_twice, decide_True, Hj by done.
        simpl. by split_and!.
      * exists j, mj. by rewrite lookup_alter_twice, decide_False.
  - (* kits of the jobs *)
    intros k job0 Hk. rewrite Hjm in Hk. rewrite Hkits.
    destruct (decide (Job.family job0 = Job.family job)) as [->|Hne].
    + by rewrite lookup_insert_eq.
    + rewrite lookup_insert_ne by done. by eapply wf_cover.
  - (* stage-1 records *)
    intros sj Hin Hs1. rewrite Hdone in Hin. rewrite Hkits.
    apply elem_of_app in Hin as [Hin|Hin].
    + destruct (wf_records _ _ Hwf sj Hin Hs1) as (kit0 & Hk0 & Hcm).
      destruct (decide (ScheduledJob.family sj = Job.family job)) as [Hf|Hne].
      * rewrite Hf, lookup_insert_eq. eexists. split; [done|]. simpl.
        rewrite Hf in Hk0. simplify_eq.
        destruct Hhere as [Hn|Hs]; congruence.
      * exists kit0. by rewrite lookup_insert_ne.
    + apply list_elem_of_singleton in Hin as ->. rewrite Hrec. simpl.
      rewrite lookup_insert_eq. by eexists.
  - (* stage-2 records *)
    intros sj Hin Hs2. rewrite Hdone in Hin. rewrite Hjm.
    apply elem_of_app in Hin as [Hin|Hin]; [by apply Hwf|].
    apply list_elem_of_singleton in Hin as ->. by rewrite Hrec in Hs2.
Qed.

(** ** Stage 2 *)

Lemma foldl_earlierAvailable l best :
  let r := foldl earlierAvailable best l in
  (r = best ∨ r ∈ l) ∧
  Machine.availableAt r.2 ≤ Machine.availableAt best.2 ∧
  ∀ im, im ∈ l → Machine.availableAt r.2 ≤ Machine.availableAt im.2.
Proof.
  revert best. induction l as [|x l IH]; intros best; simpl.
  - split_and!; [by left|lia|]. intros im Hin. by apply not_elem_of_nil in Hin.
  - destruct (IH (earlierAvailable best x)) as (Hin & Hle & Hall).
    assert (Machine.availableAt (earlierAvailable best x).2 ≤
              Machine.availableAt best.2 ∧
            Machine.availableAt (earlierAvailable best x).2 ≤
              Machine.availableAt x.2 ∧
            (earlierAvailable best x = best ∨ earlierAvailable best x = x))
      as (H1 & H2 & H3).
    { unfold earlierAvailable. case_decide; split_and!; auto; lia. }
    split_and!.
    + destruct Hin as [->|Hin]; [|right; set_solver].
      destruct H3 as [->| ->]; [by left|right; set_solver].
    + lia.
    + intros im [->|Hin']%elem_of_cons; [lia|by apply Hall].
Qed.

(** The machine [reduce] picks is one of the earliest available. *)
Lemma reduce_earlierAvailable l i m :
  reduce earlierAvailable l = Returned (i, m) →
  (i, m) ∈ l ∧
  ∀ im, im ∈ l → Machine.availableAt m ≤ Machine.availableAt im.2.
Proof.
  destruct l as [|x l]; simpl; [done|]. intros [= Heq].
  destruct (foldl_earlierAvailable l x) as (Hin & Hle & Hall).
  rewrite Heq in *. simpl in *. split.
  - destruct Hin as [<-|Hin]; set_solver.
  - intros im [->|Hin']%elem_of_cons; [done|by apply Hall].
Qed.

Lemma reduce_nonempty {A} (f : A → A → A) l :
  l ≠ [] → ∃ r, reduce f l = Returned r.
Proof. destruct l; [done|]. intros _. by eexists. Qed.

Lemma stage2Pass_Some state q state' q' :
  stage2Pass state q = Returned (Some (state', q')) →
  ∃ jobId rest job i machine stage1Job,
    stage2Queue state = jobId :: rest ∧
    mapGet (jobsMap state) jobId = Some job ∧
    reduce earlierAvailable (machinesOfStage Stage2 (machines state)) =
      Returned (i, machine) ∧
    findStage1Job jobId (completedJobs state) = Some stage1Job ∧
    (state', q') = assignStage2 jobId job i machine stage1Job state q.
Proof.
  unfold stage2Pass. intros H.
  destruct (stage2Queue state) as [|jobId rest] eqn:Hq; [done|].
  destruct (mapGet (jobsMap state) jobId) as [job|] eqn:Hjob; [|done].
  destruct (reduce _ _) as [[i machine]|] eqn:Hred; [|done].
  simpl in H.
  destruct (findStage1Job _ _) as [stage1Job|] eqn:Hs1; [|done].
  exists jobId, rest, job, i, machine, stage1Job.
  split_and!; [done..|congruence].
Qed.

(** With a stage-2 machine in the park, a pass of the stage-2 loop does not
    throw. *)
Lemma stage2Pass_returns state q :
  machinesOfStage Stage2 (machines state) ≠ [] →
  ∃ r, stage2Pass state q = Returned r.
Proof.
  intros Hne. unfold stage2Pass.
  destruct (stage2Queue state) as [|jobId rest]; [by eexists|].
  destruct (mapGet (jobsMap state) jobId) as [job|]; [|by eexists].
  destruct (reduce_nonempty earlierAvailable _ Hne) as [[i m] ->]. simpl.
  destruct (findStage1Job _ _); by eexists.
Qed.

Lemma stage2Pass_wellFormed jobs state q state' q' :
  wellFormed jobs state →
  stage2Pass state q = Returned (Some (state', q')) →
  wellFormed jobs state'.
Proof.
  intros Hwf Hpass.
  destruct (stage2Pass_Some _ _ _ _ Hpass)
    as (jobId & rest & job & i & m & s1 & Hq & Hjob & Hred & Hs1 & Heq).
  unfold assignStage2 in Heq. injection Heq as -> ->.
  split; simpl.
  - rewrite shape_alter; [apply Hwf|by intros []].
  - apply Hwf.
  - intros i' m' f' Hi' Hf'. simpl in Hi'. rewrite list_lookup_alter in Hi'.
    case_decide; [|by apply (wf_mount _ _ Hwf i' m')].
    subst. destruct (machines state !! i') as [m0|] eqn:Hm0; simplify_eq/=.
    by apply (wf_mount _ _ Hwf i' m0).
  - intros f' kit x Hk Hcm. simpl in *.
    destruct (wf_kits _ _ Hwf f' kit x Hk Hcm) as (j & mj & Hj & Hsj & Hidj).
    destruct (decide (i = j)) as [->|Hij].
    + eexists j, _. rewrite list_lookup_alter_eq, Hj. simpl. by split_and!.
    + exists j, mj. by rewrite list_lookup_alter_ne.
  - apply Hwf.
  - intros sj [Hin|Hin]%elem_of_app Hst; [by apply Hwf|].
    apply list_elem_of_singleton in Hin as ->. done.
  - intros sj [Hin|Hin]%elem_of_app Hst; [by apply Hwf|].
    apply list_elem_of_singleton in Hin as ->.
    split_and!; simpl; [done|done|by eexists|].
    exists job. by split_and!.
Qed.

(** ** Events *)

Lemma releaseMachine_wellFormed jobs id state :
  wellFormed jobs state → wellFormed jobs (releaseMachine id state).
Proof.
  intros Hwf. unfold releaseMachine.
  destruct (findMachine id (machines state)) as [i|]; [|by destruct Hwf].
  split; simpl; try apply Hwf.
  - rewrite shape_alter; [apply Hwf|by intros []].
  - intros i' m' f' Hi' Hf'. simpl in Hi'. rewrite list_lookup_alter in Hi'.
    case_decide; [|by apply (wf_mount _ _ Hwf i' m')].
    subst. destruct (machines state !! i') as [m0|] eqn:Hm0; simplify_eq/=.
    by apply (wf_mount _ _ Hwf i' m0).
  - intros f' kit x Hk Hcm. simpl in *.
    destruct (wf_kits _ _ Hwf f' kit x Hk Hcm) as (j & mj & Hj & Hsj & Hidj).
    destruct (decide (i = j)) as [->|Hij].
    + eexists j, _. rewrite list_lookup_alter_eq, Hj. simpl. by split_and!.
    + exists j, mj. by rewrite list_lookup_alter_ne.
Qed.

Lemma applyEvent_wellFormed jobs event state :
  wellFormed jobs state → wellFormed jobs (applyEvent event state).
Proof.
  intros Hwf.
  assert (wellFormed jobs (setCurrentTime (SimulationEvent.time event) state))
    as Hwf1 by (by destruct Hwf).
  unfold applyEvent. destruct (SimulationEvent.type event); try done.
  - pose proof (releaseMachine_wellFormed jobs
                  (SimulationEvent.machineId event) _ Hwf1) as Hwf2.
    by destruct Hwf2.
  - by apply releaseMachine_wellFormed.
Qed.

(** [processEvent] is the direct effect of the event, followed by the
    stage-2 loop for a stage-1 completion. *)
Lemma processEvent_applyEvent event state q :
  processEvent event state q =
  match SimulationEvent.type event with
  | STAGE1_COMPLETE => tryAssignStage2Jobs (applyEvent event state) q
  | _ => Returned (applyEvent event state, q)
  end.
Proof. unfold processEvent, applyEvent. by destruct (SimulationEvent.type event). Qed.

(** ** The initial state *)

Lemma buildJobsMap_elem jobs k job :
  buildJobsMap jobs !! k = Some job → job ∈ jobs ∧ Job.id job = k.
Proof.
  unfold buildJobsMap.
  cut (∀ m : gmap Z Job.t,
         (∀ k job, m !! k = Some job → job ∈ jobs ∧ Job.id job = k) →
         ∀ l, (∀ j, j ∈ l → j ∈ jobs) →
         ∀ k job, foldl (λ m j, <[Job.id j:=j]> m) m l !! k = Some job →
                  job ∈ jobs ∧ Job.id job = k).
  { intros H. apply (H ∅); [by intros ?? ?%lookup_empty_Some|auto]. }
  intros m Hm l. revert m Hm. induction l as [|j l IH]; intros m Hm Hl; simpl.
  - done.
  - apply IH; [|set_solver]. intros k' job'.
    rewrite lookup_insert_Some. intros [[<- <-]|[_ H]]; [|by apply Hm].
    split; [|done]. apply Hl. set_solver.
Qed.

Lemma buildSetupKits_foldl (l : list Job.t) (m : gmap Z SetupKit.t) :
  let add := λ (m : gmap Z SetupKit.t) j,
    match m !! Job.family j with
    | Some _ => m
    | None => <[Job.family j := SetupKit.mk (Job.family j) None false 0]> m
    end in
  (∀ f kit, m !! f = Some kit →
            SetupKit.currentMachine kit = None ∧ SetupKit.availableAt kit = 0) →
  (∀ f kit, foldl add m l !! f = Some kit →
            SetupKit.currentMachine kit = None ∧ SetupKit.availableAt kit = 0) ∧
  (∀ f, is_Some (m !! f) → is_Some (foldl add m l !! f)) ∧
  (∀ j, j ∈ l → is_Some (foldl add m l !! Job.family j)).
Proof.
  simpl. revert m. induction l as [|j l IH]; intros m Hm; simpl.
  - split_and!; [done|done|]. intros j Hj. by apply not_elem_of_nil in Hj.
  - match goal with |- context [foldl ?f ?m' l] =>
      destruct (IH m') as (H1 & H2 & H3) end.
    { destruct (m !! Job.family j) eqn:Hf; [done|].
      intros f kit. rewrite lookup_insert_Some.
      intros [[<- <-]|[_ H]]; [done|by eapply Hm]. }
    split_and!; [done| |].
    + intros f Hf. apply H2. destruct (m !! Job.family j) eqn:Hj; [done|].
      rewrite lookup_insert_is_Some. destruct (decide (Job.family j = f)); auto.
    + intros j' [->|Hin]%elem_of_cons; [|by apply H3].
      apply H2. destruct (m !! Job.family j) eqn:Hj; [by rewrite Hj|].
      by rewrite lookup_insert_eq.
Qed.

Lemma buildSetupKits_unbound jobs f kit :
  buildSetupKits jobs !! f = Some kit →
  SetupKit.currentMachine kit = None ∧ SetupKit.availableAt kit = 0.
Proof.
  apply (buildSetupKits_foldl jobs ∅). by intros ?? ?%lookup_empty_Some.
Qed.

Lemma buildSetupKits_cover jobs job :
  job ∈ jobs → is_Some (buildSetupKits jobs !! Job.family job).
Proof.
  apply (buildSetupKits_foldl jobs ∅). by intros ?? ?%lookup_empty_Some.
Qed.

Lemma initialMachines_idle :
  Forall (λ m, Machine.currentSetupKit m = None ∧ Machine.availableAt m = 0)
         initialMachines.
Proof. repeat constructor. Qed.

Lemma initializeState_wellFormed jobs jobSequence :
  wellFormed jobs (initializeState jobs jobSequence).
Proof.
  split; simpl; try done.
  - intros i m f Hi Hf.
    pose proof initialMachines_idle as Hidle.
    rewrite Forall_lookup in Hidle. destruct (Hidle i m Hi). congruence.
  - intros f kit x Hk Hcm. apply buildSetupKits_unbound in Hk as [? _].
    congruence.
  - intros k job Hk. apply buildJobsMap_elem in Hk as [Hin _].
    by apply buildSetupKits_cover.
  - intros sj Hin. by apply not_elem_of_nil in Hin.
  - intros sj Hin. by apply not_elem_of_nil in Hin.
Qed.

(** ** Every state of a run is well formed *)

Lemma reachable_wellFormed jobs jobSequence state q :
  reachable jobs jobSequence state q → wellFormed jobs state.
Proof.
  induction 1.
  - apply initializeState_wellFormed.
  - by eapply stage1Pass_wellFormed.
  - by eapply stage2Pass_wellFormed.
  - by apply applyEvent_wellFormed.
Qed.

Lemma wellFormed_kitExclusive jobs state :
  wellFormed jobs state → kitExclusive state.
Proof.
  intros Hwf i j mi mj f Hi Hj _ _ Hfi Hfj.
  destruct (wf_mount _ _ Hwf i mi f Hi Hfi) as (ki & Hki & Hci).
  destruct (wf_mount _ _ Hwf j mj f Hj Hfj) as (kj & Hkj & Hcj).
  simplify_eq. eapply same_id_same_index; [apply Hwf|done|done|congruence].
Qed.

Lemma wellFormed_sameFamilySameMachine jobs state :
  wellFormed jobs state → sameFamilySameMachine (completedJobs state).
Proof.
  intros Hwf a b Ha Hb Hsa Hsb Hf.
  destruct (wf_records _ _ Hwf a Ha Hsa) as (ka & Hka & Hca).
  destruct (wf_records _ _ Hwf b Hb Hsb) as (kb & Hkb & Hcb).
  rewrite Hf in Hka. congruence.
Qed.

(** ** The loops *)

Lemma stage1Loop_reachable jobs jobSequence n state q :
  reachable jobs jobSequence state q →
  reachable jobs jobSequence (stage1Loop n state q).1 (stage1Loop n state q).2.
Proof.
  revert state q. induction n as [|n IH]; intros state q Hr; simpl; [done|].
  destruct (stage1Pass state q) as [[state' q']|] eqn:Hpass; [|done].
  apply IH. by eapply reach_stage1.
Qed.

Lemma tryAssignStage1Jobs_reachable jobs jobSequence state q state' q' :
  reachable jobs jobSequence state q →
  tryAssignStage1Jobs state q = (state', q') →
  reachable jobs jobSequence state' q'.
Proof.
  intros Hr Heq.
  pose proof (stage1Loop_reachable _ _ (length (stage1Queue state)) _ _ Hr) as H.
  unfold tryAssignStage1Jobs in Heq. by rewrite Heq in H.
Qed.

Lemma stage2Loop_reachable jobs jobSequence n state q :
  reachable jobs jobSequence state q →
  ∃ state' q', stage2Loop n state q = Returned (state', q') ∧
               reachable jobs jobSequence state' q'.
Proof.
  revert state q. induction n as [|n IH]; intros state q Hr; simpl.
  - by eexists _, _.
  - destruct (stage2Pass_returns state q) as [r Hpass].
    { apply stage2_machines_exist. eapply wf_shape, reachable_wellFormed, Hr. }
    rewrite Hpass. simpl. destruct r as [[state' q']|].
    + apply IH. by eapply reach_stage2.
    + by eexists _, _.
Qed.

Lemma processEvent_reachable jobs jobSequence state q event q0 :
  reachable jobs jobSequence state q →
  popEvent q = (Some event, q0) →
  ∃ state' q', processEvent event state q0 = Returned (state', q') ∧
               reachable jobs jobSequence state' q'.
Proof.
  intros Hr Hpop. rewrite processEvent_applyEvent.
  pose proof (reach_event _ _ _ _ _ _ Hr Hpop) as Hr'.
  destruct (SimulationEvent.type event); try by eexists _, _.
  by apply stage2Loop_reachable.
Qed.

(** The main loop never throws, and ends in a state of the run. *)
Lemma eventLoop_reachable jobs jobSequence budget state q :
  reachable jobs jobSequence state q →
  ∃ state' q' warned,
    eventLoop budget state q = Returned (state', q', warned) ∧
    reachable jobs jobSequence state' q'.
Proof.
  revert state q. induction budget as [|n IH]; intros state q Hr; simpl.
  - by eexists _, _, _.
  - destruct q as [|event q0]; simpl; [by eexists _, _, _|].
    destruct (processEvent_reachable _ _ state (event :: q0) event q0 Hr)
      as (state1 & q1 & -> & Hr1); [done|]. simpl.
    destruct (tryAssignStage1Jobs state1 q1) as [state2 q2] eqn:Hs1.
    apply IH. by eapply tryAssignStage1Jobs_reachable.
Qed.

Lemma simulate_reachable jobs jobSequence :
  ∃ state q warned,
    simulate jobs jobSequence = Returned (state, q, warned) ∧
    reachable jobs jobSequence state q.
Proof.
  unfold simulate.
  destruct (tryAssignStage1Jobs _ _) as [state0 q0] eqn:Hs1.
  apply eventLoop_reachable.
  eapply tryAssignStage1Jobs_reachable; [apply reach_init|done].
Qed.

(** [runSimulation] returns a schedule for every input. *)
Lemma runSimulationLogged_returns jobs jobSequence :
  ∃ state q warned,
    simulate jobs jobSequence = Returned (state, q, warned) ∧
    reachable jobs jobSequence state q ∧
    runSimulationLogged jobs jobSequence =
      Returned (buildSchedule (completedJobs state), warned) ∧
    runSimulation jobs jobSequence =
      Returned (buildSchedule (completedJobs state)).
Proof.
  destruct (simulate_reachable jobs jobSequence) as (state & q & w & Hs & Hr).
  exists state, q, w. unfold runSimulation, runSimulationLogged.
  rewrite Hs. by simpl.
Qed.

(** ** Times, when no duration is negative *)

Lemma known_job_durations jobs state jobId job :
  nonnegDurations jobs → wellFormed jobs state →
  mapGet (jobsMap state) jobId = Some job →
  0 ≤ Job.t_smd job ∧ 0 ≤ Job.t_aoi job.
Proof.
  intros Hd Hwf Hjob. destruct jobId as [k|]; [|done]. simpl in Hjob.
  rewrite (wf_jobsMap _ _ Hwf) in Hjob.
  apply buildJobsMap_elem in Hjob as [Hin _].
  unfold nonnegDurations in Hd. rewrite Forall_forall in Hd. by apply Hd.
Qed.

Lemma max3_ge a b c : a ≤ max3 a b c ∧ b ≤ max3 a b c ∧ c ≤ max3 a b c.
Proof. unfold max3. lia. Qed.

Lemma stage1Pass_timely jobs state q state' q' :
  nonnegDurations jobs → wellFormed jobs state → timely state →
  stage1Pass state q = Some (state', q') →
  timely state'.
Proof.
  intros Hdur Hwf Htm Hpass.
  destruct (stage1Pass_Some _ _ _ _ Hpass)
    as (jobId & rest & job & kit & i & m & Hq & Hjob & Hkit & Hb & Heq).
  destruct (assignStage1_state _ _ _ _ _ _ _ _ _ _ Hwf Hkit Hb Heq)
    as (d & record & Hd & Hi & Hst & Hhere & Hrec & Hnow & Hms & Hkits &
        Hq1 & Hq2 & Hdone & Hjm & Hq').
  simpl in Hrec.
  destruct (known_job_durations _ _ _ _ Hdur Hwf Hjob) as [Hsmd _].
  pose proof (stage1Setup_ge _ _ _ _ Hd) as Hd20.
  pose proof (max3_ge (currentTime state) (Machine.availableAt m)
                      (SetupKit.availableAt kit)) as (Hm1 & Hm2 & Hm3).
  assert (0 ≤ Machine.availableAt m) as Hm0.
  { pose proof (tm_machines _ Htm) as HF. rewrite Forall_lookup in HF.
    by apply (HF i m). }
  split.
  - rewrite Hms. apply Forall_lookup. intros j mj Hj.
    rewrite lookup_alter_twice in Hj. case_decide.
    + subst. rewrite Hi in Hj. simplify_eq/=. unfold candidateStart. lia.
    + pose proof (tm_machines _ Htm) as HF. rewrite Forall_lookup in HF.
      by apply (HF j mj).
  - rewrite Hdone. apply Forall_app. split; [apply Htm|].
    constructor; [|done]. rewrite Hrec. simpl. unfold candidateStart. lia.
  - intros sj Hin Hs1. rewrite Hdone in Hin. rewrite Hkits.
    apply elem_of_app in Hin as [Hin|Hin].
    + destruct (tm_kits _ Htm sj Hin Hs1) as (kit0 & Hk0 & Hle).
      destruct (decide (ScheduledJob.family sj = Job.family job)) as [Hf|Hne].
      * rewrite Hf, lookup_insert_eq. eexists. split; [done|]. simpl.
        rewrite Hf in Hk0. simplify_eq. unfold candidateStart. lia.
      * exists kit0. by rewrite lookup_insert_ne.
    + apply list_elem_of_singleton in Hin as ->. rewrite Hrec. simpl.
      rewrite lookup_insert_eq. eexists. split; [done|]. simpl. lia.
  - intros a b sa sb Ha Hb' Hlt Hsa Hsb Hf. rewrite Hdone in Ha, Hb'.
    apply lookup_app_Some in Hb' as [Hb'|[Hge Hb']].
    + assert (completedJobs state !! a = Some sa) as Ha'.
      { apply lookup_lt_Some in Hb'. by rewrite lookup_app_l in Ha by lia. }
      by apply (tm_serialized _ Htm a b sa sb).
    + apply list_lookup_singleton_Some in Hb' as [Hb0 <-].
      rewrite lookup_app_l in Ha by lia.
      apply list_elem_of_lookup_2 in Ha.
      destruct (tm_kits _ Htm sa Ha Hsa) as (kit0 & Hk0 & Hle).
      rewrite Hrec in Hf |- *. simpl in *. rewrite Hf in Hk0. simplify_eq.
      eexists. split; [done|]. lia.
Qed.

Lemma stage2Pass_timely jobs state q state' q' :
  nonnegDurations jobs → wellFormed jobs state → timely state →
  stage2Pass state q = Returned (Some (state', q')) →
  timely state'.
Proof.
  intros Hdur Hwf Htm Hpass.
  destruct (stage2Pass_Some _ _ _ _ Hpass)
    as (jobId & rest & job & i & m & s1 & Hq & Hjob & Hred & Hs1 & Heq).
  unfold assignStage2 in Heq. injection Heq as -> ->.
  destruct (known_job_durations _ _ _ _ Hdur Hwf Hjob) as [_ Haoi].
  apply reduce_earlierAvailable in Hred as [Hin _].
  apply elem_of_machinesOfStage in Hin as [Hi _].
  pose proof (max3_ge (ScheduledJob.endTime s1) (Machine.availableAt m)
                      (currentTime state)) as (Hm1 & Hm2 & Hm3).
  assert (0 ≤ Machine.availableAt m) as Hm0.
  { pose proof (tm_machines _ Htm) as HF. rewrite Forall_lookup in HF.
    by apply (HF i m). }
  unfold SETUP_TIME_AOI.
  split; simpl.
  - apply Forall_lookup. intros j mj Hj. rewrite list_lookup_alter in Hj.
    case_decide.
    + subst. rewrite Hi in Hj. simplify_eq/=. lia.
    + pose proof (tm_machines _ Htm) as HF. rewrite Forall_lookup in HF.
      by apply (HF j mj).
  - apply Forall_app. split; [apply Htm|]. constructor; [|done]. simpl. lia.
  - intros sj [Hin|Hin]%elem_of_app Hst; [by apply Htm|].
    by apply list_elem_of_singleton in Hin as ->.
  - intros a b sa sb Ha Hb' Hlt Hsa Hsb Hf.
    apply lookup_app_Some in Hb' as [Hb'|[Hge Hb']].
    + assert (completedJobs state !! a = Some sa) as Ha'.
      { apply lookup_lt_Some in Hb'. by rewrite lookup_app_l in Ha by lia. }
      by apply (tm_serialized _ Htm a b sa sb).
    + by apply list_lookup_singleton_Some in Hb' as [Hb0 <-].
Qed.

Lemma applyEvent_timely event state :
  timely state → timely (applyEvent event state).
Proof.
  intros Htm.
  assert (∀ id st, timely st → timely (releaseMachine id st)) as Hrel.
  { intros id st Hst. unfold releaseMachine.
    destruct (findMachine id (machines st)) as [i|]; [|by destruct Hst].
    split; simpl; try apply Hst.
    apply Forall_alter; [apply Hst|]. by intros []. }
  assert (timely (setCurrentTime (SimulationEvent.time event) state))
    as Htm1 by (by destruct Htm).
  unfold applyEvent. destruct (SimulationEvent.type event); try done.
  - specialize (Hrel (SimulationEvent.machineId event) _ Htm1).
    by destruct Hrel.
  - by apply Hrel.
Qed.

Lemma reachable_timely jobs jobSequence state q :
  nonnegDurations jobs →
  reachable jobs jobSequence state q → timely state.
Proof.
  intros Hdur. induction 1 as [|st q st' q' Hr IH Hp|st q st' q' Hr IH Hp|
                               st q ev q' Hr IH Hp].
  - split; simpl.
    + eapply Forall_impl; [apply initialMachines_idle|]. simpl. lia.
    + constructor.
    + intros sj Hin. by apply not_elem_of_nil in Hin.
    + intros i j a b Ha. by rewrite lookup_nil in Ha.
  - eapply stage1Pass_timely; eauto using reachable_wellFormed.
  - eapply stage2Pass_timely; eauto using reachable_wellFormed.
  - by apply applyEvent_timely.
Qed.

(** ** Which entries of the sequence get a stage-1 record *)

Lemma stage1Ids_snoc done sj :
  stage1Ids (done ++ [sj]) =
  stage1Ids done ++
    (if decide (ScheduledJob.stage sj = Stage1) then [ScheduledJob.jobId sj]
     else []).
Proof.
  unfold stage1Ids, ofStage. rewrite filter_app, fmap_app. f_equal.
  case_decide.
  - by rewrite filter_cons_True.
  - by rewrite filter_cons_False.
Qed.

Lemma stage1Pass_effect state q state' q' :
  stage1Pass state q = Some (state', q') →
  ∃ jobId rest sj,
    stage1Queue state = jobId :: rest ∧
    is_Some (mapGet (jobsMap state) jobId) ∧
    stage1Queue state' = rest ∧ stage2Queue state' = stage2Queue state ∧
    jobsMap state' = jobsMap state ∧
    completedJobs state' = completedJobs state ++ [sj] ∧
    ScheduledJob.stage sj = Stage1 ∧ ScheduledJob.jobId sj = jobId ∧
    ∃ e, SimulationEvent.type e = STAGE1_COMPLETE ∧ q' = pushEvent e q.
Proof.
  intros Hpass.
  destruct (stage1Pass_Some _ _ _ _ Hpass)
    as (jobId & rest & job & kit & i & m & Hq & Hjob & Hkit & Hb & Heq).
  unfold assignStage1 in Heq. injection Heq as -> ->. simpl.
  rewrite Hq. eexists jobId, rest, _. split_and!; try done.
  eexists. split; [|reflexivity]. done.
Qed.

Lemma stage2Pass_effect state q state' q' :
  stage2Pass state q = Returned (Some (state', q')) →
  ∃ jobId rest sj,
    stage2Queue state = jobId :: rest ∧
    stage2Queue state' = rest ∧ stage1Queue state' = stage1Queue state ∧
    jobsMap state' = jobsMap state ∧
    completedJobs state' = completedJobs state ++ [sj] ∧
    ScheduledJob.stage sj = Stage2 ∧
    ∃ e, SimulationEvent.type e = SIMULATION_END ∧ q' = pushEvent e q.
Proof.
  intros Hpass.
  destruct (stage2Pass_Some _ _ _ _ Hpass)
    as (jobId & rest & job & i & m & s1 & Hq & Hjob & Hred & Hs1 & Heq).
  unfold assignStage2 in Heq. injection Heq as -> ->. simpl.
  rewrite Hq. eexists jobId, rest, _. split_and!; try done.
  eexists. split; [|reflexivity]. done.
Qed.

Lemma applyEvent_frame event state :
  stage1Queue (applyEvent event state) = stage1Queue state ∧
  completedJobs (applyEvent event state) = completedJobs state ∧
  jobsMap (applyEvent event state) = jobsMap state.
Proof. unfold applyEvent. by destruct (SimulationEvent.type event). Qed.

Lemma reachable_sequenceSplit jobs jobSequence state q :
  reachable jobs jobSequence state q → sequenceSplit jobSequence state.
Proof.
  unfold sequenceSplit.
  induction 1 as [|st q st' q' Hr [IH1 IH2] Hp|st q st' q' Hr [IH1 IH2] Hp|
                   st q ev q' Hr [IH1 IH2] Hp].
  - by split.
  - destruct (stage1Pass_effect _ _ _ _ Hp)
      as (jobId & rest & sj & Hq & Hk & Hq1 & _ & Hjm & Hdone & Hst & Hid & _).
    rewrite Hdone, stage1Ids_snoc, decide_True, Hq1, Hjm, Hid by done.
    rewrite Hq in IH1. split.
    + by rewrite <-app_assoc.
    + apply Forall_app. by split; [|constructor].
  - destruct (stage2Pass_effect _ _ _ _ Hp)
      as (jobId & rest & sj & Hq & Hq2 & Hq1 & Hjm & Hdone & Hst & _).
    rewrite Hdone, stage1Ids_snoc, decide_False, app_nil_r, Hq1, Hjm
      by congruence.
    done.
  - destruct (applyEvent_frame ev st) as (-> & -> & ->). done.
Qed.

Lemma knownPrefix_app jm ids rest :
  Forall (λ k, is_Some (mapGet jm k)) ids →
  knownPrefix jm (ids ++ rest) = ids ++ knownPrefix jm rest.
Proof.
  induction 1 as [|k ids [job Hk] _ IH]; simpl; [done|].
  by rewrite Hk, IH.
Qed.

(** A job that is known always finds a machine: the one its kit is bound
    to or, for a kit bound to none, any machine of stage 1. *)
Lemma stage1Pass_known jobs state q jobId rest :
  wellFormed jobs state →
  stage1Queue state = jobId :: rest →
  is_Some (mapGet (jobsMap state) jobId) →
  is_Some (stage1Pass state q).
Proof.
  intros Hwf Hq [job Hjob]. unfold stage1Pass. rewrite Hq, Hjob.
  assert (is_Some (setupKits state !! Job.family job)) as [kit Hkit].
  { destruct jobId as [k|]; [|done]. by apply (wf_cover _ _ Hwf k). }
  rewrite Hkit.
  pose proof (chooseStage1Machine_bestAmong (currentTime state) job kit
                (machines state)) as Hbest.
  unfold bestAmong in Hbest.
  destruct (bestMachine _) as [[i m]|]; [done|]. exfalso.
  destruct Hbest as [_ Hnone].
  assert (∃ i m, machines state !! i = Some m ∧ Machine.stage m = Stage1 ∧
                 (SetupKit.currentMachine kit = None ∨
                  SetupKit.currentMachine kit = Some (Machine.id m)))
    as (i & m & Hi & Hst & Hcm).
  { destruct (SetupKit.currentMachine kit) as [x|] eqn:Hx.
    - destruct (wf_kits _ _ Hwf _ kit x Hkit Hx) as (i & m & Hi & Hst & Hid).
      exists i, m. rewrite Hid. auto.
    - pose proof (wf_shape _ _ Hwf) as Hs.
      assert (shape (machines state) !! 0%nat = Some (1, Stage1)) as H0
        by (by rewrite Hs).
      unfold shape in H0. rewrite list_lookup_fmap in H0.
      destruct (machines state !! 0%nat) as [m|] eqn:Hm; simplify_eq/=.
      exists 0%nat, m. auto. }
  specialize (Hnone (i, m)). simpl in Hnone.
  rewrite elem_of_machinesOfStage in Hnone. specialize (Hnone (conj Hi Hst)).
  unfold stage1Setup in Hnone. repeat case_decide; try done.
  destruct Hcm; naive_solver.
Qed.

Lemma stage1Pass_None_settled jobs state q :
  wellFormed jobs state → stage1Pass state q = None → settled state.
Proof.
  intros Hwf Hnone. unfold settled.
  destruct (stage1Queue state) as [|k rest] eqn:Hq; [done|].
  simpl. destruct (mapGet (jobsMap state) k) as [job|] eqn:Hk; [|done].
  destruct (stage1Pass_known jobs state q k rest Hwf Hq) as [r Hr]; [done|].
  congruence.
Qed.

(** The queue length bounds the passes of the stage-1 loop: when
    [tryAssignStage1Jobs] returns, the condition of its [while] is false. *)
Lemma stage1Loop_done n state q :
  (length (stage1Queue state) ≤ n)%nat →
  stage1Pass (stage1Loop n state q).1 (stage1Loop n state q).2 = None.
Proof.
  revert state q. induction n as [|n IH]; intros state q Hlen; simpl.
  - unfold stage1Pass.
    destruct (stage1Queue state); [done|simpl in Hlen; lia].
  - destruct (stage1Pass state q) as [[state' q']|] eqn:Hpass; [|done].
    apply IH.
    destruct (stage1Pass_effect _ _ _ _ Hpass)
      as (jobId & rest & sj & Hq & _ & Hq1 & _).
    rewrite Hq in Hlen. rewrite Hq1. simpl in Hlen. lia.
Qed.

Lemma tryAssignStage1Jobs_settled jobs jobSequence state q state' q' :
  reachable jobs jobSequence state q →
  tryAssignStage1Jobs state q = (state', q') →
  settled state'.
Proof.
  intros Hr Heq.
  pose proof (stage1Loop_done (length (stage1Queue state)) state q
                (Nat.le_refl _)) as Hdone.
  unfold tryAssignStage1Jobs in Heq. rewrite Heq in Hdone. simpl in Hdone.
  eapply stage1Pass_None_settled; [|done].
  eapply reachable_wellFormed, tryAssignStage1Jobs_reachable; done.
Qed.

Lemma eventLoop_settled jobs jobSequence budget state q state' q' warned :
  reachable jobs jobSequence state q → settled state →
  eventLoop budget state q = Returned (state', q', warned) →
  settled state'.
Proof.
  revert state q. induction budget as [|n IH]; intros state q Hr Hset; simpl.
  - by intros [= <- <- <-].
  - destruct q as [|event q0]; simpl; [by intros [= <- <- <-]|].
    destruct (processEvent_reachable _ _ state (event :: q0) event q0 Hr)
      as (state1 & q1 & -> & Hr1); [done|]. simpl.
    destruct (tryAssignStage1Jobs state1 q1) as [state2 q2] eqn:Hs1.
    apply IH.
    + by eapply tryAssignStage1Jobs_reachable.
    + by eapply tryAssignStage1Jobs_settled.
Qed.

(** The entries with a stage-1 record are those before the first entry
    that is no id of a job. *)
Lemma simulate_stage1Ids jobs jobSequence state q warned :
  simulate jobs jobSequence = Returned (state, q, warned) →
  stage1Ids (completedJobs state) =
    knownPrefix (buildJobsMap jobs) jobSequence ∧
  stage1Queue state =
    drop (length (knownPrefix (buildJobsMap jobs) jobSequence)) jobSequence.
Proof.
  unfold simulate.
  destruct (tryAssignStage1Jobs _ _) as [state0 q0] eqn:Hs1. intros Hloop.
  assert (reachable jobs jobSequence state0 q0) as Hr0
    by (eapply tryAssignStage1Jobs_reachable; [apply reach_init|done]).
  assert (settled state0) as Hset0
    by (eapply tryAssignStage1Jobs_settled; [apply reach_init|done]).
  pose proof (eventLoop_settled _ _ _ _ _ _ _ _ Hr0 Hset0 Hloop) as Hset.
  destruct (eventLoop_reachable _ _ maxIterations _ _ Hr0)
    as (st & q1 & w & Heq & Hr).
  rewrite Hloop in Heq. injection Heq as <- <- <-.
  destruct (reachable_sequenceSplit _ _ _ _ Hr) as [Hsplit Hknown].
  pose proof (reachable_wellFormed _ _ _ _ Hr) as Hwf.
  unfold settled in Hset. rewrite (wf_jobsMap _ _ Hwf) in Hset, Hknown.
  assert (knownPrefix (buildJobsMap jobs) jobSequence =
          stage1Ids (completedJobs state)) as Hpre.
  { rewrite <-Hsplit at 1. rewrite knownPrefix_app, Hset by done.
    by rewrite app_nil_r. }
  split; [done|]. rewrite Hpre. rewrite <-Hsplit.
  by rewrite drop_app_length.
Qed.

(** ** A bound on the iterations of the main loop *)

Lemma insertByTime_Permutation {T} (time : T → Z) x l :
  PriorityQueue.insertByTime time x l ≡ₚ x :: l.
Proof.
  induction l as [|y l IH]; simpl; [done|].
  case_decide; [done|]. rewrite IH. apply Permutation_swap.
Qed.

Lemma push_Permutation {T} (time : T → Z) x l :
  PriorityQueue.push time x l ≡ₚ x :: l.
Proof.
  unfold PriorityQueue.push.
  assert (∀ k, PriorityQueue.sortByTime time k ≡ₚ k) as Hsort.
  { induction k as [|y k IH]; simpl; [done|].
    fold (PriorityQueue.sortByTime time k).
    by rewrite insertByTime_Permutation, IH. }
  rewrite Hsort. by rewrite Permutation_app_comm.
Qed.

Lemma pendingWork_push (e : SimulationEvent.t) (q : EventQueue) :
  sum_list_with eventWeight (pushEvent e q) =
  (eventWeight e + sum_list_with eventWeight q)%nat.
Proof. by rewrite push_Permutation. Qed.

Lemma stage1Pass_pendingWork state q state' q' :
  stage1Pass state q = Some (state', q') →
  pendingWork state' q' = pendingWork state q.
Proof.
  intros Hpass.
  destruct (stage1Pass_effect _ _ _ _ Hpass)
    as (jobId & rest & sj & Hq & _ & Hq1 & Hq2 & _ & _ & _ & _ & e & He & ->).
  unfold pendingWork. rewrite pendingWork_push, Hq, Hq1, Hq2.
  unfold eventWeight at 1. rewrite He. simpl. lia.
Qed.

Lemma stage2Pass_pendingWork state q state' q' :
  stage2Pass state q = Returned (Some (state', q')) →
  pendingWork state' q' = pendingWork state q.
Proof.
  intros Hpass.
  destruct (stage2Pass_effect _ _ _ _ Hpass)
    as (jobId & rest & sj & Hq & Hq2 & Hq1 & _ & _ & _ & e & He & ->).
  unfold pendingWork. rewrite pendingWork_push, Hq, Hq1, Hq2.
  unfold eventWeight at 1. rewrite He. simpl. lia.
Qed.

Lemma stage1Loop_pendingWork n state q :
  pendingWork (stage1Loop n state q).1 (stage1Loop n state q).2 =
  pendingWork state q.
Proof.
  revert state q. induction n as [|n IH]; intros state q; simpl; [done|].
  destruct (stage1Pass state q) as [[state' q']|] eqn:Hpass; [|done].
  rewrite IH. by apply stage1Pass_pendingWork.
Qed.

Lemma stage2Loop_pendingWork n state q state' q' :
  stage2Loop n state q = Returned (state', q') →
  pendingWork state' q' = pendingWork state q.
Proof.
  revert state q. induction n as [|n IH]; intros state q; simpl.
  - by intros [= <- <-].
  - destruct (stage2Pass state q) as [[[st1 q1]|]|] eqn:Hpass; simpl;
      [|by intros [= <- <-]|done].
    intros Hloop. rewrite (IH _ _ Hloop). by apply stage2Pass_pendingWork.
Qed.

(** Processing an event takes one unit of the pending work. *)
Lemma processEvent_pendingWork event state q state' q' :
  processEvent event state q = Returned (state', q') →
  S (pendingWork state' q') = pendingWork state (event :: q).
Proof.
  rewrite processEvent_applyEvent.
  assert (pendingWork state (event :: q) =
          (eventWeight event + pendingWork state q)%nat) as ->
    by (unfold pendingWork; simpl; lia).
  unfold eventWeight.
  destruct (SimulationEvent.type event) eqn:Hty;
    try (intros [= <- <-]; unfold pendingWork, applyEvent;
         rewrite Hty; unfold releaseMachine; simpl; lia).
  intros Hloop. apply stage2Loop_pendingWork in Hloop. rewrite Hloop.
  unfold pendingWork, applyEvent. rewrite Hty.
  unfold releaseMachine. simpl. rewrite length_app. simpl. lia.
Qed.

Lemma eventLoop_not_warned budget state q state' q' warned :
  (pendingWork state q < budget)%nat →
  eventLoop budget state q = Returned (state', q', warned) →
  warned = false.
Proof.
  revert state q. induction budget as [|n IH]; intros state q Hlt; simpl.
  - lia.
  - destruct q as [|event q0]; simpl; [by intros [= <- <- <-]|].
    destruct (processEvent event state q0) as [[st1 q1]|] eqn:Hproc; [|done].
    simpl. destruct (tryAssignStage1Jobs st1 q1) as [st2 q2] eqn:Hs1.
    apply IH.
    pose proof (stage1Loop_pendingWork (length (stage1Queue st1)) st1 q1) as H1.
    unfold tryAssignStage1Jobs in Hs1. rewrite Hs1 in H1. simpl in H1.
    apply processEvent_pendingWork in Hproc. lia.
Qed.

(** A run over fewer than 5000 entries ends with the event queue empty,
    before the iteration cap: no deadlock warning is logged. *)
Lemma simulate_not_warned jobs jobSequence state q warned :
  (2 * length jobSequence < maxIterations)%nat →
  simulate jobs jobSequence = Returned (state, q, warned) →
  warned = false.
Proof.
  unfold simulate. intros Hlen.
  destruct (tryAssignStage1Jobs _ _) as [state0 q0] eqn:Hs1.
  apply eventLoop_not_warned.
  pose proof (stage1Loop_pendingWork (length jobSequence)
                (initializeState jobs jobSequence) PriorityQueue.empty) as H1.
  unfold tryAssignStage1Jobs in Hs1. simpl in Hs1. rewrite Hs1 in H1.
  simpl in H1. rewrite H1. unfold pendingWork. simpl. lia.
Qed.

(** ** The makespan *)

Lemma maxWithZero_upper values v : v ∈ values → v ≤ maxWithZero values.
Proof.
  unfold maxWithZero. induction 1 as [v l|v w l _ IH]; simpl; lia.
Qed.

Lemma maxWithZero_nonneg values : 0 ≤ maxWithZero values.
Proof. unfold maxWithZero. induction values; simpl; lia. Qed.

Lemma maxWithZero_attained values :
  values ≠ [] → Forall (λ v, 0 ≤ v) values →
  maxWithZero values ∈ values.
Proof.
  unfold maxWithZero. induction values as [|v l IH]; [done|].
  intros _ Hall. inversion_clear Hall as [|?? Hv Hl]. simpl.
  destruct l as [|w l'].
  - simpl. rewrite Z.max_l by lia. set_solver.
  - destruct (Z.max_spec v (foldr Z.max 0 (w :: l'))) as [[_ ->]|[_ ->]].
    + right. by apply IH.
    + left.
Qed.

(** ** Further facts used by the main statements *)

Lemma list_find_cons_eq {A} (P : A → Prop) `{∀ x, Decision (P x)} x l :
  list_find P (x :: l) =
  if decide (P x) then Some (0%nat, x) else prod_map S id <$> list_find P l.
Proof. done. Qed.

Lemma list_find_fst_alter {A} (P : A → Prop) `{∀ x, Decision (P x)}
    (f : A → A) i l :
  (∀ x, P (f x) ↔ P x) →
  fst <$> list_find P (alter f i l) = fst <$> list_find P l.
Proof.
  intros Hf. revert i. induction l as [|x l IH]; intros i; [done|].
  destruct i as [|i].
  - change (alter f 0%nat (x :: l)) with (f x :: l).
    rewrite !list_find_cons_eq. repeat case_decide; naive_solver.
  - change (alter f (S i) (x :: l)) with (x :: alter f i l).
    rewrite !list_find_cons_eq. case_decide; [done|].
    rewrite <-!option_fmap_compose. specialize (IH i).
    destruct (list_find P (alter f i l)) as [[j y]|] eqn:E1;
      destruct (list_find P l) as [[j' y']|] eqn:E2; simplify_eq/=; done.
Qed.

Lemma findMachine_alter f id i ms :
  (∀ m, Machine.id (f m) = Machine.id m) →
  findMachine id (alter f i ms) = findMachine id ms.
Proof.
  intros Hf. unfold findMachine. apply list_find_fst_alter.
  intros m. by rewrite Hf.
Qed.

Lemma findMachine_Some id ms j :
  findMachine (Some id) ms = Some j →
  ∃ m, ms !! j = Some m ∧ Machine.id m = id.
Proof.
  unfold findMachine. intros H.
  destruct (list_find _ ms) as [[j' m]|] eqn:Hfind; simplify_eq/=.
  apply list_find_Some in Hfind as (Hj & Hid & _). exists m. split; congruence.
Qed.

(** Taking the kit from the machine it sits on unmounts it there. *)
Lemma assignStage1_clears_old state q jobId job kit best i m old j :
  machines state !! i = Some m →
  SetupKit.currentMachine kit = Some old → old ≠ Machine.id m →
  findMachine (Some old) (machines state) = Some j →
  ∃ mj, machines (assignStage1 jobId job kit best i m state q).1 !! j = Some mj ∧
        Machine.currentSetupKit mj = None.
Proof.
  intros Hi Hcm Hne Hfind. unfold assignStage1. simpl.
  unfold removeKitFromOldMachine. rewrite decide_True by (split; congruence).
  rewrite Hcm, findMachine_alter, Hfind by (by intros []).
  destruct (findMachine_Some _ _ _ Hfind) as (mj & Hj & Hid).
  assert (i ≠ j) as Hij by (intros ->; congruence).
  rewrite list_lookup_alter_ne, list_lookup_alter_eq, list_lookup_alter_ne, Hj
    by done.
  by eexists.
Qed.

Lemma knownPrefix_known jm l : Forall (λ k, is_Some (mapGet jm k)) (knownPrefix jm l).
Proof.
  induction l as [|k l IH]; simpl; [constructor|].
  destruct (mapGet jm k) eqn:Hk; constructor; [by rewrite Hk|done].
Qed.

Lemma knownPrefix_stops jm pre k post :
  mapGet jm k = None → knownPrefix jm (pre ++ k :: post) `prefix_of` pre.
Proof.
  intros Hk. induction pre as [|x pre IH]; simpl.
  - by rewrite Hk.
  - destruct (mapGet jm x); [by apply prefix_cons|apply prefix_nil].
Qed.

Lemma buildSchedule_jobs done : Schedule.jobs (buildSchedule done) = done.
Proof. done. Qed.

Lemma buildSchedule_makespan done :
  Schedule.makespan (buildSchedule done) =
  maxWithZero (ScheduledJob.endTime <$> done).
Proof. done. Qed.

(** The machine a successful stage-1 pass picks and the record it
    writes. *)
Lemma stage1Pass_assigns state q jobId rest job kit state' q' :
  stage1Queue state = jobId :: rest →
  mapGet (jobsMap state) jobId = Some job →
  setupKits state !! Job.family job = Some kit →
  stage1Pass state q = Some (state', q') →
  ∃ i m d,
    machines state !! i = Some m ∧ Machine.stage m = Stage1 ∧
    stage1Setup job kit m = Some d ∧
    (∀ i' m' d', machines state !! i' = Some m' → Machine.stage m' = Stage1 →
                 stage1Setup job kit m' = Some d' →
                 candidateStart (currentTime state) kit m d ≤
                 candidateStart (currentTime state) kit m' d') ∧
    stage1Queue state' = rest ∧
    completedJobs state' = completedJobs state ++
      [ScheduledJob.mk jobId (Machine.id m) Stage1
         (candidateStart (currentTime state) kit m d)
         (candidateStart (currentTime state) kit m d + Job.t_smd job) d
         (if decide (d = SETUP_TIME_SMD_MAJOR) then setup_major else setup_minor)
         (Some (max3 (currentTime state) (Machine.availableAt m)
                     (SetupKit.availableAt kit)))
         (Job.t_smd job) (Job.family job) false 0].
Proof.
  intros Hq Hjob Hkit Hpass.
  destruct (stage1Pass_Some _ _ _ _ Hpass)
    as (jobId' & rest' & job' & kit' & i & m & Hq' & Hjob' & Hkit' & Hb & Heq).
  rewrite Hq in Hq'. simplify_eq.
  pose proof (chooseStage1Machine_bestAmong (currentTime state) job kit
                (machines state)) as Hbest.
  unfold bestAmong in Hbest. rewrite Hb in Hbest.
  destruct Hbest as (Hin & Hreq & Hs & Hst & Hmin). simpl in *.
  apply elem_of_machinesOfStage in Hin as [Hi Hstage].
  unfold assignStage1 in Heq. rewrite Hreq in Heq. injection Heq as -> ->.
  exists i, m, (bestSetupTime (chooseStage1Machine (currentTime state) job kit
                                                  (machines state))).
  split_and!; try done.
  - intros i' m' d' Hi' Hst' Hd'. apply (Hmin (i', m') d'); [|done].
    by apply elem_of_machinesOfStage.
  - simpl. by rewrite Hq.
Qed.

Lemma stage1Pass_blocked state q jobId rest job kit :
  stage1Queue state = jobId :: rest →
  mapGet (jobsMap state) jobId = Some job →
  setupKits state !! Job.family job = Some kit →
  (∀ i m, machines state !! i = Some m → Machine.stage m = Stage1 →
          stage1Setup job kit m = None) →
  stage1Pass state q = None ∧ tryAssignStage1Jobs state q = (state, q).
Proof.
  intros Hq Hjob Hkit Hnone.
  assert (stage1Pass state q = None) as Hpass.
  { destruct (stage1Pass state q) as [[state' q']|] eqn:Hpass; [|done].
    destruct (stage1Pass_assigns _ _ _ _ _ _ _ _ Hq Hjob Hkit Hpass)
      as (i & m & d & Hi & Hst & Hd & _).
    rewrite (Hnone i m Hi Hst) in Hd. done. }
  split; [done|]. unfold tryAssignStage1Jobs. rewrite Hq. simpl.
  by rewrite Hpass.
Qed.

(** In a state of a run, a machine is skipped whenever the kit is bound to
    another machine. *)
Lemma stage1Setup_skips jobs jobSequence state q i m job kit other :
  reachable jobs jobSequence state q →
  machines state !! i = Some m →
  setupKits state !! Job.family job = Some kit →
  SetupKit.currentMachine kit = Some other → other ≠ Machine.id m →
  stage1Setup job kit m = None.
Proof.
  intros Hr Hi Hkit Hcm Hne.
  pose proof (reachable_wellFormed _ _ _ _ Hr) as Hwf.
  unfold stage1Setup. case_decide as Hmounted.
  - destruct (wf_mount _ _ Hwf i m _ Hi Hmounted) as (kit0 & Hk0 & Hc0).
    congruence.
  - rewrite decide_True; [done|]. split; congruence.
Qed.

Lemma stage2Pass_assigns jobs jobSequence state q jobId rest job stage1Job :
  reachable jobs jobSequence state q →
  stage2Queue state = jobId :: rest →
  mapGet (jobsMap state) jobId = Some job →
  findStage1Job jobId (completedJobs state) = Some stage1Job →
  ∃ i m,
    machines state !! i = Some m ∧ Machine.stage m = Stage2 ∧
    (∀ i' m', machines state !! i' = Some m' → Machine.stage m' = Stage2 →
              Machine.availableAt m ≤ Machine.availableAt m') ∧
    stage2Pass state q =
      Returned (Some (assignStage2 jobId job i m stage1Job state q)).
Proof.
  intros Hr Hq Hjob Hs1.
  pose proof (reachable_wellFormed _ _ _ _ Hr) as Hwf.
  destruct (reduce_nonempty earlierAvailable
              (machinesOfStage Stage2 (machines state)))
    as [[i m] Hred]; [apply stage2_machines_exist, Hwf|].
  destruct (reduce_earlierAvailable _ _ _ Hred) as [Hin Hmin].
  apply elem_of_machinesOfStage in Hin as [Hi Hst].
  exists i, m. split_and!; [done|done| |].
  - intros i' m' Hi' Hst'. apply (Hmin (i', m')).
    by apply elem_of_machinesOfStage.
  - unfold stage2Pass. rewrite Hq, Hjob, Hred. simpl. by rewrite Hs1.
Qed.

Lemma stage1Pass_feasible state q jobId rest job kit i m :
  stage1Queue state = jobId :: rest →
  mapGet (jobsMap state) jobId = Some job →
  setupKits state !! Job.family job = Some kit →
  machines state !! i = Some m → Machine.stage m = Stage1 →
  is_Some (stage1Setup job kit m) →
  is_Some (stage1Pass state q).
Proof.
  intros Hq Hjob Hkit Hi Hst [d Hd]. unfold stage1Pass.
  rewrite Hq, Hjob, Hkit.
  pose proof (chooseStage1Machine_bestAmong (currentTime state) job kit
                (machines state)) as Hbest.
  unfold bestAmong in Hbest.
  destruct (bestMachine _) as [[i' m']|]; [done|].
  destruct Hbest as [_ Hnone]. specialize (Hnone (i, m)).
  rewrite elem_of_machinesOfStage in Hnone. simpl in Hnone.
  rewrite Hnone in Hd; done.
Qed.

Lemma assignStage2_record jobId job i m stage1Job state q :
  ∃ sj,
    stage2Queue (assignStage2 jobId job i m stage1Job state q).1 =
      tail (stage2Queue state) ∧
    completedJobs (assignStage2 jobId job i m stage1Job state q).1 =
      completedJobs state ++ [sj] ∧
    ScheduledJob.jobId sj = jobId ∧
    ScheduledJob.machineId sj = Machine.id m ∧
    ScheduledJob.stage sj = Stage2 ∧
    ScheduledJob.setupTime sj = 25 ∧
    ScheduledJob.setupStartTime sj =
      Some (max3 (ScheduledJob.endTime stage1Job) (Machine.availableAt m)
                 (currentTime state)) ∧
    ScheduledJob.startTime sj =
      max3 (ScheduledJob.endTime stage1Job) (Machine.availableAt m)
           (currentTime state) + 25 ∧
    ScheduledJob.endTime sj = ScheduledJob.startTime sj + Job.t_aoi job ∧
    ScheduledJob.tardiness sj =
      Z.max 0 (ScheduledJob.endTime sj - Job.dueDate job) ∧
    ScheduledJob.isLate sj = bool_decide (0 < ScheduledJob.tardiness sj).
Proof. eexists. simpl. split_and!; reflexivity. Qed.

(** * Properties of the genetic operators *)

(** ** Arrays *)

Lemma arrayGet_lookup {A} (a : list (option A)) i x :
  a !! i = Some x → arrayGet a i = x.
Proof. unfold arrayGet. by intros ->. Qed.

Lemma arraySet_in_range {A} i v (a : list (option A)) :
  (i < length a)%nat → arraySet i v a = <[i := v]> a.
Proof. intros Hi. unfold arraySet. by rewrite decide_True. Qed.

Lemma insert_head_Permutation {A} (l : list A) j x y :
  l !! j = Some y → y :: <[j := x]> l ≡ₚ x :: l.
Proof.
  revert j. induction l as [|h l IH]; intros j Hj; [done|].
  destruct j as [|j]; simpl in *.
  - simplify_eq. apply Permutation_swap.
  - rewrite (Permutation_swap h y), (IH j Hj). apply Permutation_swap.
Qed.

Lemma insert_swap_Permutation {A} (l : list A) i j x y :
  (i < j)%nat → l !! i = Some x → l !! j = Some y →
  <[j := x]> (<[i := y]> l) ≡ₚ l.
Proof.
  revert i j. induction l as [|h l IH]; intros i j Hlt Hi Hj; [done|].
  destruct j as [|j]; [lia|]. destruct i as [|i]; simpl in *.
  - simplify_eq. by apply insert_head_Permutation.
  - f_equiv. apply IH; [lia|done..].
Qed.

(** Exchanging two entries of an array rearranges it. *)
Lemma swapEntries_Permutation i j (a : list JsNum) :
  (i < length a)%nat → (j < length a)%nat → swapEntries i j a ≡ₚ a.
Proof.
  intros Hi Hj. unfold swapEntries.
  destruct (lookup_lt_is_Some_2 a i Hi) as [x Hx].
  destruct (lookup_lt_is_Some_2 a j Hj) as [y Hy].
  rewrite (arrayGet_lookup _ _ _ Hx), (arrayGet_lookup _ _ _ Hy).
  rewrite (arraySet_in_range i), (arraySet_in_range j)
    by (rewrite ?length_insert; done).
  destruct (Nat.lt_trichotomy i j) as [Hlt|[->|Hgt]].
  - by apply insert_swap_Permutation.
  - simplify_eq. by rewrite list_insert_insert_eq, list_insert_id.
  - rewrite list_insert_insert_ne by lia. by apply insert_swap_Permutation.
Qed.

Lemma swapEntries_length i j (a : list JsNum) :
  (i < length a)%nat → (j < length a)%nat →
  length (swapEntries i j a) = length a.
Proof. intros. by rewrite swapEntries_Permutation. Qed.

(** Taking an entry out and putting it back elsewhere rearranges the
    array. *)
Lemma moveEntry_Permutation i j (a : list JsNum) :
  (i < length a)%nat → moveEntry i j a ≡ₚ a.
Proof.
  intros Hi. unfold moveEntry.
  destruct (lookup_lt_is_Some_2 a i Hi) as [x Hx].
  rewrite (arrayGet_lookup _ _ _ Hx).
  rewrite <-Permutation_middle, take_drop, delete_take_drop.
  rewrite Permutation_middle. by rewrite take_drop_middle.
Qed.

(** On the empty array the destructuring assignment and [splice] leave one
    [undefined] entry. *)
Lemma swapEntries_empty : swapEntries 0 0 [] = [None].
Proof. done. Qed.

Lemma moveEntry_empty : moveEntry 0 0 [] = [None].
Proof. done. Qed.

(** ** Order crossover *)

Lemma copy_segment (parent1 : list JsNum) cnt s (child : list JsNum) :
  (s + cnt ≤ length child)%nat → length child = length parent1 →
  foldl (λ child i, arraySet i (arrayGet parent1 i) child) child (seq s cnt) =
  take s child ++ take cnt (drop s parent1) ++ drop (s + cnt) child.
Proof.
  revert s child. induction cnt as [|c IH]; intros s child Hle Hlen; simpl.
  - by rewrite Nat.add_0_r, take_drop.
  - destruct (lookup_lt_is_Some_2 parent1 s) as [x Hx]; [lia|].
    rewrite (arrayGet_lookup _ _ _ Hx), arraySet_in_range by lia.
    rewrite IH by (rewrite length_insert; lia).
    rewrite (take_S_r _ _ x) by (apply list_lookup_insert_eq; lia).
    rewrite take_insert_ge by lia.
    rewrite drop_insert_lt by lia.
    rewrite (drop_S _ _ _ Hx). simpl.
    rewrite <-app_assoc. simpl.
    by replace (s + S c)%nat with (S (s + c)) by lia.
Qed.

Lemma rotate_nat_add_0_mod base len :
  (0 < len)%nat → rotate_nat_add base 0 len = (base mod len)%nat.
Proof.
  intros Hlen. unfold rotate_nat_add.
  rewrite Z.add_0_r, <-Nat2Z.inj_mod. apply Nat2Z.id.
Qed.

Lemma next_position base offset len :
  (0 < len)%nat →
  ((rotate_nat_add base offset len + 1) mod len)%nat =
  rotate_nat_add base (S offset) len.
Proof. intros Hlen. by rewrite rotate_nat_add_S, Nat.add_1_r. Qed.

Section order_crossover.
Context (parent1 parent2 : list JsNum) (start end_ : nat).
Context (Hnodup : NoDup parent1) (Hperm : parent1 ≡ₚ parent2).
Context (Hsentinel : sentinel ∉ parent1).
Context (Hstart : (start ≤ end_)%nat) (Hend : (end_ < length parent1)%nat).

Let size := length parent1.
Let rotated := rotate (end_ + 1) parent2.
Let seg := segment start end_ parent1.

Lemma size_parent2 : length parent2 = size.
Proof using Hperm. unfold size. by rewrite Hperm. Qed.

Lemma rotated_NoDup : NoDup rotated.
Proof using Hnodup Hperm.
  unfold rotated, rotate. apply NoDup_app. rewrite Hperm in Hnodup.
  rewrite <-(take_drop ((end_ + 1) mod length parent2) parent2) in Hnodup.
  apply NoDup_app in Hnodup as (H1 & H2 & H3). split_and!; [done| |done].
  intros x Hx1 Hx2. by apply (H2 x).
Qed.

Lemma elem_of_rotated x : x ∈ rotated ↔ x ∈ parent1.
Proof using Hperm. unfold rotated. by rewrite elem_of_rotate, Hperm. Qed.

Lemma length_rotated : length rotated = size.
Proof using Hperm. unfold rotated. by rewrite length_rotate, size_parent2. Qed.

Lemma seg_sublist : (seg `sublist_of` parent1).
Proof.
  unfold seg, segment.
  etrans; [apply sublist_take|apply sublist_drop].
Qed.

Lemma seg_NoDup : NoDup seg.
Proof using Hnodup. eapply sublist_NoDup; [done|apply seg_sublist]. Qed.

Lemma elem_of_seg x : x ∈ seg → x ∈ parent1.
Proof. intros Hx. eapply elem_of_sublist; [done|apply seg_sublist]. Qed.

Lemma length_seg : length seg = (end_ + 1 - start)%nat.
Proof using Hend Hstart.
  unfold seg, segment. rewrite length_take, length_drop. lia.
Qed.

(** The genes of [parent2] that are not in the segment are as many as the
    free positions of the child. *)
Lemma outside_segment_count :
  (length (filter (λ x, x ∉ seg) rotated) + length seg = size)%nat.
Proof using Hnodup Hperm.
  assert (filter (λ x, x ∈ seg) rotated ≡ₚ seg) as Hin.
  { apply NoDup_Permutation.
    - apply NoDup_filter, rotated_NoDup.
    - apply seg_NoDup.
    - intros x. rewrite list_elem_of_filter, elem_of_rotated.
      split; [by intros [??]|]. intros Hx. split; [done|by apply elem_of_seg]. }
  rewrite <-length_rotated, <-Hin, Nat.add_comm, <-length_app.
  by rewrite filter_app_complement.
Qed.

(** The child before the loop, seen from position [end_ + 1]: free
    positions, then the segment. *)
Lemma child_after_copy :
  let child :=
    foldl (λ child i, arraySet i (arrayGet parent1 i) child)
          (replicate size sentinel) (seq start (end_ + 1 - start)) in
  length child = size ∧
  rotate (end_ + 1) child =
    replicate (size - (end_ + 1) + start) sentinel ++ seg.
Proof using Hend Hstart.
  simpl. rewrite copy_segment by (rewrite length_replicate; unfold size; lia).
  rewrite take_replicate, drop_replicate.
  replace (start + (end_ + 1 - start))%nat with (end_ + 1)%nat by lia.
  fold (segment start end_ parent1). fold seg.
  assert (length (replicate (start `min` size) sentinel ++ seg ++
                  replicate (size - (end_ + 1)) sentinel) = size) as Hlen.
  { rewrite !length_app, !length_replicate, length_seg. unfold size. lia. }
  split; [done|].
  unfold rotate. rewrite Hlen.
  replace (start `min` size)%nat with start by (unfold size; lia).
  destruct (decide (end_ + 1 = size)%nat) as [Heq|Hne].
  - rewrite Heq, Nat.Div0.mod_same, Nat.sub_diag. simpl.
    by rewrite !app_nil_r.
  - rewrite Nat.mod_small by (unfold size; lia).
    rewrite app_assoc.
    assert (length (replicate start sentinel ++ seg) = (end_ + 1)%nat) as Hl
      by (rewrite length_app, length_replicate, length_seg; lia).
    rewrite <-Hl at 1. rewrite drop_app_length.
    rewrite <-Hl at 2. rewrite take_app_length.
    by rewrite app_assoc, <-replicate_add.
Qed.

Lemma sentinel_not_in_seg : sentinel ∉ seg.
Proof using Hsentinel. intros Hs. by apply Hsentinel, elem_of_seg. Qed.

Lemma elem_of_placed t x :
  x ∈ filter (λ x, x ∉ seg) (take t rotated) →
  x ∈ take t rotated ∧ (x ∉ seg) ∧ x ∈ parent1 ∧ x ≠ sentinel.
Proof using Hperm Hsentinel.
  intros [Hseg Hx]%list_elem_of_filter.
  assert (x ∈ parent1) as Hp.
  { apply elem_of_rotated. eapply elem_of_sublist; [done|apply sublist_take]. }
  split_and!; [done..|]. by intros ->.
Qed.

Lemma placed_NoDup t : NoDup (filter (λ x, x ∉ seg) (take t rotated)).
Proof using Hnodup Hperm.
  apply NoDup_filter. eapply sublist_NoDup; [|apply sublist_take].
  apply rotated_NoDup.
Qed.

(** A child with no free position left is a rearrangement of the parent. *)
Lemma full_child_Permutation t (child : list JsNum) :
  length child = size →
  rotate (end_ + 1) child = filter (λ x, x ∉ seg) (take t rotated) ++ seg →
  child ≡ₚ parent1.
Proof using Hnodup Hperm Hsentinel.
  intros Hlen Hrot.
  assert (child ≡ₚ filter (λ x, x ∉ seg) (take t rotated) ++ seg) as Hc.
  { rewrite <-Hrot. unfold rotate.
    by rewrite Permutation_app_comm, take_drop. }
  apply submseteq_length_Permutation; [|by rewrite Hlen].
  rewrite Hc. apply NoDup_submseteq.
  - apply NoDup_app. split_and!; [apply placed_NoDup| |apply seg_NoDup].
    intros x Hx. by apply elem_of_placed in Hx as (_ & ? & _).
  - intros x [Hx|Hx]%elem_of_app; [|by apply elem_of_seg].
    by apply elem_of_placed in Hx as (_ & _ & ? & _).
Qed.

(** The loop, seen from position [end_ + 1]: after [t] passes the genes of
    [parent2] met so far that are not in the segment fill the first free
    positions, in the order they were met. *)
Lemma fillFromParent2_structure steps t free (child : list JsNum) :
  (steps + t = size)%nat →
  length child = size →
  rotate (end_ + 1) child =
    filter (λ x, x ∉ seg) (take t rotated) ++ replicate free sentinel ++ seg →
  ∃ child' t',
    fillFromParent2 steps size parent2 child
      (rotate_nat_add (end_ + 1)
         (length (filter (λ x, x ∉ seg) (take t rotated))) size)
      (rotate_nat_add (end_ + 1) t size) = Returned child' ∧
    length child' = size ∧
    rotate (end_ + 1) child' =
      filter (λ x, x ∉ seg) (take t' rotated) ++ seg.
Proof using Hnodup Hperm Hsentinel Hend Hstart.
  revert t free child.
  induction steps as [|steps IH]; intros t free child Hsteps Hlen Hrot.
  all: assert (includes sentinel child = bool_decide (0 < free)%nat) as Hincl.
  1,3: unfold includes; apply bool_decide_ext;
       rewrite <-(elem_of_rotate child (end_ + 1)), Hrot, !elem_of_app;
       split;
       [intros [Hp|[[_ Hr]%elem_of_replicate|Hs]];
        [by apply elem_of_placed in Hp as (_ & _ & _ & ?)
        |lia|by apply sentinel_not_in_seg in Hs]
       |intros Hf; right; left; apply elem_of_replicate; split; [done|lia]].
  all: assert (length (filter (λ x, x ∉ seg) (take t rotated)) + free +
               length seg = size)%nat as Hcount
         by (rewrite <-Hlen, <-(length_rotate child (end_ + 1)), Hrot,
               !length_app, length_replicate; lia).
  - (* no pass left: every gene of [parent2] has been met *)
    assert (t = size) as -> by lia.
    rewrite take_ge in Hrot, Hcount by (rewrite length_rotated; lia).
    pose proof outside_segment_count as Hout.
    assert (free = 0%nat) as -> by lia.
    simpl. fold sentinel. rewrite Hincl. simpl.
    exists child, size. split_and!; [done|done|].
    by rewrite take_ge by (rewrite length_rotated; lia).
  - simpl. fold sentinel. rewrite Hincl.
    destruct free as [|free]; simpl.
    { by exists child, t. }
    clear Hincl.
    assert (t < size)%nat as Ht by lia.
    assert (0 < size)%nat as Hsize by lia.
    destruct (lookup_lt_is_Some_2 rotated t) as [x Hx];
      [rewrite length_rotated; lia|].
    assert (parent2 !! rotate_nat_add (end_ + 1) t size = Some x) as Hx2.
    { unfold rotated in Hx. rewrite lookup_rotate_r in Hx
        by (rewrite size_parent2; lia).
      by rewrite size_parent2 in Hx. }
    rewrite (arrayGet_lookup _ _ _ Hx2).
    assert (take (S t) rotated = take t rotated ++ [x]) as Htake
      by (by apply take_S_r).
    assert (x ∈ parent1) as Hxp
      by (apply elem_of_rotated; by eapply list_elem_of_lookup_2).
    assert (x ∉ take t rotated) as Hfresh.
    { intros [i Hi]%list_elem_of_lookup.
      pose proof (lookup_lt_Some _ _ _ Hi) as Hlt.
      rewrite length_take in Hlt. rewrite lookup_take_lt in Hi by lia.
      pose proof (NoDup_lookup _ _ _ _ rotated_NoDup Hi Hx). lia. }
    assert (includes x child = bool_decide (x ∈ seg)) as ->.
    { unfold includes. apply bool_decide_ext.
      rewrite <-(elem_of_rotate child (end_ + 1)), Hrot, !elem_of_app.
      split; [|auto].
      intros [Hp|[[-> _]%elem_of_replicate|Hs]]; [|done..].
      by apply elem_of_placed in Hp as (? & _). }
    rewrite !next_position by done.
    case_bool_decide as Hseg.
    + (* the gene is in the segment: nothing is placed *)
      destruct (IH (S t) (S free) child)
        as (child' & t' & Hfill & Hlen' & Hrot'); [lia|done| |].
      { rewrite Htake, filter_app, filter_cons_False, filter_nil, app_nil_r
          by (intros Hn; by apply Hn). done. }
      rewrite Htake, filter_app, filter_cons_False, filter_nil, app_nil_r
        in Hfill by (intros Hn; by apply Hn).
      by exists child', t'.
    + (* the gene is placed at the first free position *)
      set (placed := filter (λ x, x ∉ seg) (take t rotated)) in *.
      assert (rotate_nat_add (end_ + 1) (length placed) size < length child)%nat
        as Hci by (rewrite Hlen; by apply rotate_nat_add_lt).
      rewrite arraySet_in_range by done.
      destruct (IH (S t) free
                  (<[rotate_nat_add (end_ + 1) (length placed) size := x]> child))
        as (child' & t' & Hfill & Hlen' & Hrot');
        [lia|by rewrite length_insert| |].
      { rewrite <-Hlen at 1. rewrite rotate_insert_l by lia.
        rewrite Hrot. fold placed.
        rewrite Htake, filter_app, filter_cons_True, filter_nil by done.
        rewrite <-(Nat.add_0_r (length placed)), insert_app_r. simpl.
        by rewrite <-app_assoc. }
      rewrite Htake, filter_app, filter_cons_True, filter_nil in Hfill by done.
      fold placed in Hfill. rewrite length_app in Hfill. simpl in Hfill.
      rewrite (Nat.add_1_r (length placed)) in Hfill.
      by exists child', t'.
Qed.

(** So the loop ends with a rearrangement of the parent. *)
Lemma fillFromParent2_Permutation steps t free (child : list JsNum) :
  (steps + t = size)%nat →
  length child = size →
  rotate (end_ + 1) child =
    filter (λ x, x ∉ seg) (take t rotated) ++ replicate free sentinel ++ seg →
  ∃ child',
    fillFromParent2 steps size parent2 child
      (rotate_nat_add (end_ + 1)
         (length (filter (λ x, x ∉ seg) (take t rotated))) size)
      (rotate_nat_add (end_ + 1) t size) = Returned child' ∧
    child' ≡ₚ parent1.
Proof using Hnodup Hperm Hsentinel Hend Hstart.
  intros Hsteps Hlen Hrot.
  destruct (fillFromParent2_structure steps t free child Hsteps Hlen Hrot)
    as (child' & t' & Hfill & Hlen' & Hrot').
  exists child'. split; [done|]. by apply (full_child_Permutation t').
Qed.

(** The child of [orderCrossover] for a given segment, seen from position
    [end_ + 1]: the genes of [parent2] that are not in the segment, in the
    order of [parent2] from that position on, then the segment. *)
Lemma orderCrossoverAt_structure :
  ∃ child, orderCrossoverAt start end_ parent1 parent2 = Returned child ∧
           length child = size ∧
           rotate (end_ + 1) child = filter (λ x, x ∉ seg) rotated ++ seg.
Proof using Hnodup Hperm Hsentinel Hend Hstart.
  unfold orderCrossoverAt. fold size. fold sentinel.
  destruct child_after_copy as [Hlen Hrot]. simpl in Hlen, Hrot.
  assert (0 < size)%nat as Hsize by (unfold size; lia).
  rewrite <-(rotate_nat_add_0_mod (end_ + 1) size) by done.
  destruct (fillFromParent2_structure size 0 (size - (end_ + 1) + start) _
              ltac:(lia) Hlen)
    as (child & t & Hfill & Hlen' & Hrot'); [by rewrite take_0|].
  exists child. split_and!; [done|done|].
  rewrite Hrot'. f_equal.
  assert (length (filter (λ x, x ∉ seg) (take t rotated)) + length seg =
          size)%nat as Hcount.
  { by rewrite <-Hlen', <-(length_rotate child (end_ + 1)), Hrot',
      length_app. }
  pose proof outside_segment_count as Hout.
  rewrite <-(take_drop t rotated) in Hout at 1.
  rewrite filter_app, length_app in Hout.
  assert (filter (λ x, x ∉ seg) (drop t rotated) = []) as Hnil
    by (apply length_zero_iff_nil; lia).
  rewrite <-(take_drop t rotated) at 2.
  by rewrite filter_app, Hnil, app_nil_r.
Qed.

(** [orderCrossover] on two arrangements of the same genes, for any
    segment. *)
Lemma orderCrossoverAt_Permutation :
  ∃ child, orderCrossoverAt start end_ parent1 parent2 = Returned child ∧
           child ≡ₚ parent1.
Proof using Hnodup Hperm Hsentinel Hend Hstart.
  unfold orderCrossoverAt. fold size. fold sentinel.
  destruct child_after_copy as [Hlen Hrot]. simpl in Hlen, Hrot.
  assert (0 < size)%nat as Hsize by (unfold size; lia).
  rewrite <-(rotate_nat_add_0_mod (end_ + 1) size) by done.
  apply (fillFromParent2_Permutation size 0 (size - (end_ + 1) + start));
    [lia|done|]. by rewrite take_0.
Qed.
End order_crossover.

(** On empty parents the copy of the segment writes one [undefined]
    entry. *)
Lemma orderCrossoverAt_empty : orderCrossoverAt 0 0 [] [] = Returned [None].
Proof. done. Qed.

(** ** The worker's effects *)

Lemma floorTimes_lt r n :
  (0 <= r)%Q → (r < 1)%Q → (0 < n)%nat → (floorTimes r n < n)%nat.
Proof.
  intros H0 H1 Hn. unfold floorTimes.
  assert (0 < inject_Z (Z.of_nat n))%Q as Hpos.
  { change 0%Q with (inject_Z 0). rewrite <-Zlt_Qlt. lia. }
  assert (0 ≤ Qfloor (r * inject_Z (Z.of_nat n))) as Hge.
  { change 0 with (Qfloor 0). apply Qfloor_resp_le.
    apply Qmult_le_0_compat; [done|]. by apply Qlt_le_weak. }
  assert (Qfloor (r * inject_Z (Z.of_nat n)) < Z.of_nat n) as Hlt.
  { rewrite Zlt_Qlt. eapply Qle_lt_trans; [apply Qfloor_le|].
    rewrite <-(Qmult_1_l (inject_Z (Z.of_nat n))) at 2.
    by apply Qmult_lt_compat_r. }
  lia.
Qed.

Lemma returns_ret {A} (a : A) s (P : A → Prop) : P a → returns (mret a) s P.
Proof. intros HP. by exists a, s. Qed.

Lemma returns_bind {A B} (m : GA A) (f : A → GA B) s
    (Q : A → Prop) (P : B → Prop) :
  returns m s Q →
  (∀ a s', random s' = random s → cancelRequested s' = cancelRequested s →
           Q a → returns (f a) s' P) →
  returns (m ≫= f) s P.
Proof.
  intros (a & s' & Hm & Hr & Hc & HQ) Hf.
  destruct (Hf a s' Hr Hc HQ) as (b & s'' & Hfa & Hr' & Hc' & HP).
  exists b, s''. unfold mbind, GA_bind. rewrite Hm.
  split_and!; [done|congruence..|done].
Qed.

Lemma returns_weaken {A} (m : GA A) s (P Q : A → Prop) :
  returns m s P → (∀ a, P a → Q a) → returns m s Q.
Proof. intros (a & s' & ? & ? & ? & ?) HPQ. exists a, s'. auto. Qed.

(** One step of a proof about a sequence of calls: the first call, then the
    rest in the state it leaves. *)
Ltac carry Hr Hc :=
  repeat match goal with
         | H : fairRandom (random _) |- _ => rewrite <-Hr in H
         | H : cancelRequested _ = false |- _ => rewrite <-Hc in H
         end;
  clear Hr Hc.

Tactic Notation "after" tactic3(call) "as"
    simple_intropattern(a) simple_intropattern(H) :=
  eapply returns_bind;
  [call
  |let Hr := fresh "Hr" in
   let Hc := fresh "Hc" in
   intros a ? Hr Hc H; carry Hr Hc; cbv beta in *].

Lemma returns_forEach {A B} (body : B → A → GA B) (I : B → Prop) l acc s :
  fairRandom (random s) → I acc →
  (∀ acc x s, x ∈ l → fairRandom (random s) → I acc →
              returns (body acc x) s I) →
  returns (forEach body acc l) s I.
Proof.
  revert acc s. induction l as [|x l IH]; intros acc s Hfair Hacc Hbody.
  - by apply returns_ret.
  - simpl. after (apply Hbody; [apply list_elem_of_here|done..]) as acc' Hacc'.
    apply IH; [done..|]. intros ??? Hin. apply Hbody.
    by apply list_elem_of_further.
Qed.

Lemma returns_repeatGA {B} (body : B → GA B) (I : nat → B → Prop) n k acc s :
  fairRandom (random s) → I k acc →
  (∀ k acc s, fairRandom (random s) → I k acc →
              returns (body acc) s (I (S k))) →
  returns (repeatGA n body acc) s (I (n + k)%nat).
Proof.
  revert k acc s. induction n as [|n IH]; intros k acc s Hfair Hacc Hbody.
  - by apply returns_ret.
  - simpl. after (by apply Hbody) as acc' Hacc'.
    replace (S (n + k)) with (n + S k)%nat by lia. by apply IH.
Qed.

Lemma mathRandom_returns s :
  fairRandom (random s) →
  returns mathRandom s (λ r, (0 <= r)%Q ∧ (r < 1)%Q).
Proof. intros Hfair. eexists _, _. split; [done|]. simpl. auto. Qed.

Lemma randomIndex_returns n s :
  fairRandom (random s) → (0 < n)%nat →
  returns (randomIndex n) s (λ i, (i < n)%nat).
Proof.
  intros Hfair Hn. unfold randomIndex.
  after (by apply mathRandom_returns) as r [H0 H1].
  apply returns_ret. by apply floorTimes_lt.
Qed.

Lemma deref_returns {A} (x : option A) a s (P : A → Prop) :
  x = Some a → P a → returns (deref x) s P.
Proof. intros -> HP. by apply returns_ret. Qed.

Lemma returns_deref_bind {A B} (x : option A) a (f : A → GA B) s
    (P : B → Prop) :
  x = Some a → returns (f a) s P → returns (deref x ≫= f) s P.
Proof. by intros ->. Qed.

(** ** Fitness *)

Lemma evaluateFitness_run jobs sequence weight s :
  ∃ schedule,
    runSimulation jobs sequence = Returned schedule ∧
    evaluateFitness jobs sequence weight s =
      Returned
        (((1 - weight) * inject_Z (Schedule.makespan schedule) +
          weight * inject_Z (Schedule.totalTardiness schedule))%Q,
         Schedule.makespan schedule, Schedule.totalTardiness schedule,
         mkGAState (random s) (drawn s) (S (simulations s))
                   (cancelRequested s) (reports s)).
Proof.
  destruct (runSimulationLogged_returns jobs sequence)
    as (state & q & w & _ & _ & _ & Hrun).
  eexists. split; [done|].
  unfold evaluateFitness, mbind, GA_bind, simulation. rewrite Hrun.
  unfold mret, GA_ret. do 3 f_equal.
  unfold Qdiv, Qmult, Qinv, inject_Z. simpl. by rewrite !Z.mul_1_r.
Qed.

Lemma individualOf_run jobs chromosome weight s :
  ∃ individual,
    individualOf jobs chromosome weight s =
      Returned (Some individual,
                mkGAState (random s) (drawn s) (S (simulations s))
                          (cancelRequested s) (reports s)) ∧
    Individual.chromosome individual = chromosome.
Proof.
  destruct (evaluateFitness_run jobs chromosome weight s)
    as (schedule & _ & Hfit).
  eexists. unfold individualOf, mbind, GA_bind. rewrite Hfit.
  split; [reflexivity|done].
Qed.

Lemma individualOf_returns jobs chromosome weight s ids :
  chromosome ≡ₚ ids →
  returns (individualOf jobs chromosome weight) s (validIndividual ids).
Proof.
  intros Hperm.
  destruct (individualOf_run jobs chromosome weight s) as (ind & Hrun & Hc).
  eexists _, _. split; [done|]. split_and!; [done..|].
  exists ind. by rewrite Hc.
Qed.

(** ** The operators keep the genes *)

Lemma orderCrossover_returns parent1 parent2 s :
  fairRandom (random s) → parent1 ≠ [] → NoDup parent1 →
  sentinel ∉ parent1 → parent1 ≡ₚ parent2 →
  returns (orderCrossover parent1 parent2) s (λ child, child ≡ₚ parent1).
Proof.
  intros Hfair Hne Hnodup Hsentinel Hperm. unfold orderCrossover.
  assert (0 < length parent1)%nat as Hlen
    by (destruct parent1; [done|simpl; lia]).
  after (by apply randomIndex_returns) as start Hstart.
  after (apply randomIndex_returns; [done|lia]) as offset Hoffset.
  destruct (orderCrossoverAt_Permutation parent1 parent2 start (offset + start))
    as (child & -> & Hchild); [done..|lia|lia|].
  by apply returns_ret.
Qed.

Lemma swapMutation_returns chromosome s :
  fairRandom (random s) → chromosome ≠ [] →
  returns (swapMutation chromosome) s (λ mutated, mutated ≡ₚ chromosome).
Proof.
  intros Hfair Hne. unfold swapMutation.
  assert (0 < length chromosome)%nat as Hlen
    by (destruct chromosome; [done|simpl; lia]).
  after (by apply randomIndex_returns) as i Hi.
  after (by apply randomIndex_returns) as j Hj.
  apply returns_ret. by apply swapEntries_Permutation.
Qed.

Lemma insertMutation_returns chromosome s :
  fairRandom (random s) → chromosome ≠ [] →
  returns (insertMutation chromosome) s (λ mutated, mutated ≡ₚ chromosome).
Proof.
  intros Hfair Hne. unfold insertMutation.
  assert (0 < length chromosome)%nat as Hlen
    by (destruct chromosome; [done|simpl; lia]).
  after (by apply randomIndex_returns) as i Hi.
  after (by apply randomIndex_returns) as j Hj.
  apply returns_ret. by apply moveEntry_Permutation.
Qed.

Lemma shuffle_returns chromosome s :
  fairRandom (random s) →
  returns (shuffle chromosome) s (λ shuffled, shuffled ≡ₚ chromosome).
Proof.
  intros Hfair. unfold shuffle.
  apply returns_forEach; [done..|].
  intros acc i s' [Hi1 Hi2]%elem_of_reverse%elem_of_seq Hfair' Hacc.
  after (apply randomIndex_returns; [done|lia]) as j Hj.
  apply returns_ret. etrans; [|exact Hacc].
  apply swapEntries_Permutation; rewrite Hacc; lia.
Qed.

(** ** Populations *)

Lemma validPopulation_snoc ids population x :
  validPopulation ids population → validIndividual ids x →
  validPopulation ids (population ++ [x]).
Proof. intros Hp Hx. apply Forall_app. split; [done|]. by apply Forall_singleton. Qed.

Lemma createInitialPopulation_returns jobs populationSize weight
    initialSequence s :
  fairRandom (random s) → 1 ≤ populationSize →
  validInitialSequence (jobIds jobs) initialSequence →
  returns (createInitialPopulation jobs populationSize weight initialSequence) s
    (λ population, validPopulation (jobIds jobs) population ∧
                   length population = Z.to_nat populationSize).
Proof.
  intros Hfair Hsize Hinit. unfold createInitialPopulation. fold (jobIds jobs).
  eapply returns_bind with
    (Q := λ population, validPopulation (jobIds jobs) population ∧
                        (length population ≤ 1)%nat).
  { destruct initialSequence as [sequence|].
    - after (by apply individualOf_returns) as individual Hind.
      apply returns_ret. split; [by apply Forall_singleton|done].
    - apply returns_ret. split; [by constructor|simpl; lia]. }
  intros population s' Hr Hc [Hvalid Hlen]. rewrite <-Hr in Hfair.
  eapply returns_weaken.
  - apply (returns_repeatGA _
             (λ k p, validPopulation (jobIds jobs) p ∧
                     length p = (k + length population)%nat) _ 0);
      [done|done|].
    intros k p s'' Hfair' [Hp Hk].
    after (by apply shuffle_returns) as chromosome Hchromosome.
    after (by apply individualOf_returns) as individual Hind.
    apply returns_ret. split; [by apply validPopulation_snoc|].
    rewrite length_app. simpl. lia.
  - intros p [Hp Hk]. split; [done|]. simpl in Hk. lia.
Qed.

Lemma fitter_returns ids best current s :
  validIndividual ids best → validIndividual ids current →
  returns (fitter best current) s (validIndividual ids).
Proof.
  intros Hb Hc. unfold fitter.
  pose proof Hb as (b & -> & _). pose proof Hc as (c & -> & _). simpl.
  apply returns_ret. by case_decide.
Qed.

Lemma reduceFitter_returns ids population s :
  fairRandom (random s) → population ≠ [] → validPopulation ids population →
  returns (reduceFitter population) s (validIndividual ids).
Proof.
  intros Hfair Hne Hvalid. destruct population as [|x population]; [done|].
  apply Forall_cons in Hvalid as [Hx Hvalid]. simpl.
  apply returns_forEach; [done..|].
  intros acc y s' Hy _ Hacc. apply fitter_returns; [done|].
  by eapply Forall_forall in Hvalid.
Qed.

Lemma tournamentSelection_returns ids population tournamentSize s :
  fairRandom (random s) → population ≠ [] → validPopulation ids population →
  1 ≤ tournamentSize →
  returns (tournamentSelection population tournamentSize) s
          (validIndividual ids).
Proof.
  intros Hfair Hne Hvalid Hsize. unfold tournamentSelection.
  assert (0 < length population)%nat as Hlen
    by (destruct population; [done|simpl; lia]).
  eapply returns_bind.
  - apply (returns_repeatGA _
             (λ k t, validPopulation ids t ∧ length t = k) _ 0);
      [done|by split; [constructor|]|].
    intros k t s' Hfair' [Ht Hk].
    after (by apply randomIndex_returns) as i Hi.
    apply returns_ret. split; [|rewrite length_app; simpl; lia].
    apply validPopulation_snoc; [done|].
    destruct (lookup_lt_is_Some_2 population i Hi) as [x Hx].
    rewrite (arrayGet_lookup _ _ _ Hx).
    by eapply Forall_lookup_1 in Hvalid.
  - intros t s' Hr Hc [Ht Hk]. rewrite <-Hr in Hfair.
    apply reduceFitter_returns; [done| |done].
    intros ->. simpl in Hk. lia.
Qed.

Lemma insertByFitness_Permutation x l : insertByFitness x l ≡ₚ x :: l.
Proof.
  induction l as [|y l IH]; simpl; [done|].
  case_decide; [done|]. by rewrite IH, Permutation_swap.
Qed.

Lemma length_omap_id {A} (l : list (option A)) :
  (length (omap id l) ≤ length l)%nat.
Proof. induction l as [|[x|] l IH]; cbn; lia. Qed.

Lemma sortByFitness_Permutation population :
  sortByFitness population ≡ₚ population.
Proof.
  unfold sortByFitness.
  assert (foldr insertByFitness [] (omap id population) ≡ₚ
          omap id population) as ->.
  { induction (omap id population) as [|x l IH]; simpl; [done|].
    by rewrite insertByFitness_Permutation, IH. }
  induction population as [|[x|] population IH]; cbn; [done|..].
  - by rewrite IH.
  - pose proof (length_omap_id population) as Hle.
    replace (S (length population) - length (omap id population))%nat
      with (S (length population - length (omap id population))) by lia.
    cbn. by rewrite <-Permutation_middle, IH.
Qed.

Lemma sortByFitness_valid ids population :
  validPopulation ids population →
  validPopulation ids (sortByFitness population) ∧
  length (sortByFitness population) = length population.
Proof.
  intros Hvalid. unfold validPopulation.
  by rewrite !sortByFitness_Permutation.
Qed.

Lemma arrayGet_seq {A} (a : list (option A)) n :
  (n ≤ length a)%nat → arrayGet a <$> seq 0 n = take n a.
Proof.
  intros Hn. apply list_eq. intros i.
  rewrite list_lookup_fmap.
  destruct (decide (i < n)%nat) as [Hi|Hi].
  - rewrite lookup_seq_lt, lookup_take_lt by done. simpl.
    destruct (lookup_lt_is_Some_2 a i) as [x Hx]; [lia|].
    by rewrite (arrayGet_lookup _ _ _ Hx).
  - rewrite lookup_seq_ge, lookup_take_ge by lia. done.
Qed.

(** *** Rounding to binary64 *)

Lemma floorLog2_lower (x : Q) : (0 < x)%Q → (2 ^ floorLog2 x <= x)%Q.
Proof.
  intros Hx. unfold floorLog2.
  set (a := Z.log2 (Qnum x)). set (b := Z.log2 (Z.pos (Qden x))).
  case_decide as Hlt; [|by apply Qnot_lt_le].
  assert (0 < Qnum x) as Hn.
  { unfold Qlt in Hx. simpl in Hx. lia. }
  destruct (Z.log2_spec (Qnum x) Hn) as [Ha _]. fold a in Ha.
  destruct (Z.log2_spec (Z.pos (Qden x)) ltac:(lia)) as [_ Hb]. fold b in Hb.
  assert (0 ≤ a) as Ha0 by apply Z.log2_nonneg.
  assert (0 ≤ b) as Hb0 by apply Z.log2_nonneg.
  replace (a - b - 1) with (a - (b + 1)) by lia.
  rewrite Qpower_minus by done.
  rewrite <-(Zpower_Qpower 2 a), <-(Zpower_Qpower 2 (b + 1)) by lia.
  assert (0 < 2 ^ (b + 1)) as Hpos by (apply Z.pow_pos_nonneg; lia).
  apply Qle_shift_div_r.
  { change 0%Q with (inject_Z 0). rewrite <-Zlt_Qlt. lia. }
  destruct x as [n d]. unfold Qle, Qmult, inject_Z. simpl in *.
  rewrite !Z.mul_1_r. nia.
Qed.

Lemma roundHalfEven_le (x : Q) (N : Z) :
  (x <= inject_Z N)%Q → roundHalfEven x ≤ N.
Proof.
  intros Hx. unfold roundHalfEven.
  pose proof (Qfloor_le x) as Hfloor.
  assert (Qfloor x ≤ N) as Hle.
  { rewrite <-(Qfloor_Z N). by apply Qfloor_resp_le. }
  destruct (decide (Qfloor x = N)) as [Heq|Hne].
  - rewrite Heq in *. rewrite decide_True by lra. done.
  - cbv zeta. repeat case_decide; [lia|lia|]. destruct (Z.even _); lia.
Qed.

Lemma roundHalfEven_ge (x : Q) (N : Z) :
  (inject_Z N <= x)%Q → N ≤ roundHalfEven x.
Proof.
  intros Hx. unfold roundHalfEven.
  assert (N ≤ Qfloor x) as Hle.
  { rewrite <-(Qfloor_Z N). by apply Qfloor_resp_le. }
  cbv zeta. repeat case_decide; [lia|lia|]. destruct (Z.even _); lia.
Qed.

Lemma binary64_nonneg (x : Q) : (0 <= x)%Q → (0 <= binary64 x)%Q.
Proof.
  intros Hx. unfold binary64. case_decide; [done|].
  set (e := Z.max (-1074) (floorLog2 (Qabs x) - 52)).
  assert (0 < 2 ^ e)%Q as Hpos by (by apply Qpower_0_lt).
  apply Qmult_le_0_compat; [|lra].
  change 0%Q with (inject_Z 0). rewrite <-Zle_Qle.
  apply roundHalfEven_ge. apply Qle_shift_div_l; [done|].
  change (inject_Z 0) with 0%Q. by rewrite Qmult_0_l.
Qed.

(** Rounding does not pass an integer that is a binary64 number. *)
Lemma binary64_le_Z (x : Q) (N : Z) :
  0 ≤ N ≤ 2 ^ 53 → (x <= inject_Z N)%Q → (binary64 x <= inject_Z N)%Q.
Proof.
  intros HN Hx. unfold binary64.
  assert (0 <= inject_Z N)%Q as HN0
    by (change 0%Q with (inject_Z 0); rewrite <-Zle_Qle; lia).
  case_decide as Hzero; [done|].
  remember (Z.max (-1074) (floorLog2 (Qabs x) - 52)) as e eqn:He0.
  assert (0 < 2 ^ e)%Q as Hpos by (by apply Qpower_0_lt).
  (* an integer [K] with [x / 2^e ≤ K] and [K * 2^e ≤ N] *)
  assert (∃ K, (x / 2 ^ e <= inject_Z K)%Q ∧
               (inject_Z K * 2 ^ e <= inject_Z N)%Q) as (K & HK1 & HK2).
  { destruct (Qlt_le_dec x 0) as [Hneg|Hnonneg].
    { exists 0. change (inject_Z 0) with 0%Q. rewrite Qmult_0_l.
      split; [|done]. apply Qle_shift_div_r; [done|]. lra. }
    assert (0 < x)%Q as Hxpos.
    { destruct (Qle_lt_or_eq _ _ Hnonneg) as [?|Heq]; [done|].
      by destruct Hzero. }
    destruct (decide (e ≤ 0)) as [He|He].
    - exists (N * 2 ^ (- e)).
      assert (inject_Z (2 ^ (- e)) * 2 ^ e == 1)%Q as Hone.
      { rewrite Zpower_Qpower by lia. rewrite <-Qpower_plus by done.
        by replace (- e + e) with 0 by lia. }
      rewrite inject_Z_mult. split.
      + apply Qle_shift_div_r; [done|].
        rewrite <-Qmult_assoc, Hone. lra.
      + rewrite <-Qmult_assoc, Hone. lra.
    - pose proof (floorLog2_lower x Hxpos) as Hlow.
      assert (Qabs x = x) as Habs.
      { destruct x as [n d]. unfold Qabs. f_equal. apply Z.abs_eq.
        unfold Qle in Hnonneg. simpl in Hnonneg. lia. }
      rewrite Habs in He0.
      assert (floorLog2 x = 53) as Hfl.
      { destruct (decide (floorLog2 x ≤ 53)) as [?|Hbig]; [lia|].
        assert (2 ^ 54 <= 2 ^ floorLog2 x)%Q as H54
          by (apply Qpower_le_compat_l; [lia|done]).
        assert (inject_Z N <= inject_Z (2 ^ 53))%Q as H53
          by (rewrite <-Zle_Qle; lia).
        rewrite Zpower_Qpower in * by lia. change (inject_Z 2) with 2%Q in *.
        exfalso. apply (Qlt_not_le (2 ^ 53) (2 ^ 54))%Q;
          [by apply Qpower_lt_compat_l|].
        exact (Qle_trans _ _ _ H54
                 (Qle_trans _ _ _ Hlow (Qle_trans _ _ _ Hx H53))). }
      assert (e = 1) as -> by lia.
      rewrite Hfl in Hlow.
      assert (inject_Z N <= inject_Z (2 ^ 53))%Q as HN53
        by (rewrite <-Zle_Qle; lia).
      rewrite Zpower_Qpower in HN53 by lia.
      change (inject_Z 2) with 2%Q in HN53.
      assert (inject_Z (2 ^ 52) * 2 ^ 1 == 2 ^ 53)%Q as Hdouble.
      { rewrite Zpower_Qpower by lia. change (inject_Z 2) with 2%Q.
        rewrite <-Qpower_plus by done. done. }
      exists (2 ^ 52). split.
      + apply Qle_shift_div_r; [done|]. rewrite Hdouble.
        by apply Qle_trans with (inject_Z N).
      + rewrite Hdouble.
        eapply Qle_trans; [exact Hlow|exact Hx]. }
  apply Qle_trans with (inject_Z K * 2 ^ e)%Q; [|done].
  apply Qmult_le_compat_r; [|lra].
  rewrite <-Zle_Qle. by apply roundHalfEven_le.
Qed.

Lemma eliteCount_ge config : 1 ≤ eliteCount config.
Proof. unfold eliteCount. lia. Qed.

Lemma eliteCount_le config :
  validConfig config → eliteCount config ≤ GAConfig.populationSize config.
Proof.
  intros (Hsize & _ & H0 & H1). unfold eliteCount.
  apply Z.max_lub; [lia|].
  rewrite <-(Qfloor_Z (GAConfig.populationSize config)) at 2.
  apply Qfloor_resp_le, binary64_le_Z; [lia|].
  pose proof (binary64_nonneg _ H0) as Hlo.
  pose proof (binary64_le_Z _ 1 ltac:(lia) H1) as Hhi.
  change (inject_Z 1) with 1%Q in Hhi.
  rewrite <-(Qmult_1_r (inject_Z (GAConfig.populationSize config))) at 2.
  rewrite !(Qmult_comm (inject_Z (GAConfig.populationSize config))).
  apply Qmult_le_compat_r; [done|].
  change 0%Q with (inject_Z 0). rewrite <-Zle_Qle. lia.
Qed.

Lemma elites_take config population :
  eliteCount config ≤ Z.of_nat (length population) →
  elites config population = take (Z.to_nat (eliteCount config)) population.
Proof. intros Hle. unfold elites. apply arrayGet_seq. lia. Qed.

Lemma length_elites config population :
  length (elites config population) = Z.to_nat (eliteCount config).
Proof. unfold elites. by rewrite length_fmap, length_seq. Qed.

(** ** Generations *)

Lemma bind_Returned {A B} (m : GA A) (f : A → GA B) s r :
  (m ≫= f) s = Returned r →
  ∃ a s1, m s = Returned (a, s1) ∧ f a s1 = Returned r.
Proof. unfold mbind, GA_bind. destruct (m s) as [[a s1]|]; [eauto|done]. Qed.

Lemma repeatGA_prefix {B} (body : list B → GA (list B)) n acc s acc' s' :
  (∀ acc s acc' s', body acc s = Returned (acc', s') → acc `prefix_of` acc') →
  repeatGA n body acc s = Returned (acc', s') → acc `prefix_of` acc'.
Proof.
  intros Hbody. revert acc s. induction n as [|n IH]; intros acc s Hrun.
  - by injection Hrun as -> _.
  - simpl in Hrun. apply bind_Returned in Hrun as (acc1 & s1 & H1 & Hrun).
    etrans; [by eapply Hbody|by eapply IH].
Qed.

Lemma report_returns p s : returns (report p) s (λ _, True).
Proof. by eexists _, _. Qed.

Section generations_facts.
Context (adaptedMutationRate :
           GAConfig.t → Z → list (option Individual.t) → list Q → Outcome Q).
Context (jobs : list Job.t) (config : GAConfig.t).

(** Every pass of the offspring loop adds one individual at the end. *)
Lemma offspring_appends rate population newPopulation s newPopulation' s' :
  offspring jobs config rate population newPopulation s =
    Returned (newPopulation', s') →
  newPopulation `prefix_of` newPopulation'.
Proof.
  unfold offspring. intros Hrun.
  repeat apply bind_Returned in Hrun as (? & ? & _ & Hrun).
  injection Hrun as <- _. by eexists.
Qed.

(** The elite of the sorted population opens the next one. *)
Lemma generationStep_elites generation e s e' s' :
  generationStep adaptedMutationRate jobs config generation e s =
    Returned (e', s') →
  elites config (sortByFitness (population e)) `prefix_of` population e'.
Proof.
  unfold generationStep. intros Hrun.
  apply bind_Returned in Hrun as (cancel & ? & _ & Hrun).
  destruct cancel; [done|].
  do 4 apply bind_Returned in Hrun as (? & ? & _ & Hrun).
  apply bind_Returned in Hrun as (newPopulation & ? & Hloop & Hrun).
  injection Hrun as <- _. simpl.
  eapply repeatGA_prefix; [|done].
  intros ????. apply offspring_appends.
Qed.

Context (Hrate : rateReturns adaptedMutationRate).
Context (Hjobs : jobs ≠ []) (Hnodup : NoDup (jobIds jobs)).
Context (Hsentinel : sentinel ∉ jobIds jobs) (Hconfig : validConfig config).

Lemma mutationRateOf_returns generation population history s :
  returns (mutationRateOf adaptedMutationRate config generation population
                          history) s (λ _, True).
Proof using Hrate.
  unfold mutationRateOf. destruct (_ && _); [|by apply returns_ret].
  destruct (Hrate config generation population history) as [rate ->].
  by apply returns_ret.
Qed.

Lemma valid_chromosome chromosome :
  chromosome ≡ₚ jobIds jobs →
  chromosome ≠ [] ∧ NoDup chromosome ∧ sentinel ∉ chromosome.
Proof using Hjobs Hnodup Hsentinel.
  intros Hperm. split_and!.
  - intros ->. apply Permutation_nil_l in Hperm.
    destruct jobs; [done|discriminate].
  - by rewrite Hperm.
  - by rewrite Hperm.
Qed.

Lemma offspring_returns rate population newPopulation s :
  fairRandom (random s) → population ≠ [] →
  validPopulation (jobIds jobs) population →
  validPopulation (jobIds jobs) newPopulation →
  returns (offspring jobs config rate population newPopulation) s
    (λ newPopulation', validPopulation (jobIds jobs) newPopulation' ∧
                       length newPopulation' = S (length newPopulation)).
Proof using Hjobs Hnodup Hsentinel Hconfig.
  intros Hfair Hne Hvalid Hnew. unfold offspring.
  destruct Hconfig as (_ & Htournament & _).
  after (by apply (tournamentSelection_returns (jobIds jobs)))
    as parent1 (p1 & -> & Hp1).
  after (by apply (tournamentSelection_returns (jobIds jobs)))
    as parent2 (p2 & -> & Hp2).
  after (by apply mathRandom_returns) as r _.
  destruct (valid_chromosome _ Hp1) as (Hne1 & Hnodup1 & Hsentinel1).
  eapply returns_bind with (Q := λ child, child ≡ₚ jobIds jobs).
  { case_decide; simpl; [|by apply returns_ret].
    eapply returns_weaken.
    - apply orderCrossover_returns; [done..|]. by rewrite Hp1, Hp2.
    - intros child ->. done. }
  intros child sc Hr Hc Hchild. rewrite <-Hr in Hfair. clear Hr Hc.
  after (by apply mathRandom_returns) as r' _.
  destruct (valid_chromosome _ Hchild) as (Hnec & _ & _).
  eapply returns_bind with (Q := λ child, child ≡ₚ jobIds jobs).
  { case_decide; [|by apply returns_ret].
    destruct (GAConfig.mutationMethod config).
    - eapply returns_weaken; [by apply swapMutation_returns|].
      intros mutated ->. done.
    - eapply returns_weaken; [by apply insertMutation_returns|].
      intros mutated ->. done. }
  intros mutated sm Hr Hc Hmutated. rewrite <-Hr in Hfair. clear Hr Hc.
  after (by apply individualOf_returns) as individual Hind.
  apply returns_ret. split; [by apply validPopulation_snoc|].
  rewrite length_app. simpl. lia.
Qed.

Lemma generationStep_returns generation e s :
  fairRandom (random s) → cancelRequested s = false →
  validEvolution (jobIds jobs) config e →
  returns (generationStep adaptedMutationRate jobs config generation e) s
          (validEvolution (jobIds jobs) config).
Proof using Hrate Hjobs Hnodup Hsentinel Hconfig.
  intros Hfair Hcancel (Hvalid & Hlen & Hbest). unfold generationStep.
  pose proof Hconfig as ([Hsize _] & _).
  pose proof (eliteCount_ge config) as Hge.
  pose proof (eliteCount_le config Hconfig) as Hle.
  destruct (sortByFitness_valid _ _ Hvalid) as [Hsorted Hlens].
  set (sorted := sortByFitness (population e)) in *.
  apply returns_bind with (Q := λ cancel, cancel = false).
  { by exists (cancelRequested s), s. }
  intros cancel sc Hr Hc ->. rewrite <-Hr in Hfair. clear Hr Hc.
  destruct (lookup_lt_is_Some_2 sorted 0) as [x Hx]; [lia|].
  pose proof (Forall_lookup_1 _ _ _ _ Hsorted Hx) as (currentBest & -> & Hcb).
  rewrite (arrayGet_lookup _ _ _ Hx).
  destruct Hbest as (best & Hb & Hbest).
  apply (returns_deref_bind _ currentBest); [done|].
  apply (returns_deref_bind _ best); [done|].
  after (apply report_returns) as u _.
  after (apply mutationRateOf_returns) as rate _.
  rewrite elites_take by lia.
  set (count := Z.to_nat (eliteCount config)).
  assert (validPopulation (jobIds jobs) (take count sorted)) as Helite
    by (by apply Forall_take).
  eapply returns_bind.
  - apply (returns_repeatGA _
             (λ k p, validPopulation (jobIds jobs) p ∧
                     length p = (k + count)%nat) _ 0); [done| |].
    + split; [done|]. rewrite length_take. lia.
    + intros k p sk Hfair' [Hp Hk].
      eapply returns_weaken.
      * apply offspring_returns; [done| |done..].
        intros Hnil. rewrite Hnil in Hlens. simpl in Hlens. lia.
      * intros p' [Hp' Hk']. split; [done|lia].
  - intros newPopulation sn Hr Hc [Hnew Hk]. apply returns_ret.
    split_and!; simpl; [done| |].
    + rewrite Hk, length_take. lia.
    + case_decide; by eexists.
Qed.

Lemma generationsFrom_returns n generation e s :
  fairRandom (random s) → cancelRequested s = false →
  validEvolution (jobIds jobs) config e →
  returns (generationsFrom adaptedMutationRate jobs config n generation e) s
          (validEvolution (jobIds jobs) config).
Proof using Hrate Hjobs Hnodup Hsentinel Hconfig.
  revert generation e s. induction n as [|n IH]; intros generation e s ???.
  - by apply returns_ret.
  - simpl. after (by apply generationStep_returns) as e' He'.
    by apply IH.
Qed.

Lemma startEvolution_returns initialSequence s :
  fairRandom (random s) →
  validInitialSequence (jobIds jobs) initialSequence →
  returns (startEvolution jobs config initialSequence) s
          (validEvolution (jobIds jobs) config).
Proof using Hconfig.
  intros Hfair Hinit. unfold startEvolution.
  pose proof Hconfig as ([Hsize _] & _).
  after (by apply createInitialPopulation_returns) as population [Hp Hlen].
  after (apply (reduceFitter_returns (jobIds jobs)); [done| |done])
    as best Hbest.
  { intros ->. simpl in Hlen. lia. }
  by apply returns_ret.
Qed.

(** The sequence [runGA] returns arranges the job ids. *)
Lemma runGA_returns initialSequence s :
  fairRandom (random s) → cancelRequested s = false →
  validInitialSequence (jobIds jobs) initialSequence →
  returns (runGA adaptedMutationRate jobs config initialSequence) s
          (λ result, GAResult.bestSequence result ≡ₚ jobIds jobs).
Proof using Hrate Hjobs Hnodup Hsentinel Hconfig.
  intros Hfair Hcancel Hinit. unfold runGA.
  after (by apply startEvolution_returns) as e He.
  after (by apply generationsFrom_returns) as e' (_ & _ & best & Hbest & Hperm).
  rewrite Hbest. simpl. by apply returns_ret.
Qed.
End generations_facts.

(** ** The sorted population *)

Lemma insertByFitness_HdRel a x l :
  byFitness a x → HdRel byFitness a l →
  HdRel byFitness a (insertByFitness x l).
Proof.
  intros Hax Hal. destruct l as [|y l]; simpl; [by constructor|].
  case_decide; constructor; [done|]. by inversion Hal.
Qed.

Lemma insertByFitness_Sorted x l :
  Sorted byFitness l → Sorted byFitness (insertByFitness x l).
Proof.
  induction 1 as [|y l Hs IH Hhd]; simpl; [by repeat constructor|].
  case_decide as Hxy.
  - constructor; [by constructor|by constructor].
  - constructor; [done|]. apply insertByFitness_HdRel; [|done].
    by apply Qlt_le_weak, Qnot_le_lt.
Qed.

Lemma omap_id_Some {A} (l : list A) : omap id (Some <$> l) = l.
Proof. induction l as [|x l IH]; cbn; [done|]. by f_equal. Qed.

Lemma omap_id_None {A} k : omap id (replicate k (@None A)) = [].
Proof. induction k as [|k IH]; cbn; done. Qed.

(** The individuals of the sorted population are in ascending order of
    fitness. *)
Lemma sortByFitness_Sorted population :
  Sorted byFitness (omap id (sortByFitness population)).
Proof.
  unfold sortByFitness. rewrite omap_app, omap_id_Some, omap_id_None, app_nil_r.
  induction (omap id population) as [|x l IH]; simpl; [constructor|].
  by apply insertByFitness_Sorted.
Qed.

(** ** The seeded population *)

(** Whatever the initial sequence is, [createInitialPopulation] simulates
    it and puts it at the head of the population. *)
Lemma createInitialPopulation_seeded jobs populationSize weight sequence s :
  fairRandom (random s) →
  ∃ individual s1,
    individualOf jobs sequence weight s = Returned (Some individual, s1) ∧
    Individual.chromosome individual = sequence ∧
    simulations s1 = S (simulations s) ∧
    returns (createInitialPopulation jobs populationSize weight (Some sequence))
            s (λ population, head population = Some (Some individual)).
Proof.
  intros Hfair.
  destruct (individualOf_run jobs sequence weight s) as (ind & Hrun & Hc).
  eexists ind, _. split_and!; [done..|].
  unfold createInitialPopulation.
  apply returns_bind with (Q := λ population, population = [Some ind]).
  { eexists _, _. unfold mbind, GA_bind. rewrite Hrun. by split_and!. }
  intros population s1 Hr _ ->. rewrite <-Hr in Hfair.
  eapply returns_weaken.
  - apply (returns_repeatGA _ (λ _ p, head p = Some (Some ind)) _ 0);
      [done..|].
    intros _ p s2 Hfair2 Hhead.
    after (by apply shuffle_returns) as chromosome _.
    after (by apply (individualOf_returns _ _ _ _ chromosome)) as x _.
    apply returns_ret. by destruct p.
  - done.
Qed.

(** * Further properties of the simulation engine *)

(** ** Every started job is completed *)

Lemma stage1Completions_push e q :
  stage1Completions (pushEvent e q) ≡ₚ
  (if decide (SimulationEvent.type e = STAGE1_COMPLETE)
   then [SimulationEvent.jobId e] else []) ++ stage1Completions q.
Proof.
  unfold stage1Completions. rewrite push_Permutation.
  rewrite filter_cons. by case_decide.
Qed.

Lemma stage2Ids_snoc done sj :
  stage2Ids (done ++ [sj]) =
  stage2Ids done ++
  (if decide (ScheduledJob.stage sj = Stage2)
   then [ScheduledJob.jobId sj] else []).
Proof.
  unfold stage2Ids, ofStage. rewrite filter_app, fmap_app. f_equal.
  rewrite filter_cons, filter_nil. by case_decide.
Qed.

Lemma stage1Pass_event state q state' q' :
  stage1Pass state q = Some (state', q') →
  ∃ jobId rest sj e,
    stage1Queue state = jobId :: rest ∧
    stage2Queue state' = stage2Queue state ∧
    completedJobs state' = completedJobs state ++ [sj] ∧
    ScheduledJob.stage sj = Stage1 ∧ ScheduledJob.jobId sj = jobId ∧
    SimulationEvent.type e = STAGE1_COMPLETE ∧
    SimulationEvent.jobId e = jobId ∧
    q' = pushEvent e q.
Proof.
  intros Hpass.
  destruct (stage1Pass_Some _ _ _ _ Hpass)
    as (jobId & rest & job & kit & i & m & Hq & Hjob & Hkit & Hb & Heq).
  unfold assignStage1 in Heq. injection Heq as -> ->.
  eexists jobId, rest, _, (SimulationEvent.mk STAGE1_COMPLETE _ jobId _ _ _).
  simpl. split_and!; reflexivity || done.
Qed.

Lemma stage2Pass_record state q state' q' :
  stage2Pass state q = Returned (Some (state', q')) →
  ∃ jobId rest sj e,
    stage2Queue state = jobId :: rest ∧
    stage2Queue state' = rest ∧
    completedJobs state' = completedJobs state ++ [sj] ∧
    ScheduledJob.stage sj = Stage2 ∧ ScheduledJob.jobId sj = jobId ∧
    SimulationEvent.type e = SIMULATION_END ∧
    q' = pushEvent e q.
Proof.
  intros Hpass.
  destruct (stage2Pass_Some _ _ _ _ Hpass)
    as (jobId & rest & job & i & m & s1 & Hq & Hjob & Hred & Hs1 & Heq).
  unfold assignStage2 in Heq. injection Heq as -> ->.
  eexists jobId, rest, _, (SimulationEvent.mk SIMULATION_END _ _ _ _ _).
  simpl. rewrite Hq. split_and!; reflexivity || done.
Qed.

Lemma reachable_flowBalance jobs jobSequence state q :
  reachable jobs jobSequence state q → flowBalance state q.
Proof.
  unfold flowBalance.
  induction 1 as [|st q st' q' Hr IH Hp|st q st' q' Hr IH Hp|
                  st q ev q' Hr IH Hp].
  - done.
  - destruct (stage1Pass_event _ _ _ _ Hp)
      as (jobId & rest & sj & e & Hq & Hq2 & Hdone & Hst & Hid & Hty & Hej & ->).
    rewrite Hdone, Hq2, stage1Ids_snoc, stage2Ids_snoc, Hst, Hid.
    rewrite stage1Completions_push, Hty, Hej. simpl.
    rewrite app_nil_r, IH, <-!Permutation_middle.
    by rewrite Permutation_app_comm.
  - destruct (stage2Pass_record _ _ _ _ Hp)
      as (jobId & rest & sj & e & Hq & Hq2 & Hdone & Hst & Hid & Hty & ->).
    rewrite Hdone, Hq2, stage1Ids_snoc, stage2Ids_snoc, Hst, Hid.
    rewrite stage1Completions_push, Hty. simpl.
    rewrite IH, Hq, app_nil_r, <-app_assoc. done.
  - destruct q as [|e q0]; [done|]. injection Hp as -> ->.
    destruct (applyEvent_frame ev st) as (_ & -> & _).
    rewrite IH. unfold stage1Completions. rewrite filter_cons.
    unfold applyEvent. destruct (SimulationEvent.type ev) eqn:Hty;
      simpl; try done.
    by rewrite <-app_assoc.
Qed.

Lemma findStage1Job_found jobId done :
  jobId ∈ stage1Ids done → is_Some (findStage1Job jobId done).
Proof.
  unfold stage1Ids, ofStage, findStage1Job.
  intros (sj & -> & [Hst Hin]%list_elem_of_filter)%list_elem_of_fmap_1.
  destruct (list_find_elem_of
              (λ sj', ScheduledJob.jobId sj' = ScheduledJob.jobId sj ∧
                      ScheduledJob.stage sj' = Stage1) done sj)
    as [[i x] Hfind]; [done..|].
  rewrite Hfind. by eexists.
Qed.

Lemma stage1Loop_stage2Queue n state q :
  stage2Queue (stage1Loop n state q).1 = stage2Queue state.
Proof.
  revert state q. induction n as [|n IH]; intros state q; simpl; [done|].
  destruct (stage1Pass state q) as [[state' q']|] eqn:Hp; [|done].
  rewrite IH.
  by destruct (stage1Pass_effect _ _ _ _ Hp) as (? & ? & ? & _ & _ & _ & ? & _).
Qed.

Lemma processEvent_drained jobs jobSequence state q event q0 state' q' :
  reachable jobs jobSequence state q → stage2Queue state = [] →
  popEvent q = (Some event, q0) →
  processEvent event state q0 = Returned (state', q') →
  stage2Queue state' = [].
Proof.
  intros Hr Hempty Hpop. rewrite processEvent_applyEvent.
  pose proof (reach_event _ _ _ _ _ _ Hr Hpop) as Hr'.
  assert (∀ id s, stage2Queue (releaseMachine id s) = stage2Queue s)
    as Hrel by done.
  destruct (SimulationEvent.type event) eqn:Hty;
    try (intros [= <- <-]; unfold applyEvent; rewrite Hty; simpl;
         rewrite ?Hrel; done).
  assert (stage2Queue (applyEvent event state) =
          [SimulationEvent.jobId event]) as Hq2.
  { unfold applyEvent. rewrite Hty. simpl. by rewrite Hempty. }
  destruct q as [|e q1]; [done|]. injection Hpop as -> ->.
  assert (SimulationEvent.jobId event ∈ stage1Ids (completedJobs state))
    as Hin.
  { rewrite (reachable_flowBalance _ _ _ _ Hr).
    unfold stage1Completions. rewrite filter_cons_True by done.
    rewrite !elem_of_app. right. right. simpl. by left. }
  destruct (applyEvent_frame event state) as (_ & Hdone & Hjm).
  destruct (reachable_sequenceSplit _ _ _ _ Hr) as [_ Hknown].
  rewrite Forall_forall in Hknown. destruct (Hknown _ Hin) as [job Hjob].
  destruct (findStage1Job_found _ _ Hin) as [s1 Hs1].
  rewrite <-Hdone in Hs1. rewrite <-Hjm in Hjob.
  destruct (stage2Pass_assigns _ _ _ _ _ _ _ _ Hr' Hq2 Hjob Hs1)
    as (i & m & _ & _ & _ & Hpass).
  unfold tryAssignStage2Jobs. rewrite Hq2. simpl. rewrite Hpass. simpl.
  intros [= <- <-]. simpl. by rewrite Hq2.
Qed.

Lemma eventLoop_drained jobs jobSequence budget state q state' q' warned :
  reachable jobs jobSequence state q → stage2Queue state = [] →
  eventLoop budget state q = Returned (state', q', warned) →
  stage2Queue state' = [] ∧ (warned = false → q' = []).
Proof.
  revert state q. induction budget as [|n IH]; intros state q Hr Hempty; simpl.
  - by intros [= <- <- <-].
  - destruct q as [|event q0]; simpl; [by intros [= <- <- <-]|].
    destruct (processEvent_reachable _ _ state (event :: q0) event q0 Hr)
      as (state1 & q1 & Hev & Hr1); [done|]. rewrite Hev. simpl.
    destruct (tryAssignStage1Jobs state1 q1) as [state2 q2] eqn:Hs1.
    apply IH.
    + by eapply tryAssignStage1Jobs_reachable.
    + unfold tryAssignStage1Jobs in Hs1.
      pose proof (stage1Loop_stage2Queue (length (stage1Queue state1))
                                         state1 q1) as Hq.
      rewrite Hs1 in Hq. simpl in Hq. rewrite Hq.
      by apply (processEvent_drained jobs jobSequence state (event :: q0)
                                     event q0 state1 q1).
Qed.

(** The state in which a run ends. *)
Lemma simulate_final jobs jobSequence :
  ∃ state q warned,
    simulate jobs jobSequence = Returned (state, q, warned) ∧
    reachable jobs jobSequence state q ∧
    stage2Queue state = [] ∧
    (warned = false → q = []) ∧
    runSimulation jobs jobSequence =
      Returned (buildSchedule (completedJobs state)).
Proof.
  destruct (runSimulationLogged_returns jobs jobSequence)
    as (state & q & warned & Hsim & Hr & _ & Hrun).
  exists state, q, warned. split_and!; [done..| | |done].
  all: unfold simulate in Hsim.
  all: destruct (tryAssignStage1Jobs _ _) as [state0 q0] eqn:Hs1.
  all: assert (reachable jobs jobSequence state0 q0) as Hr0
         by (eapply tryAssignStage1Jobs_reachable; [apply reach_init|done]).
  all: assert (stage2Queue state0 = []) as Hq0.
  1,3: unfold tryAssignStage1Jobs in Hs1;
       pose proof (stage1Loop_stage2Queue
                     (length (stage1Queue (initializeState jobs jobSequence)))
                     (initializeState jobs jobSequence) PriorityQueue.empty)
         as Hq; by rewrite Hs1 in Hq.
  all: by destruct (eventLoop_drained _ _ _ _ _ _ _ _ Hr0 Hq0 Hsim).
Qed.

Lemma knownPrefix_all jm jobSequence :
  Forall (λ k, is_Some (mapGet jm k)) jobSequence →
  knownPrefix jm jobSequence = jobSequence.
Proof.
  intros Hall. rewrite <-(app_nil_r jobSequence) at 1.
  by rewrite knownPrefix_app, app_nil_r.
Qed.

Lemma length_by_stage done :
  length done =
  (length (ofStage Stage1 done) + length (ofStage Stage2 done))%nat.
Proof.
  unfold ofStage. induction done as [|sj done IH]; [done|].
  rewrite !filter_cons. destruct (ScheduledJob.stage sj); simpl; lia.
Qed.

(** ** What the records of a run say *)

Lemma machine_id_range ms i m :
  shape ms = shape initialMachines → ms !! i = Some m →
  match Machine.stage m with
  | Stage1 => 1 ≤ Machine.id m ≤ 4
  | Stage2 => 5 ≤ Machine.id m ≤ 9
  end.
Proof.
  intros Hshape Hi. apply shape_lookup in Hi. rewrite Hshape in Hi.
  destruct m as [id stage kit available job]. simpl in *.
  do 9 (destruct i as [|i]; [vm_compute in Hi; injection Hi as <- <-; lia|]).
  done.
Qed.

Lemma stage1Setup_values job kit m d :
  stage1Setup job kit m = Some d → d = 20 ∨ d = 65.
Proof.
  unfold stage1Setup. repeat case_decide; intros [= <-]; auto.
Qed.

Lemma stage1Pass_record jobs state q state' q' :
  wellFormed jobs state →
  stage1Pass state q = Some (state', q') →
  ∃ jobId job kit i m d,
    mapGet (jobsMap state) jobId = Some job ∧
    setupKits state !! Job.family job = Some kit ∧
    machines state !! i = Some m ∧ Machine.stage m = Stage1 ∧
    stage1Setup job kit m = Some d ∧
    machines state' =
      alter (setMachineKit (Some (Job.family job))) i
        (alter (setMachineBusy jobId
                  (candidateStart (currentTime state) kit m d + Job.t_smd job))
               i (machines state)) ∧
    completedJobs state' = completedJobs state ++
      [ScheduledJob.mk jobId (Machine.id m) Stage1
         (candidateStart (currentTime state) kit m d)
         (candidateStart (currentTime state) kit m d + Job.t_smd job) d
         (if decide (d = SETUP_TIME_SMD_MAJOR) then setup_major else setup_minor)
         (Some (max3 (currentTime state) (Machine.availableAt m)
                     (SetupKit.availableAt kit)))
         (Job.t_smd job) (Job.family job) false 0].
Proof.
  intros Hwf Hpass.
  destruct (stage1Pass_Some _ _ _ _ Hpass)
    as (jobId & rest & job & kit & i & m & Hq & Hjob & Hkit & Hb & Heq).
  destruct (assignStage1_state _ _ _ _ _ _ _ _ _ _ Hwf Hkit Hb Heq)
    as (d & record & Hd & Hi & Hst & Hhere & Hrec & Hnow & Hms & Hkits &
        Hq1 & Hq2 & Hdone & Hjm & Hq').
  simpl in Hrec. exists jobId, job, kit, i, m, d.
  by rewrite Hdone, Hrec.
Qed.

Lemma stage2Pass_machine state q state' q' :
  stage2Pass state q = Returned (Some (state', q')) →
  ∃ jobId job i m s1,
    mapGet (jobsMap state) jobId = Some job ∧
    machines state !! i = Some m ∧ Machine.stage m = Stage2 ∧
    s1 ∈ completedJobs state ∧ ScheduledJob.stage s1 = Stage1 ∧
    ScheduledJob.jobId s1 = jobId ∧
    let setupStartTime :=
      max3 (ScheduledJob.endTime s1) (Machine.availableAt m)
           (currentTime state) in
    machines state' =
      alter (setMachineBusy jobId (setupStartTime + 25 + Job.t_aoi job)) i
            (machines state) ∧
    completedJobs state' = completedJobs state ++
      [ScheduledJob.mk jobId (Machine.id m) Stage2 (setupStartTime + 25)
         (setupStartTime + 25 + Job.t_aoi job) 25 setup_aoi
         (Some setupStartTime) (Job.t_aoi job) (Job.family job)
         (bool_decide
            (0 < Z.max 0 (setupStartTime + 25 + Job.t_aoi job -
                          Job.dueDate job)))
         (Z.max 0 (setupStartTime + 25 + Job.t_aoi job - Job.dueDate job))].
Proof.
  intros Hpass.
  destruct (stage2Pass_Some _ _ _ _ Hpass)
    as (jobId & rest & job & i & m & s1 & Hq & Hjob & Hred & Hs1 & Heq).
  unfold assignStage2 in Heq. injection Heq as -> ->.
  apply reduce_earlierAvailable in Hred as [Hin _].
  apply elem_of_machinesOfStage in Hin as [Hi Hst].
  unfold findStage1Job in Hs1.
  destruct (list_find _ _) as [[k x]|] eqn:Hfind; [|done].
  injection Hs1 as ->.
  apply list_find_Some in Hfind as (Hk & [Hid Hst1] & _).
  exists jobId, job, i, m, s1. simpl.
  split_and!; [done..|by eapply list_elem_of_lookup_2|done|done|done|done].
Qed.

Lemma reachable_recordConsistent jobs jobSequence state q :
  reachable jobs jobSequence state q →
  Forall recordConsistent (completedJobs state).
Proof.
  induction 1 as [|st q st' q' Hr IH Hp|st q st' q' Hr IH Hp|
                  st q ev q' Hr IH Hp].
  - constructor.
  - pose proof (reachable_wellFormed _ _ _ _ Hr) as Hwf.
    destruct (stage1Pass_record _ _ _ _ _ Hwf Hp)
      as (jobId & job & kit & i & m & d & _ & _ & Hi & Hst & Hd & _ & ->).
    apply Forall_app. split; [done|]. constructor; [|done].
    pose proof (machine_id_range _ _ _ (wf_shape _ _ Hwf) Hi) as Hid.
    rewrite Hst in Hid.
    unfold recordConsistent, candidateStart. simpl.
    split_and!; [by eexists|done|lia|lia| |done|done].
    destruct (stage1Setup_values _ _ _ _ Hd) as [->| ->]; auto.
  - pose proof (reachable_wellFormed _ _ _ _ Hr) as Hwf.
    destruct (stage2Pass_machine _ _ _ _ Hp)
      as (jobId & job & i & m & s1 & _ & Hi & Hst & _ & _ & _ & _ & ->).
    apply Forall_app. split; [done|]. constructor; [|done].
    pose proof (machine_id_range _ _ _ (wf_shape _ _ Hwf) Hi) as Hid.
    rewrite Hst in Hid.
    unfold recordConsistent. simpl.
    split_and!; [by eexists|done|lia|lia|done|done|lia|done].
  - by destruct (applyEvent_frame ev st) as (_ & -> & _).
Qed.

Lemma reachable_stage2FollowsStage1 jobs jobSequence state q :
  reachable jobs jobSequence state q →
  stage2FollowsStage1 (completedJobs state).
Proof.
  induction 1 as [|st q st' q' Hr IH Hp|st q st' q' Hr IH Hp|
                  st q ev q' Hr IH Hp]; intros sj Hin Hst.
  - by apply not_elem_of_nil in Hin.
  - pose proof (reachable_wellFormed _ _ _ _ Hr) as Hwf.
    destruct (stage1Pass_record _ _ _ _ _ Hwf Hp)
      as (jobId & job & kit & i & m & d & _ & _ & _ & _ & _ & _ & Hdone).
    rewrite Hdone in Hin |- *.
    apply elem_of_app in Hin as [Hin|Hin].
    + destruct (IH sj Hin Hst) as (s1 & t & ? & ? & ? & ? & ?).
      exists s1, t. rewrite elem_of_app. auto.
    + apply list_elem_of_singleton in Hin as ->. done.
  - destruct (stage2Pass_machine _ _ _ _ Hp)
      as (jobId & job & i & m & s1 & _ & _ & _ & Hs1 & Hst1 & Hid & _ & Hdone).
    rewrite Hdone in Hin |- *.
    apply elem_of_app in Hin as [Hin|Hin].
    + destruct (IH sj Hin Hst) as (s1' & t & ? & ? & ? & ? & ?).
      exists s1', t. rewrite elem_of_app. auto.
    + apply list_elem_of_singleton in Hin as ->.
      eexists s1, _. rewrite elem_of_app. simpl.
      split_and!; [by left|done|done|done|].
      unfold max3. lia.
  - destruct (applyEvent_frame ev st) as (_ & Hdone & _).
    rewrite Hdone in Hin |- *. by apply IH.
Qed.

(** ** A machine runs one job at a time *)

Lemma serializedByMachine_snoc done sj t :
  serializedByMachine done →
  ScheduledJob.setupStartTime sj = Some t →
  (∀ a, a ∈ done → ScheduledJob.machineId a = ScheduledJob.machineId sj →
        ScheduledJob.endTime a ≤ t) →
  serializedByMachine (done ++ [sj]).
Proof.
  intros Hser Ht Hle i j a b Ha Hb Hlt Hid.
  apply lookup_app_Some in Hb as [Hb|[Hge Hb]].
  - assert (done !! i = Some a) as Ha'.
    { apply lookup_lt_Some in Hb. by rewrite lookup_app_l in Ha by lia. }
    by apply (Hser i j a b).
  - apply list_lookup_singleton_Some in Hb as [Hj <-].
    rewrite lookup_app_l in Ha by lia.
    apply list_elem_of_lookup_2 in Ha. exists t. auto.
Qed.

Lemma stage1Pass_exclusive jobs state q state' q' :
  nonnegDurations jobs → wellFormed jobs state → exclusive state →
  stage1Pass state q = Some (state', q') →
  exclusive state'.
Proof.
  intros Hdur Hwf [Hbusy Hser] Hpass.
  destruct (stage1Pass_record _ _ _ _ _ Hwf Hpass)
    as (jobId & job & kit & i & m & d & Hjob & Hkit & Hi & Hst & Hd & Hms &
        Hdone).
  destruct (known_job_durations _ _ _ _ Hdur Hwf Hjob) as [Hsmd _].
  pose proof (stage1Setup_ge _ _ _ _ Hd) as Hd20.
  pose proof (max3_ge (currentTime state) (Machine.availableAt m)
                      (SetupKit.availableAt kit)) as (Hm1 & Hm2 & Hm3).
  split.
  - intros sj j mj Hin Hj Hid. rewrite Hms, lookup_alter_twice in Hj.
    rewrite Hdone in Hin. case_decide as Hij.
    + subst j. rewrite Hi in Hj. simpl in Hj. injection Hj as <-. simpl in *.
      apply elem_of_app in Hin as [Hin|Hin].
      * pose proof (Hbusy sj i m Hin Hi Hid). unfold candidateStart. lia.
      * apply list_elem_of_singleton in Hin as ->. simpl. lia.
    + apply elem_of_app in Hin as [Hin|Hin]; [by eapply Hbusy|].
      apply list_elem_of_singleton in Hin as ->. simpl in Hid.
      by destruct (same_id_same_index _ _ _ _ _ (wf_shape _ _ Hwf) Hi Hj).
  - rewrite Hdone. eapply serializedByMachine_snoc; [done..|].
    intros a Ha Hid. simpl in Hid.
    pose proof (Hbusy a i m Ha Hi (eq_sym Hid)). lia.
Qed.

Lemma stage2Pass_exclusive jobs state q state' q' :
  nonnegDurations jobs → wellFormed jobs state → exclusive state →
  stage2Pass state q = Returned (Some (state', q')) →
  exclusive state'.
Proof.
  intros Hdur Hwf [Hbusy Hser] Hpass.
  destruct (stage2Pass_machine _ _ _ _ Hpass)
    as (jobId & job & i & m & s1 & Hjob & Hi & Hst & _ & _ & _ & Hms & Hdone).
  destruct (known_job_durations _ _ _ _ Hdur Hwf Hjob) as [_ Haoi].
  pose proof (max3_ge (ScheduledJob.endTime s1) (Machine.availableAt m)
                      (currentTime state)) as (Hm1 & Hm2 & Hm3).
  split.
  - intros sj j mj Hin Hj Hid. rewrite Hms, list_lookup_alter in Hj.
    rewrite Hdone in Hin. case_decide as Hij.
    + subst j. rewrite Hi in Hj. simpl in Hj. injection Hj as <-. simpl in *.
      apply elem_of_app in Hin as [Hin|Hin].
      * pose proof (Hbusy sj i m Hin Hi Hid). lia.
      * apply list_elem_of_singleton in Hin as ->. simpl. lia.
    + apply elem_of_app in Hin as [Hin|Hin]; [by eapply Hbusy|].
      apply list_elem_of_singleton in Hin as ->. simpl in Hid.
      by destruct (same_id_same_index _ _ _ _ _ (wf_shape _ _ Hwf) Hi Hj).
  - rewrite Hdone. eapply serializedByMachine_snoc; [done..|].
    intros a Ha Hid. simpl in Hid.
    pose proof (Hbusy a i m Ha Hi (eq_sym Hid)). lia.
Qed.

Lemma releaseMachine_exclusive id state :
  exclusive state → exclusive (releaseMachine id state).
Proof.
  intros [Hbusy Hser]. split; [|done].
  intros sj j mj Hin Hj Hid. unfold releaseMachine in Hj. simpl in *.
  destruct (findMachine id (machines state)) as [i|];
    [|exact (Hbusy sj j mj Hin Hj Hid)].
  rewrite list_lookup_alter in Hj.
  case_decide; [subst i|exact (Hbusy sj j mj Hin Hj Hid)].
  destruct (machines state !! j) as [m|] eqn:Hm; simpl in Hj; [|done].
  injection Hj as <-. by apply (Hbusy sj j m).
Qed.

Lemma applyEvent_exclusive event state :
  exclusive state → exclusive (applyEvent event state).
Proof.
  intros Hex.
  assert (exclusive (setCurrentTime (SimulationEvent.time event) state))
    as Hex1 by (by destruct Hex).
  unfold applyEvent. destruct (SimulationEvent.type event); try done.
  - pose proof (releaseMachine_exclusive (SimulationEvent.machineId event)
                                         _ Hex1) as [??]. by split.
  - by apply releaseMachine_exclusive.
Qed.

Lemma reachable_exclusive jobs jobSequence state q :
  nonnegDurations jobs →
  reachable jobs jobSequence state q → exclusive state.
Proof.
  intros Hdur. induction 1 as [|st q st' q' Hr IH Hp|st q st' q' Hr IH Hp|
                               st q ev q' Hr IH Hp].
  - split.
    + intros sj i m Hin. by apply not_elem_of_nil in Hin.
    + intros i j a b Ha. simpl in Ha. by rewrite lookup_nil in Ha.
  - eapply stage1Pass_exclusive; eauto using reachable_wellFormed.
  - eapply stage2Pass_exclusive; eauto using reachable_wellFormed.
  - by apply applyEvent_exclusive.
Qed.

(** ** The statistics of a schedule *)

Lemma buildSchedule_counts done :
  Forall recordConsistent done →
  Schedule.setupCount (buildSchedule done) = length done ∧
  (Schedule.minorSetupCount (buildSchedule done) +
   Schedule.majorSetupCount (buildSchedule done))%nat =
    length (ofStage Stage1 done) ∧
  Schedule.aoiSetupCount (buildSchedule done) = length (ofStage Stage2 done) ∧
  Forall (λ sj, ScheduledJob.setupType sj ≠ setup_none) done.
Proof.
  unfold buildSchedule, ofStage. simpl.
  induction 1 as [|sj done (_ & _ & Hsj) _ (IH1 & IH2 & IH3 & IH4)];
    [by repeat split|].
  rewrite !filter_cons.
  destruct (ScheduledJob.stage sj).
  - destruct Hsj as (_ & [[Hty Ht]|[Hty Ht]] & _); rewrite Hty, Ht; simpl;
      (split_and!; [lia|lia|lia|by constructor; [rewrite Hty|]]).
  - destruct Hsj as (_ & Hty & Ht & _); rewrite Hty, Ht; simpl;
      (split_and!; [lia|lia|lia|by constructor; [rewrite Hty|]]).
Qed.

Lemma sumZ_nonneg values : Forall (λ v, 0 ≤ v) values → 0 ≤ sumZ values.
Proof. induction 1; simpl; lia. Qed.

Lemma buildSchedule_tardiness done :
  Forall recordConsistent done →
  Schedule.totalTardiness (buildSchedule done) =
    sumZ (ScheduledJob.tardiness <$> done) ∧
  0 ≤ Schedule.totalTardiness (buildSchedule done).
Proof.
  unfold buildSchedule, ofStage. simpl.
  induction 1 as [|sj done (_ & _ & Hsj) _ [IH1 IH2]]; [done|].
  rewrite filter_cons, !fmap_cons.
  change (sumZ (ScheduledJob.tardiness sj ::
                (ScheduledJob.tardiness <$> done)))
    with (ScheduledJob.tardiness sj + sumZ (ScheduledJob.tardiness <$> done)).
  destruct (ScheduledJob.stage sj).
  - rewrite decide_False by done. destruct Hsj as (_ & _ & _ & ->). lia.
  - rewrite decide_True, fmap_cons by done.
    destruct Hsj as (_ & _ & _ & Hge & _).
    change (sumZ (?x :: ?l)) with (x + sumZ l). lia.
Qed.

Lemma reachable_recordTimely jobs jobSequence state q :
  nonnegDurations jobs →
  reachable jobs jobSequence state q →
  Forall recordTimely (completedJobs state).
Proof.
  intros Hdur.
  induction 1 as [|st q st' q' Hr IH Hp|st q st' q' Hr IH Hp|
                  st q ev q' Hr IH Hp].
  - constructor.
  - pose proof (reachable_wellFormed _ _ _ _ Hr) as Hwf.
    pose proof (reachable_timely _ _ _ _ Hdur Hr) as Htm.
    destruct (stage1Pass_record _ _ _ _ _ Hwf Hp)
      as (jobId & job & kit & i & m & d & Hjob & _ & Hi & _ & _ & _ & ->).
    apply Forall_app. split; [done|]. constructor; [|done].
    destruct (known_job_durations _ _ _ _ Hdur Hwf Hjob) as [Hsmd _].
    pose proof (Forall_lookup_1 _ _ _ _ (tm_machines _ Htm) Hi) as Hm0.
    split; [done|]. eexists. split; [done|]. unfold max3. simpl in Hm0. lia.
  - pose proof (reachable_wellFormed _ _ _ _ Hr) as Hwf.
    pose proof (reachable_timely _ _ _ _ Hdur Hr) as Htm.
    destruct (stage2Pass_machine _ _ _ _ Hp)
      as (jobId & job & i & m & s1 & Hjob & Hi & _ & _ & _ & _ & _ & ->).
    apply Forall_app. split; [done|]. constructor; [|done].
    destruct (known_job_durations _ _ _ _ Hdur Hwf Hjob) as [_ Haoi].
    pose proof (Forall_lookup_1 _ _ _ _ (tm_machines _ Htm) Hi) as Hm0.
    split; [done|]. eexists. split; [done|]. unfold max3. simpl in Hm0. lia.
  - by destruct (applyEvent_frame ev st) as (_ & -> & _).
Qed.

(** * Sorting with a comparator *)

Lemma insertSorted_Permutation {A} (cmp : A → A → Z) x l :
  insertSorted cmp x l ≡ₚ x :: l.
Proof.
  induction l as [|y l IH]; simpl; [done|].
  case_decide; [done|]. by rewrite IH, Permutation_swap.
Qed.

Lemma stableSort_Permutation {A} (cmp : A → A → Z) l : stableSort cmp l ≡ₚ l.
Proof.
  induction l as [|x l IH]; simpl; [done|].
  by rewrite insertSorted_Permutation, IH.
Qed.

Lemma length_stableSort {A} (cmp : A → A → Z) l :
  length (stableSort cmp l) = length l.
Proof. by rewrite stableSort_Permutation. Qed.

Section sorting.
Context {A : Type} (cmp : A → A → Z).
Context (Htotal : ∀ x y, 0 < cmp x y → cmp y x ≤ 0).

Lemma insertSorted_HdRel a x l :
  cmp a x ≤ 0 → HdRel (λ a b, cmp a b ≤ 0) a l →
  HdRel (λ a b, cmp a b ≤ 0) a (insertSorted cmp x l).
Proof.
  intros Hax Hal. destruct l as [|y l]; simpl; [by constructor|].
  case_decide; constructor; [done|]. by inversion Hal.
Qed.

Lemma insertSorted_Sorted x l :
  Sorted (λ a b, cmp a b ≤ 0) l →
  Sorted (λ a b, cmp a b ≤ 0) (insertSorted cmp x l).
Proof using Htotal.
  induction 1 as [|y l Hs IH Hhd]; simpl; [by repeat constructor|].
  case_decide as Hxy.
  - constructor; [by constructor|by constructor].
  - constructor; [done|]. apply insertSorted_HdRel; [|done].
    apply Htotal. lia.
Qed.

Lemma stableSort_Sorted l : Sorted (λ a b, cmp a b ≤ 0) (stableSort cmp l).
Proof using Htotal.
  induction l as [|x l IH]; simpl; [constructor|].
  by apply insertSorted_Sorted.
Qed.
End sorting.

(** A sorted array is left as it is. *)
Lemma stableSort_sorted {A} (cmp : A → A → Z) l :
  Sorted (λ a b, cmp a b ≤ 0) l → stableSort cmp l = l.
Proof.
  induction 1 as [|x l Hs IH Hhd]; simpl; [done|].
  fold (stableSort cmp l). rewrite IH.
  destruct Hhd; simpl; [done|]. by rewrite decide_True.
Qed.

(** * The event queue under pushes and pops *)

Lemma queueState_sorted {T} (time : T → Z) items :
  queueState time items → Sorted (byTime time) items.
Proof.
  induction 1 as [|x items _ IH|items _ IH].
  - constructor.
  - rewrite PriorityQueueFacts.push_sorted by done.
    by apply PriorityQueueFacts.insertBehind_sorted.
  - destruct items; simpl; [constructor|]. by inversion IH.
Qed.

Lemma sorted_head_minimum {T} (time : T → Z) x rest :
  Sorted (byTime time) (x :: rest) → Forall (λ y, time x ≤ time y) rest.
Proof.
  intros Hs. apply Sorted_StronglySorted in Hs.
  - by inversion Hs.
  - intros a b c. simpl. lia.
Qed.

(** * The event timeline *)

Lemma timelineCompare_total x y :
  0 < timelineCompare x y → timelineCompare y x ≤ 0.
Proof.
  unfold timelineCompare. repeat case_decide; try lia.
  destruct (typePriority (SimulationEvent.type x)),
           (typePriority (SimulationEvent.type y)); lia.
Qed.

Lemma timelineCompare_time x y :
  timelineCompare x y ≤ 0 → SimulationEvent.time x ≤ SimulationEvent.time y.
Proof. unfold timelineCompare. case_decide; lia. Qed.

Lemma Sorted_weaken {A} (R R' : A → A → Prop) l :
  (∀ a b, R a b → R' a b) → Sorted R l → Sorted R' l.
Proof.
  intros Himpl. induction 1 as [|x l _ IH Hhd]; constructor; [done|].
  destruct Hhd; constructor. by apply Himpl.
Qed.

Lemma recordEvents_priority sj :
  Forall (λ e, is_Some (typePriority (SimulationEvent.type e)))
         (recordEvents sj).
Proof.
  unfold recordEvents.
  destruct (ScheduledJob.setupStartTime sj); repeat case_decide;
    repeat constructor; by eexists.
Qed.

Lemma length_recordEvents sj :
  (2 ≤ length (recordEvents sj) ≤ 4)%nat ∧
  (recordConsistent sj → length (recordEvents sj) = 4%nat).
Proof.
  unfold recordEvents. split.
  - destruct (ScheduledJob.setupStartTime sj); repeat case_decide; simpl; lia.
  - intros ((t & -> & _) & _ & Hstage).
    rewrite decide_True; [done|].
    destruct (ScheduledJob.stage sj).
    + destruct Hstage as (_ & [[_ ->]|[_ ->]] & _); lia.
    + destruct Hstage as (_ & _ & -> & _). lia.
Qed.

Lemma length_bind_recordEvents done :
  (2 * length done ≤ length (done ≫= recordEvents) ≤ 4 * length done)%nat ∧
  (Forall recordConsistent done →
   length (done ≫= recordEvents) = (4 * length done)%nat).
Proof.
  induction done as [|sj done [IH1 IH2]]; [done|].
  rewrite bind_cons, length_app. simpl.
  destruct (length_recordEvents sj) as [Hsj Hsj']. split; [lia|].
  intros [Hc Hrest]%Forall_cons. rewrite (Hsj' Hc), (IH2 Hrest). lia.
Qed.

(** * Queue states *)

Lemma findRecord_Some jobId s done sj :
  findRecord jobId s done = Some sj →
  sj ∈ done ∧ ScheduledJob.jobId sj = jobId ∧ ScheduledJob.stage sj = s.
Proof.
  unfold findRecord. destruct (list_find _ _) as [[i x]|] eqn:Hfind; [|done].
  intros [= ->]. apply list_find_Some in Hfind as (Hi & [??] & _).
  split_and!; [by eapply list_elem_of_lookup_2|done..].
Qed.

Lemma findRecord_is_Some jobId s done :
  is_Some (findRecord jobId s done) ↔
  jobId ∈ ScheduledJob.jobId <$> ofStage s done.
Proof.
  unfold findRecord, ofStage. split.
  - intros [sj Hsj]. destruct (list_find _ _) as [[i x]|] eqn:Hfind; [|done].
    injection Hsj as ->. apply list_find_Some in Hfind as (Hi & [??] & _).
    apply list_elem_of_fmap. exists sj. split; [done|].
    apply list_elem_of_filter. split; [done|by eapply list_elem_of_lookup_2].
  - intros (sj & -> & [Hst Hin]%list_elem_of_filter)%list_elem_of_fmap_1.
    destruct (list_find_elem_of
                (λ sj', ScheduledJob.jobId sj' = ScheduledJob.jobId sj ∧
                        ScheduledJob.stage sj' = s) done sj)
      as [[i x] Hfind]; [done..|].
    rewrite Hfind. by eexists.
Qed.

Lemma placeJob_placeAt schedule currentTime acc jobId :
  placeJob schedule currentTime acc jobId =
  let place := placeAt (Schedule.jobs schedule) currentTime jobId in
  QueueStates.mk
    (QueueStates.inSource acc ++
       if decide (place = AtSource) then [jobId] else [])
    (QueueStates.inBuffer acc ++
       if decide (place = AtBuffer) then [jobId] else [])
    (QueueStates.inSink acc ++ if decide (place = AtSink) then [jobId] else []).
Proof.
  unfold placeJob, placeAt. destruct acc as [source buffer sink]. simpl.
  destruct (findRecord jobId Stage1 _) as [s1|];
    [|simpl; by rewrite ?app_nil_r].
  destruct (decide (currentTime < ScheduledJob.startTime s1));
    [simpl; by rewrite ?app_nil_r|].
  destruct (decide (currentTime < ScheduledJob.endTime s1));
    [simpl; by rewrite ?app_nil_r|].
  destruct (findRecord jobId Stage2 _) as [s2|];
    [|simpl; by rewrite ?app_nil_r].
  destruct (decide (currentTime < ScheduledJob.startTime s2));
    [simpl; by rewrite ?app_nil_r|].
  destruct (decide (currentTime < ScheduledJob.endTime s2));
    simpl; by rewrite ?app_nil_r.
Qed.

Lemma getQueueStatesAtTime_filter schedule currentTime jobSequence :
  let place := placeAt (Schedule.jobs schedule) currentTime in
  getQueueStatesAtTime schedule currentTime jobSequence =
  QueueStates.mk (filter (λ k, place k = AtSource) jobSequence)
                 (filter (λ k, place k = AtBuffer) jobSequence)
                 (filter (λ k, place k = AtSink) jobSequence).
Proof.
  simpl. unfold getQueueStatesAtTime.
  assert (∀ acc,
    foldl (placeJob schedule currentTime) acc jobSequence =
    QueueStates.mk
      (QueueStates.inSource acc ++
         filter (λ k, placeAt (Schedule.jobs schedule) currentTime k = AtSource)
                jobSequence)
      (QueueStates.inBuffer acc ++
         filter (λ k, placeAt (Schedule.jobs schedule) currentTime k = AtBuffer)
                jobSequence)
      (QueueStates.inSink acc ++
         filter (λ k, placeAt (Schedule.jobs schedule) currentTime k = AtSink)
                jobSequence)) as Hgen.
  { induction jobSequence as [|k rest IH]; intros acc; simpl.
    - rewrite !app_nil_r. by destruct acc.
    - rewrite IH, placeJob_placeAt. simpl. rewrite !filter_cons.
      repeat case_decide; simpl; rewrite <-?app_assoc, ?app_nil_r; done. }
  by rewrite Hgen.
Qed.

Lemma length_filter_places (place : JsNum → Place) (l : list JsNum) :
  (length (filter (λ k, place k = AtSource) l) +
   length (filter (λ k, place k = AtBuffer) l) +
   length (filter (λ k, place k = AtSink) l) ≤ length l)%nat.
Proof.
  induction l as [|k l IH]; [done|]. rewrite !filter_cons.
  destruct (place k); simpl; lia.
Qed.

(** Before the first job can start, every job is at the source. *)
Lemma placeAt_start done currentTime jobId :
  Forall recordConsistent done → Forall recordTimely done →
  currentTime < 20 → placeAt done currentTime jobId = AtSource.
Proof.
  intros Hrec Htimes Ht. unfold placeAt.
  destruct (findRecord jobId Stage1 done) as [s1|] eqn:H1; [|done].
  apply findRecord_Some in H1 as (Hin & _ & Hst).
  rewrite Forall_forall in Hrec, Htimes.
  destruct (Hrec s1 Hin) as ((t & Ht1 & Hstart) & _ & Hstage).
  destruct (Htimes s1 Hin) as (_ & t' & Ht' & Hge).
  assert (t' = t) as -> by congruence.
  rewrite Hst in Hstage. destruct Hstage as (_ & Hsetup & _).
  rewrite decide_True; [done|]. destruct Hsetup as [[_ ?]|[_ ?]]; lia.
Qed.

(** From the makespan on, every job that was started is at the sink. *)
Lemma placeAt_end done currentTime jobId :
  Forall recordConsistent done → Forall recordTimely done →
  stage2Ids done ≡ₚ stage1Ids done →
  maxWithZero (ScheduledJob.endTime <$> done) ≤ currentTime →
  placeAt done currentTime jobId =
    if decide (jobId ∈ stage1Ids done) then AtSink else AtSource.
Proof.
  intros Hrec Htimes Hperm Ht. unfold placeAt.
  assert (∀ sj, sj ∈ done →
                ScheduledJob.startTime sj ≤ currentTime ∧
                ScheduledJob.endTime sj ≤ currentTime) as Hpast.
  { intros sj Hin. rewrite Forall_forall in Hrec, Htimes.
    destruct (Hrec sj Hin) as (_ & Hend & _).
    destruct (Htimes sj Hin) as (Hproc & _).
    pose proof (maxWithZero_upper (ScheduledJob.endTime <$> done)
                  (ScheduledJob.endTime sj)) as Hup.
    specialize (Hup ltac:(by apply list_elem_of_fmap_2)). lia. }
  case_decide as Hin.
  - pose proof Hin as Hin2. rewrite <-Hperm in Hin2.
    apply (findRecord_is_Some jobId Stage1) in Hin as [s1 H1].
    apply (findRecord_is_Some jobId Stage2) in Hin2 as [s2 H2].
    rewrite H1, H2.
    apply findRecord_Some in H1 as (Hin1 & _). apply Hpast in Hin1.
    apply findRecord_Some in H2 as (Hin2 & _). apply Hpast in Hin2.
    rewrite !decide_False by lia. done.
  - destruct (findRecord jobId Stage1 done) as [s1|] eqn:H1; [|done].
    destruct Hin. apply (findRecord_is_Some jobId Stage1). by eexists.
Qed.

Lemma filter_all {A} (P : A → Prop) `{∀ x, Decision (P x)} (l : list A) :
  Forall P l → filter P l = l.
Proof.
  induction 1 as [|x l Hx _ IH]; [done|].
  by rewrite filter_cons_True, IH.
Qed.

Lemma filter_none {A} (P : A → Prop) `{∀ x, Decision (P x)} (l : list A) :
  Forall (λ x, ¬ P x) l → filter P l = [].
Proof.
  induction 1 as [|x l Hx _ IH]; [done|].
  by rewrite filter_cons_False.
Qed.

(** * Runs and their schedules *)

Lemma schedule_of_run jobs jobSequence schedule :
  runSimulation jobs jobSequence = Returned schedule →
  ∃ state q warned,
    simulate jobs jobSequence = Returned (state, q, warned) ∧
    reachable jobs jobSequence state q ∧
    stage2Queue state = [] ∧
    (warned = false → q = []) ∧
    schedule = buildSchedule (completedJobs state).
Proof.
  intros Hrun.
  destruct (simulate_final jobs jobSequence)
    as (state & q & warned & Hsim & Hr & Hq2 & Hq & Hrun').
  rewrite Hrun in Hrun'. injection Hrun' as ->.
  by exists state, q, warned.
Qed.

Lemma run_completes jobs jobSequence state q warned :
  (2 * length jobSequence < maxIterations)%nat →
  simulate jobs jobSequence = Returned (state, q, warned) →
  reachable jobs jobSequence state q →
  stage2Queue state = [] → (warned = false → q = []) →
  stage2Ids (completedJobs state) ≡ₚ stage1Ids (completedJobs state).
Proof.
  intros Hlen Hsim Hr Hq2 Hq.
  pose proof (simulate_not_warned _ _ _ _ _ Hlen Hsim) as Hw.
  pose proof (reachable_flowBalance _ _ _ _ Hr) as Hflow.
  unfold flowBalance in Hflow. rewrite Hq2, (Hq Hw) in Hflow.
  by rewrite !app_nil_r in Hflow.
Qed.

(** * Statistics *)

Lemma filter_agree {A} (P Q : A → Prop) `{∀ x, Decision (P x)}
    `{∀ x, Decision (Q x)} (l : list A) :
  (∀ x, x ∈ l → P x ↔ Q x) → filter P l = filter Q l.
Proof.
  induction l as [|x l IH]; intros Hiff; [done|].
  rewrite !filter_cons.
  rewrite IH by (intros y Hy; apply Hiff; by right).
  destruct (decide (P x)) as [HP|HP], (decide (Q x)) as [HQ|HQ]; try done.
  - destruct HQ. apply Hiff; [by left|done].
  - destruct HP. apply Hiff; [by left|done].
Qed.

Lemma length_filter_and {A} (P Q : A → Prop) `{∀ x, Decision (P x)}
    `{∀ x, Decision (Q x)} (l : list A) :
  (length (filter (λ x, P x ∧ Q x) l) ≤ length (filter P l))%nat.
Proof.
  induction l as [|x l IH]; [done|]. rewrite !filter_cons.
  destruct (decide (P x)), (decide (P x ∧ Q x)); simpl; try lia.
  naive_solver.
Qed.

Lemma foldl_sum {A} (f : A → Z) a l :
  foldl (λ sum x, sum + f x) a l = a + sumZ (f <$> l).
Proof.
  revert a. induction l as [|x l IH]; intros a; [simpl; lia|].
  rewrite fmap_cons.
  change (sumZ (f x :: (f <$> l))) with (f x + sumZ (f <$> l)).
  change (foldl (λ sum y, sum + f y) a (x :: l))
    with (foldl (λ sum y, sum + f y) (a + f x) l).
  rewrite IH. lia.
Qed.

(** On-time and late jobs add up to the completed ones. *)
Lemma calculateStatistics_counts schedule totalJobs :
  let s := calculateStatistics schedule totalJobs in
  Statistics.onTimeJobs s + Z.of_nat (Statistics.lateJobs s) =
    Z.of_nat (Statistics.completedJobs s) ∧
  0 ≤ Statistics.onTimeJobs s.
Proof.
  simpl.
  pose proof (length_filter_and
                (λ sj, ScheduledJob.stage sj = Stage2)
                (λ sj, ScheduledJob.isLate sj = true)
                (Schedule.jobs schedule)).
  lia.
Qed.

Lemma calculateLiveStatistics_counts schedule currentTime totalJobs :
  let s := calculateLiveStatistics schedule currentTime totalJobs in
  Statistics.onTimeJobs s + Z.of_nat (Statistics.lateJobs s) =
    Z.of_nat (Statistics.completedJobs s) ∧
  0 ≤ Statistics.onTimeJobs s ∧
  (Statistics.completedJobs s ≤
   Statistics.completedJobs (calculateStatistics schedule totalJobs))%nat.
Proof.
  simpl.
  pose proof (length_filter
                (λ sj, ScheduledJob.isLate sj = true)
                (filter (λ sj, ScheduledJob.stage sj = Stage2 ∧
                               ScheduledJob.endTime sj ≤ currentTime)
                        (Schedule.jobs schedule))).
  pose proof (length_filter_and
                (λ sj, ScheduledJob.stage sj = Stage2)
                (λ sj, ScheduledJob.endTime sj ≤ currentTime)
                (Schedule.jobs schedule)).
  lia.
Qed.

(** From the makespan on the live statistics are the final ones. *)
Lemma calculateLiveStatistics_final done currentTime totalJobs :
  Forall recordConsistent done → Forall recordTimely done →
  maxWithZero (ScheduledJob.endTime <$> done) ≤ currentTime →
  calculateLiveStatistics (buildSchedule done) currentTime totalJobs =
  calculateStatistics (buildSchedule done) totalJobs.
Proof.
  intros Hrec Htimes Ht.
  assert (∀ sj, sj ∈ done →
                ScheduledJob.endTime sj ≤ currentTime ∧
                setupDoneBy currentTime sj ∧
                0 < ScheduledJob.setupTime sj) as Hpast.
  { intros sj Hin. rewrite Forall_forall in Hrec, Htimes.
    destruct (Hrec sj Hin) as ((t & Hss & Hstart) & Hend & Hstage).
    destruct (Htimes sj Hin) as (Hproc & _).
    pose proof (maxWithZero_upper (ScheduledJob.endTime <$> done)
                  (ScheduledJob.endTime sj)) as Hup.
    specialize (Hup ltac:(by apply list_elem_of_fmap_2)).
    unfold setupDoneBy. rewrite Hss. split_and!; [lia|lia|].
    destruct (ScheduledJob.stage sj).
    - destruct Hstage as (_ & [[_ ->]|[_ ->]] & _); lia.
    - destruct Hstage as (_ & _ & -> & _). lia. }
  assert (filter (λ sj, ScheduledJob.stage sj = Stage2 ∧
                        ScheduledJob.endTime sj ≤ currentTime) done =
          ofStage Stage2 done) as Hcompleted.
  { apply filter_agree. intros sj Hin. destruct (Hpast sj Hin). tauto. }
  assert (∀ ty, filter (λ sj, ScheduledJob.setupType sj = ty ∧
                              setupDoneBy currentTime sj) done =
                filter (λ sj, ScheduledJob.setupType sj = ty) done) as Htype.
  { intros ty. apply filter_agree. intros sj Hin.
    destruct (Hpast sj Hin) as (_ & ? & _). tauto. }
  assert (filter (λ sj, ScheduledJob.isLate sj = true) (ofStage Stage2 done) =
          filter (λ sj, ScheduledJob.stage sj = Stage2 ∧
                        ScheduledJob.isLate sj = true) done) as Hlate.
  { unfold ofStage. rewrite list_filter_filter. apply list_filter_iff.
    intros sj. tauto. }
  assert (filter (λ sj, 0 < ScheduledJob.setupTime sj ∧
                        setupDoneBy currentTime sj) done =
          filter (λ sj, 0 < ScheduledJob.setupTime sj) done) as Hsetup.
  { apply filter_agree. intros sj Hin.
    destruct (Hpast sj Hin) as (_ & ? & ?). tauto. }
  unfold calculateLiveStatistics, calculateStatistics.
  rewrite buildSchedule_jobs, Hcompleted, !Htype, Hsetup, Hlate, foldl_sum.
  unfold buildSchedule, ofStage. simpl. reflexivity.
Qed.

(** * Heuristics, families and validation *)

Lemma buildJobsMap_known jobs job :
  job ∈ jobs → is_Some (buildJobsMap jobs !! Job.id job).
Proof.
  unfold buildJobsMap.
  cut (∀ (l : list Job.t) (m : gmap Z Job.t) k,
         is_Some (m !! k) ∨ (∃ j, j ∈ l ∧ Job.id j = k) →
         is_Some (foldl (λ m j, <[Job.id j:=j]> m) m l !! k)).
  { intros H Hin. apply H. right. by exists job. }
  induction l as [|j l IH]; intros m k Hk; simpl.
  - destruct Hk as [?|(j & Hj & _)]; [done|]. by apply not_elem_of_nil in Hj.
  - apply IH. rewrite lookup_insert_is_Some.
    destruct (decide (Job.id j = k)) as [|Hne]; [by left; left|].
    destruct Hk as [?|(j' & [->|Hj']%elem_of_cons & Hid)]; [by left; right|done|].
    right. by exists j'.
Qed.

Lemma buildSetupKits_families jobs f :
  is_Some (buildSetupKits jobs !! f) ↔ ∃ job, job ∈ jobs ∧ Job.family job = f.
Proof.
  split; [|intros (job & Hin & <-); by apply buildSetupKits_cover].
  unfold buildSetupKits.
  cut (∀ (l : list Job.t) (m : gmap Z SetupKit.t),
         is_Some (foldl (λ m j,
                           match m !! Job.family j with
                           | Some _ => m
                           | None => <[Job.family j :=
                                        SetupKit.mk (Job.family j) None false 0]> m
                           end) m l !! f) →
         is_Some (m !! f) ∨ ∃ job, job ∈ l ∧ Job.family job = f).
  { intros H Hf. destruct (H jobs ∅ Hf) as [Hm|?]; [|done].
    rewrite lookup_empty in Hm. by destruct Hm. }
  induction l as [|j l IH]; intros m Hf; simpl in Hf; [by left|].
  destruct (IH _ Hf) as [Hm|(job & Hin & Hjob)].
  - destruct (m !! Job.family j) eqn:Hj; [by left|].
    apply lookup_insert_is_Some in Hm as [<-|[_ Hm]]; [|by left].
    right. exists j. split; [by left|done].
  - right. exists job. split; [by right|done].
Qed.

Lemma distinct_spec values :
  NoDup (distinct values) ∧ ∀ v, v ∈ distinct values ↔ v ∈ values.
Proof.
  unfold distinct.
  cut (∀ (l seen : list Z), NoDup seen →
         NoDup (foldl (λ seen v, if decide (v ∈ seen) then seen
                                 else seen ++ [v]) seen l) ∧
         ∀ v, v ∈ foldl (λ seen v, if decide (v ∈ seen) then seen
                                   else seen ++ [v]) seen l ↔
              v ∈ seen ∨ v ∈ l).
  { intros H. destruct (H values [] (NoDup_nil_2)) as [Hn He]. split; [done|].
    intros v. rewrite He. rewrite elem_of_nil. tauto. }
  induction l as [|x l IH]; intros seen Hseen; simpl.
  - split; [done|]. intros v. rewrite elem_of_nil. tauto.
  - case_decide as Hx.
    + destruct (IH seen Hseen) as [Hn He]. split; [done|].
      intros v. rewrite He, elem_of_cons. naive_solver.
    + destruct (IH (seen ++ [x])) as [Hn He].
      { apply NoDup_app. split_and!; [done| |apply NoDup_singleton].
        intros y Hy ->%list_elem_of_singleton. done. }
      split; [done|]. intros v.
      rewrite He, elem_of_app, list_elem_of_singleton, elem_of_cons. tauto.
Qed.

Lemma sorted_distinct_increasing (l : list Z) :
  Sorted (λ a b, a - b ≤ 0) l → NoDup l → StronglySorted Z.lt l.
Proof.
  intros Hs Hn.
  apply Sorted_StronglySorted in Hs; [|intros a b c; simpl; lia].
  induction Hs as [|x l Hs IH Hall]; [constructor|].
  apply NoDup_cons in Hn as [Hx Hn]. constructor; [by apply IH|].
  rewrite Forall_forall in Hall |- *. intros y Hy.
  specialize (Hall y Hy). simpl in Hall.
  assert (x ≠ y) by (by intros ->). lia.
Qed.

Lemma validateJob_errors errors index job :
  ∃ more, validateJob errors index job = errors ++ more ∧
          (more = [] ↔ Job.id job ≠ 0 ∧ 0 ≤ Job.dueDate job ∧
                       0 < Job.t_smd job ∧ 0 < Job.t_aoi job).
Proof.
  unfold validateJob.
  repeat case_decide; rewrite <-?app_assoc; eexists;
    (split; [try reflexivity; by rewrite app_nil_r|]);
    simpl; split; try done; try lia; intros; split_and!; try done; lia.
Qed.

Lemma validateJobs_errors jobs :
  Validation.errors (validateJobs jobs) = [] ↔
  jobs ≠ [] ∧
  Forall (λ job, Job.id job ≠ 0 ∧ 0 ≤ Job.dueDate job ∧
                 0 < Job.t_smd job ∧ 0 < Job.t_aoi job) jobs.
Proof.
  unfold validateJobs. simpl.
  assert (∀ (l : list (nat * Job.t)) errors,
            foldl (λ errors ij, validateJob errors ij.1 ij.2) errors l = [] ↔
            errors = [] ∧
            Forall (λ ij, Job.id ij.2 ≠ 0 ∧ 0 ≤ Job.dueDate ij.2 ∧
                          0 < Job.t_smd ij.2 ∧ 0 < Job.t_aoi ij.2) l)
    as Hfold.
  { induction l as [|[i job] l IH]; intros errors; simpl.
    - split; [by intros ->|by intros [-> _]].
    - rewrite IH, Forall_cons. simpl.
      destruct (validateJob_errors errors i job) as (more & -> & Hmore).
      split.
      + intros [[-> ->]%app_eq_nil ?]. split; [done|]. split; [|done].
        by apply Hmore.
      + intros (-> & Hjob & ?). split; [|done].
        apply Hmore in Hjob as ->. done. }
  rewrite Hfold.
  assert (Forall (λ ij : nat * Job.t,
                    Job.id ij.2 ≠ 0 ∧ 0 ≤ Job.dueDate ij.2 ∧
                    0 < Job.t_smd ij.2 ∧ 0 < Job.t_aoi ij.2)
                 (imap (λ index job, (index, job)) jobs) ↔
          Forall (λ job, Job.id job ≠ 0 ∧ 0 ≤ Job.dueDate job ∧
                         0 < Job.t_smd job ∧ 0 < Job.t_aoi job) jobs) as ->.
  { rewrite !Forall_lookup. split.
    - intros H i job Hi. apply (H i (i, job)).
      by rewrite list_lookup_imap, Hi.
    - intros H i [k job]. rewrite list_lookup_imap.
      destruct (jobs !! i) as [job'|] eqn:Hi; [|done].
      intros [= <- <-]. by apply (H i). }
  destruct jobs; simpl; naive_solver.
Qed.

Lemma run_schedules_all jobs jobSequence :
  (2 * length jobSequence < maxIterations)%nat →
  Forall (λ k, is_Some (mapGet (buildJobsMap jobs) k)) jobSequence →
  ∃ schedule,
    runSimulation jobs jobSequence = Returned schedule ∧
    stage1Ids (Schedule.jobs schedule) = jobSequence ∧
    stage2Ids (Schedule.jobs schedule) ≡ₚ jobSequence ∧
    length (Schedule.jobs schedule) = (2 * length jobSequence)%nat.
Proof.
  intros Hlen Hall.
  destruct (simulate_final jobs jobSequence)
    as (state & q & warned & Hsim & Hr & Hq2 & Hq & Hrun).
  exists (buildSchedule (completedJobs state)).
  rewrite buildSchedule_jobs.
  pose proof (run_completes _ _ _ _ _ Hlen Hsim Hr Hq2 Hq) as Hperm.
  destruct (simulate_stage1Ids _ _ _ _ _ Hsim) as [Hids _].
  rewrite knownPrefix_all in Hids by done.
  split_and!; [done|done|by rewrite Hperm, Hids|].
  rewrite length_by_stage.
  assert (length (ofStage Stage2 (completedJobs state)) =
          length (ofStage Stage1 (completedJobs state))) as ->.
  { apply Permutation_length in Hperm. unfold stage1Ids, stage2Ids in Hperm.
    by rewrite !length_fmap in Hperm. }
  unfold stage1Ids in Hids. rewrite <-Hids, length_fmap. lia.
Qed.

Lemma applyHeuristic_ordered jobs heuristic :
  ∃ ordered,
    applyHeuristic jobs heuristic = Job.id <$> ordered ∧
    ordered ≡ₚ jobs ∧
    (heuristic = "EDD" →
     Sorted (λ a b, Job.dueDate a ≤ Job.dueDate b) ordered) ∧
    (heuristic = "SPT" →
     Sorted (λ a b, Job.t_smd a + Job.t_aoi a ≤ Job.t_smd b + Job.t_aoi b)
            ordered) ∧
    (heuristic = "FAMILY_GROUP" →
     Sorted (λ a b, Job.family a < Job.family b ∨
                    (Job.family a = Job.family b ∧
                     Job.dueDate a ≤ Job.dueDate b)) ordered) ∧
    (heuristic ≠ "EDD" → heuristic ≠ "SPT" → heuristic ≠ "FAMILY_GROUP" →
     ordered = jobs).
Proof.
  unfold applyHeuristic.
  destruct (decide (heuristic = "FIFO")) as [->|_].
  { exists jobs. by split_and!. }
  destruct (decide (heuristic = "EDD")) as [->|?].
  { eexists. split; [done|]. split_and!; [apply stableSort_Permutation| |done..].
    intros _. eapply Sorted_weaken; [|apply stableSort_Sorted].
    - intros a b. simpl. lia.
    - intros a b. lia. }
  destruct (decide (heuristic = "SPT")) as [->|?].
  { eexists. split; [done|]. split_and!; [apply stableSort_Permutation|done| |done..].
    intros _. eapply Sorted_weaken; [|apply stableSort_Sorted].
    - intros a b. simpl. lia.
    - intros a b. lia. }
  destruct (decide (heuristic = "FAMILY_GROUP")) as [->|?].
  { eexists. split; [done|].
    split_and!; [apply stableSort_Permutation|done|done| |done].
    intros _. eapply Sorted_weaken; [|apply stableSort_Sorted].
    - intros a b. unfold byFamilyThenDueDate. case_decide; lia.
    - intros a b. unfold byFamilyThenDueDate. repeat case_decide; lia. }
  exists jobs. by split_and!.
Qed.

(** * Adaptive parameter control *)

Lemma foldl_shift {A} (f : Z → A → Z) (g : A → Z) (l : list A) c :
  (∀ c x, f c x = c + g x) → foldl f c l = c + foldl f 0 l.
Proof.
  intros Hf. revert c. induction l as [|x l IH]; intros c; simpl; [lia|].
  rewrite (IH (f c x)), (IH (f 0 x)), !Hf. lia.
Qed.

Lemma hammingDistance_nil_l seq2 :
  hammingDistance [] seq2 = Z.of_nat (length seq2).
Proof. unfold hammingDistance. simpl. lia. Qed.

Lemma hammingDistance_nil_r seq1 :
  hammingDistance seq1 [] = Z.of_nat (length seq1).
Proof. unfold hammingDistance. rewrite Nat.min_0_r. simpl. lia. Qed.

Lemma hammingDistance_cons x y seq1 seq2 :
  hammingDistance (x :: seq1) (y :: seq2) =
  (if decide (x ≠ y) then 1 else 0) + hammingDistance seq1 seq2.
Proof.
  unfold hammingDistance. simpl length.
  rewrite <-Nat.succ_min_distr. simpl seq.
  change (foldl ?f 0 (0%nat :: ?l)) with (foldl f (f 0 0%nat) l).
  rewrite <-fmap_S_seq, foldl_fmap.
  unfold arrayGet at 1 2. simpl.
  rewrite (foldl_shift _ (λ i, if decide (arrayGet seq1 i ≠ arrayGet seq2 i)
                               then 1 else 0));
    [|intros c i; unfold arrayGet; simpl; case_decide; lia].
  replace (Z.of_nat (S (length seq1)) - Z.of_nat (S (length seq2)))
    with (Z.of_nat (length seq1) - Z.of_nat (length seq2)) by lia.
  assert (∀ l, foldl (λ b a, if decide (arrayGet (x :: seq1) (S a) ≠
                                        arrayGet (y :: seq2) (S a))
                             then b + 1 else b) 0 l =
               foldl (λ distance i, if decide (arrayGet seq1 i ≠ arrayGet seq2 i)
                                    then distance + 1 else distance) 0 l)
    as -> by done.
  change (arrayGet (x :: seq1) 0) with x.
  change (arrayGet (y :: seq2) 0) with y.
  case_decide; lia.
Qed.

Lemma hammingDistance_bounds seq1 seq2 :
  0 ≤ hammingDistance seq1 seq2 ≤
  Z.of_nat (length seq1 `max` length seq2).
Proof.
  revert seq2. induction seq1 as [|x seq1 IH]; intros seq2.
  - rewrite hammingDistance_nil_l. simpl. lia.
  - destruct seq2 as [|y seq2]; [rewrite hammingDistance_nil_r; simpl; lia|].
    rewrite hammingDistance_cons. specialize (IH seq2). simpl length.
    case_decide; lia.
Qed.

Lemma hammingDistance_zero seq1 seq2 :
  hammingDistance seq1 seq2 = 0 ↔ seq1 = seq2.
Proof.
  revert seq2. induction seq1 as [|x seq1 IH]; intros seq2.
  - rewrite hammingDistance_nil_l. destruct seq2; simpl; [done|].
    split; [lia|done].
  - destruct seq2 as [|y seq2]; [rewrite hammingDistance_nil_r; simpl|].
    { split; [lia|done]. }
    rewrite hammingDistance_cons.
    pose proof (hammingDistance_bounds seq1 seq2) as [Hge _].
    case_decide as Hxy.
    + split; [lia|]. by intros [= -> ->].
    + subst y. rewrite Z.add_0_l, IH.
      split; [by intros ->|by intros [= ->]].
Qed.

Lemma hammingDistance_sym seq1 seq2 :
  hammingDistance seq1 seq2 = hammingDistance seq2 seq1.
Proof.
  revert seq2. induction seq1 as [|x seq1 IH]; intros seq2.
  - by rewrite hammingDistance_nil_l, hammingDistance_nil_r.
  - destruct seq2 as [|y seq2];
      [by rewrite hammingDistance_nil_l, hammingDistance_nil_r|].
    rewrite !hammingDistance_cons, IH. repeat case_decide; congruence.
Qed.

Lemma hammingDistance_triangle seq1 seq2 seq3 :
  hammingDistance seq1 seq3 ≤
  hammingDistance seq1 seq2 + hammingDistance seq2 seq3.
Proof.
  revert seq2 seq3. induction seq1 as [|x seq1 IH]; intros seq2 seq3.
  - rewrite !hammingDistance_nil_l.
    revert seq3. induction seq2 as [|y seq2 IH2]; intros seq3.
    + rewrite hammingDistance_nil_l. simpl. lia.
    + destruct seq3 as [|z seq3];
        [rewrite hammingDistance_nil_r; simpl length; lia|].
      rewrite hammingDistance_cons. specialize (IH2 seq3). simpl length.
      case_decide; lia.
  - destruct seq2 as [|y seq2].
    + rewrite hammingDistance_nil_r, hammingDistance_nil_l.
      pose proof (hammingDistance_bounds (x :: seq1) seq3). lia.
    + destruct seq3 as [|z seq3].
      * rewrite !hammingDistance_nil_r, hammingDistance_cons.
        specialize (IH seq2 []). rewrite !hammingDistance_nil_r in IH.
        simpl length. case_decide; lia.
      * rewrite !hammingDistance_cons. specialize (IH seq2 seq3).
        repeat case_decide; try lia. congruence.
Qed.





Lemma adaptMutationRate_range base diversity stagnation progress :
  (1 # 100 <= adaptMutationRate base diversity stagnation progress)%Q ∧
  (adaptMutationRate base diversity stagnation progress <= 5 # 10)%Q.
Proof.
  unfold adaptMutationRate. split; [apply Q.le_max_l|].
  apply Q.max_lub; [done|apply Q.le_min_l].
Qed.

Lemma adaptMutationRate_clamp base diversity stagnation progress :
  let adapted :=
    (base * ((15 # 10) - diversity) * (1 + (5 # 10) * stagnation) *
     (1 - (3 # 10) * progress))%Q in
  (1 # 100 <= adapted)%Q → (adapted <= 5 # 10)%Q →
  (adaptMutationRate base diversity stagnation progress == adapted)%Q.
Proof.
  simpl. intros H1 H2. unfold adaptMutationRate.
  rewrite Q.min_r by done. by rewrite Q.max_r.
Qed.

Lemma adaptMutationRate_diversity base diversity diversity' stagnation
    progress :
  (0 <= base)%Q → (-2 <= stagnation)%Q → (progress <= 10 # 3)%Q →
  (diversity <= diversity')%Q →
  (adaptMutationRate base diversity' stagnation progress <=
   adaptMutationRate base diversity stagnation progress)%Q.
Proof.
  intros Hb Hs Hp Hd. unfold adaptMutationRate.
  apply Q.max_le_compat_l, Q.min_le_compat_l.
  assert (0 <= 1 + (5 # 10) * stagnation)%Q as Hsf by lra.
  assert (0 <= 1 - (3 # 10) * progress)%Q as Hpf by lra.
  apply Qmult_le_compat_r; [|done]. apply Qmult_le_compat_r; [|done].
  rewrite !(Qmult_comm base). apply Qmult_le_compat_r; [lra|done].
Qed.

Lemma adaptMutationRate_stagnation base diversity stagnation stagnation'
    progress :
  (0 <= base)%Q → (diversity <= 15 # 10)%Q → (progress <= 10 # 3)%Q →
  (stagnation <= stagnation')%Q →
  (adaptMutationRate base diversity stagnation progress <=
   adaptMutationRate base diversity stagnation' progress)%Q.
Proof.
  intros Hb Hd Hp Hs. unfold adaptMutationRate.
  apply Q.max_le_compat_l, Q.min_le_compat_l.
  assert (0 <= (15 # 10) - diversity)%Q as Hdf by lra.
  assert (0 <= 1 - (3 # 10) * progress)%Q as Hpf by lra.
  apply Qmult_le_compat_r; [|done].
  rewrite !(Qmult_comm (base * _)). apply Qmult_le_compat_r; [lra|].
  by apply Qmult_le_0_compat.
Qed.

(** ** The iteration cap *)

Lemma length_pushEvent (e : SimulationEvent.t) (q : EventQueue) :
  length (pushEvent e q) = S (length q).
Proof. by rewrite push_Permutation. Qed.

Lemma stage1Loop_processed n state q :
  eventsProcessed (stage1Loop n state q).1 (stage1Loop n state q).2 =
  eventsProcessed state q.
Proof.
  revert state q. induction n as [|n IH]; intros state q; simpl; [done|].
  destruct (stage1Pass state q) as [[state' q']|] eqn:Hp; [|done].
  rewrite IH.
  destruct (stage1Pass_effect _ _ _ _ Hp)
    as (jobId & rest & sj & _ & _ & _ & _ & _ & Hdone & _ & _ & e & _ & ->).
  unfold eventsProcessed.
  rewrite Hdone, length_app, length_pushEvent. simpl. lia.
Qed.

Lemma stage2Loop_processed n state q state' q' :
  stage2Loop n state q = Returned (state', q') →
  eventsProcessed state' q' = eventsProcessed state q.
Proof.
  revert state q. induction n as [|n IH]; intros state q; simpl.
  - by intros [= <- <-].
  - destruct (stage2Pass state q) as [[[state1 q1]|]|] eqn:Hp; simpl;
      [|by intros [= <- <-]|done].
    intros Hloop. rewrite (IH _ _ Hloop).
    destruct (stage2Pass_effect _ _ _ _ Hp)
      as (jobId & rest & sj & _ & _ & _ & _ & Hdone & _ & e & _ & ->).
    unfold eventsProcessed.
    rewrite Hdone, length_app, length_pushEvent. simpl. lia.
Qed.

Lemma processEvent_processed event state q state' q' :
  processEvent event state q = Returned (state', q') →
  eventsProcessed state' q' = eventsProcessed state q.
Proof.
  rewrite processEvent_applyEvent.
  destruct (applyEvent_frame event state) as (_ & Hdone & _).
  assert (eventsProcessed (applyEvent event state) q =
          eventsProcessed state q) as Happly
    by (unfold eventsProcessed; by rewrite Hdone).
  destruct (SimulationEvent.type event);
    try (by intros [= <- <-]).
  unfold tryAssignStage2Jobs. intros Hloop.
  by rewrite (stage2Loop_processed _ _ _ _ _ Hloop).
Qed.

(** Every pass of the main loop takes one event; the warning is due when
    the passes are used up. *)
Lemma eventLoop_iterations budget state q state' q' warned :
  eventLoop budget state q = Returned (state', q', warned) →
  ∃ k, (k ≤ budget)%nat ∧
       eventsProcessed state' q' = eventsProcessed state q + Z.of_nat k ∧
       (warned = true ↔ k = budget).
Proof.
  revert state q. induction budget as [|n IH]; intros state q; simpl.
  - intros [= <- <- <-]. exists 0%nat. split_and!; [lia|lia|done].
  - destruct q as [|event q0]; simpl.
    { intros [= <- <- <-]. exists 0%nat. split_and!; [lia|lia|done]. }
    destruct (processEvent event state q0) as [[state1 q1]|] eqn:Hev; [|done].
    simpl. destruct (tryAssignStage1Jobs state1 q1) as [state2 q2] eqn:Hs1.
    intros Hloop. destruct (IH _ _ Hloop) as (k & Hk & Hcount & Hwarned).
    exists (S k). split_and!; [lia| |].
    + rewrite Hcount.
      pose proof (stage1Loop_processed (length (stage1Queue state1))
                                       state1 q1) as H1.
      unfold tryAssignStage1Jobs in Hs1. rewrite Hs1 in H1. simpl in H1.
      rewrite H1, (processEvent_processed _ _ _ _ _ Hev).
      unfold eventsProcessed. simpl. lia.
    + rewrite Hwarned. lia.
Qed.

Lemma simulate_iterations jobs jobSequence state q warned :
  simulate jobs jobSequence = Returned (state, q, warned) →
  ∃ k, (k ≤ maxIterations)%nat ∧
       eventsProcessed state q = Z.of_nat k ∧
       (warned = true ↔ k = maxIterations).
Proof.
  unfold simulate.
  destruct (tryAssignStage1Jobs _ _) as [state0 q0] eqn:Hs1.
  intros Hloop.
  destruct (eventLoop_iterations _ _ _ _ _ _ Hloop) as (k & Hk & Hcount & Hw).
  exists k. split_and!; [done| |done].
  pose proof (stage1Loop_processed
                (length (stage1Queue (initializeState jobs jobSequence)))
                (initializeState jobs jobSequence) PriorityQueue.empty) as H1.
  unfold tryAssignStage1Jobs in Hs1. rewrite Hs1 in H1. simpl in H1.
  rewrite Hcount, H1. unfold eventsProcessed. simpl. lia.
Qed.

(** The deadlock warning is logged exactly when 5000 or more entries of
    the sequence come before the first one that is no id of a job. *)
Lemma simulate_warned_iff jobs jobSequence state q warned :
  simulate jobs jobSequence = Returned (state, q, warned) →
  warned = true ↔
  (maxIterations ≤
   2 * length (knownPrefix (buildJobsMap jobs) jobSequence))%nat.
Proof.
  intros Hsim.
  destruct (simulate_final jobs jobSequence)
    as (state' & q' & warned' & Hsim' & Hr & Hq2 & Hq & _).
  rewrite Hsim in Hsim'. injection Hsim' as <- <- <-.
  destruct (simulate_iterations _ _ _ _ _ Hsim) as (k & Hk & Hcount & Hw).
  destruct (simulate_stage1Ids _ _ _ _ _ Hsim) as [Hids _].
  pose proof (reachable_flowBalance _ _ _ _ Hr) as Hflow.
  unfold flowBalance in Hflow. rewrite Hq2 in Hflow. simpl in Hflow.
  apply Permutation_length in Hflow. rewrite length_app in Hflow.
  rewrite Hids in Hflow.
  assert (length (stage1Completions q) ≤ length q)%nat as Hsc.
  { unfold stage1Completions. rewrite length_fmap. apply length_filter. }
  unfold eventsProcessed in Hcount.
  rewrite (length_by_stage (completedJobs state)) in Hcount.
  assert (length (ofStage Stage1 (completedJobs state)) =
          length (knownPrefix (buildJobsMap jobs) jobSequence)) as H1
    by (rewrite <-Hids; unfold stage1Ids; by rewrite length_fmap).
  assert (length (ofStage Stage2 (completedJobs state)) =
          length (stage2Ids (completedJobs state))) as H2
    by (unfold stage2Ids; by rewrite length_fmap).
  split.
  - intros Htrue. apply Hw in Htrue. lia.
  - intros Hlong. destruct warned; [done|].
    rewrite (Hq eq_refl) in Hsc, Hcount. simpl in Hsc, Hcount.
    assert (k ≠ maxIterations) as Hne by (intros Heq; by apply Hw in Heq).
    assert (length (stage1Completions q) = 0%nat) as Hzero
      by (rewrite (Hq eq_refl); done).
    lia.
Qed.

(** ** A completed stage-1 job is assigned at once *)

Lemma stage1Complete_assigned jobs jobSequence state q event q0 :
  reachable jobs jobSequence state q → stage2Queue state = [] →
  popEvent q = (Some event, q0) →
  SimulationEvent.type event = STAGE1_COMPLETE →
  ∃ job stage1Job i m,
    mapGet (jobsMap state) (SimulationEvent.jobId event) = Some job ∧
    findStage1Job (SimulationEvent.jobId event) (completedJobs state) =
      Some stage1Job ∧
    stage2Queue (applyEvent event state) = [SimulationEvent.jobId event] ∧
    machines (applyEvent event state) !! i = Some m ∧
    stage2Pass (applyEvent event state) q0 =
      Returned (Some (assignStage2 (SimulationEvent.jobId event) job i m
                                   stage1Job (applyEvent event state) q0)) ∧
    tryAssignStage2Jobs (applyEvent event state) q0 =
      Returned (assignStage2 (SimulationEvent.jobId event) job i m
                             stage1Job (applyEvent event state) q0) ∧
    processEvent event state q0 =
      Returned (assignStage2 (SimulationEvent.jobId event) job i m
                             stage1Job (applyEvent event state) q0).
Proof.
  intros Hr Hempty Hpop Hty.
  pose proof (reach_event _ _ _ _ _ _ Hr Hpop) as Hr'.
  assert (stage2Queue (applyEvent event state) =
          [SimulationEvent.jobId event]) as Hq2.
  { unfold applyEvent. rewrite Hty. simpl. by rewrite Hempty. }
  destruct q as [|e q1]; [done|]. injection Hpop as -> ->.
  assert (SimulationEvent.jobId event ∈ stage1Ids (completedJobs state))
    as Hin.
  { rewrite (reachable_flowBalance _ _ _ _ Hr).
    unfold stage1Completions. rewrite filter_cons_True by done.
    rewrite !elem_of_app. right. right. simpl. by left. }
  destruct (applyEvent_frame event state) as (_ & Hdone & Hjm).
  destruct (reachable_sequenceSplit _ _ _ _ Hr) as [_ Hknown].
  rewrite Forall_forall in Hknown. destruct (Hknown _ Hin) as [job Hjob].
  destruct (findStage1Job_found _ _ Hin) as [s1 Hs1].
  exists job, s1.
  rewrite <-Hdone in Hs1. rewrite <-Hjm in Hjob.
  destruct (stage2Pass_assigns _ _ _ _ _ _ _ _ Hr' Hq2 Hjob Hs1)
    as (i & m & Hi & _ & _ & Hpass).
  exists i, m. rewrite Hdone in Hs1. rewrite Hjm in Hjob.
  split_and!; [done..| |].
  - unfold tryAssignStage2Jobs. rewrite Hq2. simpl. rewrite Hpass.
    reflexivity.
  - rewrite processEvent_applyEvent, Hty.
    unfold tryAssignStage2Jobs. rewrite Hq2. simpl. rewrite Hpass.
    reflexivity.
Qed.

(** A pass that assigns leaves the rest of the queue to the loop. *)
Lemma tryAssignStage2Jobs_pass state q state' q' :
  stage2Pass state q = Returned (Some (state', q')) →
  tryAssignStage2Jobs state q = tryAssignStage2Jobs state' q'.
Proof.
  intros Hpass.
  destruct (stage2Pass_effect _ _ _ _ Hpass)
    as (jobId & rest & sj & Hq & Hq' & _).
  unfold tryAssignStage2Jobs. rewrite Hq, Hq'. simpl. by rewrite Hpass.
Qed.
(** ** What a run of the genetic algorithm leaves behind *)

Lemma ensures_ret {A} (a : A) s (P : A → GAState → Prop) :
  P a s → ensures (mret a) s P.
Proof. intros HP a' s' [= <- <-]. done. Qed.

Lemma ensures_throw {A} e s (P : A → GAState → Prop) :
  ensures (throw e) s P.
Proof. intros a s' Hrun. discriminate Hrun. Qed.

Lemma ensures_bind {A B} (m : GA A) (f : A → GA B) s
    (Q : A → GAState → Prop) (P : B → GAState → Prop) :
  ensures m s Q → (∀ a s1, Q a s1 → ensures (f a) s1 P) →
  ensures (m ≫= f) s P.
Proof.
  intros Hm Hf b s' Hrun.
  apply bind_Returned in Hrun as (a & s1 & H1 & H2).
  eapply Hf; [by eapply Hm|done].
Qed.

Lemma ensures_weaken {A} (m : GA A) s (P Q : A → GAState → Prop) :
  ensures m s P → (∀ a s', P a s' → Q a s') → ensures m s Q.
Proof. intros Hm HPQ a s' Hrun. by apply HPQ, Hm. Qed.

Lemma ensures_repeatGA {B} (body : B → GA B)
    (I : nat → B → GAState → Prop) n k acc s :
  (∀ k acc s, I k acc s → ensures (body acc) s (I (S k))) →
  I k acc s → ensures (repeatGA n body acc) s (I (n + k)%nat).
Proof.
  intros Hbody. revert k acc s. induction n as [|n IH]; intros k acc s HI.
  - by apply ensures_ret.
  - simpl. eapply ensures_bind; [by apply Hbody|].
    intros acc1 s1 H1. replace (S (n + k)) with (n + S k)%nat by lia.
    by apply IH.
Qed.

Lemma ensures_forEach {A B} (body : B → A → GA B)
    (I : B → GAState → Prop) l acc s :
  (∀ acc x s, I acc s → ensures (body acc x) s I) →
  I acc s → ensures (forEach body acc l) s I.
Proof.
  intros Hbody. revert acc s. induction l as [|x l IH]; intros acc s HI.
  - by apply ensures_ret.
  - simpl. eapply ensures_bind; [by apply Hbody|]. intros ???. by apply IH.
Qed.

Lemma quiet_refl s : quiet s s.
Proof. done. Qed.

Lemma quiet_trans s1 s2 s3 : quiet s1 s2 → quiet s2 s3 → quiet s1 s3.
Proof. unfold quiet. intros [??] [??]. split; congruence. Qed.

Lemma silent_ret {A} (a : A) : silent (mret a).
Proof. intros s. by apply ensures_ret. Qed.

Lemma silent_throw {A} e : silent (@throw A e).
Proof. intros s. apply ensures_throw. Qed.

Lemma silent_bind {A B} (m : GA A) (f : A → GA B) :
  silent m → (∀ a, silent (f a)) → silent (m ≫= f).
Proof.
  intros Hm Hf s. eapply ensures_bind; [apply Hm|].
  intros a s1 H1. eapply ensures_weaken; [apply Hf|].
  intros b s2 H2. exact (quiet_trans _ _ _ H1 H2).
Qed.

Lemma silent_mathRandom : silent mathRandom.
Proof. intros s r s' Hrun. by injection Hrun as _ <-. Qed.

Lemma silent_isCancelRequested : silent isCancelRequested.
Proof. intros s r s' Hrun. by injection Hrun as _ <-. Qed.

Lemma silent_deref {A} (x : option A) : silent (deref x).
Proof. destruct x; [apply silent_ret|apply silent_throw]. Qed.

Lemma silent_forEach {A B} (body : B → A → GA B) acc l :
  (∀ acc x, silent (body acc x)) → silent (forEach body acc l).
Proof.
  intros Hbody. revert acc. induction l as [|x l IH]; intros acc; simpl.
  - apply silent_ret.
  - by apply silent_bind.
Qed.

Lemma silent_repeatGA {B} (body : B → GA B) n acc :
  (∀ acc, silent (body acc)) → silent (repeatGA n body acc).
Proof.
  intros Hbody. revert acc. induction n as [|n IH]; intros acc; simpl.
  - apply silent_ret.
  - by apply silent_bind.
Qed.

Lemma silent_outcome {A} (r : Outcome A) :
  silent match r with
         | Returned a => mret a
         | Thrown e => throw e
         end.
Proof. destruct r; [apply silent_ret|apply silent_throw]. Qed.

(** The calls of the worker that neither simulate nor report. *)
Ltac silence :=
  repeat first
    [ apply silent_ret | apply silent_throw | apply silent_mathRandom
    | apply silent_deref | apply silent_isCancelRequested
    | apply silent_outcome
    | apply silent_forEach; intros
    | apply silent_repeatGA; intros
    | apply silent_bind; [|intros]
    | case_decide ].

Lemma silent_randomIndex n : silent (randomIndex n).
Proof. unfold randomIndex. silence. Qed.

Lemma silent_shuffle chromosome : silent (shuffle chromosome).
Proof. unfold shuffle, randomIndex. silence. Qed.

Lemma silent_reduceFitter l : silent (reduceFitter l).
Proof. destruct l; simpl; unfold fitter; silence. Qed.

Lemma silent_tournamentSelection population tournamentSize :
  silent (tournamentSelection population tournamentSize).
Proof.
  unfold tournamentSelection. apply silent_bind; [|intros; apply silent_reduceFitter].
  unfold randomIndex. silence.
Qed.

Lemma silent_orderCrossover parent1 parent2 :
  silent (orderCrossover parent1 parent2).
Proof. unfold orderCrossover, randomIndex. silence. Qed.

Lemma silent_swapMutation chromosome : silent (swapMutation chromosome).
Proof. unfold swapMutation, randomIndex. silence. Qed.

Lemma silent_insertMutation chromosome : silent (insertMutation chromosome).
Proof. unfold insertMutation, randomIndex. silence. Qed.

Lemma silent_mutationRateOf adaptedMutationRate config generation population
    history :
  silent (mutationRateOf adaptedMutationRate config generation population
                         history).
Proof. unfold mutationRateOf. destruct (_ && _); silence. Qed.

(** A silent call, then the rest. *)
Lemma ensures_silent_bind {A B} (m : GA A) (f : A → GA B) s0 s
    (P : B → GAState → Prop) :
  quiet s0 s → silent m →
  (∀ a s1, quiet s0 s1 → ensures (f a) s1 P) →
  ensures (m ≫= f) s P.
Proof.
  intros Hq Hm Hf. eapply ensures_bind; [apply Hm|].
  intros a s1 H1. apply Hf. exact (quiet_trans _ _ _ Hq H1).
Qed.

Ltac quietly s0 call :=
  eapply (ensures_silent_bind _ _ s0); [eassumption|call|intros ???].

Lemma deref_Returned {A} (x : option A) a s s' :
  deref x s = Returned (a, s') → x = Some a ∧ s' = s.
Proof. destruct x; [|done]. by intros [= -> ->]. Qed.

(** *** Evaluation *)

Lemma individualOf_ensures jobs chromosome weight s :
  ensures (individualOf jobs chromosome weight) s
    (λ x s', evaluated jobs weight x ∧
             simulations s' = S (simulations s) ∧ reports s' = reports s).
Proof.
  destruct (evaluateFitness_run jobs chromosome weight s)
    as (schedule & Hrun & Hfit).
  intros x s'. unfold individualOf, mbind, GA_bind. rewrite Hfit.
  intros [= <- <-]. split; [|done]. by eexists _, schedule.
Qed.

Lemma createInitialPopulation_ensures jobs populationSize weight
    initialSequence s :
  ensures (createInitialPopulation jobs populationSize weight
                                   initialSequence) s
    (λ population s',
       Forall (evaluated jobs weight) population ∧
       length population =
         (Z.to_nat populationSize `max`
          length (option_list initialSequence))%nat ∧
       simulations s' = (simulations s + length population)%nat ∧
       reports s' = reports s).
Proof.
  unfold createInitialPopulation.
  eapply ensures_bind with
    (Q := λ p s1, Forall (evaluated jobs weight) p ∧
                  length p = length (option_list initialSequence) ∧
                  simulations s1 = (simulations s + length p)%nat ∧
                  reports s1 = reports s).
  { destruct initialSequence as [sequence|]; simpl.
    - eapply ensures_bind; [apply individualOf_ensures|].
      intros x s1 (Hx & Hs & Hr). apply ensures_ret.
      split_and!; [by apply Forall_singleton|done|simpl; lia|done].
    - apply ensures_ret. split_and!; [by constructor|done|simpl; lia|done]. }
  intros p s1 (Hp & Hlen & Hs & Hr).
  eapply ensures_weaken.
  - apply (ensures_repeatGA _
             (λ k p' s', Forall (evaluated jobs weight) p' ∧
                         length p' = (k + length p)%nat ∧
                         simulations s' = (simulations s + length p')%nat ∧
                         reports s' = reports s) _ 0); [|done].
    intros k p' s' (Hp' & Hk & Hs' & Hr').
    assert (quiet s' s') as Hq by done.
    quietly s' ltac:(apply silent_shuffle).
    eapply ensures_bind; [apply individualOf_ensures|].
    intros x s3 (Hx & Hs3 & Hr3). apply ensures_ret.
    match goal with H : quiet s' _ |- _ => destruct H as [Hq1 Hq2] end.
    split_and!.
    + apply Forall_app. split; [done|by apply Forall_singleton].
    + rewrite length_app. simpl. lia.
    + rewrite length_app. simpl. lia.
    + congruence.
  - intros p' s' (Hp' & Hk & Hs' & Hr'). split_and!; [done|lia|done|done].
Qed.

(** *** Selection *)

Lemma forEach_fitter l x s r s' :
  forEach fitter x l s = Returned (r, s') →
  s' = s ∧ r ∈ x :: l ∧
  ∀ best, r = Some best →
    ∀ individual, Some individual ∈ x :: l →
      (Individual.fitness best <= Individual.fitness individual)%Q.
Proof.
  revert x. induction l as [|y l IH]; intros x Hrun.
  - injection Hrun as <- <-. split_and!; [done|apply list_elem_of_here|].
    intros best -> individual Hin.
    apply list_elem_of_singleton in Hin as [= ->]. apply Qle_refl.
  - simpl in Hrun. apply bind_Returned in Hrun as (x' & s1 & Hfit & Hrun).
    unfold fitter in Hfit.
    apply bind_Returned in Hfit as (c & sc & Hc & Hfit).
    apply deref_Returned in Hc as [-> ->].
    apply bind_Returned in Hfit as (b & sb & Hb & Hfit).
    apply deref_Returned in Hb as [-> ->].
    injection Hfit as <- <-.
    apply IH in Hrun as (-> & Hin & Hmin). split_and!; [done| |].
    + case_decide; set_solver.
    + intros best -> individual Hind.
      specialize (Hmin best eq_refl).
      apply elem_of_cons in Hind as [[= ->]|Hind].
      { case_decide as Hlt.
        - pose proof (Hmin c (list_elem_of_here _ _)). lra.
        - apply (Hmin b), list_elem_of_here. }
      apply elem_of_cons in Hind as [[= ->]|Hind].
      { case_decide as Hlt.
        - apply (Hmin c), list_elem_of_here.
        - pose proof (Hmin b (list_elem_of_here _ _)). lra. }
      by apply Hmin, list_elem_of_further.
Qed.

Lemma reduceFitter_ensures l s :
  ensures (reduceFitter l) s
    (λ r s', s' = s ∧ r ∈ l ∧
       ∀ best, r = Some best →
         ∀ individual, Some individual ∈ l →
           (Individual.fitness best <= Individual.fitness individual)%Q).
Proof. destruct l; [apply ensures_throw|]. intros r s'. apply forEach_fitter. Qed.

(** *** Offspring *)

Lemma offspring_ensures jobs config rate population newPopulation s :
  ensures (offspring jobs config rate population newPopulation) s
    (λ newPopulation' s',
       (∃ x, newPopulation' = newPopulation ++ [x] ∧
             evaluated jobs (GAConfig.tardinessWeight config) x) ∧
       simulations s' = S (simulations s) ∧ reports s' = reports s).
Proof.
  unfold offspring. assert (quiet s s) as Hq by done.
  quietly s ltac:(apply silent_tournamentSelection).
  quietly s ltac:(apply silent_tournamentSelection).
  quietly s ltac:(apply silent_mathRandom).
  quietly s ltac:(silence; apply silent_orderCrossover).
  quietly s ltac:(apply silent_mathRandom).
  quietly s ltac:(case_decide;
                  [destruct (GAConfig.mutationMethod config);
                   [apply silent_swapMutation|apply silent_insertMutation]
                  |apply silent_ret]).
  eapply ensures_bind; [apply individualOf_ensures|].
  intros x s7 (Hx & Hs & Hr). apply ensures_ret.
  match type of Hs with
  | _ = S (simulations ?s6) =>
      match goal with H : quiet s s6 |- _ => destruct H as [Hq1 Hq2] end
  end.
  split_and!; [by eexists|congruence..].
Qed.

(** *** The sorted population and the history *)

#[local] Instance byFitness_Transitive : Transitive byFitness.
Proof. intros a b c. apply Qle_trans. Qed.

#[local] Instance neverWorse_Transitive : Transitive neverWorse.
Proof. intros a b c Hab Hbc. by eapply Qle_trans. Qed.

Lemma sortByFitness_head population currentBest :
  arrayGet (sortByFitness population) 0 = Some currentBest →
  Some currentBest ∈ population ∧
  ∀ individual, Some individual ∈ population →
    (Individual.fitness currentBest <= Individual.fitness individual)%Q.
Proof.
  pose proof (sortByFitness_Permutation population) as Hperm.
  pose proof (sortByFitness_Sorted population) as Hsorted.
  unfold arrayGet. destruct (sortByFitness population) as [|x sorted];
    simpl; [done|].
  intros ->. split; [rewrite <-Hperm; apply list_elem_of_here|].
  cbn in Hsorted. apply (Sorted_StronglySorted _) in Hsorted.
  apply StronglySorted_inv in Hsorted as [_ Hall].
  intros individual Hin. rewrite <-Hperm in Hin.
  apply elem_of_cons in Hin as [[= ->]|Hin]; [apply Qle_refl|].
  eapply Forall_forall in Hall; [exact Hall|].
  apply list_elem_of_omap. by exists (Some individual).
Qed.

Lemma history_snoc (history : list Q) f :
  Sorted neverWorse history →
  (∀ g, last history = Some g → (f <= g)%Q) →
  Sorted neverWorse (history ++ [f]).
Proof.
  intros Hsorted Hlast. apply Sorted_snoc; [done|].
  destruct (last history) as [g|] eqn:Hg.
  - apply last_Some in Hg as [l' ->]. constructor. by apply Hlast.
  - apply last_None in Hg as ->. constructor.
Qed.

Lemma history_last (f0 f : Q) history :
  Sorted neverWorse (f0 :: history) → last (f0 :: history) = Some f →
  (f <= f0)%Q.
Proof.
  intros Hsorted Hlast. apply (Sorted_StronglySorted _) in Hsorted.
  apply StronglySorted_inv in Hsorted as [_ Hall].
  rewrite last_cons in Hlast. destruct (last history) as [g|] eqn:Hg.
  - injection Hlast as ->. apply last_Some in Hg as [l' ->].
    apply Forall_app in Hall as [_ Hall].
    rewrite Forall_singleton in Hall. exact Hall.
  - injection Hlast as ->. apply Qle_refl.
Qed.

(** *** Generations *)

Lemma elites_head config sorted currentBest :
  arrayGet sorted 0 = Some currentBest →
  Some currentBest ∈ elites config sorted.
Proof.
  intros Hhead. unfold elites. pose proof (eliteCount_ge config) as Hge.
  destruct (Z.to_nat (eliteCount config)) as [|n] eqn:Hn; [lia|].
  simpl. rewrite Hhead. apply list_elem_of_here.
Qed.

Section run_facts.
Context (adaptedMutationRate :
           GAConfig.t → Z → list (option Individual.t) → list Q → Outcome Q).
Context (jobs : list Job.t) (config : GAConfig.t).
Context (Hconfig : validConfig config).

Lemma generationStep_ensures generation e s :
  improving jobs config e →
  ensures (generationStep adaptedMutationRate jobs config generation e) s
    (λ e' s',
       improving jobs config e' ∧
       ∃ best f,
         bestEver e' = Some best ∧
         fitnessHistory e' = fitnessHistory e ++ [f] ∧
         (Individual.fitness best == f)%Q ∧
         reports s' = reports s ++ [progressOf generation best] ∧
         simulations s' = (simulations s + offspringCount config)%nat).
Proof using Hconfig.
  intros [Hev Hlen Hbest Hkept Hhist Hlast] e' s' Hrun.
  unfold generationStep in Hrun.
  apply bind_Returned in Hrun as (cancel & s1 & Hc & Hrun).
  injection Hc as <- <-. destruct (cancelRequested s); [done|].
  apply bind_Returned in Hrun as (currentBest & s1 & Hcb & Hrun).
  apply deref_Returned in Hcb as [Hcb ->].
  apply bind_Returned in Hrun as (best & s1 & Hb & Hrun).
  apply deref_Returned in Hb as [Hb ->].
  apply bind_Returned in Hrun as (u & s1 & Hreport & Hrun).
  injection Hreport as <- <-.
  apply bind_Returned in Hrun as (rate & s2 & Hrate & Hrun).
  apply silent_mutationRateOf in Hrate as [Hs2 Hr2]. simpl in Hs2, Hr2.
  apply bind_Returned in Hrun as (newPopulation & s3 & Hloop & Hrun).
  injection Hrun as <- <-.
  destruct (sortByFitness_head _ _ Hcb) as [Hin Hmin].
  destruct (Hkept best Hb) as (kept & Hkin & Hkle).
  pose proof (Hmin kept Hkin) as Hle.
  set (sorted := sortByFitness (population e)) in *.
  set (newBest :=
         if decide (Individual.fitness currentBest < Individual.fitness best)%Q
         then currentBest else best) in *.
  assert (Individual.fitness newBest == Individual.fitness currentBest)%Q
    as Hnew.
  { unfold newBest. case_decide; [reflexivity|lra]. }
  pose proof (eliteCount_ge config) as Hge.
  pose proof (eliteCount_le config Hconfig) as Hele.
  assert (elites config sorted =
          take (Z.to_nat (eliteCount config)) sorted) as Helites.
  { apply elites_take. unfold sorted.
    rewrite sortByFitness_Permutation, Hlen. lia. }
  assert (length (elites config sorted) = Z.to_nat (eliteCount config))
    as Hlenel by apply length_elites.
  eapply (ensures_repeatGA _
            (λ k p st,
               Forall (evaluated jobs (GAConfig.tardinessWeight config)) p ∧
               length p = (k + Z.to_nat (eliteCount config))%nat ∧
               Some currentBest ∈ p ∧
               simulations st = (simulations s2 + k)%nat ∧
               reports st = reports s2) _ 0) in Hloop.
  - simpl in Hloop. destruct Hloop as (Hp & Hk & Hcbin & Hs3 & Hr3).
    split.
    + split; simpl.
      * done.
      * rewrite Hk. lia.
      * unfold newBest. case_decide; [|by rewrite <-Hb].
        eapply Forall_forall in Hev; [exact Hev|done].
      * intros best' [= <-]. exists currentBest. split; [done|].
        rewrite Hnew. apply Qle_refl.
      * apply history_snoc; [done|].
        intros g Hg. rewrite <-(Hlast best g Hb Hg). lra.
      * intros best' f [= <-]. rewrite last_snoc. intros [= <-]. done.
    + exists newBest, (Individual.fitness currentBest). simpl.
      split_and!; [done|done|done|by rewrite Hr3, Hr2|].
      rewrite Hs3, Hs2. simpl. unfold offspringCount. lia.
  - intros k p st (Hp & Hk & Hcbin & Hst & Hrt).
    eapply ensures_weaken; [apply offspring_ensures|].
    intros p' st' ((x & -> & Hx) & Hst' & Hrt'). split_and!.
    + apply Forall_app. split; [done|by apply Forall_singleton].
    + rewrite length_app. simpl. lia.
    + apply elem_of_app. by left.
    + lia.
    + congruence.
  - split_and!.
    + rewrite Helites. apply Forall_take. unfold sorted.
      by rewrite sortByFitness_Permutation.
    + by rewrite Hlenel.
    + by apply elites_head.
    + lia.
    + done.
Qed.

Lemma generationsFrom_ensures n generation e s :
  improving jobs config e →
  ensures (generationsFrom adaptedMutationRate jobs config n generation e) s
    (λ e' s',
       improving jobs config e' ∧
       simulations s' = (simulations s + n * offspringCount config)%nat ∧
       ∃ fs rs,
         fitnessHistory e' = fitnessHistory e ++ fs ∧
         reports s' = reports s ++ rs ∧
         Progress.generation <$> rs =
           (λ i, generation + Z.of_nat i) <$> seq 0 n ∧
         Forall2 (λ r f, (Progress.bestFitness r == f)%Q) rs fs).
Proof using Hconfig.
  revert generation e s. induction n as [|n IH]; intros generation e s He.
  - apply ensures_ret. split_and!; [done|simpl; lia|].
    exists [], []. by rewrite !app_nil_r.
  - simpl. eapply ensures_bind; [by apply generationStep_ensures|].
    intros e1 s1 (He1 & best & f & Hbest & Hhist & Hfit & Hrep & Hsim).
    eapply ensures_weaken; [by apply IH|].
    intros e2 s2 (He2 & Hsim2 & fs & rs & Hhist2 & Hrep2 & Hgen & Hall).
    split_and!; [done|lia|].
    exists (f :: fs), (progressOf generation best :: rs). split_and!.
    + by rewrite Hhist2, Hhist, <-app_assoc.
    + by rewrite Hrep2, Hrep, <-app_assoc.
    + rewrite fmap_cons, Hgen. simpl. f_equal; [lia|].
      rewrite <-fmap_S_seq, <-list_fmap_compose.
      apply list_fmap_ext. intros _ i _. simpl. lia.
    + by constructor.
Qed.

Lemma startEvolution_ensures initialSequence s :
  ensures (startEvolution jobs config initialSequence) s
    (λ e s',
       improving jobs config e ∧ fitnessHistory e = [] ∧
       simulations s' =
         (simulations s + Z.to_nat (GAConfig.populationSize config))%nat ∧
       reports s' = reports s).
Proof using Hconfig.
  unfold startEvolution. destruct Hconfig as ([Hsize _] & _).
  eapply ensures_bind; [apply createInitialPopulation_ensures|].
  intros population s1 (Hev & Hlen & Hsim & Hrep).
  eapply ensures_bind; [apply reduceFitter_ensures|].
  intros best s2 (-> & Hin & Hmin). apply ensures_ret.
  assert (length population = Z.to_nat (GAConfig.populationSize config))
    as Hlen'.
  { rewrite Hlen. destruct initialSequence; simpl; lia. }
  split_and!; [|done|lia|done].
  split; simpl.
  - done.
  - done.
  - eapply Forall_forall in Hev; [exact Hev|done].
  - intros best' ->. exists best'. split; [done|apply Qle_refl].
  - constructor.
  - intros ?? _ [=].
Qed.

Lemma runGA_ensures initialSequence s :
  ensures (runGA adaptedMutationRate jobs config initialSequence) s
    (λ result s',
       let best := GAResult.bestIndividual result in
       let history := GAResult.fitnessHistory result in
       let generations := Z.to_nat (GAConfig.generations config) in
       (evaluated jobs (GAConfig.tardinessWeight config) (Some best) ∧
        GAResult.bestSequence result = Individual.chromosome best ∧
        GAResult.makespan result = Individual.makespan best ∧
        GAResult.totalTardiness result = Individual.totalTardiness best) ∧
       (length history = generations ∧
        Sorted neverWorse history ∧
        (∀ f, last history = Some f → (Individual.fitness best == f)%Q) ∧
        (∀ f0, head history = Some f0 → (0 < f0)%Q →
           ∃ v, GAResult.improvement result = Some v ∧ (0 <= v)%Q)) ∧
       simulations s' =
         (simulations s + Z.to_nat (GAConfig.populationSize config) +
          generations * offspringCount config)%nat ∧
       ∃ rs,
         reports s' = reports s ++ rs ∧
         Progress.generation <$> rs = Z.of_nat <$> seq 0 generations ∧
         Forall2 (λ r f, (Progress.bestFitness r == f)%Q) rs history).
Proof using Hconfig.
  unfold runGA.
  eapply ensures_bind; [apply startEvolution_ensures|].
  intros e s1 (He & Hnil & Hsim & Hrep).
  eapply ensures_bind; [by apply generationsFrom_ensures|].
  intros e' s2 (He' & Hsim' & fs & rs & Hhist & Hrep' & Hgen & Hall).
  rewrite Hnil in Hhist. simpl in Hhist.
  intros result s' Hrun.
  apply bind_Returned in Hrun as (best & s3 & Hbest & Hrun).
  apply deref_Returned in Hbest as [Hbest ->].
  injection Hrun as <- <-. simpl.
  destruct He' as [_ _ Hev _ Hsorted Hlast]. rewrite Hbest in Hev.
  split_and!; try done.
  - rewrite Hhist. apply Forall2_length in Hall. rewrite <-Hall.
    rewrite <-(length_fmap Progress.generation), Hgen.
    by rewrite length_fmap, length_seq.
  - intros f Hf. by apply (Hlast best f).
  - intros f0 Hhead Hpos.
    destruct (fitnessHistory e') as [|f0' history] eqn:Hh; [done|].
    injection Hhead as ->.
    rewrite decide_False by lra. eexists. split; [done|].
    assert (Individual.fitness best <= f0)%Q as Hle.
    { destruct (last (f0 :: history)) as [f|] eqn:Hf.
      - rewrite (Hlast best f Hbest eq_refl).
        by eapply history_last.
      - by apply last_None in Hf. }
    apply Qmult_le_0_compat; [|done].
    apply Qle_shift_div_l; [done|]. lra.
  - lia.
  - exists rs. split_and!; [by rewrite Hrep', Hrep| |by rewrite Hhist].
    rewrite Hgen. apply list_fmap_ext. intros _ i _. lia.
Qed.
End run_facts.

(** ** The child of the order crossover *)

Lemma rotate_nat_add_back base i size :
  (i ≤ base)%nat → (base < size)%nat →
  rotate_nat_add (base + 1) (size - (base + 1) + i) size = i.
Proof.
  intros Hi Hbase. unfold rotate_nat_add.
  replace (Z.of_nat (base + 1) + Z.of_nat (size - (base + 1) + i))
    with (Z.of_nat i + 1 * Z.of_nat size) by lia.
  rewrite Z_mod_plus_full, Z.mod_small by lia. lia.
Qed.

(** A child that, seen from position [end_ + 1], ends with the segment has
    the segment where the parent has it. *)
Lemma segment_in_place (parent1 child rest : list JsNum) start end_ i :
  (start ≤ end_)%nat → (end_ < length parent1)%nat →
  length child = length parent1 →
  rotate (end_ + 1) child = rest ++ segment start end_ parent1 →
  (start ≤ i ≤ end_)%nat →
  child !! i = parent1 !! i.
Proof.
  intros Hstart Hend Hlen Hrot Hi.
  set (size := length parent1) in *.
  assert (length (segment start end_ parent1) = (end_ + 1 - start)%nat)
    as Hseg by (unfold segment; rewrite length_take, length_drop; lia).
  assert (length rest = (size - (end_ + 1) + start)%nat) as Hrest.
  { pose proof (f_equal length Hrot) as Hl.
    rewrite length_rotate, length_app in Hl. lia. }
  pose proof (f_equal (λ l, l !! (size - (end_ + 1) + i)%nat) Hrot) as Hl.
  simpl in Hl. rewrite lookup_rotate_r in Hl by lia.
  rewrite Hlen, rotate_nat_add_back in Hl by lia. rewrite Hl.
  rewrite lookup_app_r by lia. rewrite Hrest.
  replace (size - (end_ + 1) + i - (size - (end_ + 1) + start))%nat
    with (i - start)%nat by lia.
  unfold segment. rewrite lookup_take_lt by lia. rewrite lookup_drop.
  f_equal. lia.
Qed.

Lemma orderCrossover_run parent1 parent2 s :
  orderCrossover parent1 parent2 s =
  let size := length parent1 in
  let start := floorTimes (random s (drawn s)) size in
  let end_ :=
    (floorTimes (random s (S (drawn s))) (size - start) + start)%nat in
  match orderCrossoverAt start end_ parent1 parent2 with
  | Returned child =>
      Returned (child,
                mkGAState (random s) (S (S (drawn s))) (simulations s)
                          (cancelRequested s) (reports s))
  | Thrown e => Thrown e
  end.
Proof.
  unfold orderCrossover, randomIndex, mbind, GA_bind, mathRandom. simpl.
  by destruct (orderCrossoverAt _ _ _ _).
Qed.

(** ** Machine load *)

Lemma sumZ_pointwise_add {A} (g h : A → Z) (l : list A) :
  sumZ ((λ m, g m + h m) <$> l) = sumZ (g <$> l) + sumZ (h <$> l).
Proof.
  induction l as [|x l IH]; [done|].
  rewrite !fmap_cons. unfold sumZ in *. simpl. lia.
Qed.

Lemma sumZ_indicator (k v : Z) (ms : list Z) :
  NoDup ms →
  sumZ ((λ m, if decide (k = m) then v else 0) <$> ms) =
  if decide (k ∈ ms) then v else 0.
Proof.
  induction 1 as [|m ms Hm Hnodup IH]; [done|].
  rewrite fmap_cons. unfold sumZ in *. simpl. rewrite IH.
  destruct (decide (k = m)) as [->|Hne].
  - rewrite decide_False by done. rewrite decide_True by apply list_elem_of_here.
    lia.
  - destruct (decide (k ∈ ms)) as [Hin|Hout].
    + rewrite decide_True by (by apply list_elem_of_further). lia.
    + rewrite decide_False; [lia|].
      intros [?|?]%elem_of_cons; done.
Qed.

(** A sum over records, split by machine. *)
Lemma sum_by_key {A} (key f : A → Z) (ms : list Z) (l : list A) :
  NoDup ms → Forall (λ x, key x ∈ ms) l →
  sumZ (f <$> l) =
  sumZ ((λ m, sumZ (f <$> filter (λ x, key x = m) l)) <$> ms).
Proof.
  intros Hnodup. induction 1 as [|x l Hx Hl IH].
  - clear Hnodup. induction ms as [|m ms IHms]; [done|].
    rewrite fmap_cons, filter_nil.
    change (sumZ (?a :: ?b)) with (a + sumZ b). by rewrite <-IHms.
  - rewrite fmap_cons.
    transitivity
      (sumZ ((λ m, (if decide (key x = m) then f x else 0) +
                   sumZ (f <$> filter (λ x, key x = m) l)) <$> ms)).
    + rewrite sumZ_pointwise_add, sumZ_indicator, decide_True, <-IH by done.
      done.
    + f_equal. apply list_fmap_ext. intros _ m _.
      rewrite filter_cons. case_decide; [by rewrite fmap_cons|done].
Qed.

Lemma sumZ_bounded {A} (g : A → Z) (ms : list A) M :
  (∀ m, m ∈ ms → g m ≤ M) →
  sumZ (g <$> ms) ≤ Z.of_nat (length ms) * M.
Proof.
  induction ms as [|m ms IH]; intros Hg; [done|].
  rewrite fmap_cons. unfold sumZ in *. simpl length. simpl foldr.
  pose proof (Hg m (list_elem_of_here _ _)).
  specialize (IH (λ m' Hm', Hg m' (list_elem_of_further _ _ _ Hm'))).
  lia.
Qed.

(** Records one after the other between the times [L] and [M] keep their
    machine busy for no longer than [M - L]. *)
Lemma chain_load (l : list ScheduledJob.t) L M :
  L ≤ M →
  StronglySorted setUpAfter l →
  Forall (λ sj, L ≤ ScheduledJob.startTime sj - ScheduledJob.setupTime sj ∧
                ScheduledJob.endTime sj ≤ M ∧
                ScheduledJob.endTime sj =
                  ScheduledJob.startTime sj +
                  ScheduledJob.processingTime sj) l →
  sumZ (busyTime <$> l) ≤ M - L.
Proof.
  intros HLM Hsorted. revert L HLM.
  induction Hsorted as [|x l Hsorted IH Hx]; intros L HLM Hall.
  - unfold sumZ. simpl. lia.
  - apply Forall_cons in Hall as [(HL & HM & Hend) Hall].
    rewrite fmap_cons. unfold sumZ in *. simpl.
    assert (foldr Z.add 0 (busyTime <$> l) ≤ M - ScheduledJob.endTime x)
      as Hrest.
    { apply IH; [lia|].
      rewrite Forall_forall in Hall, Hx. apply Forall_forall.
      intros sj Hin. destruct (Hall sj Hin) as (_ & ? & ?).
      specialize (Hx sj Hin). simpl in Hx. split_and!; [lia|done..]. }
    unfold busyTime at 1. lia.
Qed.

Lemma serialized_tail x (l : list ScheduledJob.t) :
  serializedByMachine (x :: l) → serializedByMachine l.
Proof. intros Hser i j a b Ha Hb Hij. apply (Hser (S i) (S j)); [done..|lia]. Qed.

Lemma serialized_chain (P : ScheduledJob.t → Prop)
    `{∀ sj, Decision (P sj)} m (l : list ScheduledJob.t) :
  (∀ sj, P sj → ScheduledJob.machineId sj = m) →
  serializedByMachine l → Forall recordConsistent l →
  StronglySorted setUpAfter (filter P l).
Proof.
  intros HP. induction l as [|x l IH]; intros Hser Hrec; [constructor|].
  apply Forall_cons in Hrec as [Hx Hrec].
  specialize (IH (serialized_tail _ _ Hser) Hrec).
  rewrite filter_cons. case_decide as HPx; [|done].
  constructor; [done|]. apply Forall_forall. intros b Hb.
  apply list_elem_of_filter in Hb as [HPb Hb].
  apply list_elem_of_lookup in Hb as [j Hj].
  destruct (Hser 0%nat (S j) x b) as (t & Ht & Hle);
    [done|done|lia|by rewrite (HP x), (HP b)|].
  rewrite Forall_forall in Hrec.
  destruct (Hrec b) as ((t' & Ht' & Hstart) & _);
    [by eapply list_elem_of_lookup_2|].
  simpl. rewrite Ht in Ht'. injection Ht' as <-. lia.
Qed.

(** The machines of a stage are busy for no longer than the makespan
    each. *)
Lemma stage_load stage (ms : list Z) (done : list ScheduledJob.t) :
  NoDup ms →
  serializedByMachine done → Forall recordConsistent done →
  Forall recordTimely done →
  Forall (λ sj, ScheduledJob.machineId sj ∈ ms) (ofStage stage done) →
  0 ≤ sumZ (busyTime <$> ofStage stage done) ≤
    Z.of_nat (length ms) * maxWithZero (ScheduledJob.endTime <$> done).
Proof.
  intros Hnodup Hser Hrec Htimes Hms.
  set (M := maxWithZero (ScheduledJob.endTime <$> done)).
  pose proof (maxWithZero_nonneg (ScheduledJob.endTime <$> done)) as HM.
  fold M in HM.
  assert (∀ sj, sj ∈ done →
            0 ≤ ScheduledJob.startTime sj - ScheduledJob.setupTime sj ∧
            ScheduledJob.endTime sj ≤ M ∧
            ScheduledJob.endTime sj =
              ScheduledJob.startTime sj + ScheduledJob.processingTime sj ∧
            0 ≤ busyTime sj) as Hsj.
  { intros sj Hin. rewrite Forall_forall in Hrec, Htimes.
    destruct (Hrec sj Hin) as ((t & Ht & Hstart) & Hend & Hstage).
    destruct (Htimes sj Hin) as (Hproc & t' & Ht' & Hge).
    assert (t' = t) as -> by congruence.
    assert (0 ≤ ScheduledJob.setupTime sj) as Hsetup.
    { destruct (ScheduledJob.stage sj).
      - destruct Hstage as (_ & [[_ ->]|[_ ->]] & _); lia.
      - destruct Hstage as (_ & _ & -> & _). lia. }
    split_and!; [lia| |done|unfold busyTime; lia].
    apply maxWithZero_upper. by apply list_elem_of_fmap_2. }
  split.
  - apply sumZ_nonneg, Forall_fmap, Forall_forall. intros sj Hin.
    apply list_elem_of_filter in Hin as [_ Hin]. by apply Hsj.
  - rewrite (sum_by_key ScheduledJob.machineId busyTime ms) by done.
    apply sumZ_bounded. intros m _. unfold ofStage.
    rewrite list_filter_filter.
    apply Z.le_trans with (M - 0); [|lia].
    apply chain_load; [done| |].
    + apply (serialized_chain _ m); [|done..]. by intros sj [? _].
    + apply Forall_forall. intros sj Hin.
      apply list_elem_of_filter in Hin as [_ Hin].
      destruct (Hsj sj Hin) as (? & ? & ? & _). done.
Qed.

Lemma utilization_bounds (total makespan : Z) (count : nat) :
  0 ≤ total ≤ Z.of_nat count * makespan → 0 < makespan → (0 < count)%nat →
  (0 <= inject_Z total / inject_Z (makespan * Z.of_nat count))%Q ∧
  (inject_Z total / inject_Z (makespan * Z.of_nat count) <= 1)%Q.
Proof.
  intros Htotal Hm Hc.
  assert (0 < inject_Z (makespan * Z.of_nat count))%Q as Hpos
    by (change 0%Q with (inject_Z 0); rewrite <-Zlt_Qlt;
        apply Z.mul_pos_pos; lia).
  split.
  - apply Qle_shift_div_l; [done|]. rewrite Qmult_0_l.
    change 0%Q with (inject_Z 0). rewrite <-Zle_Qle. lia.
  - apply Qle_shift_div_r; [done|]. rewrite Qmult_1_l, <-Zle_Qle. lia.
Qed.

Lemma stage_machines (done : list ScheduledJob.t) :
  Forall recordConsistent done →
  Forall (λ sj, ScheduledJob.machineId sj ∈ [1; 2; 3; 4])
         (ofStage Stage1 done) ∧
  Forall (λ sj, ScheduledJob.machineId sj ∈ [5; 6; 7; 8; 9])
         (ofStage Stage2 done).
Proof.
  intros Hrec. rewrite Forall_forall in Hrec.
  split; apply Forall_forall; intros sj [Hstage Hin]%list_elem_of_filter;
    destruct (Hrec sj Hin) as (_ & _ & Hm); rewrite Hstage in Hm;
    destruct Hm as (Hm & _).
  - assert (ScheduledJob.machineId sj = 1 ∨ ScheduledJob.machineId sj = 2 ∨
            ScheduledJob.machineId sj = 3 ∨ ScheduledJob.machineId sj = 4)
      as [-> | [-> | [-> | ->]]] by lia; set_solver.
  - assert (ScheduledJob.machineId sj = 5 ∨ ScheduledJob.machineId sj = 6 ∨
            ScheduledJob.machineId sj = 7 ∨ ScheduledJob.machineId sj = 8 ∨
            ScheduledJob.machineId sj = 9)
      as [-> | [-> | [-> | [-> | ->]]]] by lia; set_solver.
Qed.

Lemma buildSchedule_utilization (done : list ScheduledJob.t) :
  let makespan := maxWithZero (ScheduledJob.endTime <$> done) in
  Schedule.utilization_stage1 (buildSchedule done) =
    (if decide (0 < makespan)%Z
     then inject_Z (sumZ (busyTime <$> ofStage Stage1 done)) /
          inject_Z (makespan * Z.of_nat STAGE1_MACHINES)
     else 0)%Q ∧
  Schedule.utilization_stage2 (buildSchedule done) =
    (if decide (0 < makespan)%Z
     then inject_Z (sumZ (busyTime <$> ofStage Stage2 done)) /
          inject_Z (makespan * Z.of_nat STAGE2_MACHINES)
     else 0)%Q.
Proof. done. Qed.

(** ** The mutations *)

Lemma swapEntries_lookup i j (a : list JsNum) :
  (i < length a)%nat → (j < length a)%nat →
  swapEntries i j a !! i = a !! j ∧
  swapEntries i j a !! j = a !! i ∧
  ∀ k, k ≠ i → k ≠ j → swapEntries i j a !! k = a !! k.
Proof.
  intros Hi Hj. unfold swapEntries.
  destruct (lookup_lt_is_Some_2 a i Hi) as [x Hx].
  destruct (lookup_lt_is_Some_2 a j Hj) as [y Hy].
  rewrite (arrayGet_lookup _ _ _ Hx), (arrayGet_lookup _ _ _ Hy).
  rewrite (arraySet_in_range i) by lia.
  rewrite arraySet_in_range by (rewrite length_insert; lia).
  split_and!.
  - destruct (decide (i = j)) as [->|Hne].
    + rewrite list_lookup_insert_eq by (rewrite length_insert; lia).
      congruence.
    + rewrite list_lookup_insert_ne by done.
      rewrite list_lookup_insert_eq by done. done.
  - rewrite list_lookup_insert_eq by (rewrite length_insert; lia). done.
  - intros k Hki Hkj. by rewrite !list_lookup_insert_ne by done.
Qed.

Lemma moveEntry_lookup i j (a : list JsNum) :
  (i < length a)%nat → (j < length a)%nat →
  length (moveEntry i j a) = length a ∧
  moveEntry i j a !! j = a !! i ∧
  delete j (moveEntry i j a) = delete i a.
Proof.
  intros Hi Hj. unfold moveEntry.
  destruct (lookup_lt_is_Some_2 a i Hi) as [x Hx].
  rewrite (arrayGet_lookup _ _ _ Hx).
  assert (length (delete i a) = (length a - 1)%nat) as Hlen
    by (by apply length_delete).
  assert (length (take j (delete i a)) = j) as Htake
    by (rewrite length_take; lia).
  split_and!.
  - rewrite length_app, Htake. simpl. rewrite length_drop. lia.
  - rewrite lookup_app_r by lia. rewrite Htake, Nat.sub_diag. done.
  - rewrite <-Htake at 1. by rewrite delete_middle, take_drop.
Qed.

Lemma mutation_run chromosome s :
  let i := floorTimes (random s (drawn s)) (length chromosome) in
  let j := floorTimes (random s (S (drawn s))) (length chromosome) in
  let s' := mkGAState (random s) (S (S (drawn s))) (simulations s)
                      (cancelRequested s) (reports s) in
  swapMutation chromosome s = Returned (swapEntries i j chromosome, s') ∧
  insertMutation chromosome s = Returned (moveEntry i j chromosome, s').
Proof. done. Qed.

(** ** The tournament *)

Lemma tournament_draws population n tournament s :
  repeatGA n
    (λ tournament,
       randomIndex ← randomIndex (length population);
       mret (tournament ++ [arrayGet population randomIndex]))
    tournament s =
  Returned (tournament ++ (candidate population s <$> seq 0 n),
            mkGAState (random s) (drawn s + n) (simulations s)
                      (cancelRequested s) (reports s)).
Proof.
  revert tournament s. induction n as [|n IH]; intros tournament s.
  - simpl. rewrite app_nil_r, Nat.add_0_r. by destruct s.
  - simpl. unfold mbind, GA_bind, randomIndex, mathRandom in *. simpl.
    rewrite IH. simpl. rewrite <-app_assoc. simpl.
    do 2 f_equal.
    + f_equal. unfold candidate at 2. rewrite Nat.add_0_r. f_equal.
      rewrite <-fmap_S_seq, <-list_fmap_compose.
      apply list_fmap_ext. intros _ k _. unfold candidate. simpl.
      by rewrite Nat.add_succ_r.
    + f_equal. lia.
Qed.

Lemma forEach_fitter_total l x s :
  Forall is_Some (x :: l) → ∃ r, forEach fitter x l s = Returned (r, s).
Proof.
  revert x. induction l as [|y l IH]; intros x Hall; [by eexists|].
  apply Forall_cons in Hall as [[b ->] Hall].
  apply Forall_cons in Hall as [[c ->] Hall].
  simpl. unfold mbind, GA_bind, fitter. simpl.
  apply IH. apply Forall_cons. split; [|done]. by case_decide.
Qed.

Lemma candidate_member population s k :
  population ≠ [] → Forall is_Some population → fairRandom (random s) →
  ∃ individual, candidate population s k = Some individual ∧
                Some individual ∈ population.
Proof.
  intros Hne Hall Hfair. unfold candidate.
  assert (0 < length population)%nat as Hlen
    by (destruct population; [done|simpl; lia]).
  pose proof (floorTimes_lt (random s (drawn s + k)%nat) (length population))
    as Hlt.
  destruct (lookup_lt_is_Some_2 population _
              (Hlt (proj1 (Hfair _)) (proj2 (Hfair _)) Hlen)) as [x Hx].
  rewrite (arrayGet_lookup _ _ _ Hx).
  destruct (Forall_lookup_1 _ _ _ _ Hall Hx) as [individual ->].
  exists individual. split; [done|]. by eapply list_elem_of_lookup_2.
Qed.

Lemma tournamentSelection_run population tournamentSize s :
  tournamentSelection population tournamentSize s =
  reduceFitter
    (candidate population s <$> seq 0 (Z.to_nat tournamentSize))
    (mkGAState (random s) (drawn s + Z.to_nat tournamentSize) (simulations s)
               (cancelRequested s) (reports s)).
Proof.
  unfold tournamentSelection. unfold mbind at 1. unfold GA_bind at 1.
  by rewrite tournament_draws.
Qed.

(** ** The order crossover when -1 is a gene *)

Lemma length_filter_ne (s : JsNum) (l : list JsNum) :
  NoDup l →
  (length (filter (λ x, x ≠ s) l) + (if decide (s ∈ l) then 1 else 0) =
   length l)%nat.
Proof.
  induction 1 as [|x l Hx Hnodup IH]; [done|].
  rewrite filter_cons. destruct (decide (x = s)) as [->|Hne].
  - rewrite decide_False by (by intros ?).
    rewrite decide_True by apply list_elem_of_here.
    rewrite decide_False in IH by done. simpl. lia.
  - rewrite decide_True by done. simpl.
    destruct (decide (s ∈ l)) as [Hin|Hout].
    + rewrite decide_True by (by apply list_elem_of_further). lia.
    + rewrite decide_False; [lia|].
      intros [?|?]%elem_of_cons; [by subst|done].
Qed.

Lemma length_filter_take {A} (P : A → Prop) `{∀ x, Decision (P x)}
    t (l : list A) :
  (length (filter P (take t l)) ≤ length (filter P l))%nat.
Proof.
  rewrite <-(take_drop t l) at 2. rewrite filter_app, length_app. lia.
Qed.

Section sentinel_gene.
Context (parent1 parent2 : list JsNum) (start end_ : nat).
Context (Hnodup : NoDup parent1) (Hperm : parent1 ≡ₚ parent2).
Context (Hgene : sentinel ∈ parent1).
Context (Hstart : (start ≤ end_)%nat) (Hend : (end_ < length parent1)%nat).

Let size := length parent1.
Let rotated := rotate (end_ + 1) parent2.
Let seg := segment start end_ parent1.
Let keep := λ x : JsNum, x ≠ sentinel ∧ x ∉ seg.

(** The genes the loop can place: one fewer than the free positions
    unless -1 sits in the segment. *)
Lemma kept_count :
  (length (filter keep rotated) + length seg +
   (if decide (sentinel ∈ seg) then 0 else 1) = size)%nat.
Proof using Hnodup Hperm Hgene Hend Hstart.
  pose proof (outside_segment_count parent1 parent2 start end_ Hnodup Hperm)
    as Hout.
  fold rotated seg size in Hout.
  pose proof (length_filter_ne sentinel (filter (λ x, x ∉ seg) rotated))
    as Hne.
  rewrite list_filter_filter in Hne. fold keep in Hne.
  specialize (Hne (NoDup_filter _ _
                     (rotated_NoDup parent1 parent2 end_ Hnodup Hperm))).
  destruct (decide (sentinel ∈ seg)) as [Hin|Hout'].
  - rewrite decide_False in Hne; [lia|].
    by intros [? _]%list_elem_of_filter.
  - rewrite decide_True in Hne; [lia|].
    apply list_elem_of_filter. split; [done|].
    by apply (elem_of_rotated parent1 parent2 end_ Hperm).
Qed.

Lemma fillFromParent2_unfinished steps t free (child : list JsNum) :
  length child = size →
  rotate (end_ + 1) child =
    filter keep (take t rotated) ++ replicate free sentinel ++ seg →
  fillFromParent2 steps size parent2 child
    (rotate_nat_add (end_ + 1) (length (filter keep (take t rotated))) size)
    (rotate_nat_add (end_ + 1) t size) = Thrown Unfinished.
Proof using Hnodup Hperm Hgene Hend Hstart.
  revert t free child.
  induction steps as [|steps IH]; intros t free child Hlen Hrot.
  all: assert (length (filter keep (take t rotated)) + free + length seg =
               size)%nat as Hcount
         by (rewrite <-Hlen, <-(length_rotate child (end_ + 1)), Hrot,
               !length_app, length_replicate; lia).
  all: pose proof kept_count as Hkept.
  all: assert (length rotated = size) as Hlr
         by apply (length_rotated parent1 parent2 end_ Hperm).
  all: pose proof (length_filter_take keep t rotated) as Hplaced.
  all: assert (includes sentinel child = true) as Hincl.
  1,3: apply bool_decide_eq_true;
       rewrite <-(elem_of_rotate child (end_ + 1)), Hrot, !elem_of_app;
       destruct (decide (sentinel ∈ seg)) as [Hs|Hs]; [by right; right|];
       right; left; apply elem_of_replicate; split; [done|lia].
  - simpl. fold sentinel. by rewrite Hincl.
  - simpl. fold sentinel. rewrite Hincl.
    assert (0 < size)%nat as Hsize by (unfold size; lia).
    destruct (lookup_lt_is_Some_2 parent2 (rotate_nat_add (end_ + 1) t size))
      as [x Hx2].
    { rewrite (size_parent2 parent1 parent2 Hperm).
      by apply rotate_nat_add_lt. }
    rewrite (arrayGet_lookup _ _ _ Hx2).
    assert (x ∈ parent1) as Hxp
      by (rewrite Hperm; by eapply list_elem_of_lookup_2).
    rewrite !next_position by done.
    destruct (decide ((t < size)%nat ∧ keep x)) as [[Ht Hkeep]|Hno].
    + (* the gene is placed at the first free position *)
      assert (rotated !! t = Some x) as Hx.
      { unfold rotated. rewrite lookup_rotate_r
          by (rewrite (size_parent2 parent1 parent2 Hperm); done).
        by rewrite (size_parent2 parent1 parent2 Hperm). }
      assert (take (S t) rotated = take t rotated ++ [x]) as Htake
        by (by apply take_S_r).
      assert (x ∉ take t rotated) as Hfresh.
      { intros [i Hi]%list_elem_of_lookup.
        pose proof (lookup_lt_Some _ _ _ Hi) as Hlt.
        rewrite length_take in Hlt. rewrite lookup_take_lt in Hi by lia.
        pose proof (NoDup_lookup _ _ _ _
                      (rotated_NoDup parent1 parent2 end_ Hnodup Hperm)
                      Hi Hx). lia. }
      pose proof (length_filter_take keep (S t) rotated) as Hplaced'.
      rewrite Htake, filter_app, filter_cons_True, filter_nil, length_app
        in Hplaced' by done.
      simpl in Hplaced'.
      destruct free as [|free]; [destruct (decide (sentinel ∈ seg)); lia|].
      assert (includes x child = false) as ->.
      { apply bool_decide_eq_false.
        rewrite <-(elem_of_rotate child (end_ + 1)), Hrot, !elem_of_app.
        destruct Hkeep as [Hne Hseg].
        intros [Hp|[[-> _]%elem_of_replicate|Hs]]; [|done..].
        apply list_elem_of_filter in Hp as [_ Hp]. done. }
      set (placed := filter keep (take t rotated)) in *.
      assert (rotate_nat_add (end_ + 1) (length placed) size < length child)%nat
        as Hci by (rewrite Hlen; by apply rotate_nat_add_lt).
      rewrite arraySet_in_range by done.
      specialize (IH (S t) free
                    (<[rotate_nat_add (end_ + 1) (length placed) size := x]>
                       child)).
      rewrite Htake, filter_app, filter_cons_True, filter_nil in IH by done.
      fold placed in IH. rewrite length_app in IH. simpl in IH.
      rewrite (Nat.add_1_r (length placed)) in IH.
      apply IH; [by rewrite length_insert|].
      rewrite <-Hlen at 1. rewrite rotate_insert_l by lia.
      rewrite Hrot.
      rewrite <-(Nat.add_0_r (length placed)), insert_app_r. simpl.
      by rewrite <-app_assoc.
    + (* the gene is in the child already: nothing is placed *)
      assert (filter keep (take (S t) rotated) = filter keep (take t rotated))
        as Hsame.
      { destruct (decide (t < size)%nat) as [Ht|Ht].
        - assert (rotated !! t = Some x) as Hx.
          { unfold rotated. rewrite lookup_rotate_r
              by (rewrite (size_parent2 parent1 parent2 Hperm); done).
            by rewrite (size_parent2 parent1 parent2 Hperm). }
          rewrite (take_S_r _ _ x) by done.
          rewrite filter_app, filter_cons_False, filter_nil, app_nil_r;
            [done|]. intros Hk. by apply Hno.
        - by rewrite !take_ge by lia. }
      assert (includes x child = true) as ->.
      { apply bool_decide_eq_true.
        destruct (decide (x = sentinel)) as [->|Hne];
          [by apply bool_decide_eq_true in Hincl|].
        rewrite <-(elem_of_rotate child (end_ + 1)), Hrot, !elem_of_app.
        destruct (decide (x ∈ seg)) as [Hs|Hs]; [by right; right|].
        left. apply list_elem_of_filter. split; [done|].
        assert (¬ (t < size)%nat) as Ht by (intros Ht; by apply Hno).
        rewrite take_ge by lia.
        by apply (elem_of_rotated parent1 parent2 end_ Hperm). }
      specialize (IH (S t) free child). rewrite Hsame in IH.
      by apply IH.
Qed.

(** However many passes the loop is given, a -1 is left in the child. *)
Lemma childAfterCopy_unfinished steps :
  fillFromParent2 steps size parent2 (childAfterCopy start end_ parent1)
    ((end_ + 1) mod size)%nat ((end_ + 1) mod size)%nat = Thrown Unfinished.
Proof using Hnodup Hperm Hgene Hend Hstart.
  destruct (child_after_copy parent1 start end_ Hstart Hend) as [Hlen Hrot].
  simpl in Hlen, Hrot.
  assert (0 < size)%nat as Hsize by (unfold size; lia).
  rewrite <-(rotate_nat_add_0_mod (end_ + 1) size) by done.
  apply (fillFromParent2_unfinished steps 0 (size - (end_ + 1) + start));
    [done|]. by rewrite take_0.
Qed.
End sentinel_gene.

(** ** The initial population *)

Lemma total_ret {A} (a : A) : total (mret a).
Proof. intros s. by eexists _, _. Qed.

Lemma total_bind {A B} (m : GA A) (f : A → GA B) :
  total m → (∀ a, total (f a)) → total (m ≫= f).
Proof.
  intros Hm Hf s. destruct (Hm s) as (a & s1 & H1).
  destruct (Hf a s1) as (b & s2 & H2).
  exists b, s2. unfold mbind, GA_bind. by rewrite H1.
Qed.

Lemma total_forEach {A B} (body : B → A → GA B) acc l :
  (∀ acc x, total (body acc x)) → total (forEach body acc l).
Proof.
  intros Hbody. revert acc. induction l as [|x l IH]; intros acc; simpl.
  - apply total_ret.
  - by apply total_bind.
Qed.

Lemma total_repeatGA {B} (body : B → GA B) n acc :
  (∀ acc, total (body acc)) → total (repeatGA n body acc).
Proof.
  intros Hbody. revert acc. induction n as [|n IH]; intros acc; simpl.
  - apply total_ret.
  - by apply total_bind.
Qed.

Lemma total_randomIndex n : total (randomIndex n).
Proof. intros s. by eexists _, _. Qed.

Lemma total_individualOf jobs chromosome weight :
  total (individualOf jobs chromosome weight).
Proof.
  intros s. destruct (individualOf_run jobs chromosome weight s)
    as (individual & Hrun & _). by eexists _, _.
Qed.

Lemma total_shuffle chromosome : total (shuffle chromosome).
Proof.
  unfold shuffle. apply total_forEach. intros acc i.
  apply total_bind; [apply total_randomIndex|]. intros j. apply total_ret.
Qed.

Lemma total_createInitialPopulation jobs populationSize weight
    initialSequence :
  total (createInitialPopulation jobs populationSize weight initialSequence).
Proof.
  unfold createInitialPopulation. apply total_bind.
  - destruct initialSequence; [|apply total_ret].
    apply total_bind; [apply total_individualOf|]. intros. apply total_ret.
  - intros population. apply total_repeatGA. intros acc.
    apply total_bind; [apply total_shuffle|]. intros chromosome.
    apply total_bind; [apply total_individualOf|]. intros. apply total_ret.
Qed.

(** ** The cancellation flag before the first generation *)

Lemma individualOf_flag jobs chromosome weight s :
  ensures (individualOf jobs chromosome weight) s
    (λ _ s', cancelRequested s' = cancelRequested s).
Proof.
  destruct (individualOf_run jobs chromosome weight s)
    as (individual & Hrun & _).
  intros x s'. rewrite Hrun. by intros [= _ <-].
Qed.

Lemma shuffle_flag chromosome s :
  ensures (shuffle chromosome) s
    (λ _ s', cancelRequested s' = cancelRequested s).
Proof.
  unfold shuffle.
  apply (ensures_forEach _ (λ _ s', cancelRequested s' = cancelRequested s));
    [|done].
  intros acc i s1 H1 x s'. unfold mbind, GA_bind, randomIndex, mathRandom.
  simpl. by intros [= _ <-].
Qed.

Lemma createInitialPopulation_flag jobs populationSize weight
    initialSequence s :
  ensures (createInitialPopulation jobs populationSize weight
                                   initialSequence) s
    (λ _ s', cancelRequested s' = cancelRequested s).
Proof.
  unfold createInitialPopulation.
  eapply ensures_bind with
    (Q := λ _ s1, cancelRequested s1 = cancelRequested s).
  { destruct initialSequence as [sequence|]; [|by apply ensures_ret].
    eapply ensures_bind; [apply individualOf_flag|].
    intros x s1 H1. by apply ensures_ret. }
  intros p s1 H1.
  eapply ensures_weaken.
  - apply (ensures_repeatGA _
             (λ _ _ s', cancelRequested s' = cancelRequested s) _ 0);
      [|exact H1].
    intros _ p' s' Hs'.
    eapply ensures_bind; [apply shuffle_flag|].
    intros chromosome s2 H2.
    eapply ensures_bind; [apply individualOf_flag|].
    intros x s3 H3. apply ensures_ret. congruence.
  - by intros ???.
Qed.

(** [startEvolution] returns as soon as the first population has an
    individual, whatever the job list, the configuration and the random
    numbers are, and whether the cancellation flag is set or not. *)
Lemma startEvolution_run jobs config initialSequence s :
  1 ≤ GAConfig.populationSize config ∨ initialSequence ≠ None →
  ∃ e s1 best,
    startEvolution jobs config initialSequence s = Returned (e, s1) ∧
    Forall (evaluated jobs (GAConfig.tardinessWeight config))
           (population e) ∧
    length (population e) =
      (Z.to_nat (GAConfig.populationSize config) `max`
       length (option_list initialSequence))%nat ∧
    bestEver e = Some best ∧ Some best ∈ population e ∧
    fitnessHistory e = [] ∧
    simulations s1 = (simulations s + length (population e))%nat ∧
    reports s1 = reports s ∧
    cancelRequested s1 = cancelRequested s.
Proof.
  intros Hsome.
  destruct (total_createInitialPopulation jobs
              (GAConfig.populationSize config)
              (GAConfig.tardinessWeight config) initialSequence s)
    as (population & s1 & Hcreate).
  destruct (createInitialPopulation_ensures _ _ _ _ _ _ _ Hcreate)
    as (Hev & Hlen & Hsim & Hrep).
  pose proof (createInitialPopulation_flag _ _ _ _ _ _ _ Hcreate) as Hflag.
  simpl in Hflag.
  assert (Forall is_Some population) as Hsomes.
  { eapply Forall_impl; [exact Hev|].
    intros x (individual & _ & -> & _). by eexists. }
  destruct population as [|x rest].
  { exfalso. simpl in Hlen.
    destruct Hsome as [Hsize|Hinit]; [lia|].
    destruct initialSequence; [simpl in Hlen; lia|done]. }
  destruct (forEach_fitter_total rest x s1 Hsomes) as (r & Hreduce).
  destruct (forEach_fitter _ _ _ _ _ Hreduce) as (_ & Hin & _).
  assert (is_Some r) as [best ->]
    by (eapply Forall_forall in Hsomes; [exact Hsomes|exact Hin]).
  exists (mkEvolution (x :: rest) (Some best) []), s1, best.
  split_and!; try done.
  unfold startEvolution, mbind, GA_bind. rewrite Hcreate.
  unfold reduceFitter. by rewrite Hreduce.
Qed.

(** Without an individual [reduce] has nothing to start from. *)
Lemma startEvolution_empty jobs config s :
  GAConfig.populationSize config < 1 →
  startEvolution jobs config None s = Thrown TypeError.
Proof.
  intros Hsize. unfold startEvolution, createInitialPopulation.
  unfold mbind, GA_bind. simpl.
  replace (Z.to_nat (GAConfig.populationSize config - Z.of_nat 0))
    with 0%nat by lia.
  reflexivity.
Qed.

(** * Main statements: event queue and simulation engine *)

Lemma exampleSchedule_run :
  runSimulation exampleJobs exampleSequence = Returned exampleSchedule.
Proof. by vm_compute. Qed.

Lemma exampleJobs_durations : nonnegDurations exampleJobs.
Proof. unfold nonnegDurations, exampleJobs. repeat constructor; done. Qed.

Lemma exampleAssigned_reachable :
  reachable exampleJobs exampleSequence exampleAssigned.1 exampleAssigned.2.
Proof.
  eapply tryAssignStage1Jobs_reachable; [apply reach_init|].
  apply surjective_pairing.
Qed.

(** C4, as the code has it. For every sequence of pushes onto a fresh
    queue, [pop] returns nothing when nothing was pushed, and otherwise an
    event with the smallest time; among events with that time it returns
    the one pushed first (the event type plays no part), and it leaves the
    queue of the remaining events. *)
Theorem pop_earliest_first_pushed {T : Type} (time : T → Z) (evs : list T) :
  match evs with
  | [] => PriorityQueue.pop (PriorityQueue.pushAll time evs PriorityQueue.empty)
          = (None, [])
  | _ :: _ =>
      ∃ before e after,
        evs = before ++ e :: after ∧
        Forall (λ x, time e < time x) before ∧
        Forall (λ x, time e ≤ time x) after ∧
        PriorityQueue.pop (PriorityQueue.pushAll time evs PriorityQueue.empty)
        = (Some e,
           PriorityQueue.pushAll time (before ++ after) PriorityQueue.empty)
  end.
Proof.
  destruct evs as [|a evs]; [done|].
  destruct (PriorityQueueFacts.first_minimum_split time (a :: evs))
    as (before & e & after & Heq & Hb & Ha); [done|].
  exists before, e, after. split_and!; [done..|].
  by rewrite Heq, PriorityQueueFacts.pushAll_first_minimum.
Qed.

(** C4 as stated fails: a stage-2 completion pushed before a
    stage-1 completion of the same time is popped first, although the
    stage-1 completion has the higher priority in the table of event
    types. *)
Lemma pop_ignores_event_type :
  let e1 := SimulationEvent.mk SIMULATION_END 5 (Some 1) (Some 5)
                               (Some Stage2) None in
  let e2 := SimulationEvent.mk STAGE1_COMPLETE 5 (Some 2) (Some 1)
                               (Some Stage1) None in
  (popEvent (PriorityQueue.pushAll SimulationEvent.time [e1; e2]
                                   PriorityQueue.empty)).1 = Some e1 ∧
  SimulationEvent.time e2 = SimulationEvent.time e1 ∧
  typePriority (SimulationEvent.type e2) = Some 4 ∧
  typePriority (SimulationEvent.type e1) = Some 5.
Proof. done. Qed.

(** C9, amended. [runSimulation] returns a schedule whose makespan is the
    greatest end time of its records, taken together with 0: no record
    ends after
    it, it is 0 when there is no record, and when no job has a negative
    duration it is the end time of one of the records. For the empty job
    list and sequence the schedule has no record and makespan 0. *)
Theorem makespan_is_latest_end (jobs : list Job.t) (jobSequence : list JsNum) :
  (∃ schedule,
     runSimulation jobs jobSequence = Returned schedule ∧
     Schedule.makespan schedule =
       maxWithZero (ScheduledJob.endTime <$> Schedule.jobs schedule) ∧
     (∀ sj, sj ∈ Schedule.jobs schedule →
            ScheduledJob.endTime sj ≤ Schedule.makespan schedule) ∧
     (Schedule.jobs schedule = [] → Schedule.makespan schedule = 0) ∧
     (nonnegDurations jobs → Schedule.jobs schedule ≠ [] →
      ∃ sj, sj ∈ Schedule.jobs schedule ∧
            ScheduledJob.endTime sj = Schedule.makespan schedule)) ∧
  (∃ schedule,
     runSimulation [] [] = Returned schedule ∧
     Schedule.makespan schedule = 0 ∧ Schedule.jobs schedule = []).
Proof.
  split; [|by eexists].
  destruct (runSimulationLogged_returns jobs jobSequence)
    as (state & q & warned & Hsim & Hr & _ & Hrun).
  exists (buildSchedule (completedJobs state)).
  rewrite buildSchedule_jobs, buildSchedule_makespan.
  split_and!; [done|done| | |].
  - intros sj Hin. apply maxWithZero_upper. by apply list_elem_of_fmap_2.
  - by intros ->.
  - intros Hdur Hne.
    pose proof (reachable_timely _ _ _ _ Hdur Hr) as Htm.
    assert (maxWithZero (ScheduledJob.endTime <$> completedJobs state) ∈
            ScheduledJob.endTime <$> completedJobs state) as Hin.
    { apply maxWithZero_attained.
      - by destruct (completedJobs state).
      - apply Forall_fmap. apply (tm_ends _ Htm). }
    apply list_elem_of_fmap_1 in Hin as (sj & Heq & Hin). by exists sj.
Qed.

Lemma makespan_is_latest_end_witness :
  nonnegDurations exampleJobs ∧
  runSimulation exampleJobs exampleSequence = Returned exampleSchedule ∧
  Schedule.makespan exampleSchedule = 135 ∧
  ∃ sj, sj ∈ Schedule.jobs exampleSchedule ∧ ScheduledJob.endTime sj = 135.
Proof.
  pose proof exampleJobs_durations as Hdur.
  destruct (makespan_is_latest_end exampleJobs exampleSequence)
    as [(schedule & Hrun & Hmax & Hupper & Hzero & Hhit) _].
  assert (schedule = exampleSchedule) as ->.
  { unfold exampleSchedule. by rewrite Hrun. }
  split_and!; [done|done|by vm_compute|].
  apply Hhit; [done|by vm_compute].
Defined.

(** C9 as stated fails: a job with a stage-1 duration of -200 and a
    stage-2 duration of -100 ends at -135 and at -75, and the makespan of
    its schedule is 0, the end time of no record. *)
Lemma makespan_is_no_end_time :
  ∃ schedule,
    runSimulation negativeJob [Some 1] = Returned schedule ∧
    ScheduledJob.endTime <$> Schedule.jobs schedule = [-135; -75] ∧
    Schedule.makespan schedule = 0.
Proof. eexists. split; [by vm_compute|]. split; by vm_compute. Qed.

(** C10, amended. [runSimulation] returns a schedule for every job list
    and every sequence, permutation of the job ids or not, and throws
    nothing. The entries with a stage-1 record are those before the first
    entry that is no id of a job. So for an entry [k] of the sequence with
    no matching job: [k] and all entries behind it are still in the
    stage-1 queue when the run ends, no stage-1 record carries [k], and
    the stage-1 records are records of entries in front of [k] only. The
    one diagnostic is the deadlock warning: it is logged exactly when 5000
    or more entries come before the first entry that is no id of a job,
    hence for no sequence of fewer than 5000 entries. *)
Theorem unknown_id_blocks_stage1 (jobs : list Job.t) (jobSequence : list JsNum) :
  ∃ state q warned schedule,
    simulate jobs jobSequence = Returned (state, q, warned) ∧
    schedule = buildSchedule (completedJobs state) ∧
    runSimulationLogged jobs jobSequence = Returned (schedule, warned) ∧
    runSimulation jobs jobSequence = Returned schedule ∧
    ((2 * length jobSequence < maxIterations)%nat → warned = false) ∧
    (warned = true ↔
     (maxIterations ≤
      2 * length (knownPrefix (buildJobsMap jobs) jobSequence))%nat) ∧
    stage1Ids (Schedule.jobs schedule) =
      knownPrefix (buildJobsMap jobs) jobSequence ∧
    ∀ pre k post,
      jobSequence = pre ++ k :: post →
      mapGet (buildJobsMap jobs) k = None →
      ((k :: post) `suffix_of` stage1Queue state) ∧
      (k ∉ stage1Ids (Schedule.jobs schedule)) ∧
      (stage1Ids (Schedule.jobs schedule) `prefix_of` pre) ∧
      ∀ x, x ∈ post → x ∉ pre → x ∉ stage1Ids (Schedule.jobs schedule).
Proof.
  destruct (runSimulationLogged_returns jobs jobSequence)
    as (state & q & warned & Hsim & Hr & Hlog & Hrun).
  destruct (simulate_stage1Ids _ _ _ _ _ Hsim) as [Hids Hqueue].
  exists state, q, warned, (buildSchedule (completedJobs state)).
  rewrite buildSchedule_jobs.
  split_and!; [done..| | |done|].
  { intros Hlen. by eapply simulate_not_warned. }
  { by eapply simulate_warned_iff. }
  intros pre k post Hseq Hk.
  pose proof (knownPrefix_stops (buildJobsMap jobs) pre k post Hk) as Hpre.
  rewrite <-Hseq, <-Hids in Hpre.
  split_and!; [| |done|].
  - rewrite Hqueue, <-Hids. destruct Hpre as [tl Htl].
    exists tl. rewrite Hseq, Htl at 1.
    by rewrite <-app_assoc, drop_app_length.
  - intros Hin. rewrite Hids in Hin.
    pose proof (knownPrefix_known (buildJobsMap jobs) jobSequence) as Hknown.
    rewrite Forall_forall in Hknown. destruct (Hknown k Hin) as [job Hjob].
    congruence.
  - intros x _ Hx Hin. apply Hx. destruct Hpre as [tl ->].
    apply elem_of_app. by left.
Qed.

Lemma unknown_id_blocks_stage1_witness :
  ∃ schedule,
    runSimulationLogged exampleJobs [Some 1; Some 99; Some 3] =
      Returned (schedule, false) ∧
    stage1Ids (Schedule.jobs schedule) = [Some 1] ∧
    (Some 99 ∉ stage1Ids (Schedule.jobs schedule)) ∧
    (Some 3 ∉ stage1Ids (Schedule.jobs schedule)).
Proof.
  destruct (unknown_id_blocks_stage1 exampleJobs [Some 1; Some 99; Some 3])
    as (state & q & warned & schedule & Hsim & Hs & Hlog & Hrun & Hw & _ &
        Hids & Hblock).
  exists schedule.
  destruct (Hblock [Some 1] (Some 99) [Some 3]) as (Hq & Hk & Hpre & Hpost);
    [done|by vm_compute|].
  rewrite (Hw ltac:(vm_compute; lia)) in Hlog.
  split_and!; [done|by rewrite Hids|done|].
  apply Hpost.
  - apply list_elem_of_singleton. reflexivity.
  - intros H%list_elem_of_singleton. discriminate.
Defined.

(** C10 as stated fails: a diagnostic is reported for the id 99 of no
    job behind 5000 entries that name job 1; the run takes 10000 events
    and logs the deadlock warning. *)
Lemma unknown_id_behind_5000_entries_warns :
  mapGet (buildJobsMap oneJob) (Some 99) = None ∧
  length longSequence = 5001%nat ∧
  ∃ schedule,
    runSimulationLogged oneJob longSequence = Returned (schedule, true).
Proof.
  split; [by vm_compute|]. split; [by vm_compute|].
  destruct (runSimulationLogged_returns oneJob longSequence)
    as (state & q & warned & Hsim & _ & Hlog & _).
  pose proof (simulate_warned_iff _ _ _ _ _ Hsim) as Hw.
  assert (warned = true) as Htrue.
  { apply Hw. clear Hw Hsim Hlog.
    assert (length (knownPrefix (buildJobsMap oneJob) longSequence) =
            5000%nat) as -> by (by vm_compute).
    by vm_compute. }
  exists (buildSchedule (completedJobs state)).
  rewrite Htrue in Hlog. exact Hlog.
Qed.

(** C1. In every state of a run at most one stage-1 machine has a given
    family mounted, and a mounted family is the family of a kit bound to
    that very machine. An assignment that finds the kit bound to another
    machine unmounts it there. In the schedule of a run, the stage-1
    records of one family are all on one machine; when no job has a
    negative duration, each of them is set up only after the previous one
    has ended. *)
Theorem kit_exclusivity (jobs : list Job.t) (jobSequence : list JsNum) :
  (∀ state q, reachable jobs jobSequence state q →
              kitExclusive state ∧ mountConsistent state) ∧
  (∀ state q jobId job kit best i m old j,
     machines state !! i = Some m →
     SetupKit.currentMachine kit = Some old → old ≠ Machine.id m →
     findMachine (Some old) (machines state) = Some j →
     ∃ mj, machines (assignStage1 jobId job kit best i m state q).1 !! j
             = Some mj ∧
           Machine.currentSetupKit mj = None) ∧
  (∀ schedule,
     runSimulation jobs jobSequence = Returned schedule →
     sameFamilySameMachine (Schedule.jobs schedule) ∧
     (nonnegDurations jobs → serializedByFamily (Schedule.jobs schedule))).
Proof.
  split_and!.
  - intros state q Hr. pose proof (reachable_wellFormed _ _ _ _ Hr) as Hwf.
    split; [by eapply wellFormed_kitExclusive|apply Hwf].
  - intros. by eapply assignStage1_clears_old.
  - intros schedule Hrun.
    destruct (runSimulationLogged_returns jobs jobSequence)
      as (state & q & warned & Hsim & Hr & _ & Hrun').
    rewrite Hrun in Hrun'. injection Hrun' as ->.
    rewrite buildSchedule_jobs. split.
    + eapply wellFormed_sameFamilySameMachine, reachable_wellFormed, Hr.
    + intros Hdur. by apply (reachable_timely _ _ _ _ Hdur Hr).
Qed.

Lemma kit_exclusivity_witness :
  kitExclusive exampleAssigned.1 ∧
  (∃ mj, machines
           (assignStage1 (Some 1) (Job.mk 1 100 1 10 5)
              (SetupKit.mk 1 (Some 2) false 0) noBest 0
              (Machine.mk 1 Stage1 (Some 1) 0 None) strayKitState []).1
           !! 1%nat = Some mj ∧
         Machine.currentSetupKit mj = None) ∧
  sameFamilySameMachine (Schedule.jobs exampleSchedule) ∧
  serializedByFamily (Schedule.jobs exampleSchedule).
Proof.
  destruct (kit_exclusivity exampleJobs exampleSequence)
    as (Hstates & Hclear & Hschedule).
  split_and!.
  - apply (Hstates exampleAssigned.1 exampleAssigned.2).
    apply exampleAssigned_reachable.
  - apply (Hclear strayKitState [] (Some 1) _ _ noBest 0%nat _ 2 1%nat);
      [by vm_compute|by vm_compute|by vm_compute|by vm_compute].
  - apply (Hschedule exampleSchedule), exampleSchedule_run.
  - apply (Hschedule exampleSchedule);
      [apply exampleSchedule_run|apply exampleJobs_durations].
Defined.

(** C2. For the job at the head of the stage-1 queue: a machine that has
    the job's family mounted gets a minor setup of 20; otherwise a machine
    is skipped when the job's kit is bound to another machine (in a state
    of a run this is every machine other than the one the kit is bound
    to), and gets a major setup of 65 when the kit is bound to no machine
    or to this one. A pass of the loop assigns the job to a machine with
    the earliest job start (max of clock, machine and kit availability,
    plus setup) among the machines not skipped, and does so whenever there
    is such a machine; when every stage-1 machine is skipped the state and
    the event queue stay as they are and [tryAssignStage1Jobs] returns. *)
Theorem stage1_greedy_assignment :
  (∀ job kit m,
     Machine.currentSetupKit m = Some (Job.family job) →
     stage1Setup job kit m = Some 20) ∧
  (∀ job kit m other,
     Machine.currentSetupKit m ≠ Some (Job.family job) →
     SetupKit.currentMachine kit = Some other → other ≠ Machine.id m →
     stage1Setup job kit m = None) ∧
  (∀ jobs jobSequence state q i m job kit other,
     reachable jobs jobSequence state q →
     machines state !! i = Some m →
     setupKits state !! Job.family job = Some kit →
     SetupKit.currentMachine kit = Some other → other ≠ Machine.id m →
     stage1Setup job kit m = None) ∧
  (∀ job kit m,
     Machine.currentSetupKit m ≠ Some (Job.family job) →
     SetupKit.currentMachine kit = None ∨
     SetupKit.currentMachine kit = Some (Machine.id m) →
     stage1Setup job kit m = Some 65) ∧
  (∀ state q jobId rest job kit,
     stage1Queue state = jobId :: rest →
     mapGet (jobsMap state) jobId = Some job →
     setupKits state !! Job.family job = Some kit →
     (∀ state' q', stage1Pass state q = Some (state', q') →
                   assignedGreedily state jobId rest job kit state') ∧
     ((∃ i m, machines state !! i = Some m ∧ Machine.stage m = Stage1 ∧
              is_Some (stage1Setup job kit m)) →
      is_Some (stage1Pass state q)) ∧
     ((∀ i m, machines state !! i = Some m → Machine.stage m = Stage1 →
              stage1Setup job kit m = None) →
      stage1Pass state q = None ∧
      tryAssignStage1Jobs state q = (state, q))).
Proof.
  split_and!.
  - intros job kit m Hm. unfold stage1Setup. by rewrite decide_True.
  - intros job kit m other Hm Hcm Hne. unfold stage1Setup.
    rewrite decide_False, decide_True; [done| |done]. split; congruence.
  - intros. by eapply stage1Setup_skips.
  - intros job kit m Hm Hcm. unfold stage1Setup.
    rewrite decide_False, decide_False; [done| |done].
    intros [H1 H2]. by destruct Hcm.
  - intros state q jobId rest job kit Hq Hjob Hkit. split_and!.
    + intros state' q' Hpass. by eapply stage1Pass_assigns.
    + intros (i & m & Hi & Hst & Hd). by eapply stage1Pass_feasible.
    + intros Hnone. by eapply stage1Pass_blocked.
Qed.

Lemma stage1_greedy_assignment_witness :
  stage1Setup (Job.mk 1 100 1 10 5) (SetupKit.mk 1 (Some 1) false 75)
              (Machine.mk 1 Stage1 (Some 1) 75 None) = Some 20 ∧
  stage1Setup (Job.mk 1 100 1 10 5) (SetupKit.mk 1 (Some 1) false 75)
              (Machine.mk 2 Stage1 None 0 None) = None ∧
  (∃ m kit, machines exampleAssigned.1 !! 1%nat = Some m ∧
            setupKits exampleAssigned.1 !! 1 = Some kit ∧
            stage1Setup (Job.mk 3 200 1 10 5) kit m = None) ∧
  stage1Setup (Job.mk 1 100 1 10 5) (SetupKit.mk 1 None false 0)
              (Machine.mk 2 Stage1 None 0 None) = Some 65 ∧
  assignedGreedily (initializeState exampleJobs exampleSequence) (Some 1)
    [Some 2; Some 3] (Job.mk 1 100 1 10 5) (SetupKit.mk 1 None false 0)
    (stage1Loop 1 (initializeState exampleJobs exampleSequence) []).1 ∧
  is_Some (stage1Pass (initializeState exampleJobs exampleSequence) []) ∧
  tryAssignStage1Jobs lostKitState [] = (lostKitState, []).
Proof.
  destruct stage1_greedy_assignment as (Hminor & Hskip & Hskip' & Hmajor & Hpass).
  destruct (Hpass (initializeState exampleJobs exampleSequence) [] (Some 1)
              [Some 2; Some 3] (Job.mk 1 100 1 10 5)
              (SetupKit.mk 1 None false 0))
    as (Hassign & Hfeasible & _);
    [by vm_compute|by vm_compute|by vm_compute|].
  destruct (Hpass lostKitState [] (Some 1) [] (Job.mk 1 100 1 10 5)
              (SetupKit.mk 1 (Some 9) false 0))
    as (_ & _ & Hblocked);
    [by vm_compute|by vm_compute|by vm_compute|].
  split_and!.
  - apply Hminor. reflexivity.
  - apply (Hskip _ _ _ 1); [discriminate|reflexivity|discriminate].
  - eexists _, _. split_and!; [by vm_compute|by vm_compute|].
    eapply (Hskip' exampleJobs exampleSequence exampleAssigned.1
              exampleAssigned.2 1%nat _ _ _ 1);
      [apply exampleAssigned_reachable|by vm_compute|by vm_compute
      |reflexivity|discriminate].
  - apply Hmajor; [discriminate|by left].
  - apply (Hassign _ (stage1Loop 1 (initializeState exampleJobs exampleSequence) []).2).
    by vm_compute.
  - apply Hfeasible. exists 0%nat, (Machine.mk 1 Stage1 None 0 None).
    split_and!; [by vm_compute|reflexivity|by eexists].
  - apply Hblocked. intros i m Hi Hst.
    destruct i as [|[|i]]; simplify_eq/=; reflexivity.
Defined.

(** C3. When the main loop of a run takes a stage-1 completion from the
    event queue, [processEvent] puts the job into the stage-2 queue and
    [tryAssignStage2Jobs] assigns it at once. A pass of the loop of
    [tryAssignStage2Jobs] gives the job at the head of the stage-2 queue
    to a stage-2 machine with the earliest [availableAt] and leaves the
    rest of the queue to the next pass; the setup takes 25 and starts at
    the max of the job's stage-1 end time, the machine's [availableAt] and
    the clock; processing starts 25 later; tardiness is
    [max 0 (endTime - dueDate)] and [isLate] says whether it is positive.
    Every stage-2 record of a schedule has setup 25 started 25 before
    processing, and tardiness and [isLate] computed this way from its job;
    and in a run of fewer than 5000 entries every job with a stage-1
    record has its stage-2 record. *)
Theorem stage2_assignment (jobs : list Job.t) (jobSequence : list JsNum) :
  (∀ state q jobId rest job stage1Job,
     reachable jobs jobSequence state q →
     stage2Queue state = jobId :: rest →
     mapGet (jobsMap state) jobId = Some job →
     findStage1Job jobId (completedJobs state) = Some stage1Job →
     assignedToEarliest state q jobId rest job stage1Job ∧
     ∃ state' q',
       stage2Pass state q = Returned (Some (state', q')) ∧
       tryAssignStage2Jobs state q = tryAssignStage2Jobs state' q') ∧
  (∀ state q event q0,
     reachable jobs jobSequence state q → stage2Queue state = [] →
     popEvent q = (Some event, q0) →
     SimulationEvent.type event = STAGE1_COMPLETE →
     ∃ job stage1Job state' q',
       mapGet (jobsMap state) (SimulationEvent.jobId event) = Some job ∧
       findStage1Job (SimulationEvent.jobId event) (completedJobs state) =
         Some stage1Job ∧
       assignedToEarliest (applyEvent event state) q0
         (SimulationEvent.jobId event) [] job stage1Job ∧
       stage2Pass (applyEvent event state) q0 =
         Returned (Some (state', q')) ∧
       tryAssignStage2Jobs (applyEvent event state) q0 =
         Returned (state', q') ∧
       processEvent event state q0 = Returned (state', q')) ∧
  (∀ schedule sj,
     runSimulation jobs jobSequence = Returned schedule →
     sj ∈ Schedule.jobs schedule → ScheduledJob.stage sj = Stage2 →
     stage2RecordCorrect (buildJobsMap jobs) sj) ∧
  (∀ schedule,
     runSimulation jobs jobSequence = Returned schedule →
     (2 * length jobSequence < maxIterations)%nat →
     stage2Ids (Schedule.jobs schedule) ≡ₚ
     stage1Ids (Schedule.jobs schedule)).
Proof.
  assert (∀ state q jobId rest job stage1Job,
            reachable jobs jobSequence state q →
            stage2Queue state = jobId :: rest →
            mapGet (jobsMap state) jobId = Some job →
            findStage1Job jobId (completedJobs state) = Some stage1Job →
            assignedToEarliest state q jobId rest job stage1Job) as Hpass.
  { intros state q jobId rest job stage1Job Hr Hq Hjob Hs1.
    destruct (stage2Pass_assigns _ _ _ q _ _ _ _ Hr Hq Hjob Hs1)
      as (i & m & Hi & Hst & Hmin & Hpass).
    destruct (assignStage2_record jobId job i m stage1Job state q)
      as (sj & Hq2 & Hdone & Hrec).
    exists i, m, (assignStage2 jobId job i m stage1Job state q).1,
           (assignStage2 jobId job i m stage1Job state q).2, sj.
    rewrite Hq in Hq2. split_and!; try done; apply Hrec. }
  split_and!.
  - intros state q jobId rest job stage1Job Hr Hq Hjob Hs1.
    split; [by apply Hpass|].
    destruct (stage2Pass_assigns _ _ _ q _ _ _ _ Hr Hq Hjob Hs1)
      as (i & m & _ & _ & _ & Hrun).
    destruct (assignStage2 jobId job i m stage1Job state q)
      as [state' q'] eqn:Heq.
    exists state', q'. split; [done|].
    by apply tryAssignStage2Jobs_pass.
  - intros state q event q0 Hr Hempty Hpop Hty.
    destruct (stage1Complete_assigned _ _ _ _ _ _ Hr Hempty Hpop Hty)
      as (job & stage1Job & i & m & Hjob & Hs1 & Hq2 & Hi & Hrun & Hloop &
          Hev).
    destruct (assignStage2 (SimulationEvent.jobId event) job i m stage1Job
                           (applyEvent event state) q0)
      as [state' q'] eqn:Heq.
    exists job, stage1Job, state', q'.
    destruct (applyEvent_frame event state) as (_ & Hdone & Hjm).
    split_and!; [done|done| |done..].
    apply Hpass; [by eapply reach_event|done|by rewrite Hjm
                 |by rewrite Hdone].
  - intros schedule sj Hrun Hin Hst.
    destruct (runSimulationLogged_returns jobs jobSequence)
      as (state & q & warned & Hsim & Hr & _ & Hrun').
    rewrite Hrun in Hrun'. injection Hrun' as ->.
    rewrite buildSchedule_jobs in Hin.
    pose proof (reachable_wellFormed _ _ _ _ Hr) as Hwf.
    rewrite <-(wf_jobsMap _ _ Hwf). by apply (wf_stage2 _ _ Hwf).
  - intros schedule Hrun Hlen.
    destruct (schedule_of_run _ _ _ Hrun)
      as (state & q & warned & Hsim & Hr & Hq2 & Hq & ->).
    rewrite buildSchedule_jobs. by eapply run_completes.
Qed.

Lemma stage2_assignment_witness :
  assignedToEarliest exampleAtFirstEvent.1 exampleAtFirstEvent.2 (Some 1) []
    (Job.mk 1 100 1 10 5)
    (ScheduledJob.mk (Some 1) 1 Stage1 65 75 65 setup_major (Some 0) 10 1
                     false 0) ∧
  (∃ state' q',
     processEvent (SimulationEvent.mk STAGE1_COMPLETE 75 (Some 1) (Some 1)
                                      (Some Stage1) None)
                  exampleAssigned.1 exampleAtFirstEvent.2 =
       Returned (state', q') ∧
     tryAssignStage2Jobs exampleAtFirstEvent.1 exampleAtFirstEvent.2 =
       Returned (state', q')) ∧
  Forall (λ sj, ScheduledJob.stage sj = Stage2 →
                stage2RecordCorrect (buildJobsMap exampleJobs) sj)
         (Schedule.jobs exampleSchedule) ∧
  stage2Ids (Schedule.jobs exampleSchedule) ≡ₚ
  stage1Ids (Schedule.jobs exampleSchedule).
Proof.
  destruct (stage2_assignment exampleJobs exampleSequence)
    as (Hpass & Hevent & Hrecords & Hall).
  pose proof exampleAssigned_reachable as Hr.
  assert (popEvent exampleAssigned.2 =
          (Some (SimulationEvent.mk STAGE1_COMPLETE 75 (Some 1) (Some 1)
                                    (Some Stage1) None),
           exampleAtFirstEvent.2)) as Hpop by (by vm_compute).
  assert (exampleAtFirstEvent.1 =
          applyEvent (SimulationEvent.mk STAGE1_COMPLETE 75 (Some 1) (Some 1)
                                         (Some Stage1) None)
                     exampleAssigned.1) as Hfirst by (by vm_compute).
  split_and!.
  - apply Hpass; [|by vm_compute|by vm_compute|by vm_compute].
    pose proof (reach_event _ _ _ _ _ _ Hr Hpop) as Hr'.
    rewrite Hfirst. exact Hr'.
  - destruct (Hevent _ _ _ _ Hr ltac:(by vm_compute) Hpop eq_refl)
      as (job & stage1Job & state' & q' & _ & _ & _ & _ & Hloop & Hev).
    exists state', q'. split; [exact Hev|]. rewrite Hfirst. exact Hloop.
  - apply Forall_forall. intros sj Hin Hst.
    by apply (Hrecords exampleSchedule _ exampleSchedule_run).
  - apply (Hall exampleSchedule exampleSchedule_run). vm_compute. lia.
Defined.

(** * The optimizer *)

Lemma exampleRandom_fair : fairRandom exampleRandom.
Proof.
  intros n. unfold exampleRandom, Qle, Qlt. simpl.
  pose proof (Nat.mod_upper_bound n 4). lia.
Qed.

Lemma exampleSequence_NoDup : NoDup exampleSequence.
Proof. by apply (bool_decide_unpack _). Qed.

Lemma exampleSequence_sentinel : sentinel ∉ exampleSequence.
Proof. by apply (bool_decide_unpack _). Qed.

Lemma exampleNext_run :
  generationStep fixedRate exampleJobs smallConfig 0
                 exampleStart.1 exampleStart.2 =
  Returned (exampleNext.1, exampleNext.2).
Proof. by vm_compute. Qed.

(** C5. [evaluateFitness] calls [runSimulation] once, on the jobs and the
    sequence it was given, and returns (1 - w) * makespan +
    w * totalTardiness together with the makespan and the total tardiness of
    that schedule, both unscaled. This holds for every weight [w], in
    [0, 1] or not; no random number is drawn and no progress reported. *)
Theorem fitness_is_weighted_sum jobs sequence w s :
  ∃ schedule s',
    runSimulation jobs sequence = Returned schedule ∧
    evaluateFitness jobs sequence w s =
      Returned
        (((1 - w) * inject_Z (Schedule.makespan schedule) +
          w * inject_Z (Schedule.totalTardiness schedule))%Q,
         Schedule.makespan schedule, Schedule.totalTardiness schedule, s') ∧
    simulations s' = S (simulations s) ∧
    drawn s' = drawn s ∧
    reports s' = reports s.
Proof.
  destruct (evaluateFitness_run jobs sequence w s) as (schedule & Hrun & Hfit).
  eexists schedule, _. by split_and!.
Qed.

(** C6, amended. A generation that completes starts the next population
    with the first max(1, floor(populationSize * elitismRate)) entries of
    the population sorted by ascending fitness, unchanged and in that
    order; the offspring follow them. The product is the one of the code,
    in binary64: the elitism rate is the binary64 number nearest to the
    configured one and the product is rounded to binary64 before it is
    rounded down (100 and 0.29 give 28). The count is rounded down, not
    up; it is at least 1. When the population has that many individuals
    the entries are its best ones. *)
Theorem elitism_count adaptedMutationRate jobs config generation e s e' s' :
  generationStep adaptedMutationRate jobs config generation e s =
    Returned (e', s') →
  let sorted := sortByFitness (population e) in
  let count :=
    Z.max 1 (Qfloor (binary64 (inject_Z (GAConfig.populationSize config) *
                               binary64 (GAConfig.elitismRate config)))) in
  sorted ≡ₚ population e ∧
  Sorted byFitness (omap id sorted) ∧
  1 ≤ count ∧
  length (elites config sorted) = Z.to_nat count ∧
  (elites config sorted `prefix_of` population e') ∧
  (count ≤ Z.of_nat (length (population e)) →
   elites config sorted = take (Z.to_nat count) sorted).
Proof.
  intros Hrun. cbv zeta.
  change (Z.max 1 _) with (eliteCount config).
  pose proof (eliteCount_ge config).
  split_and!.
  - apply sortByFitness_Permutation.
  - apply sortByFitness_Sorted.
  - done.
  - apply length_elites.
  - by eapply generationStep_elites.
  - intros Hle. apply elites_take.
    by rewrite sortByFitness_Permutation.
Qed.

Lemma elitism_count_witness :
  length (elites smallConfig (sortByFitness (population exampleStart.1))) =
    2%nat ∧
  (elites smallConfig (sortByFitness (population exampleStart.1))
     `prefix_of` population exampleNext.1).
Proof.
  destruct (elitism_count fixedRate exampleJobs smallConfig 0
              exampleStart.1 exampleStart.2 exampleNext.1 exampleNext.2)
    as (_ & _ & _ & Hlen & Hprefix & _); [apply exampleNext_run|].
  split; [exact Hlen|exact Hprefix].
Defined.

(** The count follows the binary64 product: 0.29 is held as a number just
    below 29/100, the product with 100 stays below 29, and 28 individuals
    are copied where the exact product gives 29. *)
Lemma eliteCount_follows_binary64 :
  binary64 (29 # 100) = (5224175567749775 # 18014398509481984)%Q ∧
  eliteCount hundredConfig = 28 ∧
  Qfloor (inject_Z (GAConfig.populationSize hundredConfig) *
          GAConfig.elitismRate hundredConfig) = 29 ∧
  ∀ population, length (elites hundredConfig population) = 28%nat.
Proof.
  split_and!; [by vm_compute..|].
  intros population. rewrite length_elites.
  assert (eliteCount hundredConfig = 28) as -> by (by vm_compute). done.
Qed.

(** C6 as stated fails: with a population of 25 and an elitism rate of
    1/10 the rounded-up count is 3, and two individuals are copied. *)
Lemma elite_count_is_not_ceiling :
  Qceiling (inject_Z (GAConfig.populationSize exampleConfig) *
            GAConfig.elitismRate exampleConfig) = 3 ∧
  eliteCount exampleConfig = 2 ∧
  ∀ population, length (elites exampleConfig population) = 2%nat.
Proof.
  split_and!; [by vm_compute..|].
  intros population. rewrite length_elites.
  assert (eliteCount exampleConfig = 2) as -> by (by vm_compute). done.
Qed.

(** C7, amended. Let [ids] be a non-empty list of distinct job ids, none
    of them -1, and let [Math.random] yield numbers of [0, 1). Then
    [orderCrossover] returns an arrangement of [ids] for all parents that
    arrange [ids], and so do [swapMutation] and [insertMutation]. Hence,
    for a job list with these ids, a population size between 1 and 2^53
    and a tournament size of at least 1, an elitism rate in [0, 1], an
    initial sequence that arranges [ids] (or none), an adaptive rate that
    is computed without exception and no cancellation: after every number
    of generations every entry of the population is an individual whose
    chromosome arranges [ids]. *)
Theorem permutation_preservation (ids : list JsNum) s :
  ids ≠ [] → NoDup ids → sentinel ∉ ids → fairRandom (random s) →
  (∀ parent1 parent2,
     parent1 ≡ₚ ids → parent2 ≡ₚ ids →
     returns (orderCrossover parent1 parent2) s (λ child, child ≡ₚ ids)) ∧
  (∀ chromosome,
     chromosome ≡ₚ ids →
     returns (swapMutation chromosome) s (λ mutated, mutated ≡ₚ ids) ∧
     returns (insertMutation chromosome) s (λ mutated, mutated ≡ₚ ids)) ∧
  (∀ adaptedMutationRate jobs config initialSequence n,
     jobIds jobs = ids → validConfig config →
     validInitialSequence ids initialSequence →
     rateReturns adaptedMutationRate → cancelRequested s = false →
     returns (e ← startEvolution jobs config initialSequence;
              generationsFrom adaptedMutationRate jobs config n 0 e) s
             (λ e, validPopulation ids (population e))).
Proof.
  intros Hne Hnodup Hsentinel Hfair.
  assert (∀ chromosome, chromosome ≡ₚ ids → chromosome ≠ []) as Hnonempty.
  { intros chromosome Hperm ->. by apply Permutation_nil_l in Hperm. }
  split_and!.
  - intros parent1 parent2 Hp1 Hp2.
    eapply returns_weaken.
    + apply orderCrossover_returns; [done|by eapply Hnonempty| | |].
      * by rewrite Hp1.
      * by rewrite Hp1.
      * by rewrite Hp1, Hp2.
    + intros child ->. done.
  - intros chromosome Hperm. split.
    + eapply returns_weaken;
        [apply swapMutation_returns; [done|by eapply Hnonempty]|].
      intros mutated ->. done.
    + eapply returns_weaken;
        [apply insertMutation_returns; [done|by eapply Hnonempty]|].
      intros mutated ->. done.
  - intros adaptedMutationRate jobs config initialSequence n <- Hconfig Hinit
           Hrate Hcancel.
    assert (jobs ≠ []) as Hjobs by (by intros ->).
    after (by apply startEvolution_returns) as e He.
    eapply returns_weaken; [by apply generationsFrom_returns|].
    by intros e' (? & _).
Qed.

Lemma permutation_preservation_witness :
  returns (orderCrossover [Some 1; Some 2; Some 3] [Some 2; Some 1; Some 3])
          exampleWorker (λ child, child ≡ₚ exampleSequence) ∧
  returns (insertMutation [Some 2; Some 1; Some 3])
          exampleWorker (λ mutated, mutated ≡ₚ exampleSequence) ∧
  returns (e ← startEvolution exampleJobs smallConfig None;
           generationsFrom fixedRate exampleJobs smallConfig 2 0 e)
          exampleWorker (λ e, validPopulation exampleSequence (population e)).
Proof.
  destruct (permutation_preservation exampleSequence exampleWorker)
    as (Hcrossover & Hmutation & Hgenerations);
    [done|apply exampleSequence_NoDup|apply exampleSequence_sentinel
    |apply exampleRandom_fair|].
  split_and!.
  - apply Hcrossover; [done|apply Permutation_swap].
  - apply Hmutation, Permutation_swap.
  - apply Hgenerations; [done| |done| |done].
    + unfold validConfig. by vm_compute.
    + intros ????. by eexists.
Defined.

(** C7 as stated fails. Two empty parents arrange the same ids, and
    [orderCrossover], [swapMutation] and [insertMutation] return
    [[undefined]] for them. With -1 among the ids [orderCrossover] does
    not return: its loop finds a -1 in the child for ever. And an initial
    sequence that leaves out jobs is simulated and put into the first
    population as it is. *)
Lemma operators_need_proper_ids :
  (∃ s', orderCrossover [] [] exampleWorker = Returned ([None], s')) ∧
  (∃ s', swapMutation [] exampleWorker = Returned ([None], s')) ∧
  (∃ s', insertMutation [] exampleWorker = Returned ([None], s')) ∧
  orderCrossover [Some (-1); Some 2; Some 3] [Some 2; Some (-1); Some 3]
                 exampleWorker = Thrown Unfinished ∧
  (∀ steps,
     fillFromParent2 steps 3 [Some 2; Some (-1); Some 3]
                     [Some (-1); Some (-1); Some (-1)] 1 1 =
     Thrown Unfinished) ∧
  (∃ population s',
     createInitialPopulation exampleJobs 4 (1 # 2) (Some [Some 1])
                             exampleWorker = Returned (population, s') ∧
     (λ x : option Individual.t, Individual.chromosome <$> x) <$>
       population =
       [Some [Some 1]; Some [Some 2; Some 3; Some 1];
        Some [Some 1; Some 3; Some 2]; Some [Some 2; Some 3; Some 1]]).
Proof.
  split_and!.
  - eexists. by vm_compute.
  - eexists. by vm_compute.
  - eexists. by vm_compute.
  - by vm_compute.
  - intros steps.
    apply (childAfterCopy_unfinished [Some (-1); Some 2; Some 3]
             [Some 2; Some (-1); Some 3] 0 0).
    + by apply (bool_decide_unpack _).
    + apply Permutation_swap.
    + apply list_elem_of_here.
    + done.
    + simpl. lia.
  - eexists _, _. split; by vm_compute.
Qed.

(** C8, amended. No input is rejected. [runSimulation] returns a schedule
    for every job list and every sequence. [createInitialPopulation], with
    which [runGA] begins, simulates the initial sequence it is given,
    whatever it is, and returns a population with that sequence at its
    head, for every job list, population size and weight. *)
Theorem no_input_is_rejected jobs sequence :
  (∃ schedule, runSimulation jobs sequence = Returned schedule) ∧
  (∀ populationSize weight s,
     fairRandom (random s) →
     ∃ individual s1,
       individualOf jobs sequence weight s = Returned (Some individual, s1) ∧
       Individual.chromosome individual = sequence ∧
       simulations s1 = S (simulations s) ∧
       returns (createInitialPopulation jobs populationSize weight
                                        (Some sequence)) s
               (λ population, head population = Some (Some individual))).
Proof.
  split.
  - destruct (runSimulationLogged_returns jobs sequence)
      as (state & q & w & _ & _ & _ & Hrun). by eexists.
  - intros populationSize weight s Hfair.
    by apply createInitialPopulation_seeded.
Qed.

Lemma no_input_is_rejected_witness :
  ∃ individual,
    Individual.chromosome individual = [Some 1; Some 1] ∧
    returns (createInitialPopulation exampleJobs 0 (3 # 2)
                                     (Some [Some 1; Some 1])) exampleWorker
            (λ population, head population = Some (Some individual)).
Proof.
  destruct (no_input_is_rejected exampleJobs [Some 1; Some 1]) as [_ Hseed].
  destruct (Hseed 0 (3 # 2)%Q exampleWorker exampleRandom_fair)
    as (individual & s1 & _ & Hchromosome & _ & Hreturns).
  by exists individual.
Defined.

(** C8 as stated fails: an empty job list, a sequence that names job 1
    twice and leaves out the others, and a configuration below every
    range of the data model are simulated; a result comes back and no
    error. *)
Lemma invalid_input_is_simulated :
  runSimulation [] [] = Returned (buildSchedule []) ∧
  (∃ schedule,
     runSimulation exampleJobs [Some 1; Some 1] = Returned schedule ∧
     length (Schedule.jobs schedule) = 4%nat ∧
     Schedule.makespan schedule = 135) ∧
  (∃ result s',
     runGA fixedRate [] smallConfig None exampleWorker =
       Returned (result, s') ∧
     GAResult.bestSequence result = [] ∧
     simulations s' = 8%nat) ∧
  (∃ result s',
     runGA fixedRate exampleJobs smallConfig (Some [Some 1; Some 1])
           exampleWorker = Returned (result, s') ∧
     simulations s' = 8%nat).
Proof.
  split_and!.
  - by vm_compute.
  - eexists. split; [by vm_compute|]. split; by vm_compute.
  - eexists _, _. split; [by vm_compute|]. split; by vm_compute.
  - eexists _, _. split; [by vm_compute|]. by vm_compute.
Qed.

(** * Further properties of the code *)

(** ** The simulation engine *)

(** X1. For a sequence of fewer than 5000 entries the run ends with an
    empty event queue and an empty stage-2 queue, and every job with a
    stage-1 record has its stage-2 record: the ids of the stage-2 records
    are those of the stage-1 records, each as often. If every entry of the
    sequence is the id of a job, the stage-1 records follow the sequence
    and the schedule has two records per entry. *)
Theorem started_jobs_complete (jobs : list Job.t) (jobSequence : list JsNum) :
  (2 * length jobSequence < maxIterations)%nat →
  ∃ schedule,
    runSimulation jobs jobSequence = Returned schedule ∧
    stage2Ids (Schedule.jobs schedule) ≡ₚ stage1Ids (Schedule.jobs schedule) ∧
    (Forall (λ k, is_Some (mapGet (buildJobsMap jobs) k)) jobSequence →
     stage1Ids (Schedule.jobs schedule) = jobSequence ∧
     length (Schedule.jobs schedule) = (2 * length jobSequence)%nat).
Proof.
  intros Hlen.
  destruct (simulate_final jobs jobSequence)
    as (state & q & warned & Hsim & Hr & Hq2 & Hq & Hrun).
  exists (buildSchedule (completedJobs state)).
  rewrite buildSchedule_jobs.
  pose proof (simulate_not_warned _ _ _ _ _ Hlen Hsim) as Hw.
  pose proof (reachable_flowBalance _ _ _ _ Hr) as Hflow.
  unfold flowBalance in Hflow. rewrite Hq2, (Hq Hw) in Hflow.
  rewrite !app_nil_r in Hflow.
  split_and!; [done|done|].
  intros Hall. destruct (simulate_stage1Ids _ _ _ _ _ Hsim) as [Hids _].
  rewrite knownPrefix_all in Hids by done. split; [done|].
  rewrite length_by_stage.
  assert (length (ofStage Stage2 (completedJobs state)) =
          length (ofStage Stage1 (completedJobs state))) as ->.
  { apply Permutation_length in Hflow. unfold stage1Ids, stage2Ids in Hflow.
    by rewrite !length_fmap in Hflow. }
  unfold stage1Ids in Hids. rewrite <-Hids, length_fmap. lia.
Qed.

Lemma started_jobs_complete_witness :
  ∃ schedule,
    runSimulation exampleJobs exampleSequence = Returned schedule ∧
    stage1Ids (Schedule.jobs schedule) = exampleSequence ∧
    stage2Ids (Schedule.jobs schedule) ≡ₚ exampleSequence ∧
    length (Schedule.jobs schedule) = 6%nat.
Proof.
  destruct (started_jobs_complete exampleJobs exampleSequence)
    as (schedule & Hrun & Hperm & Hall); [vm_compute; lia|].
  destruct Hall as [Hids Hlen].
  { apply (bool_decide_unpack _). by vm_compute. }
  exists schedule.
  split_and!; [exact Hrun|exact Hids| |exact Hlen].
  rewrite Hperm, Hids. reflexivity.
Defined.

(** X2. Every record of a schedule is consistent: its setup starts at
    [setupStartTime] and lasts [setupTime], processing follows at once
    and lasts [processingTime]; a stage-1 record is on one of the
    machines 1 to 4 after a minor setup of 20 or a major setup of 65 and
    carries no tardiness; a stage-2 record is on one of the machines 5 to
    9 after a setup of 25, and is late exactly when its tardiness is
    positive. Every stage-2 record is set up no earlier than the end of a
    stage-1 record of the same job. *)
Theorem records_are_consistent (jobs : list Job.t) (jobSequence : list JsNum) :
  ∃ schedule,
    runSimulation jobs jobSequence = Returned schedule ∧
    Forall recordConsistent (Schedule.jobs schedule) ∧
    stage2FollowsStage1 (Schedule.jobs schedule).
Proof.
  destruct (simulate_final jobs jobSequence)
    as (state & q & warned & Hsim & Hr & _ & _ & Hrun).
  exists (buildSchedule (completedJobs state)).
  rewrite buildSchedule_jobs. split_and!; [done| |].
  - by eapply reachable_recordConsistent.
  - by eapply reachable_stage2FollowsStage1.
Qed.

(** X3. The counters of a schedule: every record counts as a setup (the
    setup type 'none' does not occur), the minor and major setups are the
    stage-1 records, the AOI setups the stage-2 records, and the total
    tardiness is the sum of the tardiness of all records, which is not
    negative. *)
Theorem schedule_counters (jobs : list Job.t) (jobSequence : list JsNum) :
  ∃ schedule,
    runSimulation jobs jobSequence = Returned schedule ∧
    Schedule.setupCount schedule = length (Schedule.jobs schedule) ∧
    (Schedule.minorSetupCount schedule +
     Schedule.majorSetupCount schedule)%nat =
      length (ofStage Stage1 (Schedule.jobs schedule)) ∧
    Schedule.aoiSetupCount schedule =
      length (ofStage Stage2 (Schedule.jobs schedule)) ∧
    Forall (λ sj, ScheduledJob.setupType sj ≠ setup_none)
           (Schedule.jobs schedule) ∧
    Schedule.totalTardiness schedule =
      sumZ (ScheduledJob.tardiness <$> Schedule.jobs schedule) ∧
    0 ≤ Schedule.totalTardiness schedule.
Proof.
  destruct (simulate_final jobs jobSequence)
    as (state & q & warned & Hsim & Hr & _ & _ & Hrun).
  exists (buildSchedule (completedJobs state)).
  pose proof (reachable_recordConsistent _ _ _ _ Hr) as Hrec.
  destruct (buildSchedule_counts _ Hrec) as (H1 & H2 & H3 & H4).
  destruct (buildSchedule_tardiness _ Hrec) as [H5 H6].
  rewrite buildSchedule_jobs. by split_and!.
Qed.

(** X4. When no job has a negative duration, a machine runs one job at a
    time: of two records on the same machine the later one is set up only
    after the earlier one has ended. Every record starts its setup at time
    0 or later and ends, after setup and processing, no later than the
    makespan. *)
Theorem machines_run_one_job_at_a_time (jobs : list Job.t)
    (jobSequence : list JsNum) :
  nonnegDurations jobs →
  ∃ schedule,
    runSimulation jobs jobSequence = Returned schedule ∧
    serializedByMachine (Schedule.jobs schedule) ∧
    Forall (λ sj, ∃ t, ScheduledJob.setupStartTime sj = Some t ∧
                       0 ≤ t ∧ t ≤ ScheduledJob.startTime sj ∧
                       ScheduledJob.startTime sj ≤ ScheduledJob.endTime sj ∧
                       ScheduledJob.endTime sj ≤ Schedule.makespan schedule)
           (Schedule.jobs schedule).
Proof.
  intros Hdur.
  destruct (simulate_final jobs jobSequence)
    as (state & q & warned & Hsim & Hr & _ & _ & Hrun).
  exists (buildSchedule (completedJobs state)).
  rewrite buildSchedule_jobs, buildSchedule_makespan.
  split_and!; [done|by apply (reachable_exclusive _ _ _ _ Hdur Hr)|].
  pose proof (reachable_recordConsistent _ _ _ _ Hr) as Hrec.
  pose proof (reachable_recordTimely _ _ _ _ Hdur Hr) as Htimes.
  apply Forall_forall. intros sj Hin.
  rewrite Forall_forall in Hrec, Htimes.
  destruct (Hrec sj Hin) as ((t & Ht & Hstart) & Hend & Hstage).
  destruct (Htimes sj Hin) as (Hproc & t' & Ht' & Hge).
  assert (t' = t) as -> by congruence.
  assert (0 ≤ ScheduledJob.setupTime sj) as Hsetup.
  { destruct (ScheduledJob.stage sj).
    - destruct Hstage as (_ & [[_ ->]|[_ ->]] & _); lia.
    - destruct Hstage as (_ & _ & -> & _). lia. }
  exists t. split_and!; [done|done|lia|lia|].
  apply maxWithZero_upper. by apply list_elem_of_fmap_2.
Qed.

Lemma machines_run_one_job_at_a_time_witness :
  serializedByMachine (Schedule.jobs exampleSchedule).
Proof.
  destruct (machines_run_one_job_at_a_time exampleJobs exampleSequence)
    as (schedule & Hrun & Hser & _); [apply exampleJobs_durations|].
  assert (schedule = exampleSchedule) as <-; [|exact Hser].
  unfold exampleSchedule. rewrite Hrun. reflexivity.
Defined.

(** ** The event queue *)

(** X5. Whatever pushes and pops a queue has seen, its items are in
    ascending order of time. So [push] puts the new item behind every item
    that is not later than it and loses or adds nothing else, the size
    grows by one, [peek] shows the item [pop] would remove, that item is
    one of the earliest, and [isEmpty] holds exactly when [pop] returns
    nothing. *)
Theorem queue_stays_sorted {T : Type} (time : T → Z) (items : list T) :
  queueState time items →
  Sorted (byTime time) items ∧
  (∀ x, PriorityQueue.push time x items =
          PriorityQueueSpec.insertBehind time x items ∧
        PriorityQueue.push time x items ≡ₚ x :: items ∧
        PriorityQueue.size (PriorityQueue.push time x items) =
          S (PriorityQueue.size items)) ∧
  PriorityQueue.peek items = (PriorityQueue.pop items).1 ∧
  (∀ x rest, PriorityQueue.pop items = (Some x, rest) →
             items = x :: rest ∧ Forall (λ y, time x ≤ time y) rest) ∧
  (PriorityQueue.isEmpty items = true ↔
   PriorityQueue.pop items = (None, [])).
Proof.
  intros Hstate. pose proof (queueState_sorted _ _ Hstate) as Hsorted.
  split_and!.
  - done.
  - intros x. split_and!.
    + by apply PriorityQueueFacts.push_sorted.
    + apply push_Permutation.
    + unfold PriorityQueue.size. by rewrite push_Permutation.
  - by destruct items.
  - intros x rest Hpop. destruct items as [|y items]; [done|].
    injection Hpop as -> ->. split; [done|].
    by apply sorted_head_minimum.
  - unfold PriorityQueue.isEmpty. by destruct items.
Qed.

Lemma queue_stays_sorted_witness :
  let e (t : Z) (k : Z) :=
    SimulationEvent.mk STAGE1_COMPLETE t (Some k) None None None in
  let items :=
    (PriorityQueue.pop
       (pushEvent (e 5 3) (pushEvent (e 5 2) (pushEvent (e 9 1) [])))).2 in
  items = [e 5 3; e 9 1] ∧
  pushEvent (e 5 4) items = [e 5 3; e 5 4; e 9 1].
Proof.
  intros e items.
  assert (queueState SimulationEvent.time items) as Hstate
    by (apply queue_pop; do 3 apply queue_push; apply queue_new).
  destruct (queue_stays_sorted SimulationEvent.time items Hstate)
    as (_ & Hpush & _).
  destruct (Hpush (e 5 4)) as (-> & _). by vm_compute.
Defined.

(** ** The simulation helpers *)

(** X6. The event timeline of a schedule holds the events of its records
    and no others, in ascending order of time and, at equal time, of type
    priority. Each record gives a job start and an end event, and a setup
    start and a setup end when it has a setup, so the timeline has between
    two and four events per record; an event of type JOB_END does not
    occur. The timeline of a schedule that [runSimulation] returns has
    four events per record. *)
Theorem timeline_is_sorted (schedule : Schedule.t) :
  let timeline := extractEventTimeline schedule in
  timeline ≡ₚ Schedule.jobs schedule ≫= recordEvents ∧
  Sorted (λ a b, timelineCompare a b ≤ 0) timeline ∧
  StronglySorted (byTime SimulationEvent.time) timeline ∧
  Forall (λ e, is_Some (typePriority (SimulationEvent.type e))) timeline ∧
  (2 * length (Schedule.jobs schedule) ≤ length timeline
   ≤ 4 * length (Schedule.jobs schedule))%nat ∧
  ∀ jobs jobSequence,
    runSimulation jobs jobSequence = Returned schedule →
    length timeline = (4 * length (Schedule.jobs schedule))%nat.
Proof.
  simpl. unfold extractEventTimeline.
  pose proof (stableSort_Sorted timelineCompare timelineCompare_total
                (Schedule.jobs schedule ≫= recordEvents)) as Hsorted.
  split_and!.
  - apply stableSort_Permutation.
  - done.
  - apply Sorted_StronglySorted; [intros a b c; simpl; lia|].
    eapply Sorted_weaken; [|done]. apply timelineCompare_time.
  - rewrite stableSort_Permutation. apply Forall_bind.
    apply Forall_forall. intros sj _. apply recordEvents_priority.
  - rewrite length_stableSort. apply length_bind_recordEvents.
  - rewrite length_stableSort. apply length_bind_recordEvents.
  - intros jobs jobSequence Hrun. rewrite length_stableSort.
    apply length_bind_recordEvents.
    destruct (simulate_final jobs jobSequence)
      as (state & q & warned & _ & Hr & _ & _ & Hrun').
    rewrite Hrun in Hrun'. injection Hrun' as ->.
    rewrite buildSchedule_jobs. by eapply reachable_recordConsistent.
Qed.

(** X7. [getQueueStatesAtTime] puts every entry of the sequence into at
    most one of source, buffer and sink, keeping the order of the
    sequence. For the schedule of a run with no negative duration and
    fewer than 5000 entries: before time 20 every entry is at the source;
    from the makespan on the buffer is empty, the sink holds the entries
    with a stage-1 record and the source the others, so the sink holds the
    whole sequence when every entry is the id of a job. *)
Theorem queue_states_partition (schedule : Schedule.t) (currentTime : Z)
    (jobSequence : list JsNum) :
  let states := getQueueStatesAtTime schedule currentTime jobSequence in
  let place := placeAt (Schedule.jobs schedule) currentTime in
  states =
    QueueStates.mk (filter (λ k, place k = AtSource) jobSequence)
                   (filter (λ k, place k = AtBuffer) jobSequence)
                   (filter (λ k, place k = AtSink) jobSequence) ∧
  (length (QueueStates.inSource states) +
   length (QueueStates.inBuffer states) +
   length (QueueStates.inSink states) ≤ length jobSequence)%nat ∧
  (∀ jobs,
     nonnegDurations jobs →
     (2 * length jobSequence < maxIterations)%nat →
     runSimulation jobs jobSequence = Returned schedule →
     (currentTime < 20 → states = QueueStates.mk jobSequence [] []) ∧
     (Schedule.makespan schedule ≤ currentTime →
      states =
        QueueStates.mk
          (filter (λ k, k ∉ stage1Ids (Schedule.jobs schedule)) jobSequence)
          []
          (filter (λ k, k ∈ stage1Ids (Schedule.jobs schedule)) jobSequence) ∧
      (Forall (λ k, is_Some (mapGet (buildJobsMap jobs) k)) jobSequence →
       states = QueueStates.mk [] [] jobSequence))).
Proof.
  simpl. rewrite getQueueStatesAtTime_filter. simpl.
  split_and!; [done|apply length_filter_places|].
  intros jobs Hdur Hlen Hrun.
  destruct (schedule_of_run _ _ _ Hrun)
    as (state & q & warned & Hsim & Hr & Hq2 & Hq & ->).
  rewrite buildSchedule_jobs, buildSchedule_makespan.
  pose proof (reachable_recordConsistent _ _ _ _ Hr) as Hrec.
  pose proof (reachable_recordTimely _ _ _ _ Hdur Hr) as Htimes.
  pose proof (run_completes _ _ _ _ _ Hlen Hsim Hr Hq2 Hq) as Hperm.
  split.
  - intros Ht. f_equal.
    + apply filter_all, Forall_forall. intros k _. by apply placeAt_start.
    + apply filter_none, Forall_forall. intros k _.
      by rewrite placeAt_start.
    + apply filter_none, Forall_forall. intros k _.
      by rewrite placeAt_start.
  - intros Ht.
    assert (∀ k, placeAt (completedJobs state) currentTime k =
                 if decide (k ∈ stage1Ids (completedJobs state))
                 then AtSink else AtSource) as Hplace
      by (intros k; by apply placeAt_end).
    assert (QueueStates.mk
              (filter (λ k, placeAt (completedJobs state) currentTime k =
                            AtSource) jobSequence)
              (filter (λ k, placeAt (completedJobs state) currentTime k =
                            AtBuffer) jobSequence)
              (filter (λ k, placeAt (completedJobs state) currentTime k =
                            AtSink) jobSequence) =
            QueueStates.mk
              (filter (λ k, k ∉ stage1Ids (completedJobs state)) jobSequence)
              []
              (filter (λ k, k ∈ stage1Ids (completedJobs state)) jobSequence))
      as Heq.
    { f_equal.
      - apply list_filter_iff. intros k. rewrite Hplace.
        case_decide; naive_solver.
      - apply filter_none, Forall_forall. intros k _. rewrite Hplace.
        by case_decide.
      - apply list_filter_iff. intros k. rewrite Hplace.
        case_decide; naive_solver. }
    split; [done|]. intros Hall. rewrite Heq.
    destruct (simulate_stage1Ids _ _ _ _ _ Hsim) as [Hids _].
    rewrite knownPrefix_all in Hids by done. rewrite Hids. f_equal.
    + apply filter_none, Forall_forall. intros k Hk. by intros [].
    + apply filter_all, Forall_forall. by intros k Hk.
Qed.

Lemma queue_states_partition_witness :
  getQueueStatesAtTime exampleSchedule 135 exampleSequence =
    QueueStates.mk [] [] exampleSequence ∧
  getQueueStatesAtTime exampleSchedule 0 exampleSequence =
    QueueStates.mk exampleSequence [] [].
Proof.
  split.
  - destruct (queue_states_partition exampleSchedule 135 exampleSequence)
      as (_ & _ & Hrun).
    destruct (Hrun exampleJobs exampleJobs_durations) as [_ Hend];
      [vm_compute; lia|apply exampleSchedule_run|].
    destruct Hend as [_ Hall]; [by vm_compute|].
    apply Hall. apply (bool_decide_unpack _). by vm_compute.
  - destruct (queue_states_partition exampleSchedule 0 exampleSequence)
      as (_ & _ & Hrun).
    destruct (Hrun exampleJobs exampleJobs_durations) as [Hstart _];
      [vm_compute; lia|apply exampleSchedule_run|].
    by apply Hstart.
Defined.

(** X8. In the statistics of a schedule, final or at a time, the on-time
    and the late jobs add up to the completed jobs, and no more jobs are
    completed at a time than in the end. For the schedule of a run with no
    negative duration, the statistics at any time from the makespan on are
    the final statistics. *)
Theorem live_statistics_reach_final (schedule : Schedule.t)
    (currentTime totalJobs : Z) :
  let live := calculateLiveStatistics schedule currentTime totalJobs in
  let final := calculateStatistics schedule totalJobs in
  Statistics.onTimeJobs live + Z.of_nat (Statistics.lateJobs live) =
    Z.of_nat (Statistics.completedJobs live) ∧
  0 ≤ Statistics.onTimeJobs live ∧
  Statistics.onTimeJobs final + Z.of_nat (Statistics.lateJobs final) =
    Z.of_nat (Statistics.completedJobs final) ∧
  0 ≤ Statistics.onTimeJobs final ∧
  (Statistics.completedJobs live ≤ Statistics.completedJobs final)%nat ∧
  ∀ jobs jobSequence,
    nonnegDurations jobs →
    runSimulation jobs jobSequence = Returned schedule →
    Schedule.makespan schedule ≤ currentTime →
    live = final.
Proof.
  simpl.
  destruct (calculateLiveStatistics_counts schedule currentTime totalJobs)
    as (H1 & H2 & H3).
  destruct (calculateStatistics_counts schedule totalJobs) as (H4 & H5).
  split_and!; [done..|].
  intros jobs jobSequence Hdur Hrun Ht.
  destruct (schedule_of_run _ _ _ Hrun)
    as (state & q & warned & Hsim & Hr & Hq2 & Hq & ->).
  rewrite buildSchedule_makespan in Ht.
  apply calculateLiveStatistics_final; [|by eapply reachable_recordTimely|done].
  by eapply reachable_recordConsistent.
Qed.

Lemma live_statistics_reach_final_witness :
  calculateLiveStatistics exampleSchedule 135 3 =
  calculateStatistics exampleSchedule 3.
Proof.
  destruct (live_statistics_reach_final exampleSchedule 135 3)
    as (_ & _ & _ & _ & _ & Hfinal).
  apply (Hfinal exampleJobs exampleSequence);
    [apply exampleJobs_durations|apply exampleSchedule_run|by vm_compute].
Defined.

(** ** The wrapper of the simulator *)

(** X9. Every heuristic returns the ids of all jobs, each job once: 'EDD'
    in ascending order of due date, 'SPT' of total processing time,
    'FAMILY_GROUP' of family and, within a family, of due date; any other
    name keeps the order of the job list. Simulated on fewer than 5000
    jobs, the sequence of a heuristic gets every entry through both
    stages, stage 1 in the order of the sequence. *)
Theorem heuristics_order_all_jobs (jobs : list Job.t) (heuristic : string) :
  (∃ ordered,
     applyHeuristic jobs heuristic = Job.id <$> ordered ∧
     ordered ≡ₚ jobs ∧
     (heuristic = "EDD" →
      Sorted (λ a b, Job.dueDate a ≤ Job.dueDate b) ordered) ∧
     (heuristic = "SPT" →
      Sorted (λ a b, Job.t_smd a + Job.t_aoi a ≤ Job.t_smd b + Job.t_aoi b)
             ordered) ∧
     (heuristic = "FAMILY_GROUP" →
      Sorted (λ a b, Job.family a < Job.family b ∨
                     (Job.family a = Job.family b ∧
                      Job.dueDate a ≤ Job.dueDate b)) ordered) ∧
     (heuristic ≠ "EDD" → heuristic ≠ "SPT" → heuristic ≠ "FAMILY_GROUP" →
      ordered = jobs)) ∧
  ((2 * length jobs < maxIterations)%nat →
   ∃ schedule,
     runSimulation jobs (Some <$> applyHeuristic jobs heuristic) =
       Returned schedule ∧
     stage1Ids (Schedule.jobs schedule) =
       Some <$> applyHeuristic jobs heuristic ∧
     stage2Ids (Schedule.jobs schedule) ≡ₚ
       Some <$> applyHeuristic jobs heuristic ∧
     length (Schedule.jobs schedule) = (2 * length jobs)%nat).
Proof.
  destruct (applyHeuristic_ordered jobs heuristic)
    as (ordered & Heq & Hperm & Hrest).
  split; [by exists ordered|].
  intros Hlen.
  assert (length (Some <$> applyHeuristic jobs heuristic) = length jobs)
    as Hl by (by rewrite Heq, !length_fmap, Hperm).
  destruct (run_schedules_all jobs (Some <$> applyHeuristic jobs heuristic))
    as (schedule & Hrun & H1 & H2 & H3); [by rewrite Hl| |].
  - rewrite Heq. apply Forall_fmap, Forall_fmap, Forall_forall.
    intros job Hin. simpl. apply buildJobsMap_known. by rewrite <-Hperm.
  - exists schedule. by rewrite <-Hl.
Qed.

(** X10. [getUniqueFamilies] returns the families of the jobs in strictly
    ascending order, each once; they are the families for which
    [initializeState] creates a setup kit. *)
Theorem unique_families_are_the_kits (jobs : list Job.t) :
  StronglySorted Z.lt (getUniqueFamilies jobs) ∧
  (∀ f, f ∈ getUniqueFamilies jobs ↔
        ∃ job, job ∈ jobs ∧ Job.family job = f) ∧
  (∀ jobSequence f,
     is_Some (setupKits (initializeState jobs jobSequence) !! f) ↔
     f ∈ getUniqueFamilies jobs).
Proof.
  unfold getUniqueFamilies.
  destruct (distinct_spec (Job.family <$> jobs)) as [Hnodup Helem].
  assert (∀ f, f ∈ stableSort (λ a b, a - b) (distinct (Job.family <$> jobs)) ↔
               ∃ job, job ∈ jobs ∧ Job.family job = f) as Hfam.
  { intros f. rewrite stableSort_Permutation, Helem, list_elem_of_fmap.
    naive_solver. }
  split_and!; [|done|].
  - apply sorted_distinct_increasing.
    + apply stableSort_Sorted. intros a b. lia.
    + by rewrite stableSort_Permutation.
  - intros jobSequence f. simpl. by rewrite buildSetupKits_families, Hfam.
Qed.

(** X11. [validateJobs] finds a job list valid exactly when it is not
    empty and every job has an id other than 0, a due date that is not
    negative and positive processing times; then its error list is empty.
    Ids that occur twice and the families are not looked at. A valid job
    list has no negative duration. *)
Theorem validation_accepts (jobs : list Job.t) :
  (Validation.valid (validateJobs jobs) = true ↔
   jobs ≠ [] ∧
   Forall (λ job, Job.id job ≠ 0 ∧ 0 ≤ Job.dueDate job ∧
                  0 < Job.t_smd job ∧ 0 < Job.t_aoi job) jobs) ∧
  (Validation.valid (validateJobs jobs) = true ↔
   Validation.errors (validateJobs jobs) = []) ∧
  (Validation.valid (validateJobs jobs) = true → nonnegDurations jobs).
Proof.
  assert (Validation.valid (validateJobs jobs) = true ↔
          Validation.errors (validateJobs jobs) = []) as Hvalid.
  { unfold validateJobs. simpl. rewrite bool_decide_eq_true.
    apply length_zero_iff_nil. }
  split_and!; [by rewrite Hvalid, validateJobs_errors|done|].
  rewrite Hvalid, validateJobs_errors. intros [_ Hall].
  eapply Forall_impl; [exact Hall|]. simpl. lia.
Qed.

(** ** The genetic-algorithm worker: adaptive parameter control *)

(** X12. [hammingDistance] is a metric on chromosomes of any lengths: it
    lies between 0 and the length of the longer one, it is 0 exactly for
    equal chromosomes, it is symmetric, and it satisfies the triangle
    inequality. *)
Theorem hamming_distance_is_a_metric (seq1 seq2 seq3 : list JsNum) :
  0 ≤ hammingDistance seq1 seq2 ≤
    Z.of_nat (length seq1 `max` length seq2) ∧
  (hammingDistance seq1 seq2 = 0 ↔ seq1 = seq2) ∧
  hammingDistance seq1 seq2 = hammingDistance seq2 seq1 ∧
  hammingDistance seq1 seq3 ≤
    hammingDistance seq1 seq2 + hammingDistance seq2 seq3.
Proof.
  split_and!.
  - apply hammingDistance_bounds.
  - apply hammingDistance_bounds.
  - apply hammingDistance_zero.
  - apply hammingDistance_sym.
  - apply hammingDistance_triangle.
Qed.



(** X14. [adaptMutationRate] always returns a rate between 0.01 and 0.5,
    and it returns the product of the base rate and the three factors
    whenever that product lies in this range. For a base rate that is
    not negative, a stagnation of at least -2 and a progress ratio of at
    most 10/3, more diversity never raises the rate; for a diversity of
    at most 1.5, more stagnation never lowers it. *)
Theorem mutation_rate_is_clamped
    (baseMutationRate diversity stagnation progressRatio : Q) :
  let rate :=
    adaptMutationRate baseMutationRate diversity stagnation progressRatio in
  let adapted :=
    (baseMutationRate * ((15 # 10) - diversity) *
     (1 + (5 # 10) * stagnation) * (1 - (3 # 10) * progressRatio))%Q in
  ((1 # 100 <= rate)%Q ∧ (rate <= 5 # 10)%Q) ∧
  ((1 # 100 <= adapted)%Q ∧ (adapted <= 5 # 10)%Q → (rate == adapted)%Q) ∧
  (∀ diversity',
     (0 <= baseMutationRate)%Q ∧ (-2 <= stagnation)%Q ∧
     (progressRatio <= 10 # 3)%Q ∧ (diversity <= diversity')%Q →
     (adaptMutationRate baseMutationRate diversity' stagnation
        progressRatio <= rate)%Q) ∧
  (∀ stagnation',
     (0 <= baseMutationRate)%Q ∧ (diversity <= 15 # 10)%Q ∧
     (progressRatio <= 10 # 3)%Q ∧ (stagnation <= stagnation')%Q →
     (rate <= adaptMutationRate baseMutationRate diversity stagnation'
                progressRatio)%Q).
Proof.
  simpl. split_and!.
  - apply adaptMutationRate_range.
  - apply adaptMutationRate_range.
  - intros [??]. by apply adaptMutationRate_clamp.
  - intros diversity' (?&?&?&?). by apply adaptMutationRate_diversity.
  - intros stagnation' (?&?&?&?). by apply adaptMutationRate_stagnation.
Qed.

(** ** The genetic-algorithm worker: a whole run *)

(** X15. Elitism never loses the best individual. Let the job list be not
    empty, with distinct ids, none of them -1; let the population size be
    between 1 and 2^53, the tournament size at least 1 and the elitism
    rate in [0, 1]; let the initial sequence, if there is one, arrange the
    job ids; let [Math.random] yield numbers of [0, 1), the adaptive rate
    be computed without exception, and no cancellation be requested. Then
    [runGA] returns, and in its result the fitness history has one entry
    per generation and never rises from one generation to the next; the
    best individual has the fitness of the last entry; and when the first
    entry is positive the improvement is a number that is not negative. *)
Theorem best_fitness_never_worsens adaptedMutationRate jobs config
    initialSequence s :
  jobs ≠ [] → NoDup (jobIds jobs) → sentinel ∉ jobIds jobs →
  validConfig config → validInitialSequence (jobIds jobs) initialSequence →
  rateReturns adaptedMutationRate →
  fairRandom (random s) → cancelRequested s = false →
  ∃ result s',
    runGA adaptedMutationRate jobs config initialSequence s =
      Returned (result, s') ∧
    length (GAResult.fitnessHistory result) =
      Z.to_nat (GAConfig.generations config) ∧
    Sorted (λ earlier later, (later <= earlier)%Q)
           (GAResult.fitnessHistory result) ∧
    (∀ f, last (GAResult.fitnessHistory result) = Some f →
          (Individual.fitness (GAResult.bestIndividual result) == f)%Q) ∧
    (∀ initialFitness,
       head (GAResult.fitnessHistory result) = Some initialFitness →
       (0 < initialFitness)%Q →
       ∃ improvement,
         GAResult.improvement result = Some improvement ∧
         (0 <= improvement)%Q).
Proof.
  intros Hjobs Hnodup Hsentinel Hconfig Hinit Hrate Hfair Hcancel.
  destruct (runGA_returns adaptedMutationRate jobs config Hrate Hjobs Hnodup
              Hsentinel Hconfig initialSequence s Hfair Hcancel Hinit)
    as (result & s' & Hrun & _).
  destruct (runGA_ensures adaptedMutationRate jobs config Hconfig
              initialSequence s result s' Hrun)
    as (_ & (Hlen & Hsorted & Hlast & Himp) & _).
  exists result, s'. split_and!; [exact Hrun|exact Hlen|exact Hsorted
                                 |exact Hlast|exact Himp].
Qed.

Lemma best_fitness_never_worsens_witness :
  ∃ result s',
    runGA fixedRate exampleJobs GA_DEFAULTS None exampleWorker =
      Returned (result, s') ∧
    length (GAResult.fitnessHistory result) = 500%nat ∧
    Sorted (λ earlier later, (later <= earlier)%Q)
           (GAResult.fitnessHistory result).
Proof.
  destruct (best_fitness_never_worsens fixedRate exampleJobs GA_DEFAULTS
              None exampleWorker)
    as (result & s' & Hrun & Hlen & Hsorted & _).
  - discriminate.
  - apply exampleSequence_NoDup.
  - apply exampleSequence_sentinel.
  - unfold validConfig. by vm_compute.
  - exact I.
  - intros ????. by eexists.
  - apply exampleRandom_fair.
  - reflexivity.
  - exists result, s'. split_and!; [exact Hrun|exact Hlen|exact Hsorted].
Defined.

(** X16. The result of [runGA] is consistent. Let the job list be not
    empty, with distinct ids, none of them -1; let the population size be
    between 1 and 2^53, the tournament size at least 1 and the elitism
    rate in [0, 1]; let the initial sequence, if there is one, arrange the
    job ids; let [Math.random] yield numbers of [0, 1), the adaptive rate
    be computed without exception, and no cancellation be requested. Then
    [runGA] returns; the best sequence it returns is an arrangement of the
    job ids, and the makespan, the total tardiness and the fitness it
    returns with it are the ones [runSimulation] gives for exactly that
    sequence, with the tardiness weight of the configuration. *)
Theorem result_matches_its_simulation adaptedMutationRate jobs config
    initialSequence s :
  jobs ≠ [] → NoDup (jobIds jobs) → sentinel ∉ jobIds jobs →
  validConfig config → validInitialSequence (jobIds jobs) initialSequence →
  rateReturns adaptedMutationRate →
  fairRandom (random s) → cancelRequested s = false →
  ∃ result s' schedule,
    runGA adaptedMutationRate jobs config initialSequence s =
      Returned (result, s') ∧
    GAResult.bestSequence result ≡ₚ jobIds jobs ∧
    GAResult.bestSequence result =
      Individual.chromosome (GAResult.bestIndividual result) ∧
    runSimulation jobs (GAResult.bestSequence result) = Returned schedule ∧
    GAResult.makespan result = Schedule.makespan schedule ∧
    GAResult.totalTardiness result = Schedule.totalTardiness schedule ∧
    Individual.makespan (GAResult.bestIndividual result) =
      Schedule.makespan schedule ∧
    Individual.totalTardiness (GAResult.bestIndividual result) =
      Schedule.totalTardiness schedule ∧
    Individual.fitness (GAResult.bestIndividual result) =
      ((1 - GAConfig.tardinessWeight config) *
         inject_Z (Schedule.makespan schedule) +
       GAConfig.tardinessWeight config *
         inject_Z (Schedule.totalTardiness schedule))%Q.
Proof.
  intros Hjobs Hnodup Hsentinel Hconfig Hinit Hrate Hfair Hcancel.
  destruct (runGA_returns adaptedMutationRate jobs config Hrate Hjobs Hnodup
              Hsentinel Hconfig initialSequence s Hfair Hcancel Hinit)
    as (result & s' & Hrun & _ & _ & Hperm).
  destruct (runGA_ensures adaptedMutationRate jobs config Hconfig
              initialSequence s result s' Hrun)
    as ((Hev & Hseq & Hmakespan & Htardiness) & _).
  destruct Hev as (best & schedule & [= <-] & Hsim & Hm & Ht & Hf).
  exists result, s', schedule. rewrite Hseq, Hmakespan, Htardiness.
  split_and!; [exact Hrun|by rewrite <-Hseq|reflexivity|exact Hsim
              |exact Hm|exact Ht|exact Hm|exact Ht|exact Hf].
Qed.

Lemma result_matches_its_simulation_witness :
  ∃ result s' schedule,
    runGA fixedRate exampleJobs GA_DEFAULTS (Some exampleSequence)
          exampleWorker = Returned (result, s') ∧
    GAResult.bestSequence result ≡ₚ exampleSequence ∧
    runSimulation exampleJobs (GAResult.bestSequence result) =
      Returned schedule ∧
    GAResult.makespan result = Schedule.makespan schedule ∧
    GAResult.totalTardiness result = Schedule.totalTardiness schedule.
Proof.
  destruct (result_matches_its_simulation fixedRate exampleJobs GA_DEFAULTS
              (Some exampleSequence) exampleWorker)
    as (result & s' & schedule & Hrun & Hperm & _ & Hsim & Hm & Ht & _).
  - discriminate.
  - apply exampleSequence_NoDup.
  - apply exampleSequence_sentinel.
  - unfold validConfig. by vm_compute.
  - exact (Permutation_refl exampleSequence).
  - intros ????. by eexists.
  - apply exampleRandom_fair.
  - reflexivity.
  - exists result, s', schedule.
    split_and!; [exact Hrun|exact Hperm|exact Hsim|exact Hm|exact Ht].
Defined.

(** X17. What a run costs and reports. Let the job list be not empty,
    with distinct ids, none of them -1; let the population size be
    between 1 and 2^53, the tournament size at least 1 and the elitism
    rate in [0, 1]; let the initial sequence, if there is one, arrange the
    job ids; let [Math.random] yield numbers of [0, 1), the adaptive rate
    be computed without exception, and no cancellation be requested. Then
    [runGA] returns after populationSize + generations * (populationSize -
    eliteCount) calls of [runSimulation], where eliteCount is max(1,
    floor(populationSize * elitismRate)) with the binary64 product of the
    code ([eliteCount]), and a negative number of generations counts as 0.
    It calls [onProgress] once per generation, with the generation numbers
    0, 1, 2, ... in this order and with the best fitness that the fitness
    history of the result has for that generation; [generationsRun] is the
    configured number. *)
Theorem simulations_and_reports_per_run adaptedMutationRate jobs config
    initialSequence s :
  jobs ≠ [] → NoDup (jobIds jobs) → sentinel ∉ jobIds jobs →
  validConfig config → validInitialSequence (jobIds jobs) initialSequence →
  rateReturns adaptedMutationRate →
  fairRandom (random s) → cancelRequested s = false →
  ∃ result s' progress,
    runGA adaptedMutationRate jobs config initialSequence s =
      Returned (result, s') ∧
    Z.of_nat (simulations s') =
      Z.of_nat (simulations s) + GAConfig.populationSize config +
      Z.max 0 (GAConfig.generations config) *
        (GAConfig.populationSize config - eliteCount config) ∧
    reports s' = reports s ++ progress ∧
    Progress.generation <$> progress =
      Z.of_nat <$> seq 0 (Z.to_nat (GAConfig.generations config)) ∧
    Forall2 (λ report fitness, (Progress.bestFitness report == fitness)%Q)
            progress (GAResult.fitnessHistory result) ∧
    GAResult.generationsRun result = GAConfig.generations config.
Proof.
  intros Hjobs Hnodup Hsentinel Hconfig Hinit Hrate Hfair Hcancel.
  destruct (runGA_returns adaptedMutationRate jobs config Hrate Hjobs Hnodup
              Hsentinel Hconfig initialSequence s Hfair Hcancel Hinit)
    as (result & s' & Hrun & _).
  destruct (runGA_ensures adaptedMutationRate jobs config Hconfig
              initialSequence s result s' Hrun)
    as (_ & _ & Hsim & progress & Hrep & Hgen & Hall).
  exists result, s', progress.
  split_and!; [exact Hrun| |exact Hrep|exact Hgen|exact Hall|].
  - pose proof (eliteCount_ge config) as Hge.
    pose proof (eliteCount_le config Hconfig) as Hle.
    rewrite Hsim. unfold offspringCount.
    rewrite !Nat2Z.inj_add, Nat2Z.inj_mul, Nat2Z.inj_sub by lia.
    rewrite !Z2Nat.id by lia.
    replace (Z.max 0 (GAConfig.generations config))
      with (Z.of_nat (Z.to_nat (GAConfig.generations config))) by lia.
    lia.
  - unfold runGA in Hrun.
    do 3 apply bind_Returned in Hrun as (? & ? & _ & Hrun).
    by injection Hrun as <- _.
Qed.

Lemma simulations_and_reports_per_run_witness :
  ∃ result s' progress,
    runGA fixedRate exampleJobs GA_DEFAULTS None exampleWorker =
      Returned (result, s') ∧
    Z.of_nat (simulations s') = 0 + 100 + 500 * (100 - 10) ∧
    reports s' = [] ++ progress ∧
    Progress.generation <$> progress = Z.of_nat <$> seq 0 500.
Proof.
  destruct (simulations_and_reports_per_run fixedRate exampleJobs
              GA_DEFAULTS None exampleWorker)
    as (result & s' & progress & Hrun & Hsim & Hrep & Hgen & _).
  - discriminate.
  - apply exampleSequence_NoDup.
  - apply exampleSequence_sentinel.
  - unfold validConfig. by vm_compute.
  - exact I.
  - intros ????. by eexists.
  - apply exampleRandom_fair.
  - reflexivity.
  - exists result, s', progress.
    split_and!; [exact Hrun|exact Hsim|exact Hrep|exact Hgen].
Defined.

(** X18. [runGA] looks at the cancellation flag only at the start of a
    generation, after the initial population. Let the flag be set when
    [runGA] is called; the job list, the configuration, the initial
    sequence and the random numbers are arbitrary. With a population size
    below 1 and no initial sequence the initial population is empty and
    [runGA] throws a TypeError, not the cancellation error. Otherwise
    [runGA] first creates the initial population, of [populationSize]
    individuals (one, if that is less and there is an initial sequence),
    with one simulation for each and no progress reported. Then, if at
    least one generation is configured, generation 0 throws the
    cancellation error, and so does [runGA]; with no generation
    configured [runGA] returns all the same, after these simulations, with
    an empty fitness history and an improvement that is not a number. *)
Theorem cancellation_is_checked_per_generation adaptedMutationRate jobs
    config initialSequence s :
  cancelRequested s = true →
  (GAConfig.populationSize config < 1 → initialSequence = None →
   runGA adaptedMutationRate jobs config initialSequence s =
     Thrown TypeError) ∧
  (1 ≤ GAConfig.populationSize config ∨ initialSequence ≠ None →
   ∃ e s1,
     startEvolution jobs config initialSequence s = Returned (e, s1) ∧
     Forall (evaluated jobs (GAConfig.tardinessWeight config))
            (population e) ∧
     length (population e) =
       (Z.to_nat (GAConfig.populationSize config) `max`
        match initialSequence with Some _ => 1 | None => 0 end)%nat ∧
     simulations s1 = (simulations s + length (population e))%nat ∧
     reports s1 = reports s ∧
     (1 ≤ GAConfig.generations config →
      generationStep adaptedMutationRate jobs config 0 e s1 =
        Thrown CancelError ∧
      runGA adaptedMutationRate jobs config initialSequence s =
        Thrown CancelError) ∧
     (GAConfig.generations config ≤ 0 →
      ∃ result,
        runGA adaptedMutationRate jobs config initialSequence s =
          Returned (result, s1) ∧
        GAResult.fitnessHistory result = [] ∧
        GAResult.improvement result = None)).
Proof.
  intros Hcancel. split.
  - intros Hsize ->. unfold runGA, mbind, GA_bind.
    by rewrite startEvolution_empty.
  - intros Hsome.
    destruct (startEvolution_run jobs config initialSequence s Hsome)
      as (e & s1 & best & Hstart & Hev & Hlen & Hbest & _ & Hnil & Hsim &
          Hrep & Hflag).
    rewrite Hcancel in Hflag.
    assert (generationStep adaptedMutationRate jobs config 0 e s1 =
            Thrown CancelError) as Hstep.
    { unfold generationStep, mbind, GA_bind, isCancelRequested.
      by rewrite Hflag. }
    exists e, s1. split_and!; [exact Hstart|exact Hev| |exact Hsim|exact Hrep
                              | |].
    + rewrite Hlen. by destruct initialSequence.
    + intros Hgen. split; [exact Hstep|].
      unfold runGA, mbind, GA_bind. rewrite Hstart.
      destruct (Z.to_nat (GAConfig.generations config)) as [|n] eqn:Hn;
        [lia|].
      simpl. unfold mbind, GA_bind. by rewrite Hstep.
    + intros Hgen. unfold runGA, mbind, GA_bind. rewrite Hstart.
      replace (Z.to_nat (GAConfig.generations config)) with 0%nat by lia.
      simpl. rewrite Hbest, Hnil. simpl. by eexists.
Qed.

Lemma cancellation_is_checked_per_generation_witness :
  runGA fixedRate [] smallConfig (Some [])
        (mkGAState exampleRandom 0 0 true []) = Thrown CancelError ∧
  runGA fixedRate exampleJobs GA_DEFAULTS None
        (mkGAState exampleRandom 0 0 true []) = Thrown CancelError ∧
  ∃ e s1,
    startEvolution exampleJobs GA_DEFAULTS None
                   (mkGAState exampleRandom 0 0 true []) =
      Returned (e, s1) ∧
    simulations s1 = (0 + length (population e))%nat ∧
    length (population e) = 100%nat.
Proof.
  split.
  { destruct (cancellation_is_checked_per_generation fixedRate []
                smallConfig (Some []) (mkGAState exampleRandom 0 0 true []))
      as [_ Hrun]; [reflexivity|].
    destruct Hrun as (e & s1 & _ & _ & _ & _ & _ & Hthrow & _);
      [by right|].
    apply Hthrow. by vm_compute. }
  destruct (cancellation_is_checked_per_generation fixedRate exampleJobs
              GA_DEFAULTS None (mkGAState exampleRandom 0 0 true []))
    as [_ Hrun]; [reflexivity|].
  destruct Hrun as (e & s1 & Hstart & _ & Hlen & Hsim & _ & Hthrow & _).
  { left. by vm_compute. }
  split; [apply Hthrow; by vm_compute|].
  exists e, s1. split_and!; [exact Hstart|exact Hsim|exact Hlen].
Defined.

(** The flag is read after the initial population: with nothing to build
    the population from, the TypeError of [reduce] comes first. *)
Lemma cancellation_comes_after_the_population :
  runGA fixedRate exampleJobs
        (GAConfig.mk 0 2 2 (8 # 10) (2 # 10) insert (1 # 2) (1 # 2) false 10)
        None (mkGAState exampleRandom 0 0 true []) = Thrown TypeError.
Proof. by vm_compute. Qed.

(** ** The genetic-algorithm worker: the operators *)

(** X19. [orderCrossover] on two arrangements of the same distinct genes,
    none of them -1, draws two random numbers: [start] is the first one
    scaled to the length, [end] the second one scaled to what is left
    behind [start]. The child has the genes of [parent1] at the positions
    from [start] to [end]; the other positions, read in a circle from
    [end + 1] on, hold the remaining genes in the order in which
    [parent2] has them, read in a circle from [end + 1] on. *)
Theorem order_crossover_child parent1 parent2 s :
  parent1 ≠ [] → NoDup parent1 → sentinel ∉ parent1 →
  parent1 ≡ₚ parent2 → fairRandom (random s) →
  let size := length parent1 in
  let start := floorTimes (random s (drawn s)) size in
  let end_ :=
    (floorTimes (random s (S (drawn s))) (size - start) + start)%nat in
  ∃ child s',
    orderCrossover parent1 parent2 s = Returned (child, s') ∧
    drawn s' = S (S (drawn s)) ∧
    (start ≤ end_ < size)%nat ∧
    length child = size ∧
    (∀ i, (start ≤ i ≤ end_)%nat → child !! i = parent1 !! i) ∧
    rotate (end_ + 1) child =
      filter (λ gene, gene ∉ segment start end_ parent1)
             (rotate (end_ + 1) parent2) ++
      segment start end_ parent1.
Proof.
  intros Hne Hnodup Hsentinel Hperm Hfair size start end_.
  assert (0 < size)%nat as Hsize
    by (unfold size; destruct parent1; [done|simpl; lia]).
  assert (start < size)%nat as Hstart
    by (apply floorTimes_lt; [apply Hfair..|done]).
  assert (floorTimes (random s (S (drawn s))) (size - start) <
          size - start)%nat as Hoffset
    by (apply floorTimes_lt; [apply Hfair..|lia]).
  assert (start ≤ end_ < size)%nat as Hend by (unfold end_; lia).
  destruct (orderCrossoverAt_structure parent1 parent2 start end_)
    as (child & Hat & Hlen & Hrot); [done|done|done|lia|lia|].
  eexists child, _. split_and!.
  - rewrite orderCrossover_run. simpl. fold size start end_.
    rewrite Hat. reflexivity.
  - done.
  - lia.
  - lia.
  - done.
  - intros i Hi. eapply segment_in_place; [| | |exact Hrot|done]; [lia..|done].
  - done.
Qed.

Lemma order_crossover_child_witness :
  ∃ child s',
    orderCrossover [Some 1; Some 2; Some 3] [Some 2; Some 1; Some 3]
                   exampleWorker = Returned (child, s') ∧
    drawn s' = 2%nat ∧
    length child = 3%nat ∧
    child !! 0%nat = Some (Some 1).
Proof.
  destruct (order_crossover_child [Some 1; Some 2; Some 3]
              [Some 2; Some 1; Some 3] exampleWorker)
    as (child & s' & Hrun & Hdrawn & _ & Hlen & Hseg & _).
  - discriminate.
  - apply exampleSequence_NoDup.
  - apply exampleSequence_sentinel.
  - apply Permutation_swap.
  - apply exampleRandom_fair.
  - exists child, s'. split_and!; [exact Hrun|exact Hdrawn|exact Hlen|].
    apply (Hseg 0%nat). by vm_compute.
Defined.

(** ** The simulation engine: machine load *)

(** X20. When no job has a negative duration, no machine is busy, with
    setups and processing together, for longer than the makespan; so the
    utilization of stage 1 and of stage 2 in the schedule are numbers
    between 0 and 1. *)
Theorem utilization_is_a_fraction (jobs : list Job.t)
    (jobSequence : list JsNum) :
  nonnegDurations jobs →
  ∃ schedule,
    runSimulation jobs jobSequence = Returned schedule ∧
    (∀ machineId,
       sumZ (busyTime <$>
             filter (λ sj, ScheduledJob.machineId sj = machineId)
                    (Schedule.jobs schedule)) ≤
       Schedule.makespan schedule) ∧
    (0 <= Schedule.utilization_stage1 schedule)%Q ∧
    (Schedule.utilization_stage1 schedule <= 1)%Q ∧
    (0 <= Schedule.utilization_stage2 schedule)%Q ∧
    (Schedule.utilization_stage2 schedule <= 1)%Q.
Proof.
  intros Hdur.
  destruct (simulate_final jobs jobSequence)
    as (state & q & warned & Hsim & Hr & _ & _ & Hrun).
  exists (buildSchedule (completedJobs state)).
  pose proof (ex_serial _ (reachable_exclusive _ _ _ _ Hdur Hr)) as Hser.
  pose proof (reachable_recordConsistent _ _ _ _ Hr) as Hrec.
  pose proof (reachable_recordTimely _ _ _ _ Hdur Hr) as Htimes.
  set (done := completedJobs state) in *.
  destruct (stage_machines done Hrec) as [Hm1 Hm2].
  pose proof (stage_load Stage1 [1; 2; 3; 4] done) as Hload1.
  pose proof (stage_load Stage2 [5; 6; 7; 8; 9] done) as Hload2.
  destruct Hload1 as [Hlo1 Hhi1];
    [by apply (bool_decide_unpack _)|done..|].
  destruct Hload2 as [Hlo2 Hhi2];
    [by apply (bool_decide_unpack _)|done..|].
  destruct (buildSchedule_utilization done) as [-> ->].
  rewrite buildSchedule_jobs, buildSchedule_makespan.
  pose proof (maxWithZero_nonneg (ScheduledJob.endTime <$> done)) as HM.
  split; [exact Hrun|]. split.
  { intros machineId.
    apply Z.le_trans
      with (maxWithZero (ScheduledJob.endTime <$> done) - 0); [|lia].
    apply chain_load; [done| |].
    - by apply (serialized_chain _ machineId).
    - rewrite Forall_forall in Hrec, Htimes. apply Forall_forall.
      intros sj [_ Hin]%list_elem_of_filter.
      destruct (Hrec sj Hin) as ((t & Ht & Hstart) & Hend & _).
      destruct (Htimes sj Hin) as (_ & t' & Ht' & Hge).
      assert (t' = t) as -> by congruence.
      split_and!; [lia| |done].
      apply maxWithZero_upper. by apply list_elem_of_fmap_2. }
  case_decide as Hpos; [|done].
  destruct (utilization_bounds _ _ STAGE1_MACHINES (conj Hlo1 Hhi1) Hpos)
    as [H1 H2]; [unfold STAGE1_MACHINES; lia|].
  destruct (utilization_bounds _ _ STAGE2_MACHINES (conj Hlo2 Hhi2) Hpos)
    as [H3 H4]; [unfold STAGE2_MACHINES; lia|].
  done.
Qed.

Lemma utilization_is_a_fraction_witness :
  ∃ schedule,
    runSimulation exampleJobs exampleSequence = Returned schedule ∧
    (0 <= Schedule.utilization_stage1 schedule)%Q ∧
    (Schedule.utilization_stage1 schedule <= 1)%Q.
Proof.
  destruct (utilization_is_a_fraction exampleJobs exampleSequence)
    as (schedule & Hrun & _ & H0 & H1 & _); [apply exampleJobs_durations|].
  exists schedule. split_and!; [exact Hrun|exact H0|exact H1].
Defined.

(** X21. The two mutations of a chromosome that is not empty draw two
    random numbers, scaled to the length: the positions [i] and [j].
    [swapMutation] exchanges the genes at [i] and [j] and leaves every
    other position as it is. [insertMutation] takes the gene at [i] out
    and puts it in at [j]: the result has that gene at [j], and without it
    the other genes are in their old order. Both keep the length. *)
Theorem mutations_move_genes (chromosome : list JsNum) s :
  chromosome ≠ [] → fairRandom (random s) →
  let n := length chromosome in
  let i := floorTimes (random s (drawn s)) n in
  let j := floorTimes (random s (S (drawn s))) n in
  (∃ mutated s',
     swapMutation chromosome s = Returned (mutated, s') ∧
     drawn s' = S (S (drawn s)) ∧
     length mutated = n ∧
     mutated !! i = chromosome !! j ∧
     mutated !! j = chromosome !! i ∧
     ∀ k, k ≠ i → k ≠ j → mutated !! k = chromosome !! k) ∧
  (∃ mutated s',
     insertMutation chromosome s = Returned (mutated, s') ∧
     drawn s' = S (S (drawn s)) ∧
     length mutated = n ∧
     mutated !! j = chromosome !! i ∧
     delete j mutated = delete i chromosome).
Proof.
  intros Hne Hfair n i j.
  assert (0 < n)%nat as Hn
    by (unfold n; destruct chromosome; [done|simpl; lia]).
  assert (i < n)%nat as Hi by (apply floorTimes_lt; [apply Hfair..|done]).
  assert (j < n)%nat as Hj by (apply floorTimes_lt; [apply Hfair..|done]).
  destruct (mutation_run chromosome s) as [Hswap Hinsert].
  destruct (swapEntries_lookup i j chromosome Hi Hj) as (H1 & H2 & H3).
  destruct (moveEntry_lookup i j chromosome Hi Hj) as (H4 & H5 & H6).
  split.
  - eexists _, _. split; [exact Hswap|].
    split_and!; [done|by apply swapEntries_length|done..].
  - eexists _, _. split; [exact Hinsert|]. by split_and!.
Qed.

Lemma mutations_move_genes_witness :
  ∃ mutated s',
    insertMutation [Some 1; Some 2; Some 3]
                   (mkGAState exampleRandom 2 0 false []) =
      Returned (mutated, s') ∧
    length mutated = 3%nat ∧
    mutated !! 2%nat = Some (Some 2) ∧
    delete 2%nat mutated = [Some 1; Some 3].
Proof.
  destruct (mutations_move_genes [Some 1; Some 2; Some 3]
              (mkGAState exampleRandom 2 0 false []))
    as (_ & mutated & s' & Hrun & _ & Hlen & Hj & Hdelete).
  - discriminate.
  - apply exampleRandom_fair.
  - exists mutated, s'.
    split_and!; [exact Hrun|exact Hlen|exact Hj|exact Hdelete].
Defined.

(** X22. [tournamentSelection] with a tournament size below 1 throws a
    type error (the reduction of an empty array). With a size of at least
    1 and a population that is not empty it draws one random number per
    place of the tournament, takes for each the individual at that number
    scaled to the length of the population, and returns the one with the
    smallest fitness among them. *)
Theorem tournament_picks_fittest_candidate
    (population : list (option Individual.t)) (tournamentSize : Z) s :
  (tournamentSize < 1 →
   tournamentSelection population tournamentSize s = Thrown TypeError) ∧
  (1 ≤ tournamentSize → population ≠ [] → Forall is_Some population →
   fairRandom (random s) →
   ∃ winner s',
     tournamentSelection population tournamentSize s =
       Returned (Some winner, s') ∧
     drawn s' = (drawn s + Z.to_nat tournamentSize)%nat ∧
     Some winner ∈ population ∧
     (∃ k, (k < Z.to_nat tournamentSize)%nat ∧
           candidate population s k = Some winner) ∧
     (∀ k individual,
        (k < Z.to_nat tournamentSize)%nat →
        candidate population s k = Some individual →
        (Individual.fitness winner <= Individual.fitness individual)%Q)).
Proof.
  split.
  - intros Hsize. rewrite tournamentSelection_run.
    by replace (Z.to_nat tournamentSize) with 0%nat by lia.
  - intros Hsize Hne Hall Hfair.
    rewrite tournamentSelection_run.
    destruct (Z.to_nat tournamentSize) as [|n] eqn:Hn; [lia|].
    change (seq 0 (S n)) with (0%nat :: seq 1 n). rewrite fmap_cons.
    set (first := candidate population s 0).
    set (others := candidate population s <$> seq 1 n).
    assert (∀ x, x ∈ first :: others →
              ∃ k, (k < S n)%nat ∧ x = candidate population s k) as Hdrawn.
    { intros x [->|Hx]%elem_of_cons; [exists 0%nat; split; [lia|done]|].
      apply list_elem_of_fmap in Hx as (k & -> & Hk).
      apply elem_of_seq in Hk. exists k. split; [lia|done]. }
    assert (Forall is_Some (first :: others)) as Hsome.
    { apply Forall_forall. intros x Hx.
      destruct (Hdrawn x Hx) as (k & _ & ->).
      destruct (candidate_member population s k) as (individual & -> & _);
        done. }
    simpl reduceFitter.
    match goal with |- context [forEach fitter first others ?st] =>
      destruct (forEach_fitter_total others first st Hsome) as [r Hrun];
      destruct (forEach_fitter _ _ _ _ _ Hrun) as (_ & Hin & Hmin)
    end.
    destruct (Hdrawn r Hin) as (k & Hk & ->).
    destruct (candidate_member population s k) as (winner & Hw & Hpop);
      [done..|].
    rewrite Hw in Hrun, Hmin. exists winner. eexists.
    split; [exact Hrun|]. split_and!; [done|done|by exists k|].
    intros k' individual Hk' Hc. apply (Hmin winner eq_refl).
    rewrite <-Hc. destruct k' as [|k']; [apply list_elem_of_here|].
    apply list_elem_of_further, list_elem_of_fmap.
    exists (S k'). split; [done|]. apply elem_of_seq. lia.
Qed.

Lemma tournament_picks_fittest_candidate_witness :
  tournamentSelection [] 0 exampleWorker = Thrown TypeError ∧
  ∃ winner s',
    tournamentSelection
      [Some (Individual.mk [Some 1; Some 2] 3 3 0);
       Some (Individual.mk [Some 2; Some 1] 1 1 0)] 2 exampleWorker =
      Returned (Some winner, s') ∧
    drawn s' = 2%nat.
Proof.
  split.
  - apply (tournament_picks_fittest_candidate [] 0 exampleWorker). lia.
  - destruct (tournament_picks_fittest_candidate
                [Some (Individual.mk [Some 1; Some 2] 3 3 0);
                 Some (Individual.mk [Some 2; Some 1] 1 1 0)] 2
                exampleWorker) as (_ & Hmain).
    destruct Hmain as (winner & s' & Hrun & Hdrawn & _).
    + lia.
    + discriminate.
    + repeat constructor; by eexists.
    + apply exampleRandom_fair.
    + exists winner, s'. split; [exact Hrun|exact Hdrawn].
Defined.

(** X23. A gene -1 makes [orderCrossover] run without end. For two
    arrangements of the same distinct genes, one of which is -1, and for
    every segment, the loop [while (child.includes(-1))] still finds a -1
    in the child after any number of passes; so [orderCrossover] does not
    return, whatever the random numbers are. *)
Theorem sentinel_gene_never_finishes (parent1 parent2 : list JsNum) :
  NoDup parent1 → parent1 ≡ₚ parent2 → sentinel ∈ parent1 →
  (∀ start end_ steps,
     (start ≤ end_ < length parent1)%nat →
     fillFromParent2 steps (length parent1) parent2
       (childAfterCopy start end_ parent1)
       ((end_ + 1) mod length parent1)%nat
       ((end_ + 1) mod length parent1)%nat = Thrown Unfinished) ∧
  (∀ s, fairRandom (random s) →
        orderCrossover parent1 parent2 s = Thrown Unfinished).
Proof.
  intros Hnodup Hperm Hgene.
  assert (∀ start end_ steps,
            (start ≤ end_ < length parent1)%nat →
            fillFromParent2 steps (length parent1) parent2
              (childAfterCopy start end_ parent1)
              ((end_ + 1) mod length parent1)%nat
              ((end_ + 1) mod length parent1)%nat = Thrown Unfinished)
    as Hloop.
  { intros start end_ steps [Hstart Hend].
    by apply childAfterCopy_unfinished. }
  split; [exact Hloop|].
  intros s Hfair. rewrite orderCrossover_run. simpl.
  set (size := length parent1).
  set (start := floorTimes (random s (drawn s)) size).
  set (end_ := (floorTimes (random s (S (drawn s))) (size - start) +
                start)%nat).
  assert (0 < size)%nat as Hsize
    by (unfold size; destruct parent1; [by apply not_elem_of_nil in Hgene
                                       |simpl; lia]).
  assert (start < size)%nat as Hstart
    by (apply floorTimes_lt; [apply Hfair..|done]).
  assert (floorTimes (random s (S (drawn s))) (size - start) <
          size - start)%nat as Hoffset
    by (apply floorTimes_lt; [apply Hfair..|lia]).
  unfold orderCrossoverAt. fold size.
  change (foldl _ _ _) with (childAfterCopy start end_ parent1).
  rewrite Hloop; [done|]. fold size. unfold end_. lia.
Qed.

Lemma sentinel_gene_never_finishes_witness :
  orderCrossover [Some (-1); Some 2; Some 3] [Some 2; Some (-1); Some 3]
                 exampleWorker = Thrown Unfinished.
Proof.
  destruct (sentinel_gene_never_finishes
              [Some (-1); Some 2; Some 3] [Some 2; Some (-1); Some 3])
    as [_ Hrun].
  - by apply (bool_decide_unpack _).
  - apply Permutation_swap.
  - apply list_elem_of_here.
  - apply Hrun, exampleRandom_fair.
Defined.

(** X24. [createInitialPopulation] returns for every job list, population
    size, weight and initial sequence and for every stream of random
    numbers. The population has [populationSize] individuals, but at
    least the one of the initial sequence when there is one. Every
    individual carries the makespan, the total tardiness and the fitness
    that [runSimulation] gives for its own chromosome; one simulation is
    run per individual and no progress is reported. With random numbers
    in [0, 1), a population size of at least 1 and an initial sequence
    that arranges the job ids, every chromosome arranges the job ids. *)
Theorem initial_population (jobs : list Job.t) (populationSize : Z)
    (weight : Q) (initialSequence : option (list JsNum)) s :
  ∃ population s',
    createInitialPopulation jobs populationSize weight initialSequence s =
      Returned (population, s') ∧
    length population =
      (Z.to_nat populationSize `max`
       match initialSequence with Some _ => 1 | None => 0 end)%nat ∧
    Forall (evaluated jobs weight) population ∧
    simulations s' = (simulations s + length population)%nat ∧
    reports s' = reports s ∧
    (fairRandom (random s) → 1 ≤ populationSize →
     validInitialSequence (jobIds jobs) initialSequence →
     validPopulation (jobIds jobs) population).
Proof.
  destruct (total_createInitialPopulation jobs populationSize weight
              initialSequence s) as (population & s' & Hrun).
  destruct (createInitialPopulation_ensures jobs populationSize weight
              initialSequence s population s' Hrun)
    as (Hev & Hlen & Hsim & Hrep).
  exists population, s'. split_and!; [exact Hrun| |exact Hev|exact Hsim
                                     |exact Hrep|].
  - rewrite Hlen. by destruct initialSequence.
  - intros Hfair Hsize Hinit.
    destruct (createInitialPopulation_returns jobs populationSize weight
                initialSequence s Hfair Hsize Hinit)
      as (population' & s'' & Hrun' & _ & _ & Hvalid & _).
    rewrite Hrun in Hrun'. by injection Hrun' as <- _.
Qed.
